(** * n-jigsaw: the board model of [solve.py] and its generation pipeline

    A shallow embedding of the [Board] class of [src/solve.py]: grid
    construction, the adjacency connector, the shuffle engine, the merge
    builder, group collapse, the uniqueness check, the printing functions
    and the generation loop.

    Conventions of the embedding.
    - Python [int] is [Z]; list subscripts and slices follow Python
      (a negative subscript counts from the end, a subscript out of range
      raises, a slice is clamped).
    - A raised exception ([IndexError], [KeyError], [AssertionError],
      [AttributeError]) is [None] in the option monad.
    - [Edge] objects are compared by identity in the source
      ([dataclass(eq=False)]) and all of them live in [Board.edges], which is
      only ever appended to by the constructor.  An edge reference is
      therefore the position of the object in that list.
    - [Piece] objects are held by value: the constructor puts a fresh object
      in every cell of [Board.pieces] and the code only exchanges cells.
    - [random.shuffle], [random.choice] and the iteration order of a Python
      [set] are inputs of the model.
    - A Python [str] is a [string]; the strings the code builds hold
      digits, signs, letters, spaces and line feeds only. *)

From Stdlib Require Import ZArith Lia Bool List Permutation Ascii DecimalString.
From stdpp Require Import base option list gmap strings.

Local Open Scope Z_scope.

(** ** Python lists *)

Module Py.

(** The cell a subscript [k] denotes in a list of [len] cells. *)
Definition index_of (len : nat) (k : Z) : option nat :=
  if (0 <=? k) && (k <? Z.of_nat len) then Some (Z.to_nat k)
  else if (k <? 0) && (- Z.of_nat len <=? k) then Some (Z.to_nat (Z.of_nat len + k))
  else None.

(** [l[k]] *)
Definition get {A} (l : list A) (k : Z) : option A :=
  i ← index_of (length l) k; l !! i.

(** The bound of a slice, clamped as [slice.indices] does it. *)
Definition clamp (len : nat) (k : Z) : Z :=
  if k <? 0 then Z.max 0 (Z.of_nat len + k) else Z.min k (Z.of_nat len).

(** [l[lo:hi]] *)
Definition slice {A} (l : list A) (lo hi : Z) : list A :=
  let a := clamp (length l) lo in
  let b := clamp (length l) hi in
  take (Z.to_nat (b - a)) (drop (Z.to_nat a) l).

(** [range(lo, hi)] and [range(n)] *)
Definition range2 (lo hi : Z) : list Z :=
  map (fun k => lo + Z.of_nat k) (seq 0 (Z.to_nat (hi - lo))).
Definition range (n : Z) : list Z := range2 0 n.

(** A [set] of references or small integers, kept as the list of its
    elements without repetition. *)
Definition set_add (x : nat) (s : list nat) : list nat :=
  if decide (x ∈ s) then s else s ++ [x].
Definition set_union (s t : list nat) : list nat :=
  foldl (fun acc x => set_add x acc) s t.
Definition set_inter (s t : list nat) : list nat :=
  filter (fun x => x ∈ t) s.

(** An insertion-ordered [dict], for the dictionaries the source iterates. *)
Section Dict.
Context {V : Type}.
Fixpoint dict_get (k : nat) (d : list (nat * V)) : option V :=
  match d with
  | [] => None
  | (k', v) :: r => if decide (k = k') then Some v else dict_get k r
  end.
Fixpoint dict_set (k : nat) (v : V) (d : list (nat * V)) : list (nat * V) :=
  match d with
  | [] => [(k, v)]
  | (k', v') :: r =>
      if decide (k = k') then (k', v) :: r else (k', v') :: dict_set k v r
  end.
End Dict.

(** [d[k].add(x)] on a [defaultdict(set)] *)
Definition dict_add (k x : nat) (d : list (nat * list nat)) : list (nat * list nat) :=
  dict_set k (set_add x (default [] (dict_get k d))) d.

End Py.

(** ** Loops *)

(** [for x in xs: body], where the body may raise ([None]) or leave the
    enclosing function with [return False] ([Some (false, _)]). *)
Fixpoint for_in {A S : Type} (xs : list A) (body : A -> S -> option (bool * S)) (s : S)
  : option (bool * S) :=
  match xs with
  | [] => Some (true, s)
  | x :: r =>
      match body x s with
      | Some (true, s') => for_in r body s'
      | other => other
      end
  end.

(** [for x in xs: body], where the body may only raise. *)
Fixpoint for_each {A S : Type} (xs : list A) (body : A -> S -> option S) (s : S)
  : option S :=
  match xs with
  | [] => Some s
  | x :: r => s' ← body x s; for_each r body s'
  end.

(** ** Data model *)

Definition EDGE_COUNT : Z := 4.

Abbreviation Position := (Z * Z)%type (only parsing).

Inductive Shape := Flat | Knob | Socket.
Inductive Rotation := R0 | R90 | R180 | R270.
Inductive Direction := Up | Right | Down | Left.

#[global] Instance Shape_eq_dec : EqDecision Shape.
Proof. solve_decision. Defined.
#[global] Instance Rotation_eq_dec : EqDecision Rotation.
Proof. solve_decision. Defined.
#[global] Instance Direction_eq_dec : EqDecision Direction.
Proof. solve_decision. Defined.

Definition rotation_value (r : Rotation) : Z :=
  match r with R0 => 0 | R90 => 1 | R180 => 2 | R270 => 3 end.

Definition direction_value (d : Direction) : Z :=
  match d with Up => 0 | Right => 1 | Down => 2 | Left => 3 end.

(** [for direction in Direction] *)
Definition all_directions : list Direction := [Up; Right; Down; Left].

Definition delta (d : Direction) : Z * Z :=
  match d with
  | Up => (-1, 0)
  | Down => (1, 0)
  | Right => (0, 1)
  | Left => (0, -1)
  end.

Definition inverse (d : Direction) : Direction :=
  match d with
  | Up => Down
  | Down => Up
  | Right => Left
  | Left => Right
  end.

(** A reference to an [Edge] object: its position in [Board.edges]. *)
Abbreviation EdgeRef := nat (only parsing).

Record Edge := mkEdge {
  e_group : option Z;
  e_shape : Shape;
  e_connection : option EdgeRef;
  e_merges : list EdgeRef
}.

Record Piece := mkPiece {
  p_id : Z;
  p_edges : Z;
  p_rotation : Rotation
}.

Record Board := mkBoard {
  width : Z;
  height : Z;
  pieces : list Piece;
  edges : list Edge
}.

#[global] Instance Edge_eq_dec : EqDecision Edge.
Proof. solve_decision. Defined.
#[global] Instance Piece_eq_dec : EqDecision Piece.
Proof. solve_decision. Defined.

(** [Edge()] *)
Definition new_edge : Edge := mkEdge None Flat None [].

Definition set_connection (c : EdgeRef) (e : Edge) : Edge :=
  mkEdge (e_group e) (e_shape e) (Some c) (e_merges e).
Definition add_merge (m : EdgeRef) (e : Edge) : Edge :=
  mkEdge (e_group e) (e_shape e) (e_connection e) (Py.set_add m (e_merges e)).
Definition set_group_shape (g : Z) (s : Shape) (e : Edge) : Edge :=
  mkEdge (Some g) s (e_connection e) (e_merges e).
Definition set_rotation (r : Rotation) (p : Piece) : Piece :=
  mkPiece (p_id p) (p_edges p) r.

Definition with_pieces (b : Board) (ps : list Piece) : Board :=
  mkBoard (width b) (height b) ps (edges b).
Definition with_edges (b : Board) (es : list Edge) : Board :=
  mkBoard (width b) (height b) (pieces b) es.

(** ** Grid model: [Board.__post_init__] *)

Definition initial_rotation (w h i j : Z) : Rotation :=
  if i =? 0 then R270
  else if j =? w - 1 then R180
  else if i =? h - 1 then R90
  else R0.

(** The body of the inner loop: four fresh edges, then the piece. *)
Definition add_piece (w h i j : Z) (st : list Piece * list Edge) : list Piece * list Edge :=
  let '(ps, es) := st in
  let rotation := initial_rotation w h i j in
  let piece_index := Z.of_nat (length ps) in
  let piece_edges := Z.of_nat (length es) in
  let es' := foldl (fun acc _ => acc ++ [new_edge]) es (Py.range EDGE_COUNT) in
  (ps ++ [mkPiece piece_index piece_edges rotation], es').

Definition new_board (w h : Z) : option Board :=
  if (1 <? w) && (1 <? h) then
    let '(ps, es) :=
      foldl (fun st i => foldl (fun st' j => add_piece w h i j st') st (Py.range w))
            ([], []) (Py.range h) in
    Some (mkBoard w h ps es)
  else None.

Definition is_adjacent (from_index to_index : Position) : bool :=
  Z.abs (from_index.1 - to_index.1) + Z.abs (from_index.2 - to_index.2) =? 1.

Definition in_bounds (b : Board) (index : Position) : bool :=
  (0 <=? index.1) && (index.1 <? height b) && (0 <=? index.2) && (index.2 <? width b).

Definition get_piece_index (b : Board) (index : Position) : Z :=
  index.1 * width b + index.2.

Definition get_edge_index (b : Board) (index : Position) (direction : Direction) : option Z :=
  piece ← Py.get (pieces b) (get_piece_index b index);
  let offset := (rotation_value (p_rotation piece) + direction_value direction) `mod` EDGE_COUNT in
  Some (p_edges piece + offset).

Definition corner_indices (b : Board) : list Position :=
  let tl := (0, 0) in
  let tr := (0, height b - 1) in
  let br := (width b - 1, height b - 1) in
  let bl := (width b - 1, 0) in
  [tl; tr; br; bl].

(** The edge object [self.edges[k]] denotes. *)
Definition edge_ref (b : Board) (k : Z) : option EdgeRef :=
  Py.index_of (length (edges b)) k.

(** ** Adjacency connector *)

Definition connect_edges (b : Board) (from_edge_index to_edge_index : Z) : option (bool * Board) :=
  if from_edge_index =? to_edge_index then Some (false, b)
  else
    from_edge ← edge_ref b from_edge_index;
    to_edge ← edge_ref b to_edge_index;
    let es1 := alter (set_connection to_edge) from_edge (edges b) in
    let es2 := alter (set_connection from_edge) to_edge es1 in
    Some (true, with_edges b es2).

Definition connect_pieces (b : Board) (from_index to_index : Position) : option (bool * Board) :=
  if negb (is_adjacent from_index to_index) then None
  else
    directions ←
      (if from_index.1 <? to_index.1 then Some (Down, Up)
       else if to_index.1 <? from_index.1 then Some (Up, Down)
       else if from_index.2 <? to_index.2 then Some (Right, Left)
       else if to_index.2 <? from_index.2 then Some (Left, Right)
       else None);
    from_edge_index ← get_edge_index b from_index directions.1;
    to_edge_index ← get_edge_index b to_index directions.2;
    connect_edges b from_edge_index to_edge_index.

Definition connect_adjacent_edges (b : Board) : option (bool * Board) :=
  for_in (Py.range (height b)) (fun i =>
    for_in (Py.range (width b)) (fun j =>
      for_in all_directions (fun direction b' =>
        let from_index := (i, j) in
        let '(di, dj) := delta direction in
        let to_index := (i + di, j + dj) in
        if negb (in_bounds b' to_index) then Some (true, b')
        else connect_pieces b' from_index to_index))) b.

(** ** Shuffle engine *)

Definition swap_pieces (b : Board) (from_index to_index : Position) : option Board :=
  let fpi := get_piece_index b from_index in
  let tpi := get_piece_index b to_index in
  to_piece ← Py.get (pieces b) tpi;
  from_piece ← Py.get (pieces b) fpi;
  fi ← Py.index_of (length (pieces b)) fpi;
  ti ← Py.index_of (length (pieces b)) tpi;
  Some (with_pieces b (<[ti := from_piece]> (<[fi := to_piece]> (pieces b)))).

(** [self.edges[self.get_edge_index(index, direction)].connection == None] *)
Definition unconnected (b : Board) (index : Position) (direction : Direction) : option bool :=
  k ← get_edge_index b index direction;
  e ← Py.get (edges b) k;
  Some (bool_decide (e_connection e = None)).

(** The number of unconnected edge slots at a position. *)
Definition none_count (b : Board) (index : Position) : option Z :=
  flags ← mapM (unconnected b index) all_directions;
  Some (foldr (fun (f : bool) n => Z.b2z f + n) 0 flags).

(** [from_piece.rotation, to_piece.rotation = to_piece.rotation, from_piece.rotation] *)
Definition exchange_rotations (b : Board) (from_index to_index : Position) : option Board :=
  let fpi := get_piece_index b from_index in
  let tpi := get_piece_index b to_index in
  from_piece ← Py.get (pieces b) fpi;
  to_piece ← Py.get (pieces b) tpi;
  fi ← Py.index_of (length (pieces b)) fpi;
  ti ← Py.index_of (length (pieces b)) tpi;
  let ps1 := alter (set_rotation (p_rotation to_piece)) fi (pieces b) in
  let ps2 := alter (set_rotation (p_rotation from_piece)) ti ps1 in
  Some (with_pieces b ps2).

Definition swap (b : Board) (from_index to_index : Position) : option (bool * Board) :=
  from_count ← none_count b from_index;
  to_count ← none_count b to_index;
  if negb (from_count =? to_count) then Some (false, b)
  else
    b1 ← (if 0 <? from_count then exchange_rotations b from_index to_index else Some b);
    b2 ← swap_pieces b1 from_index to_index;
    Some (true, b2).

(** [assert self.swap(x, y)] *)
Definition assert_swap (b : Board) (x y : Position) : option Board :=
  match swap b x y with
  | Some (true, b') => Some b'
  | _ => None
  end.

(** The list the border phase collects before shuffling it. *)
Definition border_candidates (b : Board) : list Position :=
  flat_map (fun i =>
    flat_map (fun j => if i =? j then [] else [(i, j)])
             (Py.range2 1 (width b - 1)))
    [0; height b - 1]
  ++
  flat_map (fun j =>
    flat_map (fun i => if i =? j then [] else [(i, j)])
             (Py.range2 1 (height b - 1)))
    [0; width b - 1].

(** The list the interior phase collects before shuffling it. *)
Definition center_candidates (b : Board) : list Position :=
  flat_map (fun i => map (fun j => (i, j)) (Py.range2 1 (width b - 1)))
           (Py.range2 1 (height b - 1)).

(** The sources of randomness of one run of [shuffle]: the two calls of
    [random.shuffle] and, for the [k]-th interior triple, the value of
    [random.choice]. *)
Record Random := mkRandom {
  shuffle_border : list Position -> list Position;
  shuffle_centers : list Position -> list Position;
  choice : nat -> Rotation
}.

(** What [random.shuffle] guarantees: the list is permuted. *)
Definition fair (rnd : Random) : Prop :=
  (forall l, Permutation (shuffle_border rnd l) l) /\
  (forall l, Permutation (shuffle_centers rnd l) l).

(** The border loop over consecutive triples; an incomplete last triple
    ends it. *)
Fixpoint cycle_border (l : list Position) (b : Board) : option Board :=
  match l with
  | e0 :: e1 :: e2 :: rest =>
      b1 ← assert_swap b e0 e1;
      b2 ← assert_swap b1 e0 e2;
      cycle_border rest b2
  | _ => Some b
  end.

(** [self.pieces[self.get_piece_index(c0)].rotation = r] *)
Definition assign_rotation (b : Board) (index : Position) (r : Rotation) : option Board :=
  i ← Py.index_of (length (pieces b)) (get_piece_index b index);
  Some (with_pieces b (alter (set_rotation r) i (pieces b))).

(** The interior loop; [k] counts the triples completed so far. *)
Fixpoint cycle_centers (rnd : Random) (k : nat) (l : list Position) (b : Board) : option Board :=
  match l with
  | c0 :: c1 :: c2 :: rest =>
      b1 ← assert_swap b c0 c1;
      b2 ← assert_swap b1 c0 c2;
      b3 ← assign_rotation b2 c0 (choice rnd k);
      cycle_centers rnd (S k) rest b3
  | _ => Some b
  end.

Definition shuffle (rnd : Random) (b : Board) : option Board :=
  b1 ← cycle_border (shuffle_border rnd (border_candidates b)) b;
  cycle_centers rnd 0 (shuffle_centers rnd (center_candidates b1)) b1.

(** ** Merge builder *)

Definition merge_edges (b : Board) : option Board :=
  for_each (Py.range (height b)) (fun i =>
    for_each (Py.range (width b)) (fun j =>
      for_each all_directions (fun direction b' =>
        let from_index := (i, j) in
        let '(di, dj) := delta direction in
        let to_index := (i + di, j + dj) in
        if negb (in_bounds b' to_index) then Some b'
        else
          from_edge_index ← get_edge_index b' from_index direction;
          from_edge ← edge_ref b' from_edge_index;
          adjacent_edge_index ← get_edge_index b' to_index (inverse direction);
          adjacent ← Py.get (edges b') adjacent_edge_index;
          to_edge ← e_connection adjacent;
          let es1 := alter (add_merge to_edge) from_edge (edges b') in
          let es2 := alter (add_merge from_edge) to_edge es1 in
          Some (with_edges b' es2)))) b.

(** ** Group collapse *)

Section Collapse.

(** The order in which a Python [set] yields its elements. *)
Variable set_order : list nat -> list nat.

(** The first [while queue:] loop.  The queue is held with its last cell
    first, so that [queue.pop()] takes the head and [queue += xs] puts the
    reversed [xs] in front.  The loop is run for at most [fuel] rounds;
    [None] is also the answer when they do not suffice. *)
Fixpoint merge_closure (es : list Edge) (fuel : nat) (queue group : list EdgeRef)
  : option (list EdgeRef) :=
  match fuel with
  | O => None
  | S fuel' =>
      match queue with
      | [] => Some group
      | next_edge :: rest =>
          if decide (next_edge ∈ group) then merge_closure es fuel' rest group
          else
            e ← es !! next_edge;
            merge_closure es fuel' (reverse (set_order (e_merges e)) ++ rest)
                          (Py.set_add next_edge group)
      end
  end.

(** Rounds that always suffice for [merge_closure]. *)
Definition closure_fuel (es : list Edge) : nat :=
  S (S (foldr (fun e n => (length (e_merges e) + n)%nat) O es)).

(** One round of the first [for edge in self.edges] loop. *)
Definition group_step (es : list Edge) (ie : nat * Edge)
    (st : gmap nat nat * gmap nat (list EdgeRef))
  : option (gmap nat nat * gmap nat (list EdgeRef)) :=
  let '(edge, e) := ie in
  let '(edge_group_map, groups) := st in
  match e_connection e with
  | None => Some st
  | Some _ =>
      match edge_group_map !! edge with
      | Some _ => Some st
      | None =>
          group ← merge_closure es (closure_fuel es) [edge] [];
          let group_id := size groups in
          let edge_group_map' :=
            foldl (fun m next_edge => <[next_edge := group_id]> m)
                  edge_group_map (set_order group) in
          Some (edge_group_map', <[group_id := group]> groups)
      end
  end.

(** One round of the second [for edge in self.edges] loop. *)
Definition connection_step (edge_group_map : gmap nat nat) (ie : nat * Edge)
    (group_connections : list (nat * list nat)) : option (list (nat * list nat)) :=
  let '(edge, e) := ie in
  match e_connection e with
  | None => Some group_connections
  | Some c =>
      g ← edge_group_map !! edge;
      gc ← edge_group_map !! c;
      Some (Py.dict_add g gc group_connections)
  end.

(** The second [while queue:] loop, with the queue held as in
    [merge_closure]. *)
Fixpoint layer_traversal (group_connections : list (nat * list nat))
    (group_group_map : gmap nat nat) (fuel : nat) (queue : list (nat * nat))
    (seen : list nat) (layers : list (nat * list nat)) : option (list (nat * list nat)) :=
  match fuel with
  | O => None
  | S fuel' =>
      match queue with
      | [] => Some layers
      | (group_id, depth) :: rest =>
          if decide (is_Some (group_group_map !! group_id)) then
            layer_traversal group_connections group_group_map fuel' rest seen layers
          else if decide (group_id ∈ seen) then
            layer_traversal group_connections group_group_map fuel' rest seen layers
          else
            cs ← Py.dict_get group_id group_connections;
            layer_traversal group_connections group_group_map fuel'
              (reverse (map (fun c => (c, S depth)) (set_order cs)) ++ rest)
              (Py.set_add group_id seen) (Py.dict_add depth group_id layers)
      end
  end.

Definition layer_fuel (group_connections : list (nat * list nat)) : nat :=
  S (S (foldr (fun kv n => (length kv.2 + n)%nat) O group_connections)).

(** [even] and [odd], from [layers.items()]. *)
Definition split_layers (layers : list (nat * list nat)) : list nat * list nat :=
  foldl (fun eo l =>
           if Nat.even l.1 then (Py.set_union eo.1 l.2, eo.2)
           else (eo.1, Py.set_union eo.2 l.2))
        ([], []) layers.

(** The state of the colouring loop: [group_group_map], [group_groups],
    [group_group_shape]. *)
Definition Colouring : Type := gmap nat nat * list (nat * list nat) * gmap nat Shape.

(** One round of [for group_group, shape in [(even, Knob), (odd, Socket)]]. *)
Definition add_group_group (gs : list nat * Shape) (st : Colouring) : Colouring :=
  let '(group_group, shape) := gs in
  let '(group_group_map, group_groups, group_group_shape) := st in
  let gg_id := length group_groups in
  (foldl (fun m group_id => <[group_id := gg_id]> m) group_group_map (set_order group_group),
   Py.dict_set gg_id group_group group_groups,
   <[gg_id := shape]> group_group_shape).

(** One round of [for group_id in group_connections.keys()]. *)
Definition colour_step (group_connections : list (nat * list nat)) (group_id : nat)
    (st : Colouring) : option (bool * Colouring) :=
  let '(group_group_map, group_groups, group_group_shape) := st in
  if decide (is_Some (group_group_map !! group_id)) then Some (true, st)
  else
    layers ← layer_traversal group_connections group_group_map
                (layer_fuel group_connections) [(group_id, O)] [] [];
    let '(even, odd) := split_layers layers in
    match Py.set_inter even odd with
    | _ :: _ => Some (false, st)
    | [] => Some (true, add_group_group (odd, Socket) (add_group_group (even, Knob) st))
    end.

(** The last loop: every edge of every group of a group-group gets the
    final id and the shape. *)
Definition assign_group_group (groups : gmap nat (list EdgeRef))
    (group_group_shape : gmap nat Shape) (gg : nat * list nat) (es : list Edge)
  : option (list Edge) :=
  let '(gg_id, g_ids) := gg in
  shape ← group_group_shape !! gg_id;
  for_each (set_order g_ids) (fun g_id es1 =>
    group ← groups !! g_id;
    Some (foldl (fun es2 edge =>
                   alter (set_group_shape (Z.of_nat (gg_id / 2)) shape) edge es2)
                es1 (set_order group))) es.

Definition collapse_edges (b : Board) : option (bool * Board) :=
  let es := edges b in
  '(edge_group_map, groups) ← for_each (imap pair es) (group_step es) (∅, ∅);
  group_connections ← for_each (imap pair es) (connection_step edge_group_map) [];
  r ← for_in (map fst group_connections) (colour_step group_connections) (∅, [], ∅);
  match r with
  | (false, _) => Some (false, b)
  | (true, (_, group_groups, group_group_shape)) =>
      es' ← for_each group_groups (assign_group_group groups group_group_shape) es;
      Some (true, with_edges b es')
  end.

End Collapse.

(** ** Uniqueness checker *)

(** [tuple((edge.group, edge.shape) for edge in self.edges[piece.edges:piece.edges+EDGE_COUNT])] *)
Definition out_piece (b : Board) (piece : Piece) : list (option Z * Shape) :=
  map (fun e => (e_group e, e_shape e))
      (Py.slice (edges b) (p_edges piece) (p_edges piece + EDGE_COUNT)).

Fixpoint unique_from (b : Board) (ps : list Piece) (piece_set : list (list (option Z * Shape)))
  : bool :=
  match ps with
  | [] => true
  | piece :: rest =>
      if decide (out_piece b piece ∈ piece_set) then false
      else unique_from b rest (out_piece b piece :: piece_set)
  end.

Definition check_all_unique (b : Board) : bool := unique_from b (pieces b) [].

(** ** Printing *)

Definition PIECE_PADDING : Z := 4.

Module PyStr.

(** The line feed. *)
Definition nl : string := String (ascii_of_nat 10) "".

(** [str(n)] of an [int] *)
Definition of_int (n : Z) : string := NilZero.string_of_int (Z.to_int n).

(** [f"{g}"] of an [int | None] *)
Definition of_group (g : option Z) : string :=
  match g with
  | Some n => of_int n
  | None => "None"
  end.

(** [" " * n] *)
Fixpoint times (c : ascii) (n : nat) : string :=
  match n with
  | O => ""
  | S n' => String c (times c n')
  end.
Definition spaces (n : Z) : string := times " " (Z.to_nat n).

(** [s.rjust(width, " ")] and [s.ljust(width, " ")] *)
Definition rjust (width : Z) (s : string) : string :=
  spaces (width - Z.of_nat (String.length s)) +:+ s.
Definition ljust (width : Z) (s : string) : string :=
  s +:+ spaces (width - Z.of_nat (String.length s)).

(** [sep.join(l)] *)
Definition join (sep : string) (l : list string) : string := String.concat sep l.

(** [s.split("\n")] *)
Fixpoint split_lines (s : string) : list string :=
  match s with
  | EmptyString => [""]
  | String c r =>
      if Ascii.eqb c (ascii_of_nat 10) then "" :: split_lines r
      else match split_lines r with
           | line :: lines => String c line :: lines
           | [] => [String c ""]
           end
  end.

(** [c.isspace()] for a character below 128 *)
Definition is_space (c : ascii) : bool :=
  let n := nat_of_ascii c in
  ((9 <=? n) && (n <=? 13) || (28 <=? n) && (n <=? 32))%nat.

(** [s.rstrip()] *)
Fixpoint rstrip (s : string) : string :=
  match s with
  | EmptyString => ""
  | String c r =>
      match rstrip r with
      | EmptyString => if is_space c then "" else String c ""
      | r' => String c r'
      end
  end.

End PyStr.

Definition edge_str (b : Board) (index : Z) : option string :=
  edge ← Py.get (edges b) index;
  Some (match e_shape edge with
        | Knob => "+" +:+ PyStr.of_group (e_group edge)
        | Socket => "-" +:+ PyStr.of_group (e_group edge)
        | Flat => ""
        end).

Definition piece_str (b : Board) (index : Position) : option string :=
  piece ← Py.get (pieces b) (get_piece_index b index);
  edge_indices ← mapM (get_edge_index b index) all_directions;
  labels ← mapM (edge_str b) edge_indices;
  match labels with
  | [up; right_; down; left_] =>
      let name := PyStr.rjust PIECE_PADDING (PyStr.of_int (p_id piece)) in
      let up := PyStr.rjust PIECE_PADDING up in
      let right_ := PyStr.rjust PIECE_PADDING right_ in
      let down := PyStr.rjust PIECE_PADDING down in
      let left_ := PyStr.ljust PIECE_PADDING left_ in
      let lines :=
        [PyStr.spaces PIECE_PADDING +:+ up +:+ PyStr.spaces PIECE_PADDING;
         left_ +:+ name +:+ right_;
         PyStr.spaces PIECE_PADDING +:+ down +:+ PyStr.spaces PIECE_PADDING] in
      Some (PyStr.join PyStr.nl lines)
  | _ => None
  end.

(** [lines_segments[line_offset + k].append(line)] *)
Definition append_segment (line_offset : Z) (kl : nat * string)
    (lines_segments : list (list string)) : option (list (list string)) :=
  n ← Py.index_of (length lines_segments) (line_offset + Z.of_nat kl.1);
  Some (alter (fun segment => segment ++ [kl.2]) n lines_segments).

Definition board_str (b : Board) : option string :=
  let piece_lines := 4 in
  let lines_segments := replicate (Z.to_nat (piece_lines * height b)) [] in
  lines_segments ←
    for_each (Py.range (height b)) (fun i ls =>
      let line_offset := i * piece_lines in
      for_each (Py.range (width b)) (fun j ls' =>
        s ← piece_str b (i, j);
        for_each (imap pair (PyStr.split_lines s)) (append_segment line_offset) ls') ls)
      lines_segments;
  Some (PyStr.rstrip (PyStr.join PyStr.nl (map (PyStr.join " ") lines_segments)) +:+ PyStr.nl).

(** ** Generation loop *)

(** What one round of the [while True] loop of [main] computes. *)
Record Attempt := mkAttempt {
  collapse_ok : bool;
  unique_ok : bool;
  attempt_board : Board
}.

Definition attempt (set_order : list nat -> list nat) (w h : Z) (rnd : Random) : option Attempt :=
  b0 ← new_board w h;
  c ← connect_adjacent_edges b0;
  b2 ← shuffle rnd c.2;
  b3 ← merge_edges b2;
  r ← collapse_edges set_order b3;
  Some (mkAttempt r.1 (check_all_unique r.2) r.2).

Inductive Outcome :=
| Accepted (b : Board)
| Raised
| Running.

(** [main], up to the accepted board, with the randomness of the [n]-th
    round given by [rnds n]; [Running] when [fuel] rounds did not accept. *)
Fixpoint main_loop (set_order : list nat -> list nat) (w h : Z) (rnds : nat -> Random)
    (fuel n : nat) : Outcome :=
  match fuel with
  | O => Running
  | S fuel' =>
      match attempt set_order w h (rnds n) with
      | None => Raised
      | Some a =>
          if unique_ok a then Accepted (attempt_board a)
          else main_loop set_order w h rnds fuel' (S n)
      end
  end.

(** The loop of [main] with the call [board.collapse_edges()] taken as a
    parameter: [main] makes the call, drops what it answers and goes on
    to test [board.check_all_unique()].  With [collapse_edges] for the
    call these are [attempt] and [main_loop]. *)
Definition attempt_with (collapse : Board -> option (bool * Board)) (w h : Z) (rnd : Random)
  : option Attempt :=
  b0 ← new_board w h;
  c ← connect_adjacent_edges b0;
  b2 ← shuffle rnd c.2;
  b3 ← merge_edges b2;
  r ← collapse b3;
  Some (mkAttempt r.1 (check_all_unique r.2) r.2).

Fixpoint main_loop_with (collapse : Board -> option (bool * Board)) (w h : Z)
    (rnds : nat -> Random) (fuel n : nat) : Outcome :=
  match fuel with
  | O => Running
  | S fuel' =>
      match attempt_with collapse w h (rnds n) with
      | None => Raised
      | Some a =>
          if unique_ok a then Accepted (attempt_board a)
          else main_loop_with collapse w h rnds fuel' (S n)
      end
  end.

(** The board [main] prints under the heading Initial: the accepted board with the
    pieces of a fresh [Board(board.width, board.height)] in place of its own. *)
Definition initial_view (b : Board) : option Board :=
  b0 ← new_board (width b) (height b); Some (with_pieces b (pieces b0)).

(** ** Boards and predicates used to state the properties *)

(** The boards group collapse is written for, as a check: every merge set
    holds edges of the board, and the edge an edge is connected to is
    itself connected. *)
Definition well_formedb (es : list Edge) : bool :=
  forallb (fun e =>
             forallb (fun m => bool_decide (m < length es)%nat) (e_merges e) &&
             match e_connection e with
             | None => true
             | Some c =>
                 match es !! c with
                 | Some e' => bool_decide (e_connection e' <> None)
                 | None => false
                 end
             end) es.

(** A shuffle that leaves both lists as they are and always draws [R0]. *)
Definition identity_random : Random :=
  mkRandom (fun l => l) (fun l => l) (fun _ => R0).

(** [Board(w, h)] after [connect_adjacent_edges]. *)
Definition connected_board (w h : Z) : option Board :=
  b ← new_board w h; c ← connect_adjacent_edges b; Some c.2.

(** [Board(w, h)] after [connect_adjacent_edges], [shuffle] and [merge_edges]. *)
Definition merged_board (w h : Z) (rnd : Random) : option Board :=
  b ← connected_board w h; b' ← shuffle rnd b; merge_edges b'.

(** [b.edges[x].merges.add(b.edges[y]); b.edges[y].merges.add(b.edges[x])] *)
Definition merge_pair (x y : nat) (b : Board) : Board :=
  with_edges b (alter (add_merge x) y (alter (add_merge y) x (edges b))).

(** The cell [index] goes to in a direction. *)
Definition step (pos : Z * Z) (d : Direction) : Z * Z :=
  (pos.1 + (delta d).1, pos.2 + (delta d).2).

(** The cells of the board, row by row. *)
Definition positions (b : Board) : list (Z * Z) :=
  flat_map (fun i => map (fun j => (i, j)) (Py.range (width b))) (Py.range (height b)).

(** The signature of the piece at a cell read through [get_edge_index] in
    the order Up, Right, Down, Left, as the specification words it. *)
Definition direction_tuple (b : Board) (pos : Z * Z) : option (list (option Z * Shape)) :=
  mapM (fun d => k ← get_edge_index b pos d;
                 e ← Py.get (edges b) k;
                 Some (e_group e, e_shape e)) all_directions.

(** The 3 by 3 board connected, then shuffled by [identity_random] (one
    border triple is cycled), then merged. *)
Definition sample_connected : Board :=
  Eval vm_compute in default (mkBoard 0 0 [] []) (connected_board 3 3).
Definition sample_shuffled : Board :=
  Eval vm_compute in default (mkBoard 0 0 [] []) (shuffle identity_random sample_connected).
Definition sample_merged : Board :=
  Eval vm_compute in default (mkBoard 0 0 [] []) (merge_edges sample_shuffled).

(** The 2 by 2 board connected, with the two edges of its first seam put
    in each other's merge set: a group that is linked to itself. *)
Definition self_linked_board : Board :=
  Eval vm_compute in merge_pair 0 6 (default (mkBoard 0 0 [] []) (connected_board 2 2)).



(** A collapse step that answers [False] and leaves the board as it is. *)
Definition idle_collapse (b : Board) : option (bool * Board) := Some (false, b).

(** * Vocabulary of the proofs *)

(** What [unconnected] answers at a cell that holds the piece [p]. *)
Definition piece_unconnected (es : list Edge) (p : Piece) (d : Direction) : option bool :=
  e ← Py.get es (p_edges p + (rotation_value (p_rotation p) + direction_value d) `mod` EDGE_COUNT);
  Some (bool_decide (e_connection e = None)).

(** What [none_count] answers at a cell that holds the piece [p]. *)
Definition piece_none_count (es : list Edge) (p : Piece) : option Z :=
  flags ← mapM (piece_unconnected es p) all_directions;
  Some (foldr (fun (f : bool) n => Z.b2z f + n) 0 flags).

(** Two piece lists that give every cell the same count. *)
Definition same_counts (es : list Edge) (ps qs : list Piece) : Prop :=
  length ps = length qs /\
  forall n, ps !! n ≫= piece_none_count es = qs !! n ≫= piece_none_count es.

(** The dimensions, every edge, and the count of every cell. *)
Definition preserved (b b' : Board) : Prop :=
  width b' = width b /\ height b' = height b /\ edges b' = edges b /\
  same_counts (edges b) (pieces b') (pieces b).

(** The piece the constructor puts in cell [k]. *)
Definition piece_at (w h k : Z) : Piece :=
  mkPiece k (4 * k) (initial_rotation w h (k / w) (k `mod` w)).

(** The position lies in the [w] by [h] grid: [in_bounds] as a proposition. *)
Definition inside (w h : Z) (pos : Position) : Prop :=
  0 <= pos.1 < h /\ 0 <= pos.2 < w.

(** The slot a piece of rotation [r] shows in direction [d]. *)
Definition slot_offset (r : Rotation) (d : Direction) : Z :=
  (rotation_value r + direction_value d) `mod` EDGE_COUNT.

(** The subscript of the edge a cell of the constructed grid shows in a
    direction. *)
Definition slot (w h : Z) (pos : Position) (d : Direction) : Z :=
  4 * (pos.1 * w + pos.2) + slot_offset (initial_rotation w h pos.1 pos.2) d.

(** The piece list the constructor builds. *)
Definition grid_pieces (w h : Z) : list Piece :=
  map (fun k : nat => piece_at w h (Z.of_nat k)) (seq 0 (Z.to_nat (w * h))).

(** A board whose pieces are where the constructor put them. *)
Definition solved (b : Board) : Prop :=
  pieces b = grid_pieces (width b) (height b) /\
  length (edges b) = Z.to_nat (4 * (width b * height b)).

(** The rounds of the three nested loops, in the order they are run. *)
Definition rounds (w h : Z) : list (Position * Direction) :=
  flat_map (fun i => flat_map (fun j => map (fun d => ((i, j), d)) all_directions) (Py.range w))
           (Py.range h).

(** One round of the three nested loops of [connect_adjacent_edges]. *)
Definition connect_round (pd : Position * Direction) (b : Board) : option (bool * Board) :=
  if negb (in_bounds b (step pd.1 pd.2)) then Some (true, b)
  else connect_pieces b pd.1 (step pd.1 pd.2).

(** An edge on which only the connection may have been set. *)
Definition plain (e : Edge) : Prop :=
  e_group e = None /\ e_shape e = Flat /\ e_merges e = [].

(** [slot] as a reference into [Board.edges]. *)
Definition slotn (w h : Z) (pos : Position) (d : Direction) : nat :=
  Z.to_nat (slot w h pos d).

(** An edge is either still unconnected or connected across its seam. *)
Definition seam_ok (w h : Z) (x : nat) (e : Edge) : Prop :=
  e_connection e = None \/
  exists pos d, inside w h pos /\ inside w h (step pos d) /\ x = slotn w h pos d /\
                e_connection e = Some (slotn w h (step pos d) (inverse d)).

(** The invariant of [connect_adjacent_edges] once the rounds [done] are
    through: the seams of these rounds are connected, both ways. *)
Definition connecting (w h : Z) (done : list (Position * Direction)) (b : Board) : Prop :=
  width b = w /\ height b = h /\ solved b /\
  (forall pd, pd ∈ done -> inside w h pd.1) /\
  (forall x e, edges b !! x = Some e -> plain e /\ seam_ok w h x e) /\
  (forall pos d, (pos, d) ∈ done -> inside w h (step pos d) ->
     exists e, edges b !! slotn w h pos d = Some e /\
               e_connection e = Some (slotn w h (step pos d) (inverse d))).

(** The total weight of the nodes of [universe] not yet visited. *)
Definition pending (wt : nat -> nat) (universe visited : list nat) : nat :=
  sum_list (wt <$> filter (fun y => y ∉ visited) universe).

(** The weight of an edge in the first traversal: the size of its merge set. *)
Definition merge_weight (es : list Edge) (x : nat) : nat :=
  from_option (fun e => length (e_merges e)) O (es !! x).

(** No group sits in two layers, and every group of a layer was seen. *)
Definition layered (seen : list nat) (layers : list (nat * list nat)) : Prop :=
  (forall d gs g, (d, gs) ∈ layers -> g ∈ gs -> g ∈ seen) /\
  (forall d1 gs1 d2 gs2 g, (d1, gs1) ∈ layers -> (d2, gs2) ∈ layers ->
                           g ∈ gs1 -> g ∈ gs2 -> d1 = d2).

(** Every reference held in a merge set points into [es]. *)
Definition refs_valid (es : list Edge) : Prop :=
  forall x e, es !! x = Some e -> forall m, m ∈ e_merges e -> (m < length es)%nat.

(** The boards group collapse is written for: merge sets hold edges of the
    board, and the edge an edge is connected to is itself connected. *)
Definition well_formed (es : list Edge) : Prop :=
  refs_valid es /\
  forall x e c, es !! x = Some e -> e_connection e = Some c ->
                exists e', es !! c = Some e' /\ e_connection e' <> None.

(** The invariant of the first loop over the edges. *)
Definition grouped (done : list (nat * Edge)) (st : gmap nat nat * gmap nat (list nat)) : Prop :=
  (forall x e, (x, e) ∈ done -> e_connection e <> None -> is_Some (st.1 !! x)) /\
  (forall x g, st.1 !! x = Some g -> is_Some (st.2 !! g)).

(** The invariant of the second loop over the edges. *)
Definition linked (es : list Edge) (egm : gmap nat nat) (done : list (nat * Edge))
    (gconn : list (nat * list nat)) : Prop :=
  NoDup (map fst gconn) /\
  (forall x e, (x, e) ∈ done -> e_connection e <> None ->
     exists g, egm !! x = Some g /\ is_Some (Py.dict_get g gconn)) /\
  (forall k vs c, (k, vs) ∈ gconn -> c ∈ vs ->
     exists y ey, es !! y = Some ey /\ e_connection ey <> None /\ egm !! y = Some c) /\
  (forall k vs, (k, vs) ∈ gconn -> exists y, egm !! y = Some k).

(** Every group a group is linked to has an entry of its own. *)
Definition closed (gconn : list (nat * list nat)) : Prop :=
  forall k vs c, (k, vs) ∈ gconn -> c ∈ vs -> is_Some (Py.dict_get c gconn).

(** The weight of a group in the second traversal: the number of its links. *)
Definition layer_weight (gconn : list (nat * list nat)) (k : nat) : nat :=
  length (default [] (Py.dict_get k gconn)).

(** The invariant of the colouring loop. *)
Definition coloured (gconn : list (nat * list nat)) (st : Colouring) : Prop :=
  forall k gs, (k, gs) ∈ st.1.2 ->
    is_Some (st.2 !! k) /\ forall g, g ∈ gs -> is_Some (Py.dict_get g gconn).

(** Whether slot [s] of a piece is unconnected. *)
Definition slot_state (es : list Edge) (p : Piece) (s : Z) : option bool :=
  e ← Py.get es (p_edges p + s);
  Some (bool_decide (e_connection e = None)).

(** Two pieces with the same unconnected slots. *)
Definition same_profile (es : list Edge) (p q : Piece) : Prop :=
  forall s, 0 <= s < 4 -> slot_state es p s = slot_state es q s.

(** The cell of the piece list a position inside the grid denotes. *)
Definition cell (w : Z) (pos : Z * Z) : nat := Z.to_nat (pos.1 * w + pos.2).

(** Every slot shown towards a neighbour is connected, every slot shown
    outwards is not. *)
Definition facing (b : Board) : Prop :=
  forall pos d, inside (width b) (height b) pos ->
                unconnected b pos d = Some (negb (in_bounds b (step pos d))).

(** Every piece owns four consecutive edges of the [4 * w * h]. *)
Definition based (w h : Z) (ps : list Piece) : Prop :=
  forall n p, ps !! n = Some p -> exists k, 0 <= k < w * h /\ p_edges p = 4 * k.

(** The pieces at the cells of [l] have one profile. *)
Definition uniform (es : list Edge) (ps : list Piece) (w : Z) (l : list (Z * Z)) : Prop :=
  forall x y p q, x ∈ l -> y ∈ l -> ps !! cell w x = Some p -> ps !! cell w y = Some q ->
                  same_profile es p q.

(** The invariant of [shuffle] on a board whose edges are [es]. *)
Definition shuffling (w h : Z) (es : list Edge) (b : Board) : Prop :=
  width b = w /\ height b = h /\ edges b = es /\
  length (pieces b) = Z.to_nat (w * h) /\
  facing b /\ uniform es (pieces b) w (border_candidates b) /\ based w h (pieces b).

(** One round of the three nested loops of [merge_edges]. *)
Definition merge_round (pd : (Z * Z) * Direction) (b : Board) : option Board :=
  if negb (in_bounds b (step pd.1 pd.2)) then Some b
  else
    from_edge_index ← get_edge_index b pd.1 pd.2;
    from_edge ← edge_ref b from_edge_index;
    adjacent_edge_index ← get_edge_index b (step pd.1 pd.2) (inverse pd.2);
    adjacent ← Py.get (edges b) adjacent_edge_index;
    to_edge ← e_connection adjacent;
    let es1 := alter (add_merge to_edge) from_edge (edges b) in
    let es2 := alter (add_merge from_edge) to_edge es1 in
    Some (with_edges b es2).

(** What the uniqueness checker reads off an edge. *)
Definition face (e : Edge) : option Z * Shape := (e_group e, e_shape e).

(** The connections of the connected board, as group collapse needs them. *)
Definition linked_up (es : list Edge) : Prop :=
  forall x e c, es !! x = Some e -> e_connection e = Some c ->
                (c < length es)%nat /\ exists e', es !! c = Some e' /\ e_connection e' <> None.

(** The invariant of the loops of [merge_edges]: only merge sets change,
    and they take up edges of the board. *)
Definition merging (b0 b : Board) : Prop :=
  width b = width b0 /\ height b = height b0 /\ pieces b = pieces b0 /\
  map e_connection (edges b) = map e_connection (edges b0) /\
  refs_valid (edges b) /\
  map face (edges b) = map face (edges b0).

(** What makes a piece this piece: its id and its four edges. *)
Definition piece_key (p : Piece) : Z * Z := (p_id p, p_edges p).

(** The tuple of a piece, from the edge list and the piece's first edge. *)
Definition tuple_at (es : list Edge) (k : Z) : list (option Z * Shape) :=
  map face (Py.slice es k (k + EDGE_COUNT)).

(** The cells outside [l] hold what they held. *)
Definition fixed_outside (l : list Position) (b b' : Board) : Prop :=
  forall pos, inside (width b) (height b) pos -> pos ∉ l ->
              pieces b' !! cell (width b) pos = pieces b !! cell (width b) pos.

(** [y] is in the merge set of edge [x]. *)
Definition merge_rel (es : list Edge) (x y : nat) : Prop :=
  exists ex, es !! x = Some ex /\ y ∈ e_merges ex.

(** Edge [x] has a connection. *)
Definition connected_at (es : list Edge) (x : nat) : Prop :=
  exists e, es !! x = Some e /\ e_connection e <> None.

(** What the round of [merge_edges] at [pos] in direction [d] reads: [x] is
    the slot the cell shows in that direction, [y] the connection of the
    slot the neighbour shows back. *)
Definition seam (b : Board) (pos : Position) (d : Direction) (x y : nat) : Prop :=
  get_edge_index b pos d = Some (Z.of_nat x) /\
  exists a ea, get_edge_index b (step pos d) (inverse d) = Some (Z.of_nat a) /\
               edges b !! a = Some ea /\ e_connection ea = Some y.

(** The invariant of the loops of [merge_edges] on a shuffled board [b0]:
    the merge sets hold what the rounds gone through have read. *)
Definition merged_so_far (w h : Z) (b0 : Board) (done : list (Position * Direction))
    (b : Board) : Prop :=
  merging b0 b /\
  forall x y, merge_rel (edges b) x y <->
              exists pos d, (pos, d) ∈ done /\ inside w h (step pos d) /\
                            (seam b0 pos d x y \/ seam b0 pos d y x).

(** The state of the first loop over the edges: every connected edge gone
    through has a group, every edge with a group is a member of it, and the
    group ids are the numbers below the number of groups. *)
Definition groups_ok (done : list (nat * Edge)) (st : gmap nat nat * gmap nat (list nat))
  : Prop :=
  (forall x e, (x, e) ∈ done -> e_connection e <> None -> is_Some (st.1 !! x)) /\
  (forall x g, st.1 !! x = Some g -> exists grp, st.2 !! g = Some grp /\ x ∈ grp) /\
  (forall g, is_Some (st.2 !! g) -> (g < size st.2)%nat).

(** Every member of every group satisfies [P]. *)
Definition groups_within (P : nat -> Prop) (st : gmap nat nat * gmap nat (list nat)) : Prop :=
  forall g grp y, st.2 !! g = Some grp -> y ∈ grp -> P y.

(** The state of the second loop over the edges: the group of every
    connected edge gone through has an entry. *)
Definition keys_ok (egm : gmap nat nat) (done : list (nat * Edge))
    (gconn : list (nat * list nat)) : Prop :=
  forall x e, (x, e) ∈ done -> e_connection e <> None ->
              exists g, egm !! x = Some g /\ is_Some (Py.dict_get g gconn).

(** The state of the colouring loop: every group gone through has a
    group-group, a group is a member of its group-group, every group-group
    has a shape that is not [Flat], and the group-group ids are the numbers
    below their count. *)
Definition colouring_ok (done : list nat) (st : Colouring) : Prop :=
  (forall g, g ∈ done -> is_Some (st.1.1 !! g)) /\
  (forall g gg, st.1.1 !! g = Some gg -> exists gs, (gg, gs) ∈ st.1.2 /\ g ∈ gs) /\
  (forall gg gs, (gg, gs) ∈ st.1.2 -> exists shape, st.2 !! gg = Some shape /\ shape <> Flat) /\
  map fst st.1.2 = seq 0 (length st.1.2).

(** An edge that has been given a shape and a group id. *)
Definition shaped (e : Edge) : Prop :=
  e_shape e <> Flat /\ exists n : nat, e_group e = Some (Z.of_nat n).

(** From [es] to [es']: connections and merge sets are kept, the edges of
    [T] are shaped, a shaped edge stays shaped, and an edge outside [T]
    is what it was. *)
Definition assigned (T : nat -> Prop) (es es' : list Edge) : Prop :=
  map e_connection es' = map e_connection es /\
  map e_merges es' = map e_merges es /\
  forall x e, es !! x = Some e ->
    exists e', es' !! x = Some e' /\ (T x -> shaped e') /\ (shaped e -> shaped e') /\
               (~ T x -> e' = e).

(** One turn: across by [P], then across by [S]. *)
Definition turn {A} (S P : A -> A -> Prop) (x y : A) : Prop :=
  exists a, P x a /\ S a y.

(** A turn, forwards or backwards. *)
Definition turned {A} (S P : A -> A -> Prop) (x y : A) : Prop :=
  turn S P x y \/ turn S P y x.

(** [k] turns, counted as a relation. *)
Definition turns {A} (S P : A -> A -> Prop) (k : nat) : A -> A -> Prop :=
  Nat.iter k (fun R x y => exists z, turn S P x z /\ R z y) eq.

(** The groups found so far: a member of a group has that group, the edges
    that have a group are closed under the merge sets, and two members of
    one group are linked by merge sets. *)
Definition classes_ok (es : list Edge) (st : gmap nat nat * gmap nat (list nat)) : Prop :=
  (forall g grp y, st.2 !! g = Some grp -> y ∈ grp -> st.1 !! y = Some g) /\
  (forall x y g, st.1 !! x = Some g -> merge_rel es x y -> st.1 !! y = Some g) /\
  (forall g grp y z, st.2 !! g = Some grp -> y ∈ grp -> z ∈ grp ->
                     rtc (merge_rel es) y z).

(** Edge [x] is connected to edge [y]. *)
Definition conn (es : list Edge) (x y : nat) : Prop :=
  exists e, es !! x = Some e /\ e_connection e = Some y.

(** The state of the second loop over the edges, in full: the sets hold no
    group twice and are not empty, every link they hold comes from a
    connection gone through, and every connection gone through is held. *)
Definition links_ok (egm : gmap nat nat) (done : list (nat * Edge))
    (gconn : list (nat * list nat)) : Prop :=
  NoDup (map fst gconn) /\
  (forall g cs, (g, cs) ∈ gconn ->
     NoDup cs /\ cs <> [] /\
     forall c, c ∈ cs -> exists x e y, (x, e) ∈ done /\ e_connection e = Some y /\
                                       egm !! x = Some g /\ egm !! y = Some c) /\
  (forall x e y, (x, e) ∈ done -> e_connection e = Some y ->
     exists g c cs, egm !! x = Some g /\ egm !! y = Some c /\
                    Py.dict_get g gconn = Some cs /\ c ∈ cs).

(** Every group is linked to exactly one group, another one, which is
    linked back to it. *)
Definition paired (gconn : list (nat * list nat)) : Prop :=
  forall g cs, Py.dict_get g gconn = Some cs ->
    exists g', cs = [g'] /\ g' <> g /\ Py.dict_get g' gconn = Some [g].

(** The state of the colouring loop when the groups are paired: every group
    gone through has a group-group of its own, a group-group with an even
    id is a [Knob], one with an odd id a [Socket], and the two groups of a
    pair have the two ids [2 * k] and [2 * k + 1]. *)
Definition pairs_ok (gconn : list (nat * list nat)) (done : list nat) (st : Colouring)
  : Prop :=
  (forall g, g ∈ done -> is_Some (st.1.1 !! g)) /\
  (Nat.even (length st.1.2) = true /\ map fst st.1.2 = seq 0 (length st.1.2)) /\
  (forall g gg, st.1.1 !! g = Some gg ->
     (gg, [g]) ∈ st.1.2 /\
     st.2 !! gg = Some (if Nat.even gg then Knob else Socket) /\
     exists g' gg', Py.dict_get g gconn = Some [g'] /\ st.1.1 !! g' = Some gg' /\
                    (gg / 2 = gg' / 2)%nat /\ Nat.even gg' = negb (Nat.even gg)) /\
  (forall gg gs, (gg, gs) ∈ st.1.2 -> exists g, gs = [g] /\ st.1.1 !! g = Some gg).

(** From [es] to [es']: an edge of [T] has been given the group and the
    shape [v] names for it, an edge outside [T] is what it was. *)
Definition painted (T : nat -> Prop) (v : nat -> Z * Shape) (es es' : list Edge) : Prop :=
  forall x e, es !! x = Some e ->
    exists e', es' !! x = Some e' /\
      (T x -> e' = set_group_shape (v x).1 (v x).2 e) /\
      (e' = e \/ e' = set_group_shape (v x).1 (v x).2 e) /\
      (~ T x -> e' = e).

(** The group and the shape of an edge whose group has the group-group
    [gg]. *)
Definition colour_of (egm ggm : gmap nat nat) (x : nat) : Z * Shape :=
  match egm !! x ≫= (ggm !!.) with
  | Some gg => (Z.of_nat (gg / 2), if Nat.even gg then Knob else Socket)
  | None => (0, Flat)
  end.

(** The slots [x] and [a] face each other across a seam of the arrangement
    of [b]. *)
Definition across (b : Board) (x a : nat) : Prop :=
  exists pos d, in_bounds b pos = true /\ in_bounds b (step pos d) = true /\
                get_edge_index b pos d = Some (Z.of_nat x) /\
                get_edge_index b (step pos d) (inverse d) = Some (Z.of_nat a).

(** The edges [x] and [y] fit: one group id, a [Knob] and a [Socket]. *)
Definition fits (es : list Edge) (x y : nat) : Prop :=
  exists ex ey (n : nat),
    es !! x = Some ex /\ es !! y = Some ey /\
    e_group ex = Some (Z.of_nat n) /\ e_group ey = Some (Z.of_nat n) /\
    ((e_shape ex = Knob /\ e_shape ey = Socket) \/
     (e_shape ex = Socket /\ e_shape ey = Knob)).

(** The edge [x] is flat and has no group. *)
Definition flat_at (es : list Edge) (x : nat) : Prop :=
  exists e, es !! x = Some e /\ e_shape e = Flat /\ e_group e = None.

(** The arrangement of [v] is a jigsaw that fits: at every cell the slot
    shown towards a neighbour fits the slot the neighbour shows back, and
    the slot shown out of the grid is flat. *)
Definition seams_fit (v : Board) : Prop :=
  forall pos d, in_bounds v pos = true ->
    exists x, get_edge_index v pos d = Some (Z.of_nat x) /\
      if in_bounds v (step pos d)
      then exists a, get_edge_index v (step pos d) (inverse d) = Some (Z.of_nat a) /\
                     fits (edges v) x a
      else flat_at (edges v) x.

(** The labels printed on the two sides of every seam of [v] are one
    number, signed [+] on one side and [-] on the other, and the side
    that leads out of the grid has the empty label. *)
Definition labels_match (v : Board) : Prop :=
  forall pos d, in_bounds v pos = true ->
    exists k s,
      get_edge_index v pos d = Some k /\ edge_str v k = Some s /\
      if in_bounds v (step pos d)
      then exists k' s' (n : nat),
             get_edge_index v (step pos d) (inverse d) = Some k' /\
             edge_str v k' = Some s' /\
             ((s = "+" +:+ PyStr.of_int (Z.of_nat n) /\
               s' = "-" +:+ PyStr.of_int (Z.of_nat n)) \/
              (s = "-" +:+ PyStr.of_int (Z.of_nat n) /\
               s' = "+" +:+ PyStr.of_int (Z.of_nat n)))
      else s = "".

(** No line feed in [s]. *)
Fixpoint nl_free (s : string) : bool :=
  match s with
  | EmptyString => true
  | String c r => negb (Ascii.eqb c (ascii_of_nat 10)) && nl_free r
  end.

(** Line [k] of a piece text. *)
Definition line_of (k : nat) (s : string) : string :=
  default "" (PyStr.split_lines s !! k).

(** The segments [board_str] collects for a row of piece texts: the three
    lines of every piece, and a fourth list that stays empty. *)
Definition row_segments (row : list string) : list (list string) :=
  [map (line_of 0) row; map (line_of 1) row; map (line_of 2) row; []].

(** The four text lines of a row of piece texts. *)
Definition row_lines (row : list string) : list string :=
  map (PyStr.join " ") (row_segments row).

(** * Lemmas and theorems *)

(** ** Python subscripts *)

Lemma index_of_lt len k i : Py.index_of len k = Some i -> (i < len)%nat.
Proof.
  unfold Py.index_of. intros H.
  destruct ((0 <=? k) && (k <? Z.of_nat len)) eqn:E1.
  - injection H as <-. apply andb_true_iff in E1 as [? ?]; lia.
  - destruct ((k <? 0) && (- Z.of_nat len <=? k)) eqn:E2; [|discriminate].
    injection H as <-. apply andb_true_iff in E2 as [? ?]; lia.
Qed.

Lemma index_of_nat len (i : nat) : (i < len)%nat -> Py.index_of len (Z.of_nat i) = Some i.
Proof.
  intros H. unfold Py.index_of.
  replace ((0 <=? Z.of_nat i) && (Z.of_nat i <? Z.of_nat len)) with true.
  - by rewrite Nat2Z.id.
  - symmetry. apply andb_true_iff. split; lia.
Qed.

Lemma get_nat {A} (l : list A) (i : nat) : (i < length l)%nat -> Py.get l (Z.of_nat i) = l !! i.
Proof. intros H. unfold Py.get. by rewrite index_of_nat. Qed.

Lemma get_index {A} (l : list A) k x :
  Py.get l k = Some x -> exists i, Py.index_of (length l) k = Some i /\ l !! i = Some x.
Proof.
  unfold Py.get. destruct (Py.index_of (length l) k) as [i|]; [|discriminate].
  simpl. eauto.
Qed.

(** ** The uniqueness checker *)
Lemma unique_from_false b ps seen :
  unique_from b ps seen = false <->
  (exists i p, ps !! i = Some p /\ out_piece b p ∈ seen) \/
  (exists i j p q, (i < j)%nat /\ ps !! i = Some p /\ ps !! j = Some q /\
                   out_piece b p = out_piece b q).
Proof.
  revert seen. induction ps as [|p ps IH]; intros seen; simpl.
  - split; [discriminate|].
    intros [(i & p & H & _)|(i & j & p & q & _ & H & _)]; by rewrite lookup_nil in H.
  - destruct (decide (out_piece b p ∈ seen)) as [Hin|Hnin].
    + split; [|done]. intros _. left. by exists 0%nat, p.
    + rewrite IH. split.
      * intros [(i & q & Hq & Hs)|(i & j & q & r & Hij & Hq & Hr & E)].
        -- apply elem_of_cons in Hs as [Hs|Hs].
           ++ right. exists 0%nat, (S i), p, q. split_and!; try done; lia.
           ++ left. by exists (S i), q.
        -- right. exists (S i), (S j), q, r. split_and!; try done; lia.
      * intros [(i & q & Hq & Hs)|(i & j & q & r & Hij & Hq & Hr & E)].
        -- destruct i as [|i]; simpl in Hq.
           ++ injection Hq as <-. done.
           ++ left. exists i, q. split; [done|]. by apply elem_of_cons; right.
        -- destruct j as [|j]; [lia|]. simpl in Hr.
           destruct i as [|i]; simpl in Hq.
           ++ injection Hq as <-. left. exists j, r. split; [done|].
              apply elem_of_cons; left. done.
           ++ right. exists i, j, q, r. split_and!; try done; lia.
Qed.

(** C3, as amended: [check_all_unique] answers [False] exactly when two
    pieces of the piece list have the same tuple of (group, shape) pairs
    read off their four edge slots in storage order, [piece.edges] to
    [piece.edges + 3], whatever their rotations.  The check is a function of
    the board and changes nothing. *)
Theorem check_all_unique_slot_order b :
  check_all_unique b = false <->
  exists i j p q, (i < j)%nat /\ pieces b !! i = Some p /\ pieces b !! j = Some q /\
                  out_piece b p = out_piece b q.
Proof.
  unfold check_all_unique. rewrite unique_from_false. split.
  - intros [(i & p & _ & H)|H]; [|done]. by apply elem_of_nil in H.
  - intros H. by right.
Qed.

(** ** Counting unconnected slots piece by piece *)

Lemma none_count_piece b pos :
  none_count b pos = Py.get (pieces b) (get_piece_index b pos) ≫= piece_none_count (edges b).
Proof.
  unfold none_count, piece_none_count, unconnected, piece_unconnected, get_edge_index.
  destruct (Py.get (pieces b) (get_piece_index b pos)) as [p|]; reflexivity.
Qed.

Ltac eval_mod4 :=
  repeat match goal with
         | |- context [?a `mod` 4] =>
             let v := eval vm_compute in (a `mod` 4) in
             change (a `mod` 4) with v
         end.

Lemma piece_none_count_slots es p q :
  p_edges p = p_edges q -> piece_none_count es p = piece_none_count es q.
Proof.
  destruct p as [i1 base r1], q as [i2 base' r2]. simpl. intros <-.
  unfold piece_none_count, piece_unconnected, all_directions, EDGE_COUNT.
  destruct r1, r2; simpl; eval_mod4;
    destruct (Py.get es (base + 0)) as [e0|], (Py.get es (base + 1)) as [e1|],
             (Py.get es (base + 2)) as [e2|], (Py.get es (base + 3)) as [e3|];
    simpl; try reflexivity; f_equal; lia.
Qed.

Lemma same_counts_refl es ps : same_counts es ps ps.
Proof. by split. Qed.

Lemma same_counts_trans es ps qs rs :
  same_counts es ps qs -> same_counts es qs rs -> same_counts es ps rs.
Proof.
  intros [L1 H1] [L2 H2]. split; [congruence|].
  intros n. by rewrite H1, H2.
Qed.

Lemma same_counts_rotation es ps r i :
  same_counts es (alter (set_rotation r) i ps) ps.
Proof.
  split; [apply length_alter|]. intros n.
  rewrite list_lookup_alter. case_decide as E; [|done].
  subst n. destruct (ps !! i) as [p|]; [|done]. simpl.
  by apply piece_none_count_slots.
Qed.

Lemma same_counts_exchange es ps fi ti fp tp :
  ps !! fi = Some fp -> ps !! ti = Some tp ->
  piece_none_count es fp = piece_none_count es tp ->
  same_counts es (<[ti := fp]> (<[fi := tp]> ps)) ps.
Proof.
  intros Hf Ht E. split; [by rewrite !length_insert|]. intros n.
  apply lookup_lt_Some in Hf as Lf. apply lookup_lt_Some in Ht as Lt.
  destruct (decide (n = ti)) as [->|N1].
  - rewrite list_lookup_insert_eq by (by rewrite length_insert).
    rewrite Ht. simpl. done.
  - rewrite list_lookup_insert_ne by done.
    destruct (decide (n = fi)) as [->|N2].
    + rewrite list_lookup_insert_eq by done. rewrite Hf. simpl. done.
    + by rewrite list_lookup_insert_ne.
Qed.

Lemma none_count_same_counts b b' :
  width b' = width b -> edges b' = edges b ->
  same_counts (edges b) (pieces b') (pieces b) ->
  forall pos, none_count b' pos = none_count b pos.
Proof.
  intros W E [L H] pos. rewrite !none_count_piece.
  unfold Py.get, get_piece_index. rewrite W, E, L.
  destruct (Py.index_of (length (pieces b)) (pos.1 * width b + pos.2)) as [n|]; [|done].
  simpl. apply H.
Qed.

Lemma exchange_rotations_result b x y b' :
  exchange_rotations b x y = Some b' ->
  width b' = width b /\ height b' = height b /\ edges b' = edges b /\
  same_counts (edges b) (pieces b') (pieces b).
Proof.
  unfold exchange_rotations. intros H.
  destruct (Py.get (pieces b) (get_piece_index b x)) as [fp|]; [|discriminate].
  destruct (Py.get (pieces b) (get_piece_index b y)) as [tp|]; [|discriminate].
  destruct (Py.index_of (length (pieces b)) (get_piece_index b x)) as [fi|]; [|discriminate].
  destruct (Py.index_of (length (pieces b)) (get_piece_index b y)) as [ti|]; [|discriminate].
  simpl in H. injection H as <-. simpl. split_and!; try done.
  eapply same_counts_trans; apply same_counts_rotation.
Qed.

Lemma exchange_rotations_Some b x y fp tp :
  Py.get (pieces b) (get_piece_index b x) = Some fp ->
  Py.get (pieces b) (get_piece_index b y) = Some tp ->
  is_Some (exchange_rotations b x y).
Proof.
  intros Hf Ht. unfold exchange_rotations. rewrite Hf, Ht. simpl.
  apply get_index in Hf as (fi & -> & _). apply get_index in Ht as (ti & -> & _).
  simpl. eauto.
Qed.

Lemma swap_pieces_result b x y b' :
  swap_pieces b x y = Some b' ->
  Py.get (pieces b) (get_piece_index b x) ≫= piece_none_count (edges b) =
  Py.get (pieces b) (get_piece_index b y) ≫= piece_none_count (edges b) ->
  width b' = width b /\ height b' = height b /\ edges b' = edges b /\
  same_counts (edges b) (pieces b') (pieces b).
Proof.
  unfold swap_pieces. intros H.
  destruct (Py.get (pieces b) (get_piece_index b y)) as [tp|] eqn:Ht; [|discriminate].
  destruct (Py.get (pieces b) (get_piece_index b x)) as [fp|] eqn:Hf; [|discriminate].
  apply get_index in Hf as (fi & Ef & Hf). apply get_index in Ht as (ti & Et & Ht).
  rewrite Ef, Et in H. simpl in H. injection H as <-. simpl. intros E.
  split_and!; try done. by eapply same_counts_exchange.
Qed.

Lemma swap_pieces_Some b x y fp tp :
  Py.get (pieces b) (get_piece_index b x) = Some fp ->
  Py.get (pieces b) (get_piece_index b y) = Some tp ->
  is_Some (swap_pieces b x y).
Proof.
  intros Hf Ht. unfold swap_pieces. rewrite Hf, Ht. simpl.
  apply get_index in Hf as (fi & -> & _). apply get_index in Ht as (ti & -> & _).
  simpl. eauto.
Qed.

Lemma none_count_Some_piece b pos c :
  none_count b pos = Some c ->
  exists p, Py.get (pieces b) (get_piece_index b pos) = Some p /\
            piece_none_count (edges b) p = Some c.
Proof.
  rewrite none_count_piece.
  destruct (Py.get (pieces b) (get_piece_index b pos)) as [p|]; [|discriminate].
  simpl. eauto.
Qed.

(** What a call of [swap] leaves in place, whatever it answers. *)
Lemma swap_result b x y r b' :
  swap b x y = Some (r, b') ->
  width b' = width b /\ height b' = height b /\ edges b' = edges b /\
  same_counts (edges b) (pieces b') (pieces b).
Proof.
  unfold swap. intros H.
  destruct (none_count b x) as [cx|] eqn:Hx; [|discriminate].
  destruct (none_count b y) as [cy|] eqn:Hy; [|discriminate].
  simpl in H. destruct (cx =? cy) eqn:E; simpl in H.
  2:{ injection H as <- <-. split_and!; try done; apply same_counts_refl. }
  apply Z.eqb_eq in E. subst cy.
  assert (exists b1, (if 0 <? cx then exchange_rotations b x y else Some b) = Some b1 /\
                     width b1 = width b /\ height b1 = height b /\ edges b1 = edges b /\
                     same_counts (edges b) (pieces b1) (pieces b)) as (b1 & E1 & W1 & H1 & Ed1 & S1).
  { destruct (0 <? cx).
    - destruct (exchange_rotations b x y) as [b1|] eqn:E1; [|discriminate].
      exists b1. split; [done|]. by apply exchange_rotations_result in E1.
    - exists b. split_and!; try done; apply same_counts_refl. }
  rewrite E1 in H. simpl in H.
  destruct (swap_pieces b1 x y) as [b2|] eqn:E2; [|discriminate].
  simpl in H. injection H as <- <-.
  apply swap_pieces_result in E2 as (W2 & H2 & Ed2 & S2).
  - rewrite W2, H2, Ed2. split_and!; try done.
    rewrite Ed1 in S2. by eapply same_counts_trans.
  - rewrite <- !none_count_piece.
    rewrite !(none_count_same_counts b b1) by done. congruence.
Qed.

(** Equal counts make [swap] succeed. *)
Lemma swap_equal_counts b x y c :
  none_count b x = Some c -> none_count b y = Some c ->
  exists b', swap b x y = Some (true, b').
Proof.
  intros Hx Hy. unfold swap. rewrite Hx, Hy. simpl. rewrite Z.eqb_refl. simpl.
  apply none_count_Some_piece in Hx as Px. destruct Px as (fp & Pf & _).
  apply none_count_Some_piece in Hy as Py. destruct Py as (tp & Pt & _).
  assert (exists b1, (if 0 <? c then exchange_rotations b x y else Some b) = Some b1 /\
                     width b1 = width b /\ length (pieces b1) = length (pieces b))
    as (b1 & -> & W1 & L1).
  { destruct (0 <? c).
    - destruct (exchange_rotations_Some b x y fp tp Pf Pt) as [b1 E1].
      exists b1. split; [done|].
      apply exchange_rotations_result in E1 as (? & ? & ? & [? _]). done.
    - by exists b. }
  simpl.
  assert (is_Some (swap_pieces b1 x y)) as [b2 ->]; [|simpl; eauto].
  unfold swap_pieces, Py.get, get_piece_index. rewrite W1, L1.
  unfold Py.get, get_piece_index in Pf, Pt.
  destruct (Py.index_of (length (pieces b)) (x.1 * width b + x.2)) as [fi|]; [|discriminate].
  destruct (Py.index_of (length (pieces b)) (y.1 * width b + y.2)) as [ti|]; [|discriminate].
  simpl in *. apply lookup_lt_Some in Pf, Pt. rewrite <- L1 in Pf, Pt.
  apply lookup_lt_is_Some in Pf as [? ->]. apply lookup_lt_is_Some in Pt as [? ->].
  simpl. eauto.
Qed.

(** C8: when the two cells have different counts of unconnected slots,
    [swap] answers [False] and hands back the board as it was: the pieces,
    and with them the identity and the rotation at both cells, are
    unchanged. *)
Theorem swap_mismatch_fails b x y cx cy :
  none_count b x = Some cx -> none_count b y = Some cy -> cx <> cy ->
  swap b x y = Some (false, b).
Proof.
  intros Hx Hy N. unfold swap. rewrite Hx, Hy. simpl.
  apply Z.eqb_neq in N. by rewrite N.
Qed.

(** ** What the shuffle engine keeps *)

Lemma preserved_refl b : preserved b b.
Proof. split_and!; try done; apply same_counts_refl. Qed.

Lemma preserved_trans b1 b2 b3 : preserved b1 b2 -> preserved b2 b3 -> preserved b1 b3.
Proof.
  intros (W1 & H1 & E1 & S1) (W2 & H2 & E2 & S2).
  split_and!; try congruence. rewrite E1 in S2. by eapply same_counts_trans.
Qed.

Lemma preserved_none_count b b' pos : preserved b b' -> none_count b' pos = none_count b pos.
Proof. intros (W & _ & E & S). by apply none_count_same_counts. Qed.

Lemma assert_swap_result b x y b' : assert_swap b x y = Some b' -> preserved b b'.
Proof.
  unfold assert_swap. destruct (swap b x y) as [[[] b1]|] eqn:E; try discriminate.
  intros [= <-]. by apply swap_result in E.
Qed.

Lemma assert_swap_Some b x y c :
  none_count b x = Some c -> none_count b y = Some c -> is_Some (assert_swap b x y).
Proof.
  intros Hx Hy. destruct (swap_equal_counts b x y c Hx Hy) as [b' E].
  unfold assert_swap. rewrite E. eauto.
Qed.

Lemma assign_rotation_result b pos r b' : assign_rotation b pos r = Some b' -> preserved b b'.
Proof.
  unfold assign_rotation.
  destruct (Py.index_of (length (pieces b)) (get_piece_index b pos)) as [i|]; [|discriminate].
  simpl. intros [= <-]. split_and!; try done; apply same_counts_rotation.
Qed.

Lemma assign_rotation_Some b pos r c :
  none_count b pos = Some c -> is_Some (assign_rotation b pos r).
Proof.
  intros H. apply none_count_Some_piece in H as (p & Hp & _).
  apply get_index in Hp as (i & Hi & _). unfold assign_rotation. rewrite Hi. simpl. eauto.
Qed.

(** Induction over a list taken three cells at a time. *)
Lemma triples_ind {A} (P : list A -> Prop) :
  P [] -> (forall a, P [a]) -> (forall a b, P [a; b]) ->
  (forall a b c l, P l -> P (a :: b :: c :: l)) ->
  forall l, P l.
Proof.
  intros H0 H1 H2 H3. fix IH 1.
  intros [|a [|b [|c l]]]; [apply H0|apply H1|apply H2|apply H3, IH].
Qed.

Lemma cycle_border_result l : forall b b', cycle_border l b = Some b' -> preserved b b'.
Proof.
  induction l as [|x0|x0 x1|e0 e1 e2 l IH] using triples_ind; intros b b' H;
    try (injection H as <-; apply preserved_refl).
  simpl in H.
  destruct (assert_swap b e0 e1) as [b1|] eqn:E1; [|discriminate]. simpl in H.
  destruct (assert_swap b1 e0 e2) as [b2|] eqn:E2; [|discriminate]. simpl in H.
  apply assert_swap_result in E1, E2. apply IH in H.
  eauto using preserved_trans.
Qed.

Lemma cycle_centers_result rnd l : forall k b b', cycle_centers rnd k l b = Some b' -> preserved b b'.
Proof.
  induction l as [|x0|x0 x1|c0 c1 c2 l IH] using triples_ind; intros k b b' H;
    try (injection H as <-; apply preserved_refl).
  simpl in H.
  destruct (assert_swap b c0 c1) as [b1|] eqn:E1; [|discriminate]. simpl in H.
  destruct (assert_swap b1 c0 c2) as [b2|] eqn:E2; [|discriminate]. simpl in H.
  destruct (assign_rotation b2 c0 (choice rnd k)) as [b3|] eqn:E3; [|discriminate]. simpl in H.
  apply assert_swap_result in E1, E2. apply assign_rotation_result in E3. apply IH in H.
  eauto using preserved_trans.
Qed.

Lemma shuffle_result rnd b b' : shuffle rnd b = Some b' -> preserved b b'.
Proof.
  unfold shuffle. intros H.
  destruct (cycle_border _ b) as [b1|] eqn:E1; [|discriminate]. simpl in H.
  apply cycle_border_result in E1. apply cycle_centers_result in H.
  eauto using preserved_trans.
Qed.

Lemma Forall_count_preserved b b' c (l : list (Z * Z)) :
  preserved b b' ->
  Forall (fun pos => none_count b pos = Some c) l ->
  Forall (fun pos => none_count b' pos = Some c) l.
Proof.
  intros P F. eapply Forall_impl; [exact F|].
  intros pos H. simpl. by rewrite (preserved_none_count b b').
Qed.

Lemma cycle_border_Some c l :
  forall b, Forall (fun pos => none_count b pos = Some c) l -> is_Some (cycle_border l b).
Proof.
  induction l as [|x0|x0 x1|e0 e1 e2 l IH] using triples_ind; intros b F; try (simpl; eauto; fail).
  apply Forall_cons in F as [F0 F]. apply Forall_cons in F as [F1 F].
  apply Forall_cons in F as [F2 F]. simpl.
  destruct (assert_swap_Some b e0 e1 c F0 F1) as [b1 E1]. rewrite E1. simpl.
  apply assert_swap_result in E1 as P1.
  destruct (assert_swap_Some b1 e0 e2 c) as [b2 E2];
    [by rewrite (preserved_none_count b b1)..|].
  rewrite E2. simpl. apply assert_swap_result in E2 as P2.
  apply IH. eapply Forall_count_preserved; [|done]. eauto using preserved_trans.
Qed.

Lemma cycle_centers_Some rnd c l :
  forall k b, Forall (fun pos => none_count b pos = Some c) l ->
              is_Some (cycle_centers rnd k l b).
Proof.
  induction l as [|x0|x0 x1|c0 c1 c2 l IH] using triples_ind; intros k b F; try (simpl; eauto; fail).
  apply Forall_cons in F as [F0 F]. apply Forall_cons in F as [F1 F].
  apply Forall_cons in F as [F2 F]. simpl.
  destruct (assert_swap_Some b c0 c1 c F0 F1) as [b1 E1]. rewrite E1. simpl.
  apply assert_swap_result in E1 as P1.
  destruct (assert_swap_Some b1 c0 c2 c) as [b2 E2];
    [by rewrite (preserved_none_count b b1)..|].
  rewrite E2. simpl. apply assert_swap_result in E2 as P2.
  destruct (assign_rotation_Some b2 c0 (choice rnd k) c) as [b3 E3].
  { rewrite (preserved_none_count b1 b2), (preserved_none_count b b1); done. }
  rewrite E3. simpl. apply assign_rotation_result in E3 as P3.
  apply IH. eapply Forall_count_preserved; [|done]. eauto using preserved_trans.
Qed.

Lemma center_candidates_preserved b b' : preserved b b' -> center_candidates b' = center_candidates b.
Proof. intros (W & H & _). unfold center_candidates. by rewrite W, H. Qed.

Lemma Forall_permuted {A} (P : A -> Prop) l l' : Permutation l' l -> Forall P l -> Forall P l'.
Proof. intros Hp F. by rewrite Hp. Qed.

(** [shuffle] runs to its end when the two candidate lists are uniform. *)
Lemma shuffle_Some rnd b :
  fair rnd ->
  Forall (fun pos => none_count b pos = Some 1) (border_candidates b) ->
  Forall (fun pos => none_count b pos = Some 0) (center_candidates b) ->
  is_Some (shuffle rnd b).
Proof.
  intros [Fb Fc] Hb Hc. unfold shuffle.
  destruct (cycle_border_Some 1 (shuffle_border rnd (border_candidates b)) b) as [b1 E1].
  { eapply Forall_permuted; [apply Fb|done]. }
  rewrite E1. simpl. apply cycle_border_result in E1 as P1.
  apply cycle_centers_Some with (c := 0).
  rewrite (center_candidates_preserved b b1) by done.
  eapply Forall_permuted; [apply Fc|]. by eapply Forall_count_preserved.
Qed.

(** C6: a run of [shuffle] that returns leaves every edge, so every
    [connection] field, as it was, and the count of unconnected slots at
    every cell is the same after it as before. *)
Theorem shuffle_keeps_connections rnd b b' :
  shuffle rnd b = Some b' ->
  edges b' = edges b /\ forall pos, none_count b' pos = none_count b pos.
Proof.
  intros H. apply shuffle_result in H. split.
  - by destruct H as (_ & _ & E & _).
  - intros pos. by apply preserved_none_count.
Qed.

(** ** The constructed grid *)

Lemma range_to_nat n : Py.range n = map Z.of_nat (seq 0 (Z.to_nat n)).
Proof.
  unfold Py.range, Py.range2. rewrite Z.sub_0_r.
  apply map_ext. intros k. lia.
Qed.

#[local] Arguments add_piece : simpl never.

Lemma add_piece_spec w h i j ps es :
  add_piece w h i j (ps, es) =
  (ps ++ [mkPiece (Z.of_nat (length ps)) (Z.of_nat (length es)) (initial_rotation w h i j)],
   es ++ replicate 4 new_edge).
Proof.
  unfold add_piece. f_equal. change (Py.range EDGE_COUNT) with [0; 1; 2; 3].
  simpl. by rewrite <- !app_assoc.
Qed.

Lemma add_row_spec w h i n : forall ps es,
  foldl (fun st j => add_piece w h i j st) (ps, es) (map Z.of_nat (seq 0 n)) =
  (ps ++ map (fun j : nat => mkPiece (Z.of_nat (length ps + j)) (Z.of_nat (length es + 4 * j))
                       (initial_rotation w h i (Z.of_nat j))) (seq 0 n),
   es ++ replicate (4 * n) new_edge).
Proof.
  induction n as [|n IH]; intros ps es.
  - simpl. by rewrite !app_nil_r.
  - replace (4 * S n)%nat with (4 * n + 4)%nat by lia. rewrite replicate_add.
    rewrite seq_S, !map_app, foldl_app, IH. cbn [map foldl].
    rewrite add_piece_spec. rewrite !length_app, !length_map, !length_seq, !length_replicate.
    rewrite <- !app_assoc. rewrite Nat.add_0_l. reflexivity.
Qed.

Lemma piece_at_cell w h (i j : nat) :
  (j < Z.to_nat w)%nat ->
  piece_at w h (Z.of_nat (i * Z.to_nat w + j)) =
  mkPiece (Z.of_nat (i * Z.to_nat w + j)) (Z.of_nat (4 * (i * Z.to_nat w) + 4 * j))
          (initial_rotation w h (Z.of_nat i) (Z.of_nat j)).
Proof.
  intros Hj. unfold piece_at.
  assert (0 < w) by lia.
  assert (Z.of_nat (i * Z.to_nat w + j) = Z.of_nat i * w + Z.of_nat j) as -> by lia.
  f_equal; [lia|]. f_equal.
  - symmetry. apply (Z.div_unique _ _ _ (Z.of_nat j)); lia.
  - symmetry. apply (Z.mod_unique _ _ (Z.of_nat i)); lia.
Qed.

Lemma add_rows_spec w h m :
  foldl (fun st i => foldl (fun st' j => add_piece w h i j st') st (Py.range w))
        ([], []) (map Z.of_nat (seq 0 m)) =
  (map (fun k : nat => piece_at w h (Z.of_nat k)) (seq 0 (m * Z.to_nat w)),
   replicate (4 * (m * Z.to_nat w)) new_edge).
Proof.
  induction m as [|m IH].
  - reflexivity.
  - rewrite seq_S, map_app, foldl_app, IH. cbn [map foldl].
    rewrite range_to_nat, add_row_spec.
    rewrite length_map, length_seq, length_replicate.
    replace (S m * Z.to_nat w)%nat with (m * Z.to_nat w + Z.to_nat w)%nat by lia.
    rewrite seq_app, map_app, <- replicate_add. f_equal.
    + f_equal.
      replace (seq (0 + m * Z.to_nat w) (Z.to_nat w))
        with (map (Nat.add (m * Z.to_nat w)) (seq 0 (Z.to_nat w)))
        by (transitivity (seq (m * Z.to_nat w + 0) (Z.to_nat w));
            [exact (fmap_add_seq (m * Z.to_nat w) 0 (Z.to_nat w))|f_equal; lia]).
      rewrite map_map.
      apply map_ext_in. intros j Hj. apply in_seq in Hj.
      rewrite piece_at_cell by lia. done.
    + f_equal. lia.
Qed.

Lemma new_board_spec w h :
  1 < w -> 1 < h ->
  new_board w h =
  Some (mkBoard w h (map (fun k : nat => piece_at w h (Z.of_nat k)) (seq 0 (Z.to_nat (w * h))))
                (replicate (Z.to_nat (4 * (w * h))) new_edge)).
Proof.
  intros Hw Hh. unfold new_board.
  replace ((1 <? w) && (1 <? h)) with true by (symmetry; apply andb_true_iff; lia).
  rewrite (range_to_nat h), add_rows_spec.
  do 3 f_equal; [f_equal|]; lia.
Qed.

(** ** Loops with an invariant *)

Lemma for_in_app {A S} (xs ys : list A) (body : A -> S -> option (bool * S)) s :
  for_in (xs ++ ys) body s =
  match for_in xs body s with
  | Some (true, s') => for_in ys body s'
  | other => other
  end.
Proof.
  revert s. induction xs as [|x xs IH]; intros s; simpl; [done|].
  destruct (body x s) as [[[] s']|]; auto.
Qed.

Lemma for_in_flat_map {A B S} (f : A -> list B) (xs : list A)
    (body : B -> S -> option (bool * S)) s :
  for_in (flat_map f xs) body s = for_in xs (fun x => for_in (f x) body) s.
Proof.
  revert s. induction xs as [|x xs IH]; intros s; simpl; [done|].
  rewrite for_in_app. destruct (for_in (f x) body s) as [[[] s']|]; auto.
Qed.

Lemma for_in_map {A B S} (g : A -> B) (xs : list A) (body : B -> S -> option (bool * S)) s :
  for_in (map g xs) body s = for_in xs (fun x => body (g x)) s.
Proof.
  revert s. induction xs as [|x xs IH]; intros s; simpl; [done|].
  destruct (body (g x) s) as [[[] s']|]; auto.
Qed.

Lemma for_in_ext {A S} (xs : list A) (body body' : A -> S -> option (bool * S)) s :
  (forall x s, body x s = body' x s) -> for_in xs body s = for_in xs body' s.
Proof.
  intros E. revert s. induction xs as [|x xs IH]; intros s; simpl; [done|].
  rewrite E. destruct (body' x s) as [[[] s']|]; auto.
Qed.

(** A loop whose every round succeeds and re-establishes [I], which may
    mention the part of the list already gone through. *)
Lemma for_in_invariant {A S} (I : list A -> S -> Prop) (body : A -> S -> option (bool * S)) :
  forall rest done s,
    I done s ->
    (forall done' x rest' s', done ++ rest = done' ++ x :: rest' -> I done' s' ->
       exists s'', body x s' = Some (true, s'') /\ I (done' ++ [x]) s'') ->
    exists s', for_in rest body s = Some (true, s') /\ I (done ++ rest) s'.
Proof.
  induction rest as [|x rest IH]; intros done s HI Hstep; simpl.
  - exists s. by rewrite app_nil_r.
  - destruct (Hstep done x rest s eq_refl HI) as (s1 & -> & HI1).
    destruct (IH (done ++ [x]) s1 HI1) as (s2 & E & HI2).
    + intros done' y rest' s' Eq. apply (Hstep done' y rest').
      by rewrite <- Eq, <- app_assoc.
    + exists s2. split; [done|]. by rewrite <- app_assoc in HI2.
Qed.

Lemma for_each_invariant {A S} (I : list A -> S -> Prop) (body : A -> S -> option S) :
  forall rest done s,
    I done s ->
    (forall done' x rest' s', done ++ rest = done' ++ x :: rest' -> I done' s' ->
       exists s'', body x s' = Some s'' /\ I (done' ++ [x]) s'') ->
    exists s', for_each rest body s = Some s' /\ I (done ++ rest) s'.
Proof.
  induction rest as [|x rest IH]; intros done s HI Hstep; simpl.
  - exists s. by rewrite app_nil_r.
  - destruct (Hstep done x rest s eq_refl HI) as (s1 & -> & HI1). simpl.
    destruct (IH (done ++ [x]) s1 HI1) as (s2 & E & HI2).
    + intros done' y rest' s' Eq. apply (Hstep done' y rest').
      by rewrite <- Eq, <- app_assoc.
    + exists s2. split; [done|]. by rewrite <- app_assoc in HI2.
Qed.

Lemma for_each_Some {A S} (body : A -> S -> option S) xs :
  (forall x s, x ∈ xs -> is_Some (body x s)) -> forall s, is_Some (for_each xs body s).
Proof.
  induction xs as [|x xs IH]; intros H s; simpl; [eauto|].
  destruct (H x s) as [s' ->]; [apply elem_of_cons; by left|]. simpl.
  apply IH. intros y s'' Hy. apply H. apply elem_of_cons. by right.
Qed.

(** A loop no round of which answers [False] does not answer [False]. *)
Lemma for_in_true {A S} (body : A -> S -> option (bool * S)) xs :
  (forall x s r s', body x s = Some (r, s') -> r = true) ->
  forall s r s', for_in xs body s = Some (r, s') -> r = true.
Proof.
  intros H. induction xs as [|x xs IH]; intros s r s'; simpl.
  - by intros [= <- _].
  - destruct (body x s) as [[[] s1]|] eqn:E; [apply IH| |done].
    intros [= <- _]. by apply H in E.
Qed.

(** ** Cells, directions and slots of the constructed grid *)

Lemma inverse_inverse d : inverse (inverse d) = d.
Proof. by destruct d. Qed.

Lemma step_back pos d : step (step pos d) (inverse d) = pos.
Proof. destruct pos as [i j], d; unfold step; simpl; f_equal; lia. Qed.

Lemma in_bounds_inside b pos : in_bounds b pos = true <-> inside (width b) (height b) pos.
Proof.
  unfold in_bounds, inside. rewrite !andb_true_iff. lia.
Qed.

Lemma in_bounds_outside b pos : in_bounds b pos = false <-> ~ inside (width b) (height b) pos.
Proof. rewrite <- in_bounds_inside. by destruct (in_bounds b pos). Qed.

Lemma slot_offset_range r d : 0 <= slot_offset r d < 4.
Proof. destruct r, d; vm_compute; split; congruence. Qed.

Lemma slot_offset_inj r d d' : slot_offset r d = slot_offset r d' -> d = d'.
Proof. destruct r, d, d'; vm_compute; congruence. Qed.

Lemma slot_offset_surj r s : 0 <= s < 4 -> exists d, slot_offset r d = s.
Proof.
  intros Hs. assert (s = 0 \/ s = 1 \/ s = 2 \/ s = 3) as [-> | [-> | [-> | ->]]] by lia;
    destruct r;
    first [by exists Up | by exists Right | by exists Down | by exists Left].
Qed.

Lemma cell_index_inj w i j i' j' :
  0 <= j < w -> 0 <= j' < w -> i * w + j = i' * w + j' -> i = i' /\ j = j'.
Proof.
  intros Hj Hj' E.
  assert (i = i') as -> by nia. split; [done|lia].
Qed.

Lemma slot_range w h pos d : inside w h pos -> 0 <= slot w h pos d < 4 * (w * h).
Proof.
  intros [Hi Hj]. unfold slot. pose proof (slot_offset_range (initial_rotation w h pos.1 pos.2) d).
  split; [nia|]. assert (pos.1 * w + pos.2 < w * h) by nia. lia.
Qed.

Lemma slot_inj w h pos d pos' d' :
  inside w h pos -> inside w h pos' -> slot w h pos d = slot w h pos' d' ->
  pos = pos' /\ d = d'.
Proof.
  intros [Hi Hj] [Hi' Hj']. unfold slot. intros E.
  pose proof (slot_offset_range (initial_rotation w h pos.1 pos.2) d).
  pose proof (slot_offset_range (initial_rotation w h pos'.1 pos'.2) d').
  assert (pos.1 * w + pos.2 = pos'.1 * w + pos'.2) as Ek by lia.
  apply cell_index_inj in Ek as [E1 E2]; [|done..].
  destruct pos as [i j], pos' as [i' j']. simpl in *. subst i' j'.
  split; [done|]. apply (slot_offset_inj (initial_rotation w h i j)). lia.
Qed.

Lemma slot_surj w h x :
  0 < w -> 0 <= x < 4 * (w * h) -> exists pos d, inside w h pos /\ slot w h pos d = x.
Proof.
  intros Hw Hx.
  set (k := x / 4). set (s := x `mod` 4).
  assert (x = 4 * k + s) by (unfold k, s; apply Z.div_mod; lia).
  assert (0 <= s < 4) by (unfold s; apply Z.mod_pos_bound; lia).
  assert (0 <= k < w * h) by lia.
  set (i := k / w). set (j := k `mod` w).
  assert (k = w * i + j) by (unfold i, j; apply Z.div_mod; lia).
  assert (0 <= j < w) by (unfold j; apply Z.mod_pos_bound; lia).
  assert (0 <= i < h) by nia.
  destruct (slot_offset_surj (initial_rotation w h i j) s) as [d Hd]; [done|].
  exists (i, j), d. split; [done|]. unfold slot. simpl. lia.
Qed.

Lemma cell_index_range w h pos : inside w h pos -> 0 <= pos.1 * w + pos.2 < w * h.
Proof. intros [Hi Hj]. split; [nia|]. nia. Qed.

Lemma grid_pieces_lookup w h (k : nat) :
  (k < Z.to_nat (w * h))%nat -> grid_pieces w h !! k = Some (piece_at w h (Z.of_nat k)).
Proof.
  intros Hk. unfold grid_pieces.
  change (map ?f ?l) with (f <$> l). rewrite list_lookup_fmap, lookup_seq_lt by done.
  done.
Qed.

Lemma length_grid_pieces w h : length (grid_pieces w h) = Z.to_nat (w * h).
Proof. unfold grid_pieces. by rewrite length_map, length_seq. Qed.

Lemma get_nonneg {A} (l : list A) k :
  0 <= k < Z.of_nat (length l) -> Py.get l k = l !! Z.to_nat k.
Proof.
  intros Hk. rewrite <- (Z2Nat.id k) at 1 by lia. apply get_nat. lia.
Qed.

Lemma index_of_nonneg len k :
  0 <= k < Z.of_nat len -> Py.index_of len k = Some (Z.to_nat k).
Proof.
  intros Hk. rewrite <- (Z2Nat.id k) at 1 by lia. apply index_of_nat. lia.
Qed.

Lemma grid_pieces_get w h pos :
  inside w h pos ->
  Py.get (grid_pieces w h) (pos.1 * w + pos.2) = Some (piece_at w h (pos.1 * w + pos.2)).
Proof.
  intros Hp. apply cell_index_range in Hp as Hk.
  rewrite get_nonneg by (rewrite length_grid_pieces; lia).
  rewrite grid_pieces_lookup by lia. by rewrite Z2Nat.id by lia.
Qed.

Lemma piece_at_inside w h pos :
  inside w h pos ->
  piece_at w h (pos.1 * w + pos.2) =
  mkPiece (pos.1 * w + pos.2) (4 * (pos.1 * w + pos.2)) (initial_rotation w h pos.1 pos.2).
Proof.
  intros [Hi Hj]. unfold piece_at. f_equal. f_equal.
  - symmetry. apply (Z.div_unique _ _ _ pos.2); lia.
  - symmetry. apply (Z.mod_unique _ _ pos.1); lia.
Qed.

Lemma get_edge_index_solved b pos d :
  pieces b = grid_pieces (width b) (height b) ->
  inside (width b) (height b) pos ->
  get_edge_index b pos d = Some (slot (width b) (height b) pos d).
Proof.
  intros Hp Hin. unfold get_edge_index, get_piece_index.
  rewrite Hp, grid_pieces_get, piece_at_inside by done. reflexivity.
Qed.

Lemma directions_choice pos d :
  (if pos.1 <? (step pos d).1 then Some (Down, Up)
   else if (step pos d).1 <? pos.1 then Some (Up, Down)
   else if pos.2 <? (step pos d).2 then Some (Right, Left)
   else if (step pos d).2 <? pos.2 then Some (Left, Right)
   else None) = Some (d, inverse d).
Proof.
  destruct pos as [i j], d; unfold step; simpl;
    repeat match goal with
           | |- context [?x <? ?y] => destruct (Z.ltb_spec x y); try lia
           end; reflexivity.
Qed.

Lemma is_adjacent_step pos d : is_adjacent pos (step pos d) = true.
Proof.
  destruct pos as [i j], d; unfold is_adjacent, step; simpl; apply Z.eqb_eq; lia.
Qed.

Lemma step_neq pos d : step pos d <> pos.
Proof. destruct pos as [i j], d; unfold step; simpl; intros [=]; lia. Qed.

(** One seam: what [connect_pieces] does between a cell and its neighbour. *)
Lemma connect_pieces_solved b pos d :
  solved b -> inside (width b) (height b) pos -> inside (width b) (height b) (step pos d) ->
  connect_pieces b pos (step pos d) =
  Some (true,
        with_edges b
          (alter (set_connection (Z.to_nat (slot (width b) (height b) pos d)))
                 (Z.to_nat (slot (width b) (height b) (step pos d) (inverse d)))
                 (alter (set_connection (Z.to_nat (slot (width b) (height b) (step pos d) (inverse d))))
                        (Z.to_nat (slot (width b) (height b) pos d))
                        (edges b)))).
Proof.
  intros [Hp Hl] Hin Hin'. unfold connect_pieces.
  rewrite is_adjacent_step, directions_choice. simpl.
  rewrite !get_edge_index_solved by done. simpl.
  unfold connect_edges.
  pose proof (slot_range _ _ _ d Hin) as R1.
  pose proof (slot_range _ _ _ (inverse d) Hin') as R2.
  destruct (Z.eqb_spec (slot (width b) (height b) pos d)
                       (slot (width b) (height b) (step pos d) (inverse d))) as [E|_].
  { apply slot_inj in E as [E _]; [|done..]. symmetry in E. by apply step_neq in E. }
  unfold edge_ref. rewrite !index_of_nonneg by lia. reflexivity.
Qed.

Lemma connect_adjacent_edges_rounds b :
  connect_adjacent_edges b = for_in (rounds (width b) (height b)) connect_round b.
Proof.
  unfold connect_adjacent_edges, rounds. rewrite for_in_flat_map.
  apply for_in_ext. intros i s. rewrite for_in_flat_map.
  apply for_in_ext. intros j s'. rewrite for_in_map.
  apply for_in_ext. intros d s''. by destruct d.
Qed.

Lemma elem_of_range n x : x ∈ Py.range n <-> 0 <= x < n.
Proof.
  rewrite range_to_nat. change (map ?f ?l) with (f <$> l). rewrite list_elem_of_fmap. split.
  - intros (k & -> & Hk). apply elem_of_seq in Hk. lia.
  - intros Hx. exists (Z.to_nat x). split; [lia|]. apply elem_of_seq. lia.
Qed.

Lemma elem_of_rounds w h pos d : (pos, d) ∈ rounds w h <-> inside w h pos.
Proof.
  unfold rounds, inside. rewrite list_elem_of_In, in_flat_map. split.
  - intros (i & Hi & H). apply in_flat_map in H as (j & Hj & H).
    apply in_map_iff in H as (d' & [= <- <-] & _). simpl.
    rewrite <- list_elem_of_In, elem_of_range in Hi.
    rewrite <- list_elem_of_In, elem_of_range in Hj. done.
  - intros [Hi Hj]. destruct pos as [i j]. simpl in *. exists i. split.
    { by rewrite <- list_elem_of_In, elem_of_range. }
    apply in_flat_map. exists j. split.
    { by rewrite <- list_elem_of_In, elem_of_range. }
    destruct d; simpl; tauto.
Qed.

(** ** The invariant of the adjacency connector *)

Lemma slotn_inj w h pos d pos' d' :
  inside w h pos -> inside w h pos' -> slotn w h pos d = slotn w h pos' d' ->
  pos = pos' /\ d = d'.
Proof.
  intros H H' E. apply (slot_inj w h); [done..|].
  pose proof (slot_range w h pos d H). pose proof (slot_range w h pos' d' H').
  unfold slotn in E. lia.
Qed.

Lemma slotn_lt w h pos d : inside w h pos -> (slotn w h pos d < Z.to_nat (4 * (w * h)))%nat.
Proof. intros H. pose proof (slot_range w h pos d H). unfold slotn. lia. Qed.

Lemma plain_set_connection c e : plain e -> plain (set_connection c e).
Proof. by intros (? & ? & ?). Qed.

Lemma connect_round_step w h done pos d b :
  connecting w h done b -> inside w h pos ->
  exists b', connect_round (pos, d) b = Some (true, b') /\
             connecting w h (done ++ [(pos, d)]) b'.
Proof.
  intros (Hw & Hh & Hs & Hd & He & Hc) Hin. unfold connect_round. simpl.
  destruct (in_bounds b (step pos d)) eqn:Hb; simpl.
  2:{ exists b. split; [done|]. split_and!; try done.
      - intros pd [H| ->%list_elem_of_singleton]%elem_of_app; [by apply Hd|done].
      - intros pos' d' [H|[= -> ->]%list_elem_of_singleton]%elem_of_app Hin'; [by apply Hc|].
        apply in_bounds_outside in Hb. rewrite Hw, Hh in Hb. done. }
  apply in_bounds_inside in Hb. rewrite Hw, Hh in Hb.
  rewrite connect_pieces_solved by (rewrite ?Hw, ?Hh; done). rewrite Hw, Hh.
  fold (slotn w h pos d). fold (slotn w h (step pos d) (inverse d)).
  set (f := slotn w h pos d). set (t := slotn w h (step pos d) (inverse d)).
  assert (f <> t) as Hft.
  { intros E. apply slotn_inj in E as [E _]; [|done..]. symmetry in E. by apply step_neq in E. }
  eexists. split; [reflexivity|].
  destruct Hs as [Hp Hl]. split_and!; try done.
  - split; [done|]. simpl. by rewrite !length_alter.
  - intros pd [H| ->%list_elem_of_singleton]%elem_of_app; [by apply Hd|done].
  - intros x e. simpl. rewrite list_lookup_alter. case_decide as E1.
    + subst x. rewrite list_lookup_alter_ne by done.
      destruct (edges b !! t) as [e0|] eqn:E0; [|done]. simpl. intros [= <-].
      destruct (He t e0 E0) as [Hpl _]. split; [by apply plain_set_connection|].
      right. exists (step pos d), (inverse d).
      rewrite step_back, inverse_inverse. done.
    + rewrite list_lookup_alter. case_decide as E2.
      * subst x. destruct (edges b !! f) as [e0|] eqn:E0; [|done]. simpl. intros [= <-].
        destruct (He f e0 E0) as [Hpl _]. split; [by apply plain_set_connection|].
        right. by exists pos, d.
      * apply He.
  - intros pos' d' Hel Hin'. simpl.
    assert (inside w h pos') as Hp'.
    { apply elem_of_app in Hel as [H|[= -> ->]%list_elem_of_singleton]; [by apply (Hd (pos', d'))|done]. }
    rewrite list_lookup_alter. case_decide as E1.
    + symmetry in E1. apply slotn_inj in E1 as [-> ->]; [|done..].
      rewrite step_back, inverse_inverse. fold f. fold t.
      rewrite list_lookup_alter_ne by done.
      destruct (lookup_lt_is_Some_2 (edges b) t) as [e0 ->].
      { rewrite Hl, Hw, Hh. by apply slotn_lt. }
      simpl. eauto.
    + rewrite list_lookup_alter. case_decide as E2.
      * symmetry in E2. apply slotn_inj in E2 as [-> ->]; [|done..]. fold f. fold t.
        destruct (lookup_lt_is_Some_2 (edges b) f) as [e0 ->].
        { rewrite Hl, Hw, Hh. by apply slotn_lt. }
        simpl. eauto.
      * apply elem_of_app in Hel as [H|[= -> ->]%list_elem_of_singleton]; [by apply Hc|].
        by destruct E2.
Qed.

Lemma connecting_start w h :
  1 < w -> 1 < h ->
  connecting w h []
    (mkBoard w h (grid_pieces w h) (replicate (Z.to_nat (4 * (w * h))) new_edge)).
Proof.
  intros Hw Hh. split_and!; simpl; try done.
  - split; simpl; [done|]. by rewrite length_replicate.
  - intros pd H. by apply elem_of_nil in H.
  - intros x e [-> _]%lookup_replicate. split; [done|]. by left.
  - intros pos d H. by apply elem_of_nil in H.
Qed.

(** The constructed and connected board. *)
Lemma connect_adjacent_edges_spec w h :
  1 < w -> 1 < h ->
  exists b0 b, new_board w h = Some b0 /\ connect_adjacent_edges b0 = Some (true, b) /\
               connecting w h (rounds w h) b.
Proof.
  intros Hw Hh. eexists. rewrite new_board_spec by done.
  destruct (for_in_invariant (connecting w h) connect_round (rounds w h) []
              (mkBoard w h (grid_pieces w h) (replicate (Z.to_nat (4 * (w * h))) new_edge)))
    as (b & E & HI).
  - by apply connecting_start.
  - intros done' [pos d] rest' s' Eq HI. apply connect_round_step; [done|].
    apply (elem_of_rounds w h pos d). simpl in Eq. rewrite Eq.
    apply elem_of_app. right. apply elem_of_cons. by left.
  - exists b. split; [reflexivity|]. split; [|done].
    by rewrite connect_adjacent_edges_rounds.
Qed.

(** Every slot of a connected board, seen from its cell. *)
Lemma connected_slot w h b pos d :
  connecting w h (rounds w h) b -> inside w h pos ->
  exists e, get_edge_index b pos d = Some (slot w h pos d) /\
            Py.get (edges b) (slot w h pos d) = Some e /\
            edges b !! slotn w h pos d = Some e /\
            (e_connection e = None <-> ~ inside w h (step pos d)) /\
            (inside w h (step pos d) ->
             e_connection e = Some (slotn w h (step pos d) (inverse d))).
Proof.
  intros (Hw & Hh & [Hp Hl] & Hd & He & Hc) Hin.
  pose proof (slot_range w h pos d Hin) as R.
  destruct (lookup_lt_is_Some_2 (edges b) (slotn w h pos d)) as [e E].
  { rewrite Hl, Hw, Hh. by apply slotn_lt. }
  exists e. split_and!.
  - rewrite <- Hw, <- Hh. apply get_edge_index_solved; [done|]. by rewrite Hw, Hh.
  - rewrite get_nonneg; [done|]. rewrite Hl, Hw, Hh. lia.
  - done.
  - split.
    + intros Hn Hs. destruct (Hc pos d) as (e' & E' & Hc'); [by apply elem_of_rounds|done|].
      congruence.
    + intros Hs. destruct (He _ _ E) as [_ [Hn|(pos' & d' & Hi' & Hs' & Ex & _)]]; [done|].
      apply slotn_inj in Ex as [-> ->]; done.
  - intros Hs. destruct (Hc pos d) as (e' & E' & Hc'); [by apply elem_of_rounds|done|].
    congruence.
Qed.

Lemma connected_symmetric w h b x e c :
  0 < w -> connecting w h (rounds w h) b ->
  edges b !! x = Some e -> e_connection e = Some c ->
  exists e', edges b !! c = Some e' /\ e_connection e' = Some x.
Proof.
  intros Hw0 HC E Ec. pose proof HC as (Hw & Hh & [Hp Hl] & Hd & He & Hc).
  destruct (He _ _ E) as [_ [Hn|(pos & d & Hi & Hs & -> & Ec')]]; [congruence|].
  assert (c = slotn w h (step pos d) (inverse d)) as -> by congruence.
  destruct (connected_slot w h b (step pos d) (inverse d) HC Hs) as (e' & _ & _ & E' & _ & Hc').
  exists e'. split; [done|]. rewrite Hc' by (by rewrite step_back).
  by rewrite step_back, inverse_inverse.
Qed.

Lemma connected_addressed w h b x e :
  0 < w -> connecting w h (rounds w h) b -> edges b !! x = Some e ->
  exists pos d, inside w h pos /\ get_edge_index b pos d = Some (Z.of_nat x).
Proof.
  intros Hw0 HC E. pose proof HC as (Hw & Hh & [Hp Hl] & _).
  apply lookup_lt_Some in E. rewrite Hl, Hw, Hh in E.
  destruct (slot_surj w h (Z.of_nat x)) as (pos & d & Hin & Es); [done|lia|].
  exists pos, d. split; [done|].
  destruct (connected_slot w h b pos d HC Hin) as (_ & -> & _). by rewrite Es.
Qed.

Lemma grid_pieces_ids w h : map p_id (grid_pieces w h) = Py.range (w * h).
Proof.
  unfold grid_pieces. rewrite map_map, range_to_nat. done.
Qed.

(** C5: for all [w, h > 1], [Board(w, h)] followed by
    [connect_adjacent_edges] answers [True] and yields [w * h] pieces with
    ids [0 .. w * h - 1] in row-major order and [4 * w * h] edges; the slot
    a cell shows in a direction is unconnected exactly when the neighbour
    in that direction is out of bounds; every edge is such a slot; and
    every connection is symmetric. *)
Theorem board_construction w h :
  1 < w -> 1 < h ->
  exists b0 b,
    new_board w h = Some b0 /\ connect_adjacent_edges b0 = Some (true, b) /\
    Z.of_nat (length (pieces b)) = w * h /\
    map p_id (pieces b) = Py.range (w * h) /\
    Z.of_nat (length (edges b)) = 4 * w * h /\
    (forall pos d, in_bounds b pos = true ->
       exists k e, get_edge_index b pos d = Some k /\ Py.get (edges b) k = Some e /\
                   (e_connection e = None <-> in_bounds b (step pos d) = false)) /\
    (forall x e, edges b !! x = Some e ->
       exists pos d, in_bounds b pos = true /\ get_edge_index b pos d = Some (Z.of_nat x)) /\
    (forall x e c, edges b !! x = Some e -> e_connection e = Some c ->
       exists e', edges b !! c = Some e' /\ e_connection e' = Some x).
Proof.
  intros Hw Hh. destruct (connect_adjacent_edges_spec w h Hw Hh) as (b0 & b & E0 & E & HC).
  exists b0, b. pose proof HC as (Ew & Eh & [Hp Hl] & _).
  split_and!; try done.
  - rewrite Hp, length_grid_pieces, Ew, Eh. nia.
  - by rewrite Hp, grid_pieces_ids, Ew, Eh.
  - rewrite Hl, Ew, Eh. nia.
  - intros pos d Hin. apply in_bounds_inside in Hin. rewrite Ew, Eh in Hin.
    destruct (connected_slot w h b pos d HC Hin) as (e & Ei & Eg & _ & Hn & _).
    exists (slot w h pos d), e. split_and!; try done.
    by rewrite Hn, in_bounds_outside, Ew, Eh.
  - intros x e Ex. destruct (connected_addressed w h b x e) as (pos & d & Hin & Ei); [lia|done..|].
    exists pos, d. split; [|done]. apply in_bounds_inside. by rewrite Ew, Eh.
  - intros x e c. apply (connected_symmetric w h); [lia|done].
Qed.

(** ** The candidate lists of the shuffle *)

Lemma elem_of_range2 lo hi x : x ∈ Py.range2 lo hi <-> lo <= x < hi.
Proof.
  unfold Py.range2. change (map ?f ?l) with (f <$> l). rewrite list_elem_of_fmap. split.
  - intros (k & -> & Hk). apply elem_of_seq in Hk. lia.
  - intros Hx. exists (Z.to_nat (x - lo)). split; [lia|]. apply elem_of_seq. lia.
Qed.

Lemma border_candidates_elem b pos :
  pos ∈ border_candidates b ->
  ((pos.1 = 0 \/ pos.1 = height b - 1) /\ 1 <= pos.2 < width b - 1) \/
  ((pos.2 = 0 \/ pos.2 = width b - 1) /\ 1 <= pos.1 < height b - 1).
Proof.
  unfold border_candidates. rewrite elem_of_app, !list_elem_of_In, !in_flat_map.
  intros [(i & Hi & H)|(j & Hj & H)].
  - left. apply in_flat_map in H as (j & Hj & H).
    rewrite <- list_elem_of_In, elem_of_range2 in Hj.
    destruct (i =? j); [done|]. destruct H as [<-|[]]. simpl.
    split; [|done]. simpl in Hi. intuition.
  - right. apply in_flat_map in H as (i & Hi & H).
    rewrite <- list_elem_of_In, elem_of_range2 in Hi.
    destruct (i =? j); [done|]. destruct H as [<-|[]]. simpl.
    split; [|done]. simpl in Hj. intuition.
Qed.

Lemma center_candidates_elem b pos :
  pos ∈ center_candidates b -> 1 <= pos.1 < height b - 1 /\ 1 <= pos.2 < width b - 1.
Proof.
  unfold center_candidates. rewrite list_elem_of_In, in_flat_map.
  intros (i & Hi & H). apply in_map_iff in H as (j & <- & Hj).
  rewrite <- list_elem_of_In, elem_of_range2 in Hi, Hj. done.
Qed.

(** On the connected board a slot is unconnected exactly when it faces out. *)
Lemma connected_unconnected w h b pos d :
  connecting w h (rounds w h) b -> inside w h pos ->
  unconnected b pos d = Some (negb (in_bounds b (step pos d))).
Proof.
  intros HC Hin. pose proof HC as (Ew & Eh & _).
  destruct (connected_slot w h b pos d HC Hin) as (e & Ei & Eg & _ & Hn & _).
  unfold unconnected. rewrite Ei. simpl. rewrite Eg. simpl. f_equal.
  destruct (in_bounds b (step pos d)) eqn:Hb; simpl.
  - apply bool_decide_eq_false. rewrite Hn. apply in_bounds_inside in Hb.
    rewrite Ew, Eh in Hb. tauto.
  - apply bool_decide_eq_true. rewrite Hn. apply in_bounds_outside in Hb.
    by rewrite Ew, Eh in Hb.
Qed.

Lemma connected_none_count w h b pos :
  connecting w h (rounds w h) b -> inside w h pos ->
  none_count b pos =
  Some (Z.b2z (negb (in_bounds b (step pos Up))) +
        (Z.b2z (negb (in_bounds b (step pos Right))) +
         (Z.b2z (negb (in_bounds b (step pos Down))) +
          (Z.b2z (negb (in_bounds b (step pos Left))) + 0)))).
Proof.
  intros HC Hin. unfold none_count, all_directions. simpl.
  rewrite !(connected_unconnected w h) by done. reflexivity.
Qed.

Ltac decide_bounds b pos d :=
  first
    [ assert (in_bounds b (step pos d) = true) as ->
        by (apply in_bounds_inside; unfold inside, step; simpl; lia)
    | assert (in_bounds b (step pos d) = false) as ->
        by (apply in_bounds_outside; unfold inside, step; simpl; lia) ].

Lemma border_candidates_count w h b pos :
  1 < w -> 1 < h -> connecting w h (rounds w h) b ->
  pos ∈ border_candidates b -> none_count b pos = Some 1.
Proof.
  intros Hw Hh HC Hel. pose proof HC as (Ew & Eh & _).
  apply border_candidates_elem in Hel. rewrite Ew, Eh in Hel.
  rewrite (connected_none_count w h) by (done || (unfold inside; lia)).
  destruct pos as [i j]. simpl in Hel.
  destruct Hel as [[[Hi|Hi] Hj]|[[Hj|Hj] Hi]];
    decide_bounds b (i, j) Up; decide_bounds b (i, j) Right;
    decide_bounds b (i, j) Down; decide_bounds b (i, j) Left; reflexivity.
Qed.

Lemma center_candidates_count w h b pos :
  connecting w h (rounds w h) b ->
  pos ∈ center_candidates b -> none_count b pos = Some 0.
Proof.
  intros HC Hel. pose proof HC as (Ew & Eh & _).
  apply center_candidates_elem in Hel. rewrite Ew, Eh in Hel.
  rewrite (connected_none_count w h) by (done || (unfold inside; lia)).
  destruct pos as [i j]. simpl in Hel.
  decide_bounds b (i, j) Up; decide_bounds b (i, j) Right;
    decide_bounds b (i, j) Down; decide_bounds b (i, j) Left; reflexivity.
Qed.

(** C7: for all [w, h > 1] and every outcome of the two calls of
    [random.shuffle] and of [random.choice], on the connected board every
    border candidate has one unconnected slot and every interior candidate
    none, and [shuffle] runs to its end: every [assert self.swap(..)] in
    both phases holds. *)
Theorem shuffle_asserts_hold w h rnd :
  1 < w -> 1 < h -> fair rnd ->
  exists b0 b1 b2,
    new_board w h = Some b0 /\ connect_adjacent_edges b0 = Some (true, b1) /\
    Forall (fun pos => none_count b1 pos = Some 1) (border_candidates b1) /\
    Forall (fun pos => none_count b1 pos = Some 0) (center_candidates b1) /\
    shuffle rnd b1 = Some b2.
Proof.
  intros Hw Hh Hf. destruct (connect_adjacent_edges_spec w h Hw Hh) as (b0 & b1 & E0 & E1 & HC).
  assert (Forall (fun pos => none_count b1 pos = Some 1) (border_candidates b1)) as Fb.
  { apply Forall_forall. intros pos. by apply (border_candidates_count w h). }
  assert (Forall (fun pos => none_count b1 pos = Some 0) (center_candidates b1)) as Fc.
  { apply Forall_forall. intros pos. by apply (center_candidates_count w h). }
  destruct (shuffle_Some rnd b1 Hf Fb Fc) as [b2 E2].
  by exists b0, b1, b2.
Qed.

(** ** Python sets and dictionaries *)

Lemma elem_of_set_add x y s : y ∈ Py.set_add x s <-> y = x \/ y ∈ s.
Proof.
  unfold Py.set_add. case_decide as H.
  - split; [by right|]. by intros [->|?].
  - rewrite elem_of_app, list_elem_of_singleton. tauto.
Qed.

Lemma elem_of_set_union y s t : y ∈ Py.set_union s t <-> y ∈ s \/ y ∈ t.
Proof.
  unfold Py.set_union. revert s. induction t as [|x t IH]; intros s; simpl.
  - rewrite elem_of_nil. tauto.
  - rewrite IH, elem_of_set_add, elem_of_cons. tauto.
Qed.

Lemma elem_of_set_inter y s t : y ∈ Py.set_inter s t <-> y ∈ s /\ y ∈ t.
Proof. unfold Py.set_inter. rewrite list_elem_of_filter. tauto. Qed.

Lemma dict_get_Some_elem {V} k (v : V) d : Py.dict_get k d = Some v -> (k, v) ∈ d.
Proof.
  induction d as [|[k' v'] d IH]; simpl; [done|].
  case_decide as E.
  - intros [= ->]. subst. apply elem_of_cons. by left.
  - intros H. apply elem_of_cons. right. by apply IH.
Qed.

Lemma dict_get_key {V} k (d : list (nat * V)) : k ∈ map fst d -> is_Some (Py.dict_get k d).
Proof.
  induction d as [|[k' v'] d IH]; simpl.
  - intros H. by apply elem_of_nil in H.
  - intros H. case_decide as E; [eauto|].
    apply elem_of_cons in H as [H|H]; [done|]. by apply IH.
Qed.

Lemma dict_get_set {V} k k' (v : V) d :
  Py.dict_get k' (Py.dict_set k v d) = if decide (k' = k) then Some v else Py.dict_get k' d.
Proof.
  induction d as [|[k0 v0] d IH]; simpl.
  - repeat case_decide; done.
  - destruct (decide (k = k0)) as [->|N]; simpl.
    + repeat case_decide; done.
    + rewrite IH. repeat case_decide; congruence.
Qed.

(** The entries of a dictionary after [d[k] = v]. *)
Lemma elem_of_dict_set {V} k (v : V) d kv :
  kv ∈ Py.dict_set k v d -> kv ∈ d \/ kv = (k, v).
Proof.
  induction d as [|[k0 v0] d IH]; simpl.
  - intros ->%list_elem_of_singleton. by right.
  - case_decide as E.
    + subst k0. intros [->|Hel]%elem_of_cons; [by right|]. left. apply elem_of_cons. by right.
    + intros [->|Hel]%elem_of_cons.
      * left. apply elem_of_cons. by left.
      * destruct (IH Hel) as [?|?]; [|by right]. left. apply elem_of_cons. by right.
Qed.

(** ** A measure for the two traversals *)

Lemma pending_cons wt y universe visited :
  pending wt (y :: universe) visited =
  ((if decide (y ∈ visited) then O else wt y) + pending wt universe visited)%nat.
Proof.
  unfold pending. rewrite filter_cons.
  destruct (decide (y ∈ visited)) as [H|H].
  - by rewrite decide_False by tauto.
  - by rewrite decide_True by done.
Qed.

Lemma pending_visit_fresh wt universe visited x :
  x ∉ universe ->
  pending wt universe (Py.set_add x visited) = pending wt universe visited.
Proof.
  induction universe as [|y u IH]; intros Hx; [done|].
  apply not_elem_of_cons in Hx as [Hxy Hx]. rewrite !pending_cons, IH by done.
  f_equal. destruct (decide (y ∈ visited)) as [Hy|Hy].
  - by rewrite decide_True by (rewrite elem_of_set_add; tauto).
  - by rewrite decide_False by (rewrite elem_of_set_add; intros [?|?]; congruence).
Qed.

Lemma pending_visit wt universe visited x :
  NoDup universe -> x ∈ universe -> x ∉ visited ->
  (pending wt universe (Py.set_add x visited) + wt x = pending wt universe visited)%nat.
Proof.
  induction universe as [|y u IH]; intros Hnd Hx Hv.
  - by apply elem_of_nil in Hx.
  - apply NoDup_cons in Hnd as [Hy Hnd]. rewrite !pending_cons.
    apply elem_of_cons in Hx as [->|Hx].
    + rewrite decide_True by (rewrite elem_of_set_add; tauto).
      rewrite decide_False by done. rewrite pending_visit_fresh by done. lia.
    + assert (y <> x) by congruence. rewrite <- (IH Hnd Hx Hv).
      destruct (decide (y ∈ visited)) as [Hyv|Hyv].
      * rewrite decide_True by (rewrite elem_of_set_add; tauto). lia.
      * rewrite decide_False by (rewrite elem_of_set_add; intros [?|?]; congruence). lia.
Qed.

Lemma pending_nil wt universe : pending wt universe [] = sum_list (wt <$> universe).
Proof.
  unfold pending. f_equal. f_equal. induction universe as [|y u IH]; [done|].
  rewrite filter_cons, decide_True by apply not_elem_of_nil. by rewrite IH.
Qed.

Lemma sum_merge_weight pre es :
  sum_list (merge_weight (pre ++ es) <$> seq (length pre) (length es)) =
  foldr (fun e n => (length (e_merges e) + n)%nat) O es.
Proof.
  revert pre. induction es as [|e es IH]; intros pre; [done|].
  simpl. f_equal.
  - unfold merge_weight. by rewrite list_lookup_middle.
  - specialize (IH (pre ++ [e])). rewrite length_app in IH. simpl in IH.
    rewrite Nat.add_1_r, <- app_assoc in IH. done.
Qed.

Lemma closure_fuel_pending es :
  closure_fuel es = S (S (pending (merge_weight es) (seq 0 (length es)) [])).
Proof.
  unfold closure_fuel. rewrite pending_nil. do 2 f_equal.
  symmetry. apply (sum_merge_weight []).
Qed.

(** ** Group collapse never answers [False] *)

Section CollapseNeverFalse.

Variable set_order : list nat -> list nat.

Lemma elem_of_dict_add k x d kv :
  kv ∈ Py.dict_add k x d ->
  kv ∈ d \/ (kv.1 = k /\ forall y, y ∈ kv.2 -> y = x \/ exists gs, (k, gs) ∈ d /\ y ∈ gs).
Proof.
  unfold Py.dict_add. intros [H| ->]%elem_of_dict_set; [by left|]. right. simpl.
  split; [done|]. intros y [->|Hy]%elem_of_set_add; [by left|]. right.
  destruct (Py.dict_get k d) as [gs|] eqn:E; simpl in Hy.
  - exists gs. split; [|done]. by apply dict_get_Some_elem.
  - by apply elem_of_nil in Hy.
Qed.

Lemma layered_add seen layers g depth :
  g ∉ seen -> layered seen layers ->
  layered (Py.set_add g seen) (Py.dict_add depth g layers).
Proof.
  intros Hg [H1 H2]. split.
  - intros d gs y [Hel|[Ed Hy]]%elem_of_dict_add Hin; rewrite elem_of_set_add.
    + right. by eapply H1.
    + simpl in *. destruct (Hy y Hin) as [->|(gs0 & Hel0 & Hin0)]; [by left|].
      right. by eapply H1.
  - intros d1 gs1 d2 gs2 y [Hel1|[Ed1 Hy1]]%elem_of_dict_add
                            [Hel2|[Ed2 Hy2]]%elem_of_dict_add Hin1 Hin2; simpl in *.
    + by eapply H2.
    + subst d2. destruct (Hy2 y Hin2) as [->|(gs0 & Hel0 & Hin0)].
      * destruct Hg. by eapply H1.
      * by eapply H2.
    + subst d1. destruct (Hy1 y Hin1) as [->|(gs0 & Hel0 & Hin0)].
      * destruct Hg. by eapply H1.
      * by eapply (H2 _ _ _ _ y Hel0 Hel2).
    + congruence.
Qed.

Lemma layer_traversal_layered gconn ggm :
  forall fuel queue seen layers result,
    layer_traversal set_order gconn ggm fuel queue seen layers = Some result ->
    layered seen layers -> exists seen', layered seen' result.
Proof.
  induction fuel as [|fuel IH]; intros queue seen layers result; simpl; [done|].
  destruct queue as [|[g depth] rest].
  { intros [= <-] H. by exists seen. }
  destruct (decide (is_Some (ggm !! g))); [by apply IH|].
  destruct (decide (g ∈ seen)); [by apply IH|].
  destruct (Py.dict_get g gconn) as [cs|]; [|done]. simpl.
  intros E H. eapply IH; [exact E|]. by apply layered_add.
Qed.

Lemma split_layers_elem layers :
  forall ev od,
    (forall y, y ∈ (foldl (fun eo l =>
                              if Nat.even l.1 then (Py.set_union eo.1 l.2, eo.2)
                              else (eo.1, Py.set_union eo.2 l.2)) (ev, od) layers).1 ->
               y ∈ ev \/ exists d gs, (d, gs) ∈ layers /\ Nat.even d = true /\ y ∈ gs) /\
    (forall y, y ∈ (foldl (fun eo l =>
                              if Nat.even l.1 then (Py.set_union eo.1 l.2, eo.2)
                              else (eo.1, Py.set_union eo.2 l.2)) (ev, od) layers).2 ->
               y ∈ od \/ exists d gs, (d, gs) ∈ layers /\ Nat.even d = false /\ y ∈ gs).
Proof.
  induction layers as [|[d gs] layers IH]; intros ev od; simpl; [by split; left|].
  destruct (Nat.even d) eqn:Ed; simpl.
  - destruct (IH (Py.set_union ev gs) od) as [IH1 IH2]. split; intros y Hy.
    + destruct (IH1 y Hy) as [[?|?]%elem_of_set_union|(d' & gs' & ? & ? & ?)].
      * by left.
      * right. exists d, gs. split_and!; [apply elem_of_cons; by left|done..].
      * right. exists d', gs'. split_and!; [apply elem_of_cons; by right|done..].
    + destruct (IH2 y Hy) as [?|(d' & gs' & ? & ? & ?)]; [by left|].
      right. exists d', gs'. split_and!; [apply elem_of_cons; by right|done..].
  - destruct (IH ev (Py.set_union od gs)) as [IH1 IH2]. split; intros y Hy.
    + destruct (IH1 y Hy) as [?|(d' & gs' & ? & ? & ?)]; [by left|].
      right. exists d', gs'. split_and!; [apply elem_of_cons; by right|done..].
    + destruct (IH2 y Hy) as [[?|?]%elem_of_set_union|(d' & gs' & ? & ? & ?)].
      * by left.
      * right. exists d, gs. split_and!; [apply elem_of_cons; by left|done..].
      * right. exists d', gs'. split_and!; [apply elem_of_cons; by right|done..].
Qed.

(** [even] and [odd] never meet. *)
Lemma split_layers_disjoint seen layers :
  layered seen layers ->
  Py.set_inter (split_layers layers).1 (split_layers layers).2 = [].
Proof.
  intros [_ H2]. destruct (Py.set_inter _ _) as [|y l] eqn:E; [done|exfalso].
  assert (y ∈ Py.set_inter (split_layers layers).1 (split_layers layers).2) as Hy.
  { rewrite E. apply elem_of_cons. by left. }
  apply elem_of_set_inter in Hy as [He Ho]. unfold split_layers in He, Ho.
  destruct (split_layers_elem layers [] []) as [S1 S2].
  destruct (S1 y He) as [Hn|(d1 & gs1 & L1 & P1 & I1)]; [by apply elem_of_nil in Hn|].
  destruct (S2 y Ho) as [Hn|(d2 & gs2 & L2 & P2 & I2)]; [by apply elem_of_nil in Hn|].
  assert (d1 = d2) by (by eapply H2). congruence.
Qed.

Lemma colour_step_true gconn gid st r st' :
  colour_step set_order gconn gid st = Some (r, st') -> r = true.
Proof.
  unfold colour_step. destruct st as [[ggm ggs] ggsh].
  destruct (decide (is_Some (ggm !! gid))); [by intros [= <- _]|].
  destruct (layer_traversal _ _ _ _ _ _ _) as [layers|] eqn:E; [|done]. simpl.
  apply layer_traversal_layered in E as [seen' HL].
  2:{ split; intros *; intros H; by apply elem_of_nil in H. }
  pose proof (split_layers_disjoint seen' layers HL) as D.
  destruct (split_layers layers) as [even odd]. simpl in D. rewrite D.
  by intros [= <- _].
Qed.

Lemma collapse_edges_true b r b' :
  collapse_edges set_order b = Some (r, b') -> r = true.
Proof.
  unfold collapse_edges.
  destruct (for_each _ (group_step set_order (edges b)) _) as [[egm groups]|]; [|done]. simpl.
  destruct (for_each _ (connection_step egm) _) as [gconn|]; [|done]. simpl.
  destruct (for_in _ (colour_step set_order gconn) _) as [[r0 st]|] eqn:E; [|done]. simpl.
  apply for_in_true in E; [|intros *; apply colour_step_true]. subst r0.
  destruct st as [[ggm ggs] ggsh].
  destruct (for_each _ _ _); [|done]. simpl. by intros [= <- _].
Qed.

(** On the path that answers [False] the board has not been touched. *)
Lemma collapse_edges_false b b' :
  collapse_edges set_order b = Some (false, b') -> b' = b.
Proof.
  unfold collapse_edges.
  destruct (for_each _ (group_step set_order (edges b)) _) as [[egm groups]|]; [|done]. simpl.
  destruct (for_each _ (connection_step egm) _) as [gconn|]; [|done]. simpl.
  destruct (for_in _ (colour_step set_order gconn) _) as [[[] [[ggm ggs] ggsh]]|]; [| |done]; simpl.
  - destruct (for_each _ _ _); [|done]. simpl. done.
  - by intros [= <-].
Qed.

End CollapseNeverFalse.

(** ** Group collapse runs to its end *)

Section CollapseTotal.

Variable set_order : list nat -> list nat.
Hypothesis set_order_perm : forall l, Permutation (set_order l) l.

Lemma elem_of_set_order x l : x ∈ set_order l <-> x ∈ l.
Proof. by rewrite (set_order_perm l). Qed.

Lemma length_set_order l : length (set_order l) = length l.
Proof. by rewrite (set_order_perm l). Qed.

Lemma merge_closure_Some es :
  refs_valid es ->
  forall fuel queue group,
    (forall x, x ∈ queue -> (x < length es)%nat) ->
    (length queue + pending (merge_weight es) (seq 0 (length es)) group < fuel)%nat ->
    exists g, merge_closure set_order es fuel queue group = Some g /\
              (forall y, y ∈ group -> y ∈ g) /\ (forall y, y ∈ queue -> y ∈ g).
Proof.
  intros Hv. induction fuel as [|fuel IH]; intros queue group Hq Hm; [lia|].
  destruct queue as [|x rest]; simpl.
  { exists group. split_and!; [done|done|]. intros y Hy. by apply elem_of_nil in Hy. }
  assert (forall y, y ∈ rest -> (y < length es)%nat) as Hrest.
  { intros y Hy. apply Hq. apply elem_of_cons. by right. }
  destruct (decide (x ∈ group)) as [Hx|Hx].
  - destruct (IH rest group Hrest) as (g & -> & Hg & Hr); [simpl in Hm; lia|].
    exists g. split_and!; [done|done|].
    intros y [->|Hy]%elem_of_cons; [by apply Hg|by apply Hr].
  - assert (x < length es)%nat as Hlt by (apply Hq, elem_of_cons; by left).
    destruct (lookup_lt_is_Some_2 es x Hlt) as [e He]. rewrite He. simpl.
    destruct (IH (reverse (set_order (e_merges e)) ++ rest) (Py.set_add x group))
      as (g & -> & Hg & Hr).
    + intros y [Hy|Hy]%elem_of_app; [|by apply Hrest].
      rewrite elem_of_reverse, elem_of_set_order in Hy. by apply (Hv x e He).
    + rewrite length_app, length_reverse, length_set_order.
      pose proof (pending_visit (merge_weight es) (seq 0 (length es)) group x) as P.
      unfold merge_weight at 2 in P. rewrite He in P. simpl in P.
      rewrite <- P in Hm; [simpl in Hm; lia|apply NoDup_seq|by apply elem_of_seq; lia|done].
    + exists g. split_and!; [done| |].
      * intros y Hy. apply Hg, elem_of_set_add. by right.
      * intros y [->|Hy]%elem_of_cons.
        -- apply Hg, elem_of_set_add. by left.
        -- apply Hr, elem_of_app. by right.
Qed.

Lemma elem_of_enumerate (es : list Edge) x e : (x, e) ∈ imap pair es <-> es !! x = Some e.
Proof.
  rewrite elem_of_lookup_imap. split.
  - by intros (i & y & [= -> ->] & H).
  - intros H. by exists x, e.
Qed.

Lemma foldl_insert_lookup {V} (v : V) l : forall (m : gmap nat V) y,
  foldl (fun m k => <[k := v]> m) m l !! y = if decide (y ∈ l) then Some v else m !! y.
Proof.
  induction l as [|k l IH]; intros m y; cbn [foldl].
  - by rewrite decide_False by apply not_elem_of_nil.
  - rewrite IH. destruct (decide (y ∈ l)) as [H|H].
    + by rewrite decide_True by (apply elem_of_cons; by right).
    + destruct (decide (y = k)) as [->|N].
      * rewrite lookup_insert_eq. by rewrite decide_True by (apply elem_of_cons; by left).
      * rewrite lookup_insert_ne by done.
        by rewrite decide_False by (intros [?|?]%elem_of_cons; done).
Qed.

Lemma group_step_grouped es done x e st :
  refs_valid es -> es !! x = Some e -> grouped done st ->
  exists st', group_step set_order es (x, e) st = Some st' /\ grouped (done ++ [(x, e)]) st'.
Proof.
  intros Hv He [G1 G2]. destruct st as [egm groups]. simpl in G1, G2.
  unfold group_step. destruct (e_connection e) as [c|] eqn:Ec.
  2:{ exists (egm, groups). split; [done|]. split; [|done].
      intros y ey [H|[= -> ->]%list_elem_of_singleton]%elem_of_app; [by apply (G1 y ey)|done]. }
  destruct (egm !! x) as [g0|] eqn:Eg.
  { exists (egm, groups). split; [done|]. split; [|done].
    intros y ey [H|[= -> ->]%list_elem_of_singleton]%elem_of_app Hc; [by apply (G1 y ey)|].
    simpl. by rewrite Eg. }
  destruct (merge_closure_Some es Hv (closure_fuel es) [x] []) as (g & -> & _ & Hx).
  { intros y ->%list_elem_of_singleton. by apply lookup_lt_Some in He. }
  { rewrite closure_fuel_pending. simpl. lia. }
  cbn [mbind option_bind]. eexists. split; [reflexivity|]. split; cbn [fst snd].
  - intros y ey [H|[= -> ->]%list_elem_of_singleton]%elem_of_app Hc.
    + rewrite foldl_insert_lookup. case_decide; [done|]. by apply (G1 y ey).
    + rewrite foldl_insert_lookup. rewrite decide_True; [done|].
      apply elem_of_set_order, Hx, list_elem_of_singleton. done.
  - intros y g'. rewrite foldl_insert_lookup. case_decide.
    + intros [= <-]. by rewrite lookup_insert_eq.
    + intros H'. destruct (decide (size groups = g')) as [<-|N].
      * by rewrite lookup_insert_eq.
      * rewrite lookup_insert_ne by done. by apply (G2 y).
Qed.

Lemma group_loop es :
  refs_valid es ->
  exists st, for_each (imap pair es) (group_step set_order es) (∅, ∅) = Some st /\
             grouped (imap pair es) st.
Proof.
  intros Hv.
  destruct (for_each_invariant grouped (group_step set_order es) (imap pair es) [] (∅, ∅))
    as (st & E & G); [| |by exists st].
  - split; [intros x e H; by apply elem_of_nil in H|]. intros x g. simpl.
    by rewrite lookup_empty.
  - intros done' [x e] rest' st' Eq G. apply group_step_grouped; [done| |done].
    apply elem_of_enumerate. simpl in Eq. rewrite Eq.
    apply elem_of_app. right. apply elem_of_cons. by left.
Qed.

(** Every key of the dictionary occurs once. *)
Lemma dict_set_keys {V} k (v : V) d :
  map fst (Py.dict_set k v d) =
  if decide (k ∈ map fst d) then map fst d else map fst d ++ [k].
Proof.
  induction d as [|[k0 v0] d IH]; cbn [Py.dict_set map fst];
    [by rewrite decide_False by apply not_elem_of_nil|].
  destruct (decide (k = k0)) as [->|N]; cbn [map fst].
  - by rewrite decide_True by (apply elem_of_cons; by left).
  - rewrite IH. destruct (decide (k ∈ map fst d)) as [H|H].
    + by rewrite decide_True by (apply elem_of_cons; by right).
    + by rewrite decide_False by (intros [?|?]%elem_of_cons; done).
Qed.

Lemma dict_set_keys_NoDup {V} k (v : V) d :
  NoDup (map fst d) -> NoDup (map fst (Py.dict_set k v d)).
Proof.
  intros H. rewrite dict_set_keys. case_decide as E; [done|].
  apply NoDup_app. split_and!; [done| |apply NoDup_singleton].
  intros y Hy ->%list_elem_of_singleton. done.
Qed.

Lemma connection_step_linked es egm done x e gconn :
  well_formed es ->
  (forall y ey, es !! y = Some ey -> e_connection ey <> None -> is_Some (egm !! y)) ->
  es !! x = Some e -> linked es egm done gconn ->
  exists gconn', connection_step egm (x, e) gconn = Some gconn' /\
                 linked es egm (done ++ [(x, e)]) gconn'.
Proof.
  intros [Hv Hc] Hegm He (L1 & L2 & L3 & L4). simpl.
  destruct (e_connection e) as [c|] eqn:Ec.
  2:{ exists gconn. split; [done|]. split_and!; try done.
      intros y ey [H|[= -> ->]%list_elem_of_singleton]%elem_of_app; [by apply (L2 y ey)|done]. }
  destruct (Hegm x e He) as [g Eg]; [congruence|].
  destruct (Hc x e c He Ec) as (e' & He' & Hc').
  destruct (Hegm c e' He' Hc') as [gc Egc].
  rewrite Eg, Egc. simpl. eexists. split; [reflexivity|]. split_and!.
  - by apply dict_set_keys_NoDup.
  - intros y ey Hel Hy.
    assert (forall g', is_Some (Py.dict_get g' gconn) ->
                       is_Some (Py.dict_get g' (Py.dict_add g gc gconn))) as Keep.
    { intros g' Hg'. unfold Py.dict_add. rewrite dict_get_set. case_decide; eauto. }
    apply elem_of_app in Hel as [H|[= -> ->]%list_elem_of_singleton].
    + destruct (L2 y ey H Hy) as (g' & ? & ?). exists g'. split; [done|]. by apply Keep.
    + exists g. split; [done|]. unfold Py.dict_add. rewrite dict_get_set.
      rewrite decide_True by done. eauto.
  - intros k vs c' [Hel|[Ek Hvs]]%elem_of_dict_add Hin; [by eapply L3|]. simpl in *.
    destruct (Hvs c' Hin) as [->|(gs & Hgs & Hin')]; [|by eapply L3].
    exists c, e'. done.
  - intros k vs [Hel|[Ek Hvs]]%elem_of_dict_add; [by eapply L4|]. simpl in *.
    subst k. by exists x.
Qed.

Lemma connection_loop es egm :
  well_formed es ->
  (forall y ey, es !! y = Some ey -> e_connection ey <> None -> is_Some (egm !! y)) ->
  exists gconn, for_each (imap pair es) (connection_step egm) [] = Some gconn /\
                linked es egm (imap pair es) gconn.
Proof.
  intros Hwf Hegm.
  destruct (for_each_invariant (linked es egm) (connection_step egm) (imap pair es) [] [])
    as (gconn & E & L); [| |by exists gconn].
  - split_and!; simpl.
    + apply NoDup_nil_2.
    + intros x e H. by apply elem_of_nil in H.
    + intros k vs c H. by apply elem_of_nil in H.
    + intros k vs H. by apply elem_of_nil in H.
  - intros done' [x e] rest' st' Eq L. apply connection_step_linked; [done..| |done].
    apply elem_of_enumerate. simpl in Eq. rewrite Eq.
    apply elem_of_app. right. apply elem_of_cons. by left.
Qed.

Lemma sum_layer_weight gconn :
  NoDup (map fst gconn) ->
  sum_list (layer_weight gconn <$> map fst gconn) =
  foldr (fun kv n => (length kv.2 + n)%nat) O gconn.
Proof.
  induction gconn as [|[k v] d IH]; intros Hnd; [done|].
  cbn [map fst] in *. apply NoDup_cons in Hnd as [Hk Hnd].
  rewrite fmap_cons. cbn [sum_list foldr snd]. f_equal.
  - unfold layer_weight. simpl. by rewrite decide_True by done.
  - rewrite <- IH by done. f_equal. apply list_fmap_ext. intros i k' Hk'.
    unfold layer_weight. simpl. rewrite decide_False; [done|].
    intros ->. apply Hk. by eapply list_elem_of_lookup_2.
Qed.

Lemma layer_fuel_pending gconn :
  NoDup (map fst gconn) ->
  layer_fuel gconn = S (S (pending (layer_weight gconn) (map fst gconn) [])).
Proof.
  intros H. unfold layer_fuel. by rewrite pending_nil, sum_layer_weight.
Qed.

Lemma key_of_entry {V} k (v : V) (d : list (nat * V)) : (k, v) ∈ d -> k ∈ map fst d.
Proof.
  intros H. change (map fst d) with (fst <$> d).
  apply list_elem_of_fmap. by exists (k, v).
Qed.

Lemma layer_traversal_Some gconn ggm :
  closed gconn -> NoDup (map fst gconn) ->
  forall fuel queue seen layers,
    (forall g d, (g, d) ∈ queue -> is_Some (Py.dict_get g gconn)) ->
    (length queue + pending (layer_weight gconn) (map fst gconn) seen < fuel)%nat ->
    (forall d gs g, (d, gs) ∈ layers -> g ∈ gs -> is_Some (Py.dict_get g gconn)) ->
    exists result,
      layer_traversal set_order gconn ggm fuel queue seen layers = Some result /\
      (forall d gs g, (d, gs) ∈ result -> g ∈ gs -> is_Some (Py.dict_get g gconn)).
Proof.
  intros Hcl Hnd. induction fuel as [|fuel IH]; intros queue seen layers Hq Hm Hl; [lia|].
  destruct queue as [|[g depth] rest]; cbn [layer_traversal].
  { by exists layers. }
  assert (forall g' d, (g', d) ∈ rest -> is_Some (Py.dict_get g' gconn)) as Hrest.
  { intros g' d H. apply (Hq g' d). apply elem_of_cons. by right. }
  simpl in Hm.
  destruct (decide (is_Some (ggm !! g))); [apply IH; [done|lia|done]|].
  destruct (decide (g ∈ seen)) as [Hs|Hs]; [apply IH; [done|lia|done]|].
  destruct (Hq g depth) as [cs Ecs]; [apply elem_of_cons; by left|].
  rewrite Ecs. cbn [mbind option_bind].
  apply dict_get_Some_elem in Ecs as Hel.
  apply IH.
  - intros g' d [H|H]%elem_of_app; [|by apply (Hrest g' d)].
    rewrite elem_of_reverse in H. change (map ?f ?l) with (f <$> l) in H.
    apply list_elem_of_fmap in H as (c & [= -> ->] & Hc).
    rewrite elem_of_set_order in Hc. by apply (Hcl g cs).
  - rewrite length_app, length_reverse, length_map, length_set_order.
    pose proof (pending_visit (layer_weight gconn) (map fst gconn) seen g Hnd) as P.
    unfold layer_weight at 2 in P. rewrite Ecs in P. simpl in P.
    rewrite <- P in Hm; [lia|by eapply key_of_entry|done].
  - intros d gs y [H|[Ed Hy]]%elem_of_dict_add Hin; [by eapply Hl|]. simpl in *.
    destruct (Hy y Hin) as [->|(gs0 & H0 & Hin0)]; [eauto|by eapply Hl].
Qed.

Lemma add_group_group_coloured gconn gs shape st :
  (forall g, g ∈ gs -> is_Some (Py.dict_get g gconn)) ->
  coloured gconn st -> coloured gconn (add_group_group set_order (gs, shape) st).
Proof.
  intros Hgs Hc. destruct st as [[ggm ggs] ggsh]. unfold coloured in *. simpl in *.
  intros k gs' [H|[= -> ->]]%elem_of_dict_set.
  - destruct (Hc k gs' H) as [[s Hs] Hk]. split; [|done].
    destruct (decide (length ggs = k)) as [<-|N].
    + rewrite lookup_insert_eq. eauto.
    + rewrite lookup_insert_ne by done. eauto.
  - split; [|done]. rewrite lookup_insert_eq. eauto.
Qed.

Lemma colour_step_coloured gconn gid st :
  closed gconn -> NoDup (map fst gconn) -> gid ∈ map fst gconn -> coloured gconn st ->
  exists st', colour_step set_order gconn gid st = Some (true, st') /\ coloured gconn st'.
Proof.
  intros Hcl Hnd Hgid Hc. unfold colour_step. destruct st as [[ggm ggs] ggsh].
  destruct (decide (is_Some (ggm !! gid))); [by eexists|].
  destruct (layer_traversal_Some gconn ggm Hcl Hnd (layer_fuel gconn) [(gid, O)] [] [])
    as (layers & E & Hl).
  { intros g d [= -> ->]%list_elem_of_singleton. by apply dict_get_key. }
  { rewrite layer_fuel_pending by done. simpl. lia. }
  { intros d gs g H. by apply elem_of_nil in H. }
  rewrite E. cbn [mbind option_bind].
  apply layer_traversal_layered in E as [seen' HL].
  2:{ split; intros *; intros H; by apply elem_of_nil in H. }
  pose proof (split_layers_disjoint seen' layers HL) as D.
  destruct (split_layers_elem layers [] []) as [S1 S2].
  unfold split_layers in *.
  destruct (foldl _ _ layers) as [even odd]. simpl in D, S1, S2. rewrite D.
  eexists. split; [reflexivity|].
  apply add_group_group_coloured.
  { intros g Hg. destruct (S2 g Hg) as [H|(d & gs & ? & _ & ?)]; [by apply elem_of_nil in H|].
    by eapply Hl. }
  apply add_group_group_coloured; [|done].
  intros g Hg. destruct (S1 g Hg) as [H|(d & gs & ? & _ & ?)]; [by apply elem_of_nil in H|].
  by eapply Hl.
Qed.

Lemma colour_loop gconn :
  closed gconn -> NoDup (map fst gconn) ->
  exists st, for_in (map fst gconn) (colour_step set_order gconn) (∅, [], ∅) = Some (true, st) /\
             coloured gconn st.
Proof.
  intros Hcl Hnd.
  destruct (for_in_invariant (fun _ => coloured gconn) (colour_step set_order gconn)
              (map fst gconn) [] (∅, [], ∅)) as (st & E & C); [| |by exists st].
  - intros k gs H. by apply elem_of_nil in H.
  - intros done' gid rest' st' Eq C. apply colour_step_coloured; [done..| |done].
    simpl in Eq. rewrite Eq. apply elem_of_app. right. apply elem_of_cons. by left.
Qed.

Lemma assign_loop gconn (groups : gmap nat (list nat)) st es :
  coloured gconn st ->
  (forall g, is_Some (Py.dict_get g gconn) -> is_Some (groups !! g)) ->
  is_Some (for_each st.1.2 (assign_group_group set_order groups st.2) es).
Proof.
  intros Hc Hg. apply for_each_Some. intros [gg_id g_ids] es1 Hel.
  destruct (Hc gg_id g_ids Hel) as [[shape Hs] Hk]. unfold assign_group_group.
  rewrite Hs. cbn [mbind option_bind]. apply for_each_Some.
  intros g_id es2 Hin. rewrite elem_of_set_order in Hin.
  destruct (Hg g_id (Hk g_id Hin)) as [grp ->]. simpl. eauto.
Qed.

(** On a well-formed board group collapse raises nothing and answers [True]. *)
Lemma collapse_edges_total b :
  well_formed (edges b) -> exists b', collapse_edges set_order b = Some (true, b').
Proof.
  intros Hwf. pose proof Hwf as [Hv Hc]. unfold collapse_edges.
  destruct (group_loop (edges b) Hv) as ([egm groups] & -> & G1 & G2).
  cbn [mbind option_bind]. simpl in G1, G2.
  assert (forall y ey, edges b !! y = Some ey -> e_connection ey <> None -> is_Some (egm !! y))
    as Hegm.
  { intros y ey Hy. apply G1. by apply elem_of_enumerate. }
  destruct (connection_loop (edges b) egm Hwf Hegm) as (gconn & -> & L1 & L2 & L3 & L4).
  cbn [mbind option_bind].
  assert (closed gconn) as Hcl.
  { intros k vs c Hel Hin. destruct (L3 k vs c Hel Hin) as (y & ey & Hy & Hcy & Ey).
    destruct (L2 y ey) as (g & Eg & Hg); [by apply elem_of_enumerate|done|]. congruence. }
  destruct (colour_loop gconn Hcl L1) as ([[ggm ggs] ggsh] & -> & C).
  cbn [mbind option_bind].
  destruct (assign_loop gconn groups (ggm, ggs, ggsh) (edges b) C) as [es' E].
  { intros g [vs Hvs]. apply dict_get_Some_elem in Hvs.
    destruct (L4 g vs Hvs) as [y Ey]. by apply (G2 y). }
  simpl in E. rewrite E. simpl. eauto.
Qed.


End CollapseTotal.

Lemma collapse_edges_pieces so b r b' :
  collapse_edges so b = Some (r, b') -> pieces b' = pieces b.
Proof.
  unfold collapse_edges.
  destruct (for_each _ (group_step so (edges b)) _) as [[egm groups]|]; [|done]. simpl.
  destruct (for_each _ (connection_step egm) _) as [gconn|]; [|done]. simpl.
  destruct (for_in _ (colour_step so gconn) _) as [[[] [[ggm ggs] ggsh]]|]; [| |done]; simpl.
  - destruct (for_each _ _ _); [|done]. simpl. by intros [= _ <-].
  - by intros [= _ <-].
Qed.

Ltac eval_mod4_in H :=
  repeat match type of H with
         | context [?a `mod` 4] =>
             let v := eval vm_compute in (a `mod` 4) in
             change (a `mod` 4) with v in H
         end.

(** ** Pieces that can stand in for one another *)

Lemma piece_unconnected_slot_state es p d :
  piece_unconnected es p d = slot_state es p (slot_offset (p_rotation p) d).
Proof. reflexivity. Qed.

Lemma same_profile_refl es p : same_profile es p p.
Proof. by intros s Hs. Qed.

Lemma same_profile_sym es p q : same_profile es p q -> same_profile es q p.
Proof. intros H s Hs. symmetry. by apply H. Qed.

Lemma same_profile_trans es p q r :
  same_profile es p q -> same_profile es q r -> same_profile es p r.
Proof. intros H1 H2 s Hs. by rewrite H1, H2. Qed.

Lemma same_profile_rotation es p r : same_profile es (set_rotation r p) p.
Proof. by intros s Hs. Qed.

Lemma set_rotation_same p : set_rotation (p_rotation p) p = p.
Proof. by destruct p. Qed.

(** With the rotation of [p], a piece of the same profile shows what [p]
    shows. *)
Lemma piece_unconnected_stand_in es p q d :
  same_profile es p q ->
  piece_unconnected es (set_rotation (p_rotation p) q) d = piece_unconnected es p d.
Proof.
  intros H. rewrite !piece_unconnected_slot_state. simpl.
  symmetry. apply H. apply slot_offset_range.
Qed.

(** A piece whose count is zero has no unconnected slot. *)
Lemma piece_none_count_zero es p c s :
  piece_none_count es p = Some c -> c <= 0 -> 0 <= s < 4 -> slot_state es p s = Some false.
Proof.
  destruct p as [i base r]. unfold piece_none_count, piece_unconnected, slot_state,
    all_directions, EDGE_COUNT. simpl. intros H Hc Hs.
  assert (s = 0 \/ s = 1 \/ s = 2 \/ s = 3) as [-> | [-> | [-> | ->]]] by lia;
    destruct r; simpl in H; eval_mod4_in H;
    destruct (Py.get es (base + 0)) as [e0|], (Py.get es (base + 1)) as [e1|],
             (Py.get es (base + 2)) as [e2|], (Py.get es (base + 3)) as [e3|];
    simpl in H; try discriminate; simpl; f_equal;
    destruct (bool_decide (e_connection e0 = None)), (bool_decide (e_connection e1 = None)),
             (bool_decide (e_connection e2 = None)), (bool_decide (e_connection e3 = None));
    simpl in H; try reflexivity; injection H; lia.
Qed.

Lemma same_profile_zero es p q c :
  piece_none_count es p = Some c -> piece_none_count es q = Some c -> c <= 0 ->
  same_profile es p q.
Proof.
  intros Hp Hq Hc s Hs.
  by rewrite (piece_none_count_zero es p c), (piece_none_count_zero es q c).
Qed.

Lemma get_at {A} (l : list A) k i : Py.index_of (length l) k = Some i -> Py.get l k = l !! i.
Proof. intros H. unfold Py.get. by rewrite H. Qed.

(** The pieces after a call of [swap] that answered [True]: outside the two
    cells nothing moved; in them sits one of the two pieces, with the
    rotation the cell had when the count is positive. *)
Lemma swap_true_lookup b x y b' c fi ti fp tp :
  swap b x y = Some (true, b') -> none_count b x = Some c ->
  Py.index_of (length (pieces b)) (get_piece_index b x) = Some fi ->
  Py.index_of (length (pieces b)) (get_piece_index b y) = Some ti ->
  pieces b !! fi = Some fp -> pieces b !! ti = Some tp ->
  forall n p, pieces b !! n = Some p ->
    exists q r, pieces b' !! n = Some (set_rotation r q) /\
                (0 < c -> r = p_rotation p) /\
                ((n <> fi /\ n <> ti /\ q = p /\ r = p_rotation p) \/
                 ((n = fi \/ n = ti) /\ (q = fp \/ q = tp))).
Proof.
  intros Hs Hc Hfi Hti Hfp Htp n p Hn. unfold swap in Hs. rewrite Hc in Hs.
  destruct (none_count b y) as [cy|]; [|done]. simpl in Hs.
  destruct (c =? cy); [|done]. simpl in Hs.
  apply lookup_lt_Some in Hfp as Lf. apply lookup_lt_Some in Htp as Lt.
  destruct (Z.ltb_spec 0 c) as [Hpos|Hzero].
  - unfold exchange_rotations in Hs.
    rewrite !(get_at (pieces b) _ _ Hfi), !(get_at (pieces b) _ _ Hti), Hfp, Htp in Hs.
    rewrite Hfi, Hti in Hs. simpl in Hs.
    unfold swap_pieces, get_piece_index in Hs. simpl in Hs.
    unfold get_piece_index in Hfi, Hti.
    rewrite !length_alter in Hs. unfold Py.get in Hs. rewrite !length_alter in Hs.
    rewrite Hfi, Hti in Hs. simpl in Hs.
    rewrite !list_lookup_alter in Hs.
    destruct (decide (ti = fi)) as [->|Ntf].
    + assert (tp = fp) by congruence. subst tp.
      repeat match type of Hs with
             | context [decide (?u = ?v)] => destruct (decide (u = v)); try congruence
             end.
      rewrite Hfp in Hs. simpl in Hs.
      injection Hs as <-. simpl.
      destruct (decide (n = fi)) as [->|N].
      * assert (p = fp) by congruence. subst p.
        exists fp, (p_rotation fp). split_and!; [|done|right; split; by left].
        rewrite list_lookup_insert_eq by (by rewrite !length_insert, !length_alter). done.
      * exists p, (p_rotation p). rewrite !list_lookup_insert_ne by done.
        rewrite !list_lookup_alter_ne by done. rewrite set_rotation_same.
        split_and!; [done|done|left; done].
    + repeat match type of Hs with
             | context [decide (?u = ?v)] => destruct (decide (u = v)); try congruence
             end.
      rewrite Hfp, Htp in Hs. simpl in Hs.
      injection Hs as <-. simpl.
      destruct (decide (n = ti)) as [->|N1].
      * assert (p = tp) by congruence. subst p.
        exists fp, (p_rotation tp).
        rewrite list_lookup_insert_eq by (by rewrite !length_insert, !length_alter).
        split_and!; [done|done|right; split; [by right|by left]].
      * rewrite list_lookup_insert_ne by done.
        destruct (decide (n = fi)) as [->|N2].
        -- assert (p = fp) by congruence. subst p.
           exists tp, (p_rotation fp).
           rewrite list_lookup_insert_eq by (by rewrite !length_alter).
           split_and!; [done|done|right; split; [by left|by right]].
        -- exists p, (p_rotation p). rewrite list_lookup_insert_ne by done.
           rewrite !list_lookup_alter_ne by done. rewrite set_rotation_same.
           split_and!; [done|done|left; done].
  - simpl in Hs. unfold swap_pieces in Hs.
    rewrite !(get_at (pieces b) _ _ Hfi), !(get_at (pieces b) _ _ Hti), Hfp, Htp in Hs.
    simpl in Hs. rewrite Hfi, Hti in Hs. simpl in Hs. injection Hs as <-. simpl.
    destruct (decide (n = ti)) as [->|N1].
    + exists fp, (p_rotation fp). rewrite set_rotation_same.
      rewrite list_lookup_insert_eq by (by rewrite !length_insert).
      split_and!; [done|lia|right; split; [by right|by left]].
    + rewrite list_lookup_insert_ne by done.
      destruct (decide (n = fi)) as [->|N2].
      * exists tp, (p_rotation tp). rewrite set_rotation_same.
        rewrite list_lookup_insert_eq by done.
        split_and!; [done|lia|right; split; [by left|by right]].
      * exists p, (p_rotation p). rewrite list_lookup_insert_ne by done.
        rewrite set_rotation_same. split_and!; [done|done|left; done].
Qed.

(** ** The invariant of the shuffle *)

Lemma cell_lt w h pos : inside w h pos -> (cell w pos < Z.to_nat (w * h))%nat.
Proof. intros H. apply cell_index_range in H. unfold cell. lia. Qed.

Lemma index_of_cell w h b pos :
  width b = w -> length (pieces b) = Z.to_nat (w * h) -> inside w h pos ->
  Py.index_of (length (pieces b)) (get_piece_index b pos) = Some (cell w pos).
Proof.
  intros Hw Hl Hin. unfold get_piece_index, cell. rewrite Hw.
  apply cell_index_range in Hin. apply index_of_nonneg. lia.
Qed.

Lemma unconnected_cell w h b pos d :
  width b = w -> length (pieces b) = Z.to_nat (w * h) -> inside w h pos ->
  unconnected b pos d = pieces b !! cell w pos ≫= fun p => piece_unconnected (edges b) p d.
Proof.
  intros Hw Hl Hin. unfold unconnected, get_edge_index.
  rewrite (get_at _ _ _ (index_of_cell w h b pos Hw Hl Hin)).
  destruct (pieces b !! cell w pos) as [p|]; reflexivity.
Qed.

Lemma none_count_cell w h b pos :
  width b = w -> length (pieces b) = Z.to_nat (w * h) -> inside w h pos ->
  none_count b pos = pieces b !! cell w pos ≫= piece_none_count (edges b).
Proof.
  intros Hw Hl Hin. rewrite none_count_piece.
  by rewrite (get_at _ _ _ (index_of_cell w h b pos Hw Hl Hin)).
Qed.

(** A call of [swap] between two cells of equal count whose pieces have one
    profile keeps the invariant. *)
Lemma assert_swap_shuffling w h es b x y c :
  shuffling w h es b -> inside w h x -> inside w h y ->
  none_count b x = Some c -> none_count b y = Some c ->
  (0 < c -> forall p q, pieces b !! cell w x = Some p -> pieces b !! cell w y = Some q ->
                        same_profile es p q) ->
  exists b', assert_swap b x y = Some b' /\ shuffling w h es b'.
Proof.
  intros (Hw & Hh & He & Hl & Hf & Hu & Hbase) Hx Hy Cx Cy Hprof.
  destruct (swap_equal_counts b x y c Cx Cy) as [b' Hs].
  exists b'. split; [unfold assert_swap; by rewrite Hs|].
  apply swap_result in Hs as R. destruct R as (Hw' & Hh' & He' & [Hl' _]).
  destruct (lookup_lt_is_Some_2 (pieces b) (cell w x)) as [fp Hfp];
    [rewrite Hl; by apply (cell_lt w h)|].
  destruct (lookup_lt_is_Some_2 (pieces b) (cell w y)) as [tp Htp];
    [rewrite Hl; by apply (cell_lt w h)|].
  pose proof (swap_true_lookup b x y b' c _ _ fp tp Hs Cx
                (index_of_cell w h b x Hw Hl Hx) (index_of_cell w h b y Hw Hl Hy) Hfp Htp) as Look.
  assert (piece_none_count es fp = Some c) as Cfp.
  { rewrite (none_count_cell w h) in Cx by done. rewrite Hfp in Cx. by rewrite <- He. }
  assert (piece_none_count es tp = Some c) as Ctp.
  { rewrite (none_count_cell w h) in Cy by done. rewrite Htp in Cy. by rewrite <- He. }
  assert (same_profile es fp tp) as Hft.
  { destruct (Z.lt_ge_cases 0 c) as [Hc|Hc]; [by apply Hprof|].
    apply (same_profile_zero es fp tp c); [done|done|lia]. }
  assert (forall n p, pieces b !! n = Some p ->
            exists p', pieces b' !! n = Some p' /\ same_profile es p p' /\
                       (exists k, 0 <= k < w * h /\ p_edges p' = 4 * k) /\
                       forall d, piece_unconnected es p' d = piece_unconnected es p d) as Kept.
  { intros n p Hn. destruct (Look n p Hn) as (q & r & Hq & Hr & Hcase).
    exists (set_rotation r q). split; [done|].
    destruct Hcase as [(_ & _ & -> & ->)|[Hn' Hq']].
    { rewrite set_rotation_same. split_and!; [apply same_profile_refl|by apply (Hbase n)|done]. }
    assert (p = fp \/ p = tp) as Hp by (destruct Hn' as [->| ->]; [left|right]; congruence).
    assert (same_profile es p q) as Hpq.
    { destruct Hp as [->| ->], Hq' as [->| ->];
        auto using same_profile_refl, same_profile_sym. }
    split.
    { intros s Hs'. exact (Hpq s Hs'). }
    split.
    { destruct Hq' as [->| ->]; [by apply (Hbase _ _ Hfp)|by apply (Hbase _ _ Htp)]. }
    intros d. destruct (Z.lt_ge_cases 0 c) as [Hc|Hc].
    - rewrite (Hr Hc). by apply piece_unconnected_stand_in.
    - assert (piece_none_count es p = Some c) as Cp by (destruct Hp as [->| ->]; done).
      rewrite !piece_unconnected_slot_state. simpl.
      change (slot_state es (set_rotation r q) ?s) with (slot_state es q s).
      rewrite <- Hpq by apply slot_offset_range.
      rewrite !(piece_none_count_zero es p c) by (done || lia || apply slot_offset_range).
      done. }
  split_and!; try congruence.
  - intros pos d Hin. rewrite Hw', Hh' in Hin.
    rewrite (unconnected_cell w h b') by (congruence || (by rewrite <- Hw, <- Hh)).
    assert (inside w h pos) as Hin' by (by rewrite <- Hw, <- Hh).
    pose proof (Hf pos d Hin) as Old.
    rewrite (unconnected_cell w h b) in Old by done.
    destruct (pieces b !! cell w pos) as [p|] eqn:Hp; [|done].
    destruct (Kept _ _ Hp) as (p' & -> & _ & _ & Hd). simpl in *.
    rewrite He', He, Hd. rewrite He in Old. rewrite Old.
    unfold in_bounds. by rewrite Hw', Hh'.
  - assert (border_candidates b' = border_candidates b) as ->
      by (unfold border_candidates; by rewrite Hw', Hh').
    intros u v p' q' Hu' Hv' Hp' Hq'.
    destruct (lookup_lt_is_Some_2 (pieces b) (cell w u)) as [p Hp];
      [apply lookup_lt_Some in Hp'; lia|].
    destruct (lookup_lt_is_Some_2 (pieces b) (cell w v)) as [q Hq];
      [apply lookup_lt_Some in Hq'; lia|].
    destruct (Kept _ _ Hp) as (p2 & E1 & S1 & _).
    destruct (Kept _ _ Hq) as (q2 & E2 & S2 & _).
    assert (p2 = p') by congruence. assert (q2 = q') by congruence. subst.
    eapply same_profile_trans; [apply same_profile_sym, S1|].
    eapply same_profile_trans; [|apply S2]. by apply (Hu u v).
  - intros n p' Hp'.
    destruct (lookup_lt_is_Some_2 (pieces b) n) as [p Hp];
      [apply lookup_lt_Some in Hp'; lia|].
    destruct (Kept _ _ Hp) as (p2 & E1 & _ & Hk & _).
    assert (p2 = p') as <- by congruence. exact Hk.
Qed.

Lemma assign_rotation_shuffling w h es b x r c :
  shuffling w h es b -> inside w h x -> none_count b x = Some c -> c <= 0 ->
  exists b', assign_rotation b x r = Some b' /\ shuffling w h es b'.
Proof.
  intros (Hw & Hh & He & Hl & Hf & Hu & Hbase) Hx Cx Hc.
  unfold assign_rotation. rewrite (index_of_cell w h b x Hw Hl Hx). simpl.
  eexists. split; [reflexivity|].
  assert (forall n p, pieces b !! n = Some p ->
            exists p', alter (set_rotation r) (cell w x) (pieces b) !! n = Some p' /\
                       same_profile es p p' /\
                       forall d, piece_unconnected es p' d = piece_unconnected es p d) as Kept.
  { intros n p Hn. rewrite list_lookup_alter. case_decide as E.
    - subst n. rewrite Hn. simpl. eexists. split; [reflexivity|].
      split; [apply same_profile_sym, same_profile_rotation|].
      intros d. rewrite (none_count_cell w h) in Cx by done. rewrite Hn, He in Cx.
      rewrite !piece_unconnected_slot_state.
      change (slot_state es (set_rotation r p) ?s) with (slot_state es p s).
      by rewrite !(piece_none_count_zero es p c) by (done || apply slot_offset_range).
    - exists p. split; [done|]. split; [apply same_profile_refl|done]. }
  split_and!; simpl; try done.
  - by rewrite length_alter.
  - intros pos d Hin. simpl in Hin.
    assert (inside w h pos) as Hin' by (by rewrite <- Hw, <- Hh).
    pose proof (Hf pos d Hin) as Old.
    rewrite (unconnected_cell w h b) in Old by done.
    rewrite (unconnected_cell w h) by (simpl; rewrite ?length_alter; done). simpl.
    destruct (pieces b !! cell w pos) as [p|] eqn:Hp; [|done].
    destruct (Kept _ _ Hp) as (p' & -> & _ & Hd). simpl in *.
    rewrite He, Hd. by rewrite He in Old.
  - intros u v p' q' Hu' Hv' Hp' Hq'.
    change (border_candidates _) with (border_candidates b) in Hu', Hv'.
    destruct (lookup_lt_is_Some_2 (pieces b) (cell w u)) as [p Hp];
      [apply lookup_lt_Some in Hp'; by rewrite length_alter in Hp'|].
    destruct (lookup_lt_is_Some_2 (pieces b) (cell w v)) as [q Hq];
      [apply lookup_lt_Some in Hq'; by rewrite length_alter in Hq'|].
    destruct (Kept _ _ Hp) as (p2 & E1 & S1 & _).
    destruct (Kept _ _ Hq) as (q2 & E2 & S2 & _).
    assert (p2 = p') by congruence. assert (q2 = q') by congruence. subst.
    eapply same_profile_trans; [apply same_profile_sym, S1|].
    eapply same_profile_trans; [|apply S2]. by apply (Hu u v).
  - intros n p'. rewrite list_lookup_alter. case_decide as E; [|apply Hbase].
    subst n. destruct (pieces b !! cell w x) as [p|] eqn:Hp; [|done].
    simpl. intros [= <-]. by apply (Hbase _ _ Hp).
Qed.

Lemma facing_none_count b pos :
  facing b -> inside (width b) (height b) pos ->
  none_count b pos =
  Some (Z.b2z (negb (in_bounds b (step pos Up))) +
        (Z.b2z (negb (in_bounds b (step pos Right))) +
         (Z.b2z (negb (in_bounds b (step pos Down))) +
          (Z.b2z (negb (in_bounds b (step pos Left))) + 0)))).
Proof.
  intros Hf Hin. unfold none_count, all_directions. simpl.
  rewrite !Hf by done. reflexivity.
Qed.

Lemma border_candidates_inside b pos :
  1 < width b -> 1 < height b -> pos ∈ border_candidates b -> inside (width b) (height b) pos.
Proof. intros Hw Hh H. apply border_candidates_elem in H. unfold inside. lia. Qed.

Lemma center_candidates_inside b pos :
  pos ∈ center_candidates b -> inside (width b) (height b) pos.
Proof. intros H. apply center_candidates_elem in H. unfold inside. lia. Qed.

Lemma facing_border_count b pos :
  1 < width b -> 1 < height b -> facing b -> pos ∈ border_candidates b ->
  none_count b pos = Some 1.
Proof.
  intros Hw Hh Hf Hel. rewrite facing_none_count by (done || by apply border_candidates_inside).
  apply border_candidates_elem in Hel. destruct pos as [i j]. simpl in Hel.
  destruct Hel as [[[Hi|Hi] Hj]|[[Hj|Hj] Hi]];
    decide_bounds b (i, j) Up; decide_bounds b (i, j) Right;
    decide_bounds b (i, j) Down; decide_bounds b (i, j) Left; reflexivity.
Qed.

Lemma facing_center_count b pos :
  facing b -> pos ∈ center_candidates b -> none_count b pos = Some 0.
Proof.
  intros Hf Hel. rewrite facing_none_count by (done || by apply center_candidates_inside).
  apply center_candidates_elem in Hel. destruct pos as [i j]. simpl in Hel.
  decide_bounds b (i, j) Up; decide_bounds b (i, j) Right;
    decide_bounds b (i, j) Down; decide_bounds b (i, j) Left; reflexivity.
Qed.

Lemma border_candidates_dims b b' :
  width b' = width b -> height b' = height b -> border_candidates b' = border_candidates b.
Proof. intros Hw Hh. unfold border_candidates. by rewrite Hw, Hh. Qed.

Lemma center_candidates_dims b b' :
  width b' = width b -> height b' = height b -> center_candidates b' = center_candidates b.
Proof. intros Hw Hh. unfold center_candidates. by rewrite Hw, Hh. Qed.

Lemma assert_swap_border w h es b x y :
  1 < w -> 1 < h -> shuffling w h es b ->
  x ∈ border_candidates b -> y ∈ border_candidates b ->
  exists b', assert_swap b x y = Some b' /\ shuffling w h es b'.
Proof.
  intros Hw1 Hh1 HS Hx Hy. pose proof HS as (Hw & Hh & He & Hl & Hf & Hu & _).
  assert (inside w h x) as Ix
    by (rewrite <- Hw, <- Hh; apply border_candidates_inside; (done || lia)).
  assert (inside w h y) as Iy
    by (rewrite <- Hw, <- Hh; apply border_candidates_inside; (done || lia)).
  assert (none_count b x = Some 1) as Cx by (apply facing_border_count; (done || lia)).
  assert (none_count b y = Some 1) as Cy by (apply facing_border_count; (done || lia)).
  apply (assert_swap_shuffling w h es b x y 1 HS Ix Iy Cx Cy).
  intros _ p q. by apply Hu.
Qed.

Lemma assert_swap_center w h es b x y :
  shuffling w h es b -> x ∈ center_candidates b -> y ∈ center_candidates b ->
  exists b', assert_swap b x y = Some b' /\ shuffling w h es b'.
Proof.
  intros HS Hx Hy. pose proof HS as (Hw & Hh & He & Hl & Hf & Hu & _).
  assert (inside w h x) as Ix by (rewrite <- Hw, <- Hh; by apply center_candidates_inside).
  assert (inside w h y) as Iy by (rewrite <- Hw, <- Hh; by apply center_candidates_inside).
  assert (none_count b x = Some 0) as Cx by (by apply facing_center_count).
  assert (none_count b y = Some 0) as Cy by (by apply facing_center_count).
  apply (assert_swap_shuffling w h es b x y 0 HS Ix Iy Cx Cy). lia.
Qed.

Lemma shuffling_dims w h es b b' :
  shuffling w h es b -> shuffling w h es b' ->
  border_candidates b' = border_candidates b /\ center_candidates b' = center_candidates b.
Proof.
  intros (Hw & Hh & _) (Hw' & Hh' & _). split.
  - apply border_candidates_dims; congruence.
  - apply center_candidates_dims; congruence.
Qed.

Lemma cycle_border_shuffling w h es l :
  1 < w -> 1 < h ->
  forall b, shuffling w h es b -> Forall (fun pos => pos ∈ border_candidates b) l ->
            exists b', cycle_border l b = Some b' /\ shuffling w h es b'.
Proof.
  intros Hw Hh. induction l as [|x0|x0 x1|e0 e1 e2 l IH] using triples_ind; intros b HS F;
    try (by exists b).
  apply Forall_cons in F as [F0 F]. apply Forall_cons in F as [F1 F].
  apply Forall_cons in F as [F2 F]. simpl.
  destruct (assert_swap_border w h es b e0 e1) as (b1 & -> & HS1); try done. simpl.
  destruct (shuffling_dims w h es b b1 HS HS1) as [EB1 _].
  destruct (assert_swap_border w h es b1 e0 e2) as (b2 & -> & HS2); try (by rewrite ?EB1).
  simpl. destruct (shuffling_dims w h es b1 b2 HS1 HS2) as [EB2 _].
  apply IH; [done|]. by rewrite EB2, EB1.
Qed.

Lemma cycle_centers_shuffling w h es rnd l :
  forall k b, shuffling w h es b -> Forall (fun pos => pos ∈ center_candidates b) l ->
              exists b', cycle_centers rnd k l b = Some b' /\ shuffling w h es b'.
Proof.
  induction l as [|x0|x0 x1|c0 c1 c2 l IH] using triples_ind; intros k b HS F;
    try (by exists b).
  apply Forall_cons in F as [F0 F]. apply Forall_cons in F as [F1 F].
  apply Forall_cons in F as [F2 F]. simpl.
  destruct (assert_swap_center w h es b c0 c1) as (b1 & -> & HS1); try done. simpl.
  destruct (shuffling_dims w h es b b1 HS HS1) as [_ EC1].
  destruct (assert_swap_center w h es b1 c0 c2) as (b2 & -> & HS2); try (by rewrite ?EC1).
  simpl. destruct (shuffling_dims w h es b1 b2 HS1 HS2) as [_ EC2].
  pose proof HS2 as (Hw2 & Hh2 & _ & _ & Hf2 & _).
  destruct (assign_rotation_shuffling w h es b2 c0 (choice rnd k) 0) as (b3 & -> & HS3);
    try done.
  { rewrite <- Hw2, <- Hh2. apply center_candidates_inside. by rewrite EC2, EC1. }
  { apply facing_center_count; [done|]. by rewrite EC2, EC1. }
  simpl. destruct (shuffling_dims w h es b2 b3 HS2 HS3) as [_ EC3].
  apply IH; [done|]. by rewrite EC3, EC2, EC1.
Qed.

(** [shuffle] runs to its end and keeps the invariant. *)
Lemma shuffle_shuffling w h es rnd b :
  1 < w -> 1 < h -> fair rnd -> shuffling w h es b ->
  exists b', shuffle rnd b = Some b' /\ shuffling w h es b'.
Proof.
  intros Hw Hh [Fb Fc] HS. unfold shuffle.
  destruct (cycle_border_shuffling w h es (shuffle_border rnd (border_candidates b)) Hw Hh b HS)
    as (b1 & -> & HS1).
  { eapply Forall_permuted; [apply Fb|]. by apply Forall_forall. }
  simpl. apply cycle_centers_shuffling; [done|].
  eapply Forall_permuted; [apply Fc|]. by apply Forall_forall.
Qed.

(** On the connected board the piece at a border candidate has its slot 3,
    and only that one, unconnected. *)
Lemma connected_border_profile w h b pos p s :
  1 < w -> 1 < h -> connecting w h (rounds w h) b ->
  pos ∈ border_candidates b -> pieces b !! cell w pos = Some p -> 0 <= s < 4 ->
  slot_state (edges b) p s = Some (s =? 3).
Proof.
  intros Hw Hh HC Hel Hp Hs. pose proof HC as (Ew & Eh & [Hpc Hl] & _).
  assert (inside w h pos) as Hin
    by (rewrite <- Ew, <- Eh; apply border_candidates_inside; (done || lia)).
  assert (p_rotation p = initial_rotation w h pos.1 pos.2) as Hrot.
  { rewrite Hpc, Ew, Eh in Hp. rewrite grid_pieces_lookup in Hp by (by apply (cell_lt w h)).
    injection Hp as <-. unfold cell. apply cell_index_range in Hin as R.
    rewrite Z2Nat.id by lia. by rewrite piece_at_inside. }
  assert (forall d, slot_state (edges b) p (slot_offset (p_rotation p) d) =
                    Some (negb (in_bounds b (step pos d)))) as Hpu.
  { intros d. rewrite <- piece_unconnected_slot_state.
    rewrite <- (connected_unconnected w h b pos d HC Hin).
    rewrite (unconnected_cell w h b pos d)
      by (done || by rewrite Hpc, length_grid_pieces, Ew, Eh).
    by rewrite Hp. }
  apply border_candidates_elem in Hel. rewrite Ew, Eh in Hel.
  destruct pos as [i j]. simpl in Hel, Hrot.
  destruct (slot_offset_surj (p_rotation p) s Hs) as [d <-]. rewrite Hpu, Hrot.
  unfold initial_rotation.
  destruct Hel as [[[Hi|Hi] Hj]|[[Hj|Hj] Hi]];
    repeat match goal with
           | |- context [?u =? ?v] =>
               first [ replace (u =? v) with true by (symmetry; apply Z.eqb_eq; lia)
                     | replace (u =? v) with false by (symmetry; apply Z.eqb_neq; lia) ]
           end;
    destruct d;
    decide_bounds b (i, j) Up || decide_bounds b (i, j) Right ||
    decide_bounds b (i, j) Down || decide_bounds b (i, j) Left;
    reflexivity.
Qed.

Lemma connecting_shuffling w h b :
  1 < w -> 1 < h -> connecting w h (rounds w h) b -> shuffling w h (edges b) b.
Proof.
  intros Hw Hh HC. pose proof HC as (Ew & Eh & [Hpc Hl] & _).
  split_and!; try done.
  - by rewrite Hpc, length_grid_pieces, Ew, Eh.
  - intros pos d Hin. rewrite Ew, Eh in Hin. by apply (connected_unconnected w h).
  - intros x y p q Hx Hy Hp Hq s Hs.
    by rewrite (connected_border_profile w h b x p s), (connected_border_profile w h b y q s).
  - intros n p Hp. rewrite Hpc, Ew, Eh in Hp. apply lookup_lt_Some in Hp as Hn.
    rewrite length_grid_pieces in Hn. rewrite grid_pieces_lookup in Hp by done.
    injection Hp as <-. exists (Z.of_nat n). split; [lia|done].
Qed.

(** ** The merge builder on a shuffled board *)

Lemma for_each_app {A S} (xs ys : list A) (body : A -> S -> option S) s :
  for_each (xs ++ ys) body s = for_each xs body s ≫= for_each ys body.
Proof.
  revert s. induction xs as [|x xs IH]; intros s; simpl; [done|].
  destruct (body x s) as [s'|]; simpl; auto.
Qed.

Lemma for_each_flat_map {A B S} (f : A -> list B) (xs : list A) (body : B -> S -> option S) s :
  for_each (flat_map f xs) body s = for_each xs (fun x => for_each (f x) body) s.
Proof.
  revert s. induction xs as [|x xs IH]; intros s; simpl; [done|].
  rewrite for_each_app. destruct (for_each (f x) body s) as [s'|]; simpl; auto.
Qed.

Lemma for_each_map {A B S} (g : A -> B) (xs : list A) (body : B -> S -> option S) s :
  for_each (map g xs) body s = for_each xs (fun x => body (g x)) s.
Proof.
  revert s. induction xs as [|x xs IH]; intros s; simpl; [done|].
  destruct (body (g x) s) as [s'|]; simpl; auto.
Qed.

Lemma for_each_ext {A S} (xs : list A) (body body' : A -> S -> option S) s :
  (forall x s, body x s = body' x s) -> for_each xs body s = for_each xs body' s.
Proof.
  intros E. revert s. induction xs as [|x xs IH]; intros s; simpl; [done|].
  rewrite E. destruct (body' x s) as [s'|]; simpl; auto.
Qed.

Lemma merge_edges_rounds b :
  merge_edges b = for_each (rounds (width b) (height b)) merge_round b.
Proof.
  unfold merge_edges, rounds. rewrite for_each_flat_map.
  apply for_each_ext. intros i s. rewrite for_each_flat_map.
  apply for_each_ext. intros j s'. rewrite for_each_map.
  apply for_each_ext. intros d s''. by destruct d.
Qed.

Lemma same_connections_lookup (es1 es2 : list Edge) i e1 :
  map e_connection es1 = map e_connection es2 -> es1 !! i = Some e1 ->
  exists e2, es2 !! i = Some e2 /\ e_connection e2 = e_connection e1.
Proof.
  intros E H.
  assert (map e_connection es1 !! i = Some (e_connection e1)) as H1.
  { change (map ?f ?l) with (f <$> l). by rewrite list_lookup_fmap, H. }
  rewrite E in H1. change (map ?f ?l) with (f <$> l) in H1.
  rewrite list_lookup_fmap in H1. destruct (es2 !! i) as [e2|]; [|done].
  exists e2. split; [done|]. by injection H1.
Qed.

Lemma same_connections_length (es1 es2 : list Edge) :
  map e_connection es1 = map e_connection es2 -> length es1 = length es2.
Proof. intros E. by rewrite <- (length_map e_connection es1), E, length_map. Qed.

Lemma unconnected_Some b pos d fl :
  unconnected b pos d = Some fl ->
  exists k i e, get_edge_index b pos d = Some k /\
                Py.index_of (length (edges b)) k = Some i /\ edges b !! i = Some e /\
                fl = bool_decide (e_connection e = None).
Proof.
  unfold unconnected. destruct (get_edge_index b pos d) as [k|]; [|done]. simpl.
  destruct (Py.get (edges b) k) as [e|] eqn:E; [|done]. simpl. intros [= <-].
  apply get_index in E as (i & Hi & He). by exists k, i, e.
Qed.

Lemma get_edge_index_same b b' pos d :
  width b' = width b -> pieces b' = pieces b ->
  get_edge_index b' pos d = get_edge_index b pos d.
Proof. intros Hw Hp. unfold get_edge_index, get_piece_index. by rewrite Hw, Hp. Qed.

Lemma refs_valid_add_merge es m i :
  refs_valid es -> (m < length es)%nat -> refs_valid (alter (add_merge m) i es).
Proof.
  intros Hv Hm x e. rewrite length_alter, list_lookup_alter. case_decide as E.
  - subst x. destruct (es !! i) as [e0|] eqn:E0; [|done]. simpl. intros [= <-] y.
    simpl. rewrite elem_of_set_add. intros [->|Hy]; [done|]. by apply (Hv i e0).
  - apply Hv.
Qed.

Lemma connections_add_merge es m i :
  map e_connection (alter (add_merge m) i es) = map e_connection es.
Proof.
  apply list_eq. intros n. change (map ?f ?l) with (f <$> l).
  rewrite !list_lookup_fmap, list_lookup_alter. case_decide as E; [|done].
  subst n. by destruct (es !! i).
Qed.

Lemma faces_add_merge es m i : map face (alter (add_merge m) i es) = map face es.
Proof.
  apply list_eq. intros n. change (map ?f ?l) with (f <$> l).
  rewrite !list_lookup_fmap, list_lookup_alter. case_decide as E; [|done].
  subst n. by destruct (es !! i).
Qed.

Lemma merge_round_merging w h b0 b pos d :
  shuffling w h (edges b0) b0 -> linked_up (edges b0) -> merging b0 b -> inside w h pos ->
  exists b', merge_round (pos, d) b = Some b' /\ merging b0 b'.
Proof.
  intros (Hw0 & Hh0 & _ & Hl0 & Hf0 & _) Hlink (Hw & Hh & Hp & Hc & Hv & Hfc) Hin.
  unfold merge_round. simpl.
  destruct (in_bounds b (step pos d)) eqn:Hb; simpl.
  2:{ exists b. split; [done|]. by split_and!. }
  assert (inside w h (step pos d)) as Hin'.
  { apply in_bounds_inside in Hb. by rewrite Hw, Hh, Hw0, Hh0 in Hb. }
  pose proof (same_connections_length _ _ Hc) as Hlen.
  (* the slot of this cell *)
  pose proof (Hf0 pos d) as U1. rewrite Hw0, Hh0 in U1. specialize (U1 Hin).
  apply unconnected_Some in U1 as (k & i & e & Ek & Ei & Ee & _).
  rewrite (get_edge_index_same b0 b pos d) by done. rewrite Ek. simpl.
  unfold edge_ref. rewrite Hlen, Ei. simpl.
  (* the slot of the neighbour that looks back *)
  pose proof (Hf0 (step pos d) (inverse d)) as U2. rewrite Hw0, Hh0 in U2.
  specialize (U2 Hin'). rewrite step_back in U2.
  assert (in_bounds b0 pos = true) as Hb0 by (apply in_bounds_inside; by rewrite Hw0, Hh0).
  rewrite Hb0 in U2. simpl in U2.
  apply unconnected_Some in U2 as (k' & i' & e' & Ek' & Ei' & Ee' & Hfl).
  rewrite (get_edge_index_same b0 b (step pos d) (inverse d)) by done. rewrite Ek'. simpl.
  unfold Py.get. rewrite Hlen, Ei'. simpl.
  symmetry in Hfl. apply bool_decide_eq_false in Hfl.
  destruct (e_connection e') as [c|] eqn:Ec; [|done].
  destruct (same_connections_lookup (edges b0) (edges b) i' e') as (e2 & -> & Ec2);
    [done|done|].
  simpl. rewrite Ec2, Ec. simpl.
  destruct (Hlink i' e' c Ee' Ec) as [Hc' _].
  eexists. split; [reflexivity|]. split_and!; simpl; try done.
  - by rewrite !connections_add_merge.
  - apply refs_valid_add_merge.
    + apply refs_valid_add_merge; [done|]. by rewrite Hlen.
    + rewrite length_alter, Hlen. by apply lookup_lt_Some in Ee.
  - by rewrite !faces_add_merge.
Qed.

Lemma merge_edges_shuffled w h b0 :
  shuffling w h (edges b0) b0 -> linked_up (edges b0) -> refs_valid (edges b0) ->
  exists b, merge_edges b0 = Some b /\ pieces b = pieces b0 /\ well_formed (edges b) /\
            map face (edges b) = map face (edges b0).
Proof.
  intros HS Hlink Hv. pose proof HS as (Hw & Hh & _).
  rewrite merge_edges_rounds, Hw, Hh.
  destruct (for_each_invariant (fun _ => merging b0) merge_round (rounds w h) [] b0)
    as (b & E & (Hw' & Hh' & Hp & Hc & Hv' & Hfc)).
  - by split_and!.
  - intros done' [pos d] rest' s' Eq HM. apply (merge_round_merging w h); try done.
    apply (elem_of_rounds w h pos d). simpl in Eq. rewrite Eq.
    apply elem_of_app. right. apply elem_of_cons. by left.
  - exists b. split_and!; try done. split; [done|].
    intros x e c Hx Hcx.
    destruct (same_connections_lookup (edges b) (edges b0) x e Hc Hx) as (e0 & H0 & Ec0).
    destruct (Hlink x e0 c H0) as [_ (e0' & H0' & Hn)]; [congruence|].
    destruct (same_connections_lookup (edges b0) (edges b) c e0') as (e' & He' & Ec');
      [done|done|].
    exists e'. split; [done|]. congruence.
Qed.

(** ** The whole round *)

Lemma connecting_linked_up w h b :
  0 < w -> connecting w h (rounds w h) b -> linked_up (edges b) /\ refs_valid (edges b).
Proof.
  intros Hw HC. split.
  - intros x e c Hx Hc.
    destruct (connected_symmetric w h b x e c Hw HC Hx Hc) as (e' & He' & Hc').
    split; [by apply lookup_lt_Some in He'|]. exists e'. split; [done|]. congruence.
  - intros x e Hx m Hm. destruct HC as (_ & _ & _ & _ & He & _).
    destruct (He x e Hx) as [(_ & _ & Hmerges) _]. rewrite Hmerges in Hm.
    by apply elem_of_nil in Hm.
Qed.

(** A round of the generation loop raises nothing. *)
Lemma attempt_runs so w h rnd :
  1 < w -> 1 < h -> fair rnd -> (forall l, Permutation (so l) l) ->
  exists a, attempt so w h rnd = Some a.
Proof.
  intros Hw Hh Hf Hso. unfold attempt.
  destruct (connect_adjacent_edges_spec w h Hw Hh) as (b0 & b1 & E0 & E1 & HC).
  rewrite E0. cbn [mbind option_bind]. rewrite E1. cbn [mbind option_bind snd].
  pose proof (connecting_shuffling w h b1 Hw Hh HC) as HS1.
  destruct (connecting_linked_up w h b1) as [Hlink Hv]; [lia|done|].
  destruct (shuffle_shuffling w h (edges b1) rnd b1 Hw Hh Hf HS1) as (b2 & -> & HS2).
  cbn [mbind option_bind].
  pose proof HS2 as (_ & _ & He2 & _). rewrite <- He2 in HS2, Hlink, Hv.
  destruct (merge_edges_shuffled w h b2 HS2 Hlink Hv) as (b3 & -> & _ & Hwf & _).
  cbn [mbind option_bind].
  destruct (collapse_edges_total so Hso b3 Hwf) as [b4 ->].
  cbn [mbind option_bind]. eauto.
Qed.



(** ** The board before group collapse *)






Lemma attempt_merged_board so w h rnd :
  attempt so w h rnd =
  b ← merged_board w h rnd; r ← collapse_edges so b;
  Some (mkAttempt r.1 (check_all_unique r.2) r.2).
Proof.
  unfold attempt, merged_board, connected_board.
  destruct (new_board w h) as [b0|]; [|done]. cbn [mbind option_bind].
  destruct (connect_adjacent_edges b0) as [c|]; [|done]. cbn [mbind option_bind].
  destruct (shuffle rnd c.2) as [b2|]; [|done]. cbn [mbind option_bind].
  by destruct (merge_edges b2).
Qed.

(** ** The generation loop *)









(** ** The 2 by 2 board *)

Lemma shuffle_small_board rnd b : fair rnd -> width b = 2 -> height b = 2 -> shuffle rnd b = Some b.
Proof.
  intros [Fb Fc] Hw Hh. unfold shuffle.
  assert (border_candidates b = []) as -> by (unfold border_candidates; by rewrite Hw, Hh).
  rewrite (proj1 (Permutation_nil_r _) (Fb [])). simpl.
  assert (center_candidates b = []) as -> by (unfold center_candidates; by rewrite Hw, Hh).
  by rewrite (proj1 (Permutation_nil_r _) (Fc [])).
Qed.

(** C10: on a 2 by 2 board both candidate lists of [shuffle] are empty and
    [shuffle] returns the board unchanged; so in a round of the generation
    loop on [Board(2, 2)] the piece list of the final board is the piece
    list of a fresh [Board(2, 2)]: the Final view shows the Initial
    arrangement. *)
Theorem shuffle_2x2_noop so rnd :
  fair rnd ->
  (forall b, width b = 2 -> height b = 2 ->
             border_candidates b = [] /\ center_candidates b = [] /\ shuffle rnd b = Some b) /\
  (forall a, attempt so 2 2 rnd = Some a ->
             exists b0, new_board 2 2 = Some b0 /\ pieces (attempt_board a) = pieces b0).
Proof.
  intros Hf. split.
  - intros b Hw Hh. split_and!; [| |by apply shuffle_small_board].
    + unfold border_candidates. by rewrite Hw, Hh.
    + unfold center_candidates. by rewrite Hw, Hh.
  - intros a. unfold attempt.
    set (nb := new_board 2 2). vm_compute in nb. subst nb. cbn [mbind option_bind].
    match goal with |- context [connect_adjacent_edges ?b] =>
      let v := eval vm_compute in (connect_adjacent_edges b) in
      change (connect_adjacent_edges b) with v end.
    cbn [mbind option_bind snd]. rewrite shuffle_small_board by done. cbn [mbind option_bind].
    match goal with |- context [merge_edges ?b] =>
      let v := eval vm_compute in (merge_edges b) in
      change (merge_edges b) with v end.
    cbn [mbind option_bind].
    destruct (collapse_edges so _) as [[r b4]|] eqn:E; [|done]. cbn [mbind option_bind].
    intros [= <-]. cbn [attempt_board snd]. apply collapse_edges_pieces in E. rewrite E.
    eexists. split; reflexivity.
Qed.

(** ** Concrete boards *)

(** C4: on the 4 by 3 board the border phase leaves out the cell (2, 2) of
    the bottom row, which is neither a corner nor interior. *)
Theorem border_candidates_4x3_misses_cell :
  exists b, new_board 4 3 = Some b /\
            border_candidates b = [(0, 1); (0, 2); (2, 1); (1, 0); (1, 3)] /\
            in_bounds b (2, 2) = true /\
            2 = height b - 1 /\ 0 < 2 < width b - 1 /\
            (2, 2) ∉ border_candidates b.
Proof.
  eexists. split; [vm_compute; reflexivity|].
  split_and!; try (vm_compute; reflexivity).
  apply (bool_decide_unpack _). vm_compute. exact I.
Qed.

(** C1: the two edges of a seam lie in one merge group, so the group is
    linked to itself; group collapse answers [True] and gives both sides of
    the seam the shape Knob, in either order of iteration. *)
Theorem collapse_edges_misses_self_link :
  (exists b0, connected_board 2 2 = Some b0 /\ self_linked_board = merge_pair 0 6 b0) /\
  edges self_linked_board !! 0%nat = Some (mkEdge None Flat (Some 6%nat) [6%nat]) /\
  edges self_linked_board !! 6%nat = Some (mkEdge None Flat (Some 0%nat) [0%nat]) /\
  well_formedb (edges self_linked_board) = true /\
  (exists b', collapse_edges (fun l => l) self_linked_board = Some (true, b') /\
              e_shape <$> edges b' !! 0%nat = Some Knob /\
              e_shape <$> edges b' !! 6%nat = Some Knob) /\
  (exists b', collapse_edges reverse self_linked_board = Some (true, b') /\
              e_shape <$> edges b' !! 0%nat = Some Knob /\
              e_shape <$> edges b' !! 6%nat = Some Knob).
Proof.
  split_and!; try (vm_compute; reflexivity);
    eexists; split_and!; vm_compute; reflexivity.
Qed.

Lemma NoDup_map_eq {A B} (f : A -> B) l x y :
  NoDup (map f l) -> x ∈ l -> y ∈ l -> f x = f y -> x = y.
Proof.
  induction l as [|a l IH]; simpl; intros Hnd Hx Hy E.
  - by apply elem_of_nil in Hx.
  - apply NoDup_cons in Hnd as [Ha Hnd].
    apply elem_of_cons in Hx as [->|Hx]; apply elem_of_cons in Hy as [->|Hy]; auto.
    + destruct Ha. rewrite E. change (map f l) with (f <$> l). by apply list_elem_of_fmap_2.
    + destruct Ha. rewrite <- E. change (map f l) with (f <$> l). by apply list_elem_of_fmap_2.
Qed.

(** C3, as stated, fails: on the 3 by 3 board connected, shuffled by
    [identity_random], merged and collapsed, the check answers [False]
    although no two cells show the same tuple in direction order. *)
Lemma check_all_unique_not_direction_order :
  merged_board 3 3 identity_random = Some sample_merged /\
  exists b, collapse_edges (fun l => l) sample_merged = Some (true, b) /\
            ~ (check_all_unique b = false <->
               exists p q, p <> q /\ p ∈ positions b /\ q ∈ positions b /\
                           direction_tuple b p = direction_tuple b q).
Proof.
  split; [vm_compute; reflexivity|].
  eexists. split; [vm_compute; reflexivity|].
  intros [H _]. destruct H as (p & q & Hpq & Hp & Hq & E); [vm_compute; reflexivity|].
  apply Hpq. eapply NoDup_map_eq; [|exact Hp|exact Hq|exact E].
  apply (bool_decide_unpack _). vm_compute. exact I.
Qed.

(** ** The theorems at concrete boards *)

(** The construction theorem at the 3 by 3 board. *)
Lemma board_construction_witness :
  1 < 3 /\ 1 < 3 /\
  exists b0 b, new_board 3 3 = Some b0 /\ connect_adjacent_edges b0 = Some (true, b) /\
               Z.of_nat (length (pieces b)) = 3 * 3 /\
               map p_id (pieces b) = Py.range (3 * 3) /\
               Z.of_nat (length (edges b)) = 4 * 3 * 3.
Proof.
  split; [lia|]. split; [lia|].
  destruct (board_construction 3 3) as (b0 & b & H0 & H1 & H2 & H3 & H4 & _); [lia|lia|].
  exists b0, b. split_and!; assumption.
Defined.

(** The shuffle of [sample_connected] by [identity_random]. *)
Lemma shuffle_keeps_connections_witness :
  connected_board 3 3 = Some sample_connected /\
  shuffle identity_random sample_connected = Some sample_shuffled /\
  edges sample_shuffled = edges sample_connected /\
  forall pos, none_count sample_shuffled pos = none_count sample_connected pos.
Proof.
  assert (shuffle identity_random sample_connected = Some sample_shuffled) as H
    by (vm_compute; reflexivity).
  split; [vm_compute; reflexivity|]. split; [exact H|].
  exact (shuffle_keeps_connections identity_random sample_connected sample_shuffled H).
Defined.

(** [identity_random] permutes. *)
Lemma fair_identity_random : fair identity_random.
Proof. split; intros l; reflexivity. Defined.

(** The assertions of [shuffle] on the 3 by 3 board. *)
Lemma shuffle_asserts_hold_witness :
  1 < 3 /\ 1 < 3 /\ fair identity_random /\
  exists b0 b1 b2, new_board 3 3 = Some b0 /\ connect_adjacent_edges b0 = Some (true, b1) /\
                   shuffle identity_random b1 = Some b2.
Proof.
  split; [lia|]. split; [lia|]. split; [exact fair_identity_random|].
  destruct (shuffle_asserts_hold 3 3 identity_random) as (b0 & b1 & b2 & H0 & H1 & _ & _ & H2);
    [lia|lia|exact fair_identity_random|].
  exists b0, b1, b2. split_and!; assumption.
Defined.

(** A corner and the centre of the 3 by 3 board do not swap. *)
Lemma swap_mismatch_fails_witness :
  connected_board 3 3 = Some sample_connected /\
  none_count sample_connected (0, 0) = Some 2 /\
  none_count sample_connected (1, 1) = Some 0 /\
  2 <> 0 /\
  swap sample_connected (0, 0) (1, 1) = Some (false, sample_connected).
Proof.
  assert (none_count sample_connected (0, 0) = Some 2) as H1 by (vm_compute; reflexivity).
  assert (none_count sample_connected (1, 1) = Some 0) as H2 by (vm_compute; reflexivity).
  assert (2 <> 0) as H3 by lia.
  split; [vm_compute; reflexivity|].
  split_and!; try assumption.
  exact (swap_mismatch_fails sample_connected (0, 0) (1, 1) 2 0 H1 H2 H3).
Defined.



(** A collapse step that reports failure and leaves the board as it is:
    the round is discarded. *)
Example main_discards_idle_collapse :
  main_loop_with idle_collapse 2 2 (fun _ => identity_random) 1 0 = Running.
Proof. vm_compute. reflexivity. Qed.

(** [shuffle] by [identity_random] on 2 by 2 boards. *)
Lemma shuffle_2x2_noop_witness :
  fair identity_random /\
  forall b, width b = 2 -> height b = 2 -> shuffle identity_random b = Some b.
Proof.
  split; [exact fair_identity_random|].
  intros b Hw Hh.
  exact (proj2 (proj2 (proj1 (shuffle_2x2_noop (fun l => l) identity_random
                                 fair_identity_random) b Hw Hh))).
Defined.

(** A run of the generation loop that accepts: the 2 by 2 board. *)
Example main_accepts_2x2 :
  exists b, main_loop (fun l => l) 2 2 (fun _ => identity_random) 1 0 = Accepted b.
Proof. eexists. vm_compute. reflexivity. Qed.

(** * Further properties of the board model *)

(** ** Directions, adjacency and corners *)

(** X1: [is_adjacent] holds of two positions exactly when the second is
    one [delta] step away from the first in one of the four directions; it
    is symmetric; and a step followed by the step in the [inverse]
    direction leads back to where it started. *)
Theorem adjacent_iff_step a b :
  (is_adjacent a b = true <-> exists d, b = step a d) /\
  is_adjacent a b = is_adjacent b a /\
  (forall d, step (step a d) (inverse d) = a).
Proof.
  destruct a as [i j], b as [i' j']. split_and!.
  - unfold is_adjacent, step. simpl. rewrite Z.eqb_eq. split.
    + intros H.
      assert ((i' = i + -1 /\ j' = j + 0) \/ (i' = i + 1 /\ j' = j + 0) \/
              (i' = i + 0 /\ j' = j + 1) \/ (i' = i + 0 /\ j' = j + -1))
        as [[-> ->]|[[-> ->]|[[-> ->]|[-> ->]]]] by lia.
      * by exists Up.
      * by exists Down.
      * by exists Right.
      * by exists Left.
    + intros [d E]. destruct d; simpl in E; injection E as -> ->; lia.
  - unfold is_adjacent. simpl. f_equal. lia.
  - intros d. apply step_back.
Qed.

(** X2: [corner_indices] pairs [width - 1] with the row and [height - 1]
    with the column.  On a board with positive sides its four positions are
    all in bounds exactly when the board is square: on a board taller than
    wide its second position is outside, on a board wider than tall its
    fourth. *)
Theorem corner_indices_square b :
  0 < width b -> 0 < height b ->
  (forallb (in_bounds b) (corner_indices b) = true <-> width b = height b) /\
  (width b < height b -> in_bounds b (0, height b - 1) = false) /\
  (height b < width b -> in_bounds b (width b - 1, 0) = false).
Proof.
  intros Hw Hh. unfold corner_indices, in_bounds. simpl. split_and!.
  - rewrite !andb_true_iff, !Z.leb_le, !Z.ltb_lt. lia.
  - intros H. rewrite !andb_false_iff, !Z.ltb_ge. lia.
  - intros H. rewrite !andb_false_iff, !Z.ltb_ge. lia.
Qed.

(** ** Subscripts that leave the grid *)

Lemma index_of_None len k :
  Py.index_of len k = None <-> k < - Z.of_nat len \/ Z.of_nat len <= k.
Proof.
  unfold Py.index_of.
  destruct (Z.leb_spec 0 k), (Z.ltb_spec k (Z.of_nat len)), (Z.ltb_spec k 0),
    (Z.leb_spec (- Z.of_nat len) k); simpl; split; intros ?; try done; lia.
Qed.

Lemma get_None {A} (l : list A) k :
  Py.get l k = None <-> k < - Z.of_nat (length l) \/ Z.of_nat (length l) <= k.
Proof.
  rewrite <- index_of_None. unfold Py.get.
  destruct (Py.index_of (length l) k) as [i|] eqn:E; simpl; [|done].
  apply index_of_lt in E. apply lookup_lt_is_Some in E as [x ->]. done.
Qed.

Lemma get_wrap {A} (l : list A) k :
  - Z.of_nat (length l) <= k < 0 -> Py.get l k = Py.get l (k + Z.of_nat (length l)).
Proof.
  intros H. unfold Py.get, Py.index_of.
  destruct (Z.leb_spec 0 k); [lia|]. simpl.
  destruct (Z.ltb_spec k 0); [|lia]. destruct (Z.leb_spec (- Z.of_nat (length l)) k); [|lia].
  destruct (Z.leb_spec 0 (k + Z.of_nat (length l))); [|lia].
  destruct (Z.ltb_spec (k + Z.of_nat (length l)) (Z.of_nat (length l))); [|lia].
  simpl. do 2 f_equal. lia.
Qed.

(** X3: [get_edge_index] does not check its position.  It raises exactly
    when the row-major subscript [i * width + j] is below [-len(pieces)] or
    at least [len(pieces)]; a negative subscript in that range reads the
    piece counted from the end of the list; and the position one past the
    end of a row reads the first piece of the next row. *)
Theorem get_edge_index_subscripts b pos d :
  (get_edge_index b pos d = None <->
   get_piece_index b pos < - Z.of_nat (length (pieces b)) \/
   Z.of_nat (length (pieces b)) <= get_piece_index b pos) /\
  (- Z.of_nat (length (pieces b)) <= get_piece_index b pos < 0 ->
   get_edge_index b pos d = get_edge_index b (pos.1, pos.2 + Z.of_nat (length (pieces b))) d) /\
  get_edge_index b (pos.1, pos.2 + width b) d = get_edge_index b (pos.1 + 1, pos.2) d.
Proof.
  split_and!.
  - rewrite <- get_None. unfold get_edge_index.
    by destruct (Py.get (pieces b) (get_piece_index b pos)).
  - intros H. unfold get_edge_index. rewrite (get_wrap _ _ H).
    do 2 f_equal. unfold get_piece_index. simpl. lia.
  - unfold get_edge_index, get_piece_index. simpl. do 2 f_equal. lia.
Qed.

(** ** Connecting two edges *)

Lemma map_alter_frame {A B} (g : A -> B) (f : A -> A) i (l : list A) :
  (forall e, g (f e) = g e) -> map g (alter f i l) = map g l.
Proof.
  intros H. apply list_eq. intros n. change (map ?f ?l) with (f <$> l).
  rewrite !list_lookup_fmap, list_lookup_alter. case_decide as E; [|done].
  subst n. destruct (l !! i); simpl; [|done]. by rewrite H.
Qed.

(** X4: a call of [connect_edges] that returns answers [False] only when
    the two subscripts are equal, and then hands back the board as it was;
    otherwise it answers [True], the two edges the subscripts denote name
    each other as [connection], every other edge is what it was, and no
    piece, group, shape or merge set has changed. *)
Theorem connect_edges_result b i j r b' :
  connect_edges b i j = Some (r, b') ->
  (r = false /\ i = j /\ b' = b) \/
  (r = true /\ i <> j /\
   exists x y,
     edge_ref b i = Some x /\ edge_ref b j = Some y /\
     width b' = width b /\ height b' = height b /\ pieces b' = pieces b /\
     (e_connection <$> edges b' !! y) = Some (Some x) /\
     (x <> y -> (e_connection <$> edges b' !! x) = Some (Some y)) /\
     (forall z, z <> x -> z <> y -> edges b' !! z = edges b !! z) /\
     map face (edges b') = map face (edges b) /\
     map e_merges (edges b') = map e_merges (edges b)).
Proof.
  unfold connect_edges. destruct (Z.eqb_spec i j) as [->|N].
  { intros [= <- <-]. by left. }
  destruct (edge_ref b i) as [x|] eqn:Ex; [|done]. simpl.
  destruct (edge_ref b j) as [y|] eqn:Ey; [|done]. simpl.
  intros [= <- <-]. right. split_and!; try done. exists x, y. simpl.
  apply index_of_lt in Ex as Lx. apply index_of_lt in Ey as Ly.
  split_and!; try done.
  - rewrite list_lookup_alter_eq.
    destruct (lookup_lt_is_Some_2 (alter (set_connection y) x (edges b)) y) as [e ->];
      [by rewrite length_alter|]. done.
  - intros N'. rewrite list_lookup_alter_ne by done. rewrite list_lookup_alter_eq.
    destruct (lookup_lt_is_Some_2 (edges b) x Lx) as [e ->]. done.
  - intros z Zx Zy. by rewrite !list_lookup_alter_ne.
  - by rewrite !map_alter_frame.
  - by rewrite !map_alter_frame.
Qed.

(** X5: the guard of [connect_edges] compares subscripts, not edges.
    [connect_edges(k, k)] answers [False] and changes nothing, but
    [k - len(edges)] and [k] denote one edge, and
    [connect_edges(k - len(edges), k)] answers [True] and leaves that edge
    connected to itself. *)
Theorem connect_edges_same_edge b k :
  0 <= k < Z.of_nat (length (edges b)) ->
  connect_edges b k k = Some (false, b) /\
  exists b' e,
    connect_edges b (k - Z.of_nat (length (edges b))) k = Some (true, b') /\
    edges b' !! Z.to_nat k = Some e /\ e_connection e = Some (Z.to_nat k).
Proof.
  intros Hk. unfold connect_edges. rewrite Z.eqb_refl. split; [done|].
  destruct (Z.eqb_spec (k - Z.of_nat (length (edges b))) k) as [E|_]; [lia|].
  unfold edge_ref, Py.index_of.
  destruct (Z.leb_spec 0 (k - Z.of_nat (length (edges b)))); [lia|]. simpl.
  destruct (Z.ltb_spec (k - Z.of_nat (length (edges b))) 0); [|lia].
  destruct (Z.leb_spec (- Z.of_nat (length (edges b))) (k - Z.of_nat (length (edges b))));
    [|lia].
  destruct (Z.leb_spec 0 k); [|lia]. destruct (Z.ltb_spec k (Z.of_nat (length (edges b)))); [|lia].
  simpl.
  replace (Z.to_nat (Z.of_nat (length (edges b)) + (k - Z.of_nat (length (edges b)))))
    with (Z.to_nat k) by lia.
  destruct (lookup_lt_is_Some_2 (edges b) (Z.to_nat k)) as [e He]; [lia|].
  eexists _, _. split; [reflexivity|]. simpl.
  rewrite !list_lookup_alter_eq, He. simpl. done.
Qed.

(** ** Exchanging pieces *)

Lemma insert_swap_back {A} (l : list A) i j a c :
  l !! i = Some a -> l !! j = Some c ->
  <[j:=a]> (<[i:=c]> l) !! j = Some a /\
  <[j:=a]> (<[i:=c]> l) !! i = Some c /\
  <[j:=c]> (<[i:=a]> (<[j:=a]> (<[i:=c]> l))) = l.
Proof.
  intros Hi Hj. apply lookup_lt_Some in Hi as Li. apply lookup_lt_Some in Hj as Lj.
  split_and!.
  - apply list_lookup_insert_eq. by rewrite length_insert.
  - destruct (decide (i = j)) as [->|N].
    + rewrite list_lookup_insert_eq by (by rewrite length_insert). congruence.
    + rewrite list_lookup_insert_ne by done. by apply list_lookup_insert_eq.
  - apply list_eq. intros n. rewrite !list_lookup_insert, !length_insert.
    repeat case_decide; try done; destruct_and?; subst; try congruence; lia.
Qed.

(** X6: a call of [swap_pieces] that returns is undone by the same call:
    the second one gives back the board the first one was given.  The piece
    list it leaves is a permutation of the one it found, and the edges are
    untouched. *)
Theorem swap_pieces_twice b x y b' :
  swap_pieces b x y = Some b' ->
  swap_pieces b' x y = Some b /\ pieces b' ≡ₚ pieces b /\ edges b' = edges b.
Proof.
  unfold swap_pieces. intros H.
  destruct (Py.get (pieces b) (get_piece_index b y)) as [tp|] eqn:Ht; [|discriminate].
  destruct (Py.get (pieces b) (get_piece_index b x)) as [fp|] eqn:Hf; [|discriminate].
  apply get_index in Hf as (fi & Ef & Hf). apply get_index in Ht as (ti & Et & Ht).
  rewrite Ef, Et in H. simpl in H. injection H as <-.
  destruct (insert_swap_back (pieces b) fi ti fp tp Hf Ht) as (Lt & Lf & Back).
  split_and!.
  - unfold get_piece_index, Py.get. simpl. rewrite !length_insert.
    unfold get_piece_index in Ef, Et. rewrite Ef, Et. simpl. rewrite Lt, Lf. simpl.
    rewrite Back. by destruct b.
  - simpl. by apply Permutation_insert_swap.
  - done.
Qed.

Lemma swap_pieces_perm b x y b' : swap_pieces b x y = Some b' -> pieces b' ≡ₚ pieces b.
Proof.
  unfold swap_pieces. intros H.
  destruct (Py.get (pieces b) (get_piece_index b y)) as [tp|] eqn:Ht; [|discriminate].
  destruct (Py.get (pieces b) (get_piece_index b x)) as [fp|] eqn:Hf; [|discriminate].
  apply get_index in Hf as (fi & Ef & Hf). apply get_index in Ht as (ti & Et & Ht).
  rewrite Ef, Et in H. simpl in H. injection H as <-. simpl.
  by apply Permutation_insert_swap.
Qed.

Lemma exchange_rotations_keys b x y b' :
  exchange_rotations b x y = Some b' ->
  map piece_key (pieces b') = map piece_key (pieces b).
Proof.
  unfold exchange_rotations. intros H.
  destruct (Py.get (pieces b) (get_piece_index b x)) as [fp|]; [|discriminate].
  destruct (Py.get (pieces b) (get_piece_index b y)) as [tp|]; [|discriminate].
  destruct (Py.index_of (length (pieces b)) (get_piece_index b x)) as [fi|]; [|discriminate].
  destruct (Py.index_of (length (pieces b)) (get_piece_index b y)) as [ti|]; [|discriminate].
  simpl in H. injection H as <-. simpl. by rewrite !map_alter_frame.
Qed.

Lemma swap_keys b x y r b' :
  swap b x y = Some (r, b') -> map piece_key (pieces b') ≡ₚ map piece_key (pieces b).
Proof.
  unfold swap. intros H.
  destruct (none_count b x) as [cx|]; [|discriminate].
  destruct (none_count b y) as [cy|]; [|discriminate].
  simpl in H. destruct (cx =? cy); simpl in H; [|by injection H as <- <-].
  assert (exists b1, (if 0 <? cx then exchange_rotations b x y else Some b) = Some b1 /\
                     map piece_key (pieces b1) = map piece_key (pieces b)) as (b1 & E1 & K1).
  { destruct (0 <? cx).
    - destruct (exchange_rotations b x y) as [b1|] eqn:E1; [|discriminate].
      exists b1. split; [done|]. by apply exchange_rotations_keys in E1.
    - by exists b. }
  rewrite E1 in H. simpl in H.
  destruct (swap_pieces b1 x y) as [b2|] eqn:E2; [|discriminate].
  simpl in H. injection H as <- <-.
  apply swap_pieces_perm in E2 as P. rewrite <- K1.
  change (map ?f ?l) with (f <$> l). by rewrite P.
Qed.

Lemma cycle_border_keys l :
  forall b b', cycle_border l b = Some b' ->
               map piece_key (pieces b') ≡ₚ map piece_key (pieces b).
Proof.
  induction l as [|x0|x0 x1|e0 e1 e2 l IH] using triples_ind; intros b b' H;
    try (by injection H as <-).
  simpl in H. unfold assert_swap in H.
  destruct (swap b e0 e1) as [[[] b1]|] eqn:E1; try discriminate. simpl in H.
  destruct (swap b1 e0 e2) as [[[] b2]|] eqn:E2; try discriminate. simpl in H.
  apply swap_keys in E1, E2. apply IH in H. by rewrite H, E2.
Qed.

Lemma assign_rotation_keys b pos r b' :
  assign_rotation b pos r = Some b' -> map piece_key (pieces b') = map piece_key (pieces b).
Proof.
  unfold assign_rotation.
  destruct (Py.index_of (length (pieces b)) (get_piece_index b pos)) as [i|]; [|discriminate].
  simpl. intros [= <-]. simpl. by rewrite map_alter_frame.
Qed.

Lemma cycle_centers_keys rnd l :
  forall k b b', cycle_centers rnd k l b = Some b' ->
                 map piece_key (pieces b') ≡ₚ map piece_key (pieces b).
Proof.
  induction l as [|x0|x0 x1|c0 c1 c2 l IH] using triples_ind; intros k b b' H;
    try (by injection H as <-).
  simpl in H. unfold assert_swap in H.
  destruct (swap b c0 c1) as [[[] b1]|] eqn:E1; try discriminate. simpl in H.
  destruct (swap b1 c0 c2) as [[[] b2]|] eqn:E2; try discriminate. simpl in H.
  destruct (assign_rotation b2 c0 (choice rnd k)) as [b3|] eqn:E3; [|discriminate]. simpl in H.
  apply swap_keys in E1, E2. apply assign_rotation_keys in E3. apply IH in H.
  by rewrite H, E3, E2.
Qed.

Lemma shuffle_keys rnd b b' :
  shuffle rnd b = Some b' -> map piece_key (pieces b') ≡ₚ map piece_key (pieces b).
Proof.
  unfold shuffle. intros H.
  destruct (cycle_border _ b) as [b1|] eqn:E1; [|discriminate]. simpl in H.
  apply cycle_border_keys in E1. apply cycle_centers_keys in H. by rewrite H.
Qed.

(** ** The uniqueness checker and the arrangement *)

Lemma unique_from_true b ps seen :
  unique_from b ps seen = true <->
  NoDup (map (out_piece b) ps) /\ forall p, p ∈ ps -> out_piece b p ∉ seen.
Proof.
  revert seen. induction ps as [|p ps IH]; intros seen; simpl.
  - split; [|done]. intros _. split; [apply NoDup_nil_2|]. intros p H. by apply elem_of_nil in H.
  - destruct (decide (out_piece b p ∈ seen)) as [Hin|Hnin].
    + split; [done|]. intros [_ H]. destruct (H p); [by left|done].
    + rewrite IH, NoDup_cons. split.
      * intros [Hnd H]. split_and!; [|done|].
        -- change (map ?f ?l) with (f <$> l). rewrite list_elem_of_fmap.
           intros (q & E & Hq). apply (H q Hq). rewrite <- E. by left.
        -- intros q Hq. apply elem_of_cons in Hq as [->|Hq]; [done|].
           intros Hs. apply (H q Hq). by right.
      * intros [[Hp Hnd] H]. split; [done|]. intros q Hq Hs.
        apply elem_of_cons in Hs as [E|Hs].
        -- apply Hp. change (map ?f ?l) with (f <$> l). rewrite list_elem_of_fmap. by exists q.
        -- apply (H q); [by right|done].
Qed.

Lemma check_all_unique_NoDup c :
  check_all_unique c = true <-> NoDup (map (tuple_at (edges c)) (map p_edges (pieces c))).
Proof.
  unfold check_all_unique. rewrite unique_from_true, map_map. split.
  - by intros [H _].
  - intros H. split; [done|]. intros p _ Hs. by apply elem_of_nil in Hs.
Qed.

(** X7: a run of [shuffle] that returns loses and duplicates no piece: the
    (id, first edge) pairs of the piece list are a permutation of what they
    were, the list has the length it had, and [check_all_unique] answers on
    the shuffled board what it answers on the board before. *)
Theorem shuffle_permutes_pieces rnd b b' :
  shuffle rnd b = Some b' ->
  map piece_key (pieces b') ≡ₚ map piece_key (pieces b) /\
  length (pieces b') = length (pieces b) /\
  check_all_unique b' = check_all_unique b.
Proof.
  intros H. pose proof (shuffle_keys _ _ _ H) as P. split_and!.
  - done.
  - apply Permutation_length in P. by rewrite !length_map in P.
  - apply shuffle_result in H as (_ & _ & He & _).
    apply eq_true_iff_eq. rewrite !check_all_unique_NoDup, He.
    assert (forall ps, map p_edges ps = map snd (map piece_key ps)) as E
      by (intros ps; by rewrite map_map).
    rewrite !E. change (map ?f ?l) with (f <$> l) in *. by rewrite P.
Qed.

(** X8: the answer of [check_all_unique] depends on the edges and on which
    pieces there are, not on where the pieces sit or how they are rotated:
    two boards with the same edges whose piece lists hold the same first
    edges, in any order, get the same answer. *)
Theorem check_all_unique_arrangement b b' :
  edges b' = edges b -> map p_edges (pieces b') ≡ₚ map p_edges (pieces b) ->
  check_all_unique b' = check_all_unique b.
Proof.
  intros He Hp. apply eq_true_iff_eq. rewrite !check_all_unique_NoDup, He.
  change (map ?f ?l) with (f <$> l). by rewrite Hp.
Qed.

(** ** The candidate lists of [shuffle] *)

Lemma flat_map_bind {A B} (f : A -> list B) (l : list A) : flat_map f l = l ≫= f.
Proof. induction l as [|x l IH]; simpl; [done|]. by rewrite IH. Qed.

Lemma elem_of_flat_map {A B} (f : A -> list B) (l : list A) y :
  y ∈ flat_map f l <-> exists x, x ∈ l /\ y ∈ f x.
Proof.
  rewrite list_elem_of_In, in_flat_map. split; intros (x & Hx & Hy); exists x;
    by rewrite ?list_elem_of_In in *.
Qed.

Lemma NoDup_range2 lo hi : NoDup (Py.range2 lo hi).
Proof.
  unfold Py.range2. change (map ?f ?l) with (f <$> l).
  apply NoDup_fmap_2_strong; [|apply NoDup_seq]. intros x y _ _. lia.
Qed.

Lemma elem_of_border_row i lo hi pos :
  pos ∈ flat_map (fun j => if i =? j then [] else [(i, j)]) (Py.range2 lo hi) <->
  pos.1 = i /\ lo <= pos.2 < hi /\ pos.1 <> pos.2.
Proof.
  rewrite elem_of_flat_map. split.
  - intros (j & Hj & H). apply elem_of_range2 in Hj.
    destruct (Z.eqb_spec i j); [by apply elem_of_nil in H|].
    apply list_elem_of_singleton in H as ->. simpl. lia.
  - intros (<- & Hj & N). exists pos.2. rewrite elem_of_range2. split; [done|].
    destruct (Z.eqb_spec pos.1 pos.2); [done|]. destruct pos. by apply list_elem_of_singleton.
Qed.

Lemma elem_of_border_col j lo hi pos :
  pos ∈ flat_map (fun i => if i =? j then [] else [(i, j)]) (Py.range2 lo hi) <->
  pos.2 = j /\ lo <= pos.1 < hi /\ pos.1 <> pos.2.
Proof.
  rewrite elem_of_flat_map. split.
  - intros (i & Hi & H). apply elem_of_range2 in Hi.
    destruct (Z.eqb_spec i j); [by apply elem_of_nil in H|].
    apply list_elem_of_singleton in H as ->. simpl. lia.
  - intros (<- & Hi & N). exists pos.1. rewrite elem_of_range2. split; [done|].
    destruct (Z.eqb_spec pos.1 pos.2); [done|]. destruct pos. by apply list_elem_of_singleton.
Qed.

Lemma NoDup_border_row i lo hi :
  NoDup (flat_map (fun j => if i =? j then [] else [(i, j)]) (Py.range2 lo hi)).
Proof.
  rewrite flat_map_bind. apply NoDup_bind; [| |apply NoDup_range2].
  - intros j1 j2 y _ _ H1 H2.
    destruct (i =? j1); [by apply elem_of_nil in H1|].
    destruct (i =? j2); [by apply elem_of_nil in H2|].
    apply list_elem_of_singleton in H1, H2. congruence.
  - intros j _. destruct (i =? j); [apply NoDup_nil_2|apply NoDup_singleton].
Qed.

Lemma NoDup_border_col j lo hi :
  NoDup (flat_map (fun i => if i =? j then [] else [(i, j)]) (Py.range2 lo hi)).
Proof.
  rewrite flat_map_bind. apply NoDup_bind; [| |apply NoDup_range2].
  - intros i1 i2 y _ _ H1 H2.
    destruct (i1 =? j); [by apply elem_of_nil in H1|].
    destruct (i2 =? j); [by apply elem_of_nil in H2|].
    apply list_elem_of_singleton in H1, H2. congruence.
  - intros i _. destruct (i =? j); [apply NoDup_nil_2|apply NoDup_singleton].
Qed.

Lemma elem_of_border_candidates b pos :
  pos ∈ border_candidates b <->
  (((pos.1 = 0 \/ pos.1 = height b - 1) /\ 1 <= pos.2 < width b - 1) \/
   ((pos.2 = 0 \/ pos.2 = width b - 1) /\ 1 <= pos.1 < height b - 1)) /\
  pos.1 <> pos.2.
Proof.
  unfold border_candidates. rewrite elem_of_app, !elem_of_flat_map. split.
  - intros [(i & Hi & H)|(j & Hj & H)].
    + apply elem_of_border_row in H as (E & Hr & N).
      apply elem_of_cons in Hi as [->|Hi];
        [|apply list_elem_of_singleton in Hi as ->]; split; try done; left; lia.
    + apply elem_of_border_col in H as (E & Hr & N).
      apply elem_of_cons in Hj as [->|Hj];
        [|apply list_elem_of_singleton in Hj as ->]; split; try done; right; lia.
  - intros [[[Hi Hj]|[Hj Hi]] N].
    + left. exists pos.1. split.
      * destruct Hi as [->| ->]; [by left|right; by left].
      * by apply elem_of_border_row.
    + right. exists pos.2. split.
      * destruct Hj as [->| ->]; [by left|right; by left].
      * by apply elem_of_border_col.
Qed.

Lemma elem_of_center_candidates b pos :
  pos ∈ center_candidates b <-> 1 <= pos.1 < height b - 1 /\ 1 <= pos.2 < width b - 1.
Proof.
  split; [apply center_candidates_elem|]. intros [Hi Hj].
  unfold center_candidates. apply elem_of_flat_map. exists pos.1.
  rewrite elem_of_range2. split; [done|]. change (map ?f ?l) with (f <$> l).
  apply list_elem_of_fmap. exists pos.2. rewrite elem_of_range2. by destruct pos.
Qed.

(** X9: on a board with sides above 1, the list the border phase of
    [shuffle] collects holds exactly the positions on the first or last row
    or column that are no corner and do not have row index equal to column
    index, each once; the list the interior phase collects holds exactly
    the positions off the border, each once. *)
Theorem candidate_lists_exact b :
  1 < width b -> 1 < height b ->
  (forall pos, pos ∈ border_candidates b <->
     (((pos.1 = 0 \/ pos.1 = height b - 1) /\ 1 <= pos.2 < width b - 1) \/
      ((pos.2 = 0 \/ pos.2 = width b - 1) /\ 1 <= pos.1 < height b - 1)) /\
     pos.1 <> pos.2) /\
  NoDup (border_candidates b) /\
  (forall pos, pos ∈ center_candidates b <->
     1 <= pos.1 < height b - 1 /\ 1 <= pos.2 < width b - 1) /\
  NoDup (center_candidates b).
Proof.
  intros Hw Hh. split_and!.
  - apply elem_of_border_candidates.
  - unfold border_candidates. apply NoDup_app. split_and!.
    + rewrite flat_map_bind. apply NoDup_bind.
      * intros i1 i2 y _ _ H1 H2.
        apply elem_of_border_row in H1 as (<- & _). by apply elem_of_border_row in H2 as (<- & _).
      * intros i _. apply NoDup_border_row.
      * apply NoDup_cons. split; [|apply NoDup_singleton].
        intros H. apply list_elem_of_singleton in H. lia.
    + intros pos H1 H2. apply elem_of_flat_map in H1 as (i & _ & H1), H2 as (j & Hj & H2).
      apply elem_of_border_row in H1 as (_ & Hr & _).
      apply elem_of_border_col in H2 as (E & _).
      apply elem_of_cons in Hj as [->|Hj]; [lia|].
      apply list_elem_of_singleton in Hj as ->. lia.
    + rewrite flat_map_bind. apply NoDup_bind.
      * intros j1 j2 y _ _ H1 H2.
        apply elem_of_border_col in H1 as (<- & _). by apply elem_of_border_col in H2 as (<- & _).
      * intros j _. apply NoDup_border_col.
      * apply NoDup_cons. split; [|apply NoDup_singleton].
        intros H. apply list_elem_of_singleton in H. lia.
  - apply elem_of_center_candidates.
  - unfold center_candidates. rewrite flat_map_bind. apply NoDup_bind; [| |apply NoDup_range2].
    + intros i1 i2 y _ _ H1 H2. change (map ?f ?l) with (f <$> l) in *.
      apply list_elem_of_fmap in H1 as (j1 & -> & _), H2 as (j2 & E & _). congruence.
    + intros i _. change (map ?f ?l) with (f <$> l).
      apply NoDup_fmap_2_strong; [|apply NoDup_range2]. intros x y _ _. congruence.
Qed.

(** ** The arrangement [shuffle] leaves *)

Lemma lookup_nonneg {A} (l : list A) k : 0 <= k -> Py.get l k = l !! Z.to_nat k.
Proof.
  intros Hk. destruct (Z.lt_ge_cases k (Z.of_nat (length l))) as [H|H].
  - apply get_nonneg. lia.
  - rewrite (proj2 (get_None l k)) by lia. symmetry. apply lookup_ge_None. lia.
Qed.

Lemma index_of_nonneg_inv len k i : 0 <= k -> Py.index_of len k = Some i -> i = Z.to_nat k.
Proof.
  intros Hk. unfold Py.index_of.
  destruct ((0 <=? k) && (k <? Z.of_nat len)); [congruence|].
  destruct (Z.ltb_spec k 0); [lia|]. done.
Qed.

Lemma cell_inj w pos pos' :
  0 <= pos.1 -> 0 <= pos'.1 -> 0 <= pos.2 < w -> 0 <= pos'.2 < w ->
  cell w pos = cell w pos' -> pos = pos'.
Proof.
  intros Hi Hi' Hj Hj' E. unfold cell in E.
  assert (pos.1 * w + pos.2 = pos'.1 * w + pos'.2) as E' by nia.
  apply cell_index_inj in E' as [? ?]; [|done..]. destruct pos, pos'. simpl in *. congruence.
Qed.

(** A call of [swap] touches the two cells it is given and no other. *)
Lemma swap_frame b x y r b' n :
  swap b x y = Some (r, b') ->
  0 <= get_piece_index b x -> 0 <= get_piece_index b y ->
  n <> Z.to_nat (get_piece_index b x) -> n <> Z.to_nat (get_piece_index b y) ->
  pieces b' !! n = pieces b !! n.
Proof.
  unfold swap. intros H Hx Hy Nx Ny.
  destruct (none_count b x) as [cx|]; [|discriminate].
  destruct (none_count b y) as [cy|]; [|discriminate].
  simpl in H. destruct (cx =? cy); simpl in H; [|by injection H as <- <-].
  assert (exists b1, (if 0 <? cx then exchange_rotations b x y else Some b) = Some b1 /\
                     width b1 = width b /\ length (pieces b1) = length (pieces b) /\
                     pieces b1 !! n = pieces b !! n) as (b1 & E1 & W1 & L1 & K1).
  { destruct (0 <? cx); [|by exists b].
    destruct (exchange_rotations b x y) as [b1|] eqn:E1; [|discriminate].
    exists b1. split; [done|]. unfold exchange_rotations in E1.
    destruct (Py.get (pieces b) (get_piece_index b x)) as [fp|]; [|discriminate].
    destruct (Py.get (pieces b) (get_piece_index b y)) as [tp|]; [|discriminate].
    destruct (Py.index_of (length (pieces b)) (get_piece_index b x)) as [fi|] eqn:Ef;
      [|discriminate].
    destruct (Py.index_of (length (pieces b)) (get_piece_index b y)) as [ti|] eqn:Et;
      [|discriminate].
    apply index_of_nonneg_inv in Ef, Et; [|done..]. subst fi ti.
    simpl in E1. injection E1 as <-. simpl. rewrite !length_alter.
    split_and!; try done. by rewrite !list_lookup_alter_ne. }
  rewrite E1 in H. simpl in H.
  destruct (swap_pieces b1 x y) as [b2|] eqn:E2; [|discriminate].
  simpl in H. injection H as <- <-. unfold swap_pieces in E2.
  destruct (Py.get (pieces b1) (get_piece_index b1 y)) as [tp|]; [|discriminate].
  destruct (Py.get (pieces b1) (get_piece_index b1 x)) as [fp|]; [|discriminate].
  unfold get_piece_index in *. rewrite W1, L1 in E2.
  destruct (Py.index_of (length (pieces b)) (x.1 * width b + x.2)) as [fi|] eqn:Ef;
    [|discriminate].
  destruct (Py.index_of (length (pieces b)) (y.1 * width b + y.2)) as [ti|] eqn:Et;
    [|discriminate].
  apply index_of_nonneg_inv in Ef, Et; [|done..]. subst fi ti.
  simpl in E2. injection E2 as <-. simpl. by rewrite !list_lookup_insert_ne.
Qed.

Lemma inside_cell_neq w h pos x :
  inside w h pos -> inside w h x -> pos <> x -> cell w pos <> cell w x.
Proof.
  intros [Hi Hj] [Hi' Hj'] N E. apply N. apply (cell_inj w); lia || done.
Qed.

Lemma assert_swap_fixed b x y b' pos :
  assert_swap b x y = Some b' ->
  inside (width b) (height b) x -> inside (width b) (height b) y ->
  inside (width b) (height b) pos -> pos <> x -> pos <> y ->
  pieces b' !! cell (width b) pos = pieces b !! cell (width b) pos.
Proof.
  unfold assert_swap. destruct (swap b x y) as [[[] b1]|] eqn:E; try discriminate.
  intros [= <-] Hx Hy Hp Nx Ny.
  pose proof (cell_index_range _ _ _ Hx). pose proof (cell_index_range _ _ _ Hy).
  apply (swap_frame b x y true); unfold get_piece_index; try lia; try done.
  - by apply (inside_cell_neq (width b) (height b)).
  - by apply (inside_cell_neq (width b) (height b)).
Qed.

Lemma assign_rotation_fixed b x r b' pos :
  assign_rotation b x r = Some b' ->
  inside (width b) (height b) x -> inside (width b) (height b) pos -> pos <> x ->
  pieces b' !! cell (width b) pos = pieces b !! cell (width b) pos.
Proof.
  unfold assign_rotation. intros H Hx Hp N.
  destruct (Py.index_of (length (pieces b)) (get_piece_index b x)) as [i|] eqn:E;
    [|discriminate].
  pose proof (cell_index_range _ _ _ Hx).
  apply index_of_nonneg_inv in E; [|unfold get_piece_index; lia]. subst i.
  simpl in H. injection H as <-. simpl. apply list_lookup_alter_ne.
  intros E. by apply (inside_cell_neq (width b) (height b) pos x).
Qed.

Lemma cycle_border_fixed l :
  forall b b', cycle_border l b = Some b' ->
               Forall (inside (width b) (height b)) l -> fixed_outside l b b'.
Proof.
  induction l as [|x0|x0 x1|e0 e1 e2 l IH] using triples_ind; intros b b' H F;
    try (by injection H as <-).
  simpl in H.
  destruct (assert_swap b e0 e1) as [b1|] eqn:E1; [|discriminate]. simpl in H.
  destruct (assert_swap b1 e0 e2) as [b2|] eqn:E2; [|discriminate]. simpl in H.
  apply Forall_cons in F as [F0 F]. apply Forall_cons in F as [F1 F].
  apply Forall_cons in F as [F2 F].
  pose proof (assert_swap_result _ _ _ _ E1) as (W1 & H1 & _).
  pose proof (assert_swap_result _ _ _ _ E2) as (W2 & H2 & _).
  intros pos Hp Hn. rewrite !not_elem_of_cons in Hn. destruct Hn as (N0 & N1 & N2 & Hn).
  rewrite <- (assert_swap_fixed b e0 e1 b1 pos) by done.
  rewrite <- W1. rewrite <- W1, <- H1 in F0, F2, Hp, F.
  rewrite <- (assert_swap_fixed b1 e0 e2 b2 pos) by done.
  rewrite <- W2. rewrite <- W2, <- H2 in Hp, F. by apply IH.
Qed.

Lemma cycle_centers_fixed rnd l :
  forall k b b', cycle_centers rnd k l b = Some b' ->
                 Forall (inside (width b) (height b)) l -> fixed_outside l b b'.
Proof.
  induction l as [|x0|x0 x1|c0 c1 c2 l IH] using triples_ind; intros k b b' H F;
    try (by injection H as <-).
  simpl in H.
  destruct (assert_swap b c0 c1) as [b1|] eqn:E1; [|discriminate]. simpl in H.
  destruct (assert_swap b1 c0 c2) as [b2|] eqn:E2; [|discriminate]. simpl in H.
  destruct (assign_rotation b2 c0 (choice rnd k)) as [b3|] eqn:E3; [|discriminate]. simpl in H.
  apply Forall_cons in F as [F0 F]. apply Forall_cons in F as [F1 F].
  apply Forall_cons in F as [F2 F].
  pose proof (assert_swap_result _ _ _ _ E1) as (W1 & H1 & _).
  pose proof (assert_swap_result _ _ _ _ E2) as (W2 & H2 & _).
  pose proof (assign_rotation_result _ _ _ _ E3) as (W3 & H3 & _).
  intros pos Hp Hn. rewrite !not_elem_of_cons in Hn. destruct Hn as (N0 & N1 & N2 & Hn).
  rewrite <- (assert_swap_fixed b c0 c1 b1 pos) by done.
  rewrite <- W1. rewrite <- W1, <- H1 in F0, F2, Hp, F.
  rewrite <- (assert_swap_fixed b1 c0 c2 b2 pos) by done.
  rewrite <- W2. rewrite <- W2, <- H2 in F0, Hp, F.
  rewrite <- (assign_rotation_fixed b2 c0 (choice rnd k) b3 pos) by done.
  rewrite <- W3. rewrite <- W3, <- H3 in Hp, F. by apply (IH (S k)).
Qed.

(** X10: [shuffle] moves only what its two lists name.  After a run that
    returns, every position in bounds that is in neither candidate list
    holds the piece it held, with the rotation it had; so do, in
    particular, the four corners. *)
Theorem shuffle_fixes_other_cells rnd b b' :
  1 < width b -> 1 < height b -> fair rnd -> shuffle rnd b = Some b' ->
  (forall pos, in_bounds b pos = true ->
               pos ∉ border_candidates b -> pos ∉ center_candidates b ->
               Py.get (pieces b') (get_piece_index b' pos) =
               Py.get (pieces b) (get_piece_index b pos)) /\
  (forall pos, pos ∈ [(0, 0); (0, width b - 1); (height b - 1, 0);
                      (height b - 1, width b - 1)] ->
               Py.get (pieces b') (get_piece_index b' pos) =
               Py.get (pieces b) (get_piece_index b pos)).
Proof.
  intros Hw Hh [Fb Fc] H.
  assert (forall pos, in_bounds b pos = true ->
               pos ∉ border_candidates b -> pos ∉ center_candidates b ->
               Py.get (pieces b') (get_piece_index b' pos) =
               Py.get (pieces b) (get_piece_index b pos)) as Main.
  { intros pos Hin Nb Nc. apply in_bounds_inside in Hin.
    pose proof (shuffle_result _ _ _ H) as (W & _).
    unfold get_piece_index. rewrite W.
    pose proof (cell_index_range _ _ _ Hin).
    rewrite !lookup_nonneg by lia. change (Z.to_nat _) with (cell (width b) pos).
    unfold shuffle in H.
    destruct (cycle_border _ b) as [b1|] eqn:E1; [|discriminate]. simpl in H.
    pose proof (cycle_border_result _ _ _ E1) as P1. pose proof P1 as (W1 & H1 & _).
    rewrite (center_candidates_preserved b b1 P1) in H.
    apply cycle_border_fixed in E1.
    2:{ apply Forall_forall. intros x Hx. rewrite (Fb _) in Hx.
        by apply border_candidates_inside. }
    apply cycle_centers_fixed in H.
    2:{ apply Forall_forall. intros x Hx. rewrite (Fc _) in Hx. rewrite W1, H1.
        by apply center_candidates_inside. }
    rewrite <- (E1 pos) by (by rewrite ?(Fb _)).
    rewrite <- W1. apply H; [by rewrite W1, H1|by rewrite (Fc _)]. }
  split; [done|]. intros pos Hpos. apply Main.
  - apply in_bounds_inside. unfold inside.
    repeat (apply elem_of_cons in Hpos as [->|Hpos]); [simpl; lia..|].
    by apply elem_of_nil in Hpos.
  - rewrite elem_of_border_candidates.
    repeat (apply elem_of_cons in Hpos as [->|Hpos]); [simpl; lia..|].
    by apply elem_of_nil in Hpos.
  - rewrite elem_of_center_candidates.
    repeat (apply elem_of_cons in Hpos as [->|Hpos]); [simpl; lia..|].
    by apply elem_of_nil in Hpos.
Qed.

(** ** The shuffled board of the pipeline *)

Lemma connected_board_connecting w h :
  1 < w -> 1 < h ->
  exists b, connected_board w h = Some b /\ connecting w h (rounds w h) b.
Proof.
  intros Hw Hh. unfold connected_board.
  destruct (connect_adjacent_edges_spec w h Hw Hh) as (b0 & b1 & E0 & E1 & HC).
  rewrite E0. cbn [mbind option_bind]. rewrite E1. cbn [mbind option_bind snd]. eauto.
Qed.

Lemma shuffled_board_shuffling w h rnd b b' :
  1 < w -> 1 < h -> fair rnd -> connected_board w h = Some b -> shuffle rnd b = Some b' ->
  connecting w h (rounds w h) b /\ shuffling w h (edges b) b'.
Proof.
  intros Hw Hh Hf Hb Hs.
  destruct (connected_board_connecting w h Hw Hh) as (b1 & E1 & HC).
  assert (b1 = b) as -> by congruence. split; [done|].
  pose proof (connecting_shuffling w h b Hw Hh HC) as HS1.
  destruct (shuffle_shuffling w h (edges b) rnd b Hw Hh Hf HS1) as (b2 & E2 & HS2).
  congruence.
Qed.

(** X11: on the connected board of any size above 1 by 1, after [shuffle]
    with any outcome of the random draws, every cell still shows an
    unconnected slot exactly in the directions that lead out of the grid:
    flat sides face outwards, connected sides inwards. *)
Theorem shuffled_flats_outward w h rnd b b' :
  1 < w -> 1 < h -> fair rnd -> connected_board w h = Some b -> shuffle rnd b = Some b' ->
  forall pos d, in_bounds b' pos = true ->
                unconnected b' pos d = Some (negb (in_bounds b' (step pos d))).
Proof.
  intros Hw Hh Hf Hb Hs pos d Hin.
  destruct (shuffled_board_shuffling w h rnd b b' Hw Hh Hf Hb Hs) as [_ HS].
  destruct HS as (_ & _ & _ & _ & Hfc & _). apply Hfc. by apply in_bounds_inside.
Qed.

Lemma grid_pieces_edges w h :
  map p_edges (grid_pieces w h) = map (fun k : nat => 4 * Z.of_nat k) (seq 0 (Z.to_nat (w * h))).
Proof. unfold grid_pieces. by rewrite map_map. Qed.

Lemma NoDup_grid_pieces_edges w h : NoDup (map p_edges (grid_pieces w h)).
Proof.
  rewrite grid_pieces_edges. change (map ?f ?l) with (f <$> l).
  apply NoDup_fmap_2_strong; [|apply NoDup_seq]. intros x y _ _. lia.
Qed.

Lemma keys_edges ps : map p_edges ps = map snd (map piece_key ps).
Proof. by rewrite map_map. Qed.

Lemma get_edge_index_cell w h b pos d p :
  width b = w -> length (pieces b) = Z.to_nat (w * h) -> inside w h pos ->
  pieces b !! cell w pos = Some p ->
  get_edge_index b pos d = Some (p_edges p + slot_offset (p_rotation p) d).
Proof.
  intros Hw Hl Hin Hp. unfold get_edge_index.
  by rewrite (get_at _ _ _ (index_of_cell w h b pos Hw Hl Hin)), Hp.
Qed.

Lemma shuffled_slot_surj w h rnd b b' x :
  1 < w -> 1 < h -> fair rnd -> connected_board w h = Some b -> shuffle rnd b = Some b' ->
  (x < length (edges b'))%nat ->
  exists pos d, in_bounds b' pos = true /\ get_edge_index b' pos d = Some (Z.of_nat x).
Proof.
  intros Hw Hh Hf Hb Hs.
  destruct (shuffled_board_shuffling w h rnd b b' Hw Hh Hf Hb Hs) as [HC HS].
  pose proof HS as (Ew & Eh & Ee & Hl & _ & _ & Hbase).
  pose proof HC as (_ & _ & [Hgrid Hlen] & _).
  pose proof (shuffle_keys _ _ _ Hs) as Hk.
  assert (map p_edges (pieces b') ≡ₚ map p_edges (grid_pieces w h)) as Hperm.
  { rewrite !keys_edges. change (map ?f ?l) with (f <$> l) in *. rewrite Hk.
    destruct HC as (W & H & _). by rewrite Hgrid, W, H. }
  assert (NoDup (map p_edges (pieces b'))) as Hnd
    by (rewrite Hperm; apply NoDup_grid_pieces_edges).
  intros Hx. rewrite Ee, Hlen in Hx. destruct HC as (W & H & _). rewrite W, H in Hx.
  set (k := Z.of_nat x / 4). set (s := Z.of_nat x `mod` 4).
  assert (Z.of_nat x = 4 * k + s) as Ex by (unfold k, s; apply Z.div_mod; lia).
  assert (0 <= s < 4) as Hr by (unfold s; apply Z.mod_pos_bound; lia).
  assert (0 <= k < w * h) as Hk' by lia.
  assert (4 * k ∈ map p_edges (pieces b')) as Hin.
  { rewrite Hperm, grid_pieces_edges. change (map ?f ?l) with (f <$> l).
    apply list_elem_of_fmap. exists (Z.to_nat k). split; [lia|]. apply elem_of_seq. lia. }
  change (map ?f ?l) with (f <$> l) in Hin.
  apply list_elem_of_fmap in Hin as (p & Ep & Hin).
  apply list_elem_of_lookup in Hin as (n & Hn).
  apply lookup_lt_Some in Hn as Ln. rewrite Hl in Ln.
  set (pos := (Z.of_nat n / w, Z.of_nat n `mod` w)).
  assert (inside w h pos) as Hpos.
  { unfold inside, pos. simpl.
    pose proof (Z.mod_pos_bound (Z.of_nat n) w ltac:(lia)).
    pose proof (Z.div_pos (Z.of_nat n) w ltac:(lia) ltac:(lia)).
    assert (Z.of_nat n / w < h); [|lia].
    apply Z.div_lt_upper_bound; [lia|]. nia. }
  assert (cell w pos = n) as Ec.
  { unfold cell, pos. simpl.
    rewrite (Z.mul_comm (Z.of_nat n / w) w), <- Z.div_mod by lia. lia. }
  destruct (slot_offset_surj (p_rotation p) s Hr) as (d & Hd).
  exists pos, d. split; [apply in_bounds_inside; by rewrite Ew, Eh|].
  rewrite (get_edge_index_cell w h b' pos d p); [|done..|by rewrite Ec].
  f_equal. lia.
Qed.

Lemma shuffled_slot_inj w h rnd b b' pos d pos' d' :
  1 < w -> 1 < h -> fair rnd -> connected_board w h = Some b -> shuffle rnd b = Some b' ->
  in_bounds b' pos = true -> in_bounds b' pos' = true ->
  get_edge_index b' pos d = get_edge_index b' pos' d' -> pos = pos' /\ d = d'.
Proof.
  intros Hw Hh Hf Hb Hs.
  destruct (shuffled_board_shuffling w h rnd b b' Hw Hh Hf Hb Hs) as [HC HS].
  pose proof HS as (Ew & Eh & Ee & Hl & _ & _ & Hbase).
  pose proof HC as (_ & _ & [Hgrid Hlen] & _).
  pose proof (shuffle_keys _ _ _ Hs) as Hk.
  assert (map p_edges (pieces b') ≡ₚ map p_edges (grid_pieces w h)) as Hperm.
  { rewrite !keys_edges. change (map ?f ?l) with (f <$> l) in *. rewrite Hk.
    destruct HC as (W & H & _). by rewrite Hgrid, W, H. }
  assert (NoDup (map p_edges (pieces b'))) as Hnd
    by (rewrite Hperm; apply NoDup_grid_pieces_edges).
  intros Hin Hin' E.
  apply in_bounds_inside in Hin, Hin'. rewrite Ew, Eh in Hin, Hin'.
  destruct (lookup_lt_is_Some_2 (pieces b') (cell w pos)) as [p Hp];
    [rewrite Hl; by apply (cell_lt w h)|].
  destruct (lookup_lt_is_Some_2 (pieces b') (cell w pos')) as [p' Hp'];
    [rewrite Hl; by apply (cell_lt w h)|].
  rewrite (get_edge_index_cell w h b' pos d p),
    (get_edge_index_cell w h b' pos' d' p') in E by done.
  injection E as E.
  destruct (Hbase _ _ Hp) as (k & _ & Ek). destruct (Hbase _ _ Hp') as (k' & _ & Ek').
  pose proof (slot_offset_range (p_rotation p) d).
  pose proof (slot_offset_range (p_rotation p') d').
  assert (p_edges p = p_edges p') as Eb by lia.
  assert (cell w pos = cell w pos') as Ec.
  { apply (NoDup_lookup (map p_edges (pieces b')) _ _ (p_edges p) Hnd);
      change (map ?f ?l) with (f <$> l); rewrite list_lookup_fmap.
    - by rewrite Hp.
    - by rewrite Hp', Eb. }
  assert (pos = pos') as <-.
  { destruct Hin as [? ?], Hin' as [? ?]. apply (cell_inj w); lia || done. }
  assert (p' = p) as -> by congruence. split; [done|].
  apply (slot_offset_inj (p_rotation p)). lia.
Qed.

(** X12: on the shuffled board of the pipeline [get_edge_index] is a
    one-to-one addressing of the edges: two different (position, direction)
    pairs in bounds never give the same subscript, and every edge of the
    board is the slot of some position in bounds in some direction. *)
Theorem shuffled_slots_addressed w h rnd b b' :
  1 < w -> 1 < h -> fair rnd -> connected_board w h = Some b -> shuffle rnd b = Some b' ->
  (forall pos d pos' d',
     in_bounds b' pos = true -> in_bounds b' pos' = true ->
     get_edge_index b' pos d = get_edge_index b' pos' d' -> pos = pos' /\ d = d') /\
  (forall x, (x < length (edges b'))%nat ->
     exists pos d, in_bounds b' pos = true /\ get_edge_index b' pos d = Some (Z.of_nat x)).
Proof.
  intros Hw Hh Hf Hb Hs. split.
  - intros pos d pos' d' Hin Hin' E.
    by apply (shuffled_slot_inj w h rnd b b').
  - intros x Hx. by apply (shuffled_slot_surj w h rnd b b').
Qed.

(** ** What a successful [swap] does *)

Lemma in_bounds_index b pos p :
  in_bounds b pos = true -> Py.get (pieces b) (get_piece_index b pos) = Some p ->
  Py.index_of (length (pieces b)) (get_piece_index b pos) = Some (cell (width b) pos) /\
  pieces b !! cell (width b) pos = Some p.
Proof.
  intros Hin Hp. apply in_bounds_inside in Hin.
  pose proof (cell_index_range _ _ _ Hin) as Hr.
  apply get_index in Hp as (i & Hi & Hp).
  pose proof (index_of_nonneg_inv _ _ _ (proj1 Hr) Hi) as ->. done.
Qed.

(** X13: a call of [swap] on two different cells in bounds that answers
    [True] makes the two pieces trade places.  When the cells have
    unconnected slots the rotations stay with the cells: each piece takes
    the rotation of the piece it replaces.  When they have none the pieces
    keep their own rotations.  Every other cell in bounds and every edge is
    left as it was. *)
Theorem swap_exchanges b x y b' c fp tp :
  in_bounds b x = true -> in_bounds b y = true -> x <> y ->
  Py.get (pieces b) (get_piece_index b x) = Some fp ->
  Py.get (pieces b) (get_piece_index b y) = Some tp ->
  none_count b x = Some c ->
  swap b x y = Some (true, b') ->
  Py.get (pieces b') (get_piece_index b' x) =
    Some (if 0 <? c then set_rotation (p_rotation fp) tp else tp) /\
  Py.get (pieces b') (get_piece_index b' y) =
    Some (if 0 <? c then set_rotation (p_rotation tp) fp else fp) /\
  (forall z, in_bounds b z = true -> z <> x -> z <> y ->
             Py.get (pieces b') (get_piece_index b' z) =
             Py.get (pieces b) (get_piece_index b z)) /\
  edges b' = edges b.
Proof.
  intros Hx Hy N Hfp Htp Hc Hs.
  destruct (in_bounds_index b x fp Hx Hfp) as [Ef Lf].
  destruct (in_bounds_index b y tp Hy Htp) as [Et Lt].
  pose proof (swap_result _ _ _ _ _ Hs) as (W & _ & He & [Hl _]).
  apply in_bounds_inside in Hx as Ix, Hy as Iy.
  pose proof (cell_index_range _ _ _ Ix) as Rx. pose proof (cell_index_range _ _ _ Iy) as Ry.
  assert (cell (width b) x <> cell (width b) y) as Nc
    by (by apply (inside_cell_neq (width b) (height b))).
  assert (forall z, inside (width b) (height b) z ->
            Py.get (pieces b') (get_piece_index b' z) = pieces b' !! cell (width b) z) as Hget.
  { intros z Iz. pose proof (cell_index_range _ _ _ Iz).
    unfold get_piece_index. rewrite W. apply lookup_nonneg. lia. }
  assert (forall z, inside (width b) (height b) z ->
            Py.get (pieces b) (get_piece_index b z) = pieces b !! cell (width b) z) as Hget0.
  { intros z Iz. pose proof (cell_index_range _ _ _ Iz).
    unfold get_piece_index. apply lookup_nonneg. lia. }
  split_and!; [| | |done].
  3:{ intros z Hz Nx Ny. apply in_bounds_inside in Hz. rewrite Hget, Hget0 by done.
      apply (swap_frame b x y true); unfold get_piece_index; try lia; try done.
      - by apply (inside_cell_neq (width b) (height b)).
      - by apply (inside_cell_neq (width b) (height b)). }
  all: rewrite Hget by done.
  all: unfold swap in Hs; rewrite Hc in Hs.
  all: destruct (none_count b y) as [cy|]; [|done]; simpl in Hs.
  all: destruct (c =? cy); [|done]; simpl in Hs.
  all: apply lookup_lt_Some in Lf as Bf; apply lookup_lt_Some in Lt as Bt.
  all: destruct (0 <? c).
  all: unfold exchange_rotations, swap_pieces in Hs; rewrite ?Hfp, ?Htp in Hs; simpl in Hs.
  all: rewrite ?Ef, ?Et in Hs; simpl in Hs.
  all: unfold get_piece_index, Py.get in Hs; simpl in Hs; rewrite ?length_alter in Hs.
  all: unfold get_piece_index in Ef, Et; rewrite ?Ef, ?Et in Hs; simpl in Hs.
  all: assert (cell (width b) y <> cell (width b) x) as Nc' by congruence.
  all: rewrite ?list_lookup_alter_eq, ?(list_lookup_alter_ne _ _ _ _ Nc),
         ?(list_lookup_alter_ne _ _ _ _ Nc'), ?list_lookup_alter_eq, ?Lf, ?Lt in Hs; simpl in Hs.
  all: injection Hs as <-; simpl.
  - rewrite list_lookup_insert_ne by done. rewrite list_lookup_insert_eq; [done|].
    by rewrite !length_alter.
  - rewrite list_lookup_insert_ne by done. by rewrite list_lookup_insert_eq.
  - rewrite list_lookup_insert_eq; [done|]. by rewrite length_insert, !length_alter.
  - rewrite list_lookup_insert_eq; [done|]. by rewrite length_insert.
Qed.

(** ** The merge sets [merge_edges] builds *)

Lemma seam_functional b pos d x y x' y' :
  seam b pos d x y -> seam b pos d x' y' -> x = x' /\ y = y'.
Proof.
  intros [E (a & ea & Ea & La & Ca)] [E' (a' & ea' & Ea' & La' & Ca')].
  assert (x = x') as -> by (rewrite E in E'; injection E'; lia).
  assert (a = a') as -> by (rewrite Ea in Ea'; injection Ea'; lia).
  split; congruence.
Qed.

Lemma shuffled_slot_nat w h es b pos d :
  shuffling w h es b -> length es = Z.to_nat (4 * (w * h)) -> inside w h pos ->
  exists x, get_edge_index b pos d = Some (Z.of_nat x) /\ (x < length es)%nat.
Proof.
  intros (Ew & Eh & Ee & Hl & _ & _ & Hbase) Hlen Hin.
  destruct (lookup_lt_is_Some_2 (pieces b) (cell w pos)) as [p Hp];
    [rewrite Hl; by apply (cell_lt w h)|].
  destruct (Hbase _ _ Hp) as (k & Hk & Ek).
  pose proof (slot_offset_range (p_rotation p) d) as Ho.
  exists (Z.to_nat (p_edges p + slot_offset (p_rotation p) d)).
  rewrite (get_edge_index_cell w h b pos d p) by done. split; [f_equal; lia|]. lia.
Qed.

Lemma facing_connected w h es b pos d x :
  shuffling w h es b -> inside w h pos -> inside w h (step pos d) ->
  get_edge_index b pos d = Some (Z.of_nat x) -> (x < length es)%nat ->
  connected_at es x.
Proof.
  intros (Ew & Eh & Ee & _ & Hf & _) Hin Hin' E Hx.
  pose proof (Hf pos d) as U. rewrite Ew, Eh in U. specialize (U Hin).
  assert (in_bounds b (step pos d) = true) as Hb by (apply in_bounds_inside; by rewrite Ew, Eh).
  rewrite Hb in U. unfold unconnected in U. rewrite E in U. simpl in U.
  rewrite Ee, get_nat in U by done.
  destruct (es !! x) as [e|] eqn:He; [|done]. simpl in U. injection U as U.
  apply bool_decide_eq_false in U. by exists e.
Qed.

Lemma seam_exists w h b pos d :
  shuffling w h (edges b) b -> length (edges b) = Z.to_nat (4 * (w * h)) ->
  linked_up (edges b) -> inside w h pos -> inside w h (step pos d) ->
  exists f t, seam b pos d f t /\ (f < length (edges b))%nat /\ (t < length (edges b))%nat /\
              connected_at (edges b) f /\ connected_at (edges b) t.
Proof.
  intros HS Hlen Hlink Hin Hin'.
  destruct (shuffled_slot_nat w h _ b pos d HS Hlen Hin) as (f & Ef & Lf).
  destruct (shuffled_slot_nat w h _ b (step pos d) (inverse d) HS Hlen Hin') as (a & Ea & La).
  pose proof (facing_connected w h _ b pos d f HS Hin Hin' Ef Lf) as Cf.
  destruct (facing_connected w h _ b (step pos d) (inverse d) a HS Hin') as (ea & Hea & Ca);
    [by rewrite step_back|done..|].
  destruct (e_connection ea) as [t|] eqn:Et; [|done].
  destruct (Hlink a ea t Hea Et) as (Lt & et & Het & Ct).
  exists f, t. split_and!; try done.
  - split; [done|]. by exists a, ea.
  - by exists et.
Qed.

Lemma merge_round_inside b0 b pos d f t :
  merging b0 b -> seam b0 pos d f t -> (f < length (edges b0))%nat ->
  in_bounds b (step pos d) = true ->
  merge_round (pos, d) b =
  Some (with_edges b (alter (add_merge f) t (alter (add_merge t) f (edges b)))).
Proof.
  intros (Hw & Hh & Hp & Hc & _) [Ef (a & ea & Ea & Hea & Et)] Lf Hb.
  pose proof (same_connections_length _ _ Hc) as Hlen.
  unfold merge_round. simpl. rewrite Hb. simpl.
  rewrite (get_edge_index_same b0 b pos d) by done. rewrite Ef. simpl.
  unfold edge_ref. rewrite Hlen, index_of_nat by done. simpl.
  rewrite (get_edge_index_same b0 b (step pos d) (inverse d)) by done. rewrite Ea. simpl.
  apply lookup_lt_Some in Hea as La.
  rewrite get_nat by (by rewrite Hlen).
  destruct (same_connections_lookup (edges b0) (edges b) a ea) as (e2 & -> & Ec2);
    [done|done|].
  simpl. by rewrite Ec2, Et.
Qed.

Lemma lookup_merge_pair (es : list Edge) f t x ex :
  es !! x = Some ex ->
  exists ex', alter (add_merge f) t (alter (add_merge t) f es) !! x = Some ex' /\
              forall y, y ∈ e_merges ex' <->
                        y ∈ e_merges ex \/ (x = f /\ y = t) \/ (x = t /\ y = f).
Proof.
  intros Hx. rewrite !list_lookup_alter.
  repeat case_decide; subst; rewrite ?Hx; simpl; (eexists; split; [reflexivity|]);
    intros y; simpl; rewrite ?elem_of_set_add; intuition congruence.
Qed.

Lemma merge_rel_pair (es : list Edge) f t x y :
  (f < length es)%nat -> (t < length es)%nat ->
  merge_rel (alter (add_merge f) t (alter (add_merge t) f es)) x y <->
  merge_rel es x y \/ (x = f /\ y = t) \/ (x = t /\ y = f).
Proof.
  intros Lf Lt. unfold merge_rel. split.
  - intros (ex' & Hx' & Hy). apply lookup_lt_Some in Hx' as Lx. rewrite !length_alter in Lx.
    destruct (lookup_lt_is_Some_2 es x Lx) as [ex Hx].
    destruct (lookup_merge_pair es f t x ex Hx) as (ex2 & Hx2 & Hiff).
    assert (ex2 = ex') as -> by congruence.
    apply Hiff in Hy as [Hy|Hy]; [|by right]. left. by exists ex.
  - intros H.
    assert (exists ex, es !! x = Some ex) as [ex Hx].
    { destruct H as [(ex & Hx & _)|[[-> _]|[-> _]]]; [by exists ex|..];
        by apply lookup_lt_is_Some_2. }
    destruct (lookup_merge_pair es f t x ex Hx) as (ex' & Hx' & Hiff).
    exists ex'. split; [done|]. apply Hiff.
    destruct H as [(ex0 & Hx0 & Hy)|H]; [|by right].
    left. congruence.
Qed.

Lemma merge_round_merged w h b0 done b pos d :
  shuffling w h (edges b0) b0 -> length (edges b0) = Z.to_nat (4 * (w * h)) ->
  linked_up (edges b0) -> inside w h pos -> merged_so_far w h b0 done b ->
  exists b', merge_round (pos, d) b = Some b' /\ merged_so_far w h b0 (done ++ [(pos, d)]) b'.
Proof.
  intros HS Hlen Hlink Hin [HM Hrel].
  pose proof HM as (Hw & Hh & Hp & Hc & Hv & Hfc).
  pose proof HS as (Ew & Eh & _).
  pose proof (same_connections_length _ _ Hc) as Hl.
  destruct (in_bounds b (step pos d)) eqn:Hb.
  - assert (inside w h (step pos d)) as Hin'.
    { apply in_bounds_inside in Hb. by rewrite Hw, Hh, Ew, Eh in Hb. }
    destruct (seam_exists w h b0 pos d HS Hlen Hlink Hin Hin')
      as (f & t & Hseam & Lf & Lt & Cf & Ct).
    eexists. split; [by apply (merge_round_inside b0 b pos d f t)|]. split.
    + split_and!; simpl; try done.
      * by rewrite !connections_add_merge.
      * apply refs_valid_add_merge; [apply refs_valid_add_merge; [done|by rewrite Hl]|].
        by rewrite length_alter, Hl.
      * by rewrite !faces_add_merge.
    + intros x y. simpl. rewrite merge_rel_pair by (by rewrite Hl). rewrite Hrel. split.
      * intros [(pos' & d' & Hd & Hi & Hse)|Hnew].
        -- exists pos', d'. split_and!; try done. apply elem_of_app. by left.
        -- exists pos, d. split_and!; [apply elem_of_app; right; by left|done|].
           destruct Hnew as [[-> ->]|[-> ->]]; [by left|by right].
      * intros (pos' & d' & Hd & Hi & Hse). apply elem_of_app in Hd as [Hd|Hd].
        -- left. by exists pos', d'.
        -- apply list_elem_of_singleton in Hd as [= -> ->]. right.
           destruct Hse as [Hse|Hse];
             destruct (seam_functional _ _ _ _ _ _ _ Hse Hseam) as [-> ->]; tauto.
  - exists b. split; [unfold merge_round; simpl; by rewrite Hb|]. split; [done|].
    intros x y. rewrite Hrel. split.
    + intros (pos' & d' & Hd & Hi & Hse). exists pos', d'. split_and!; try done.
      apply elem_of_app. by left.
    + intros (pos' & d' & Hd & Hi & Hse). apply elem_of_app in Hd as [Hd|Hd].
      * by exists pos', d'.
      * apply list_elem_of_singleton in Hd as [= -> ->].
        apply in_bounds_outside in Hb. rewrite Hw, Hh, Ew, Eh in Hb. done.
Qed.

Lemma merge_edges_merged w h b0 :
  shuffling w h (edges b0) b0 -> length (edges b0) = Z.to_nat (4 * (w * h)) ->
  linked_up (edges b0) -> (forall x e, edges b0 !! x = Some e -> e_merges e = []) ->
  exists b, merge_edges b0 = Some b /\ merged_so_far w h b0 (rounds w h) b.
Proof.
  intros HS Hlen Hlink Hempty. pose proof HS as (Hw & Hh & _).
  rewrite merge_edges_rounds, Hw, Hh.
  destruct (for_each_invariant (merged_so_far w h b0) merge_round (rounds w h) [] b0)
    as (b & E & HI).
  - split.
    + split_and!; try done. intros x e Hx m Hm. rewrite (Hempty x e Hx) in Hm.
      by apply elem_of_nil in Hm.
    + intros x y. split.
      * intros (ex & Hx & Hy). rewrite (Hempty x ex Hx) in Hy. by apply elem_of_nil in Hy.
      * intros (pos & d & Hd & _). by apply elem_of_nil in Hd.
  - intros done' [pos d] rest' s' Eq HM. apply merge_round_merged; try done.
    apply (elem_of_rounds w h pos d). simpl in Eq. rewrite Eq.
    apply elem_of_app. right. by left.
  - exists b. by split.
Qed.

(** ** [merge_edges] on the shuffled board of the pipeline *)

Lemma shuffled_board_facts w h rnd b b1 :
  1 < w -> 1 < h -> fair rnd -> connected_board w h = Some b -> shuffle rnd b = Some b1 ->
  shuffling w h (edges b1) b1 /\ length (edges b1) = Z.to_nat (4 * (w * h)) /\
  linked_up (edges b1) /\ (forall x e, edges b1 !! x = Some e -> plain e).
Proof.
  intros Hw Hh Hf Hb Hs.
  destruct (shuffled_board_shuffling w h rnd b b1 Hw Hh Hf Hb Hs) as [HC HS].
  pose proof HS as (_ & _ & Ee & _). rewrite Ee.
  destruct (connecting_linked_up w h b) as [Hlink _]; [lia|done|].
  destruct HC as (W & H & [_ Hlen] & _ & Hplain & _). rewrite W, H in Hlen.
  split_and!; try done. intros x e Hx. by destruct (Hplain x e Hx).
Qed.

Lemma merge_edges_pipeline w h rnd b b1 :
  1 < w -> 1 < h -> fair rnd -> connected_board w h = Some b -> shuffle rnd b = Some b1 ->
  exists b2, merge_edges b1 = Some b2 /\ merged_so_far w h b1 (rounds w h) b2.
Proof.
  intros Hw Hh Hf Hb Hs.
  destruct (shuffled_board_facts w h rnd b b1 Hw Hh Hf Hb Hs) as (HS & Hlen & Hlink & Hplain).
  apply merge_edges_merged; try done.
  intros x e Hx. by destruct (Hplain x e Hx) as (_ & _ & ?).
Qed.

(** X14: on the shuffled board of the pipeline [merge_edges] returns; it
    changes no piece, connection, group or shape; and afterwards [y] is in
    the merge set of [x] exactly when, at some seam between two cells of
    the grid, one of the two is the slot a cell shows towards its
    neighbour and the other is the connection of the slot the neighbour
    shows back. *)
Theorem merge_edges_relation w h rnd b b1 :
  1 < w -> 1 < h -> fair rnd -> connected_board w h = Some b -> shuffle rnd b = Some b1 ->
  exists b2,
    merge_edges b1 = Some b2 /\
    width b2 = width b1 /\ height b2 = height b1 /\ pieces b2 = pieces b1 /\
    map e_connection (edges b2) = map e_connection (edges b1) /\
    map face (edges b2) = map face (edges b1) /\
    forall x y,
      merge_rel (edges b2) x y <->
      exists pos d, in_bounds b1 pos = true /\ in_bounds b1 (step pos d) = true /\
                    (seam b1 pos d x y \/ seam b1 pos d y x).
Proof.
  intros Hw Hh Hf Hb Hs.
  destruct (merge_edges_pipeline w h rnd b b1 Hw Hh Hf Hb Hs)
    as (b2 & E & (W & H & Hp & Hc & _ & Hfc) & Hrel).
  destruct (shuffled_board_facts w h rnd b b1 Hw Hh Hf Hb Hs) as ((Ew & Eh & _) & _).
  exists b2. split_and!; try done.
  intros x y. rewrite Hrel. split.
  - intros (pos & d & Hd & Hi & Hse). apply elem_of_rounds in Hd.
    exists pos, d. rewrite !in_bounds_inside, Ew, Eh. done.
  - intros (pos & d & Hd & Hi & Hse). rewrite !in_bounds_inside, Ew, Eh in *.
    exists pos, d. split_and!; try done. by apply elem_of_rounds.
Qed.

(** X15: on the merged board of the pipeline the merge sets are symmetric,
    [y] in the set of [x] puts [x] in the set of [y], and an edge has a
    non-empty merge set exactly when it has a connection. *)
Theorem merge_edges_symmetric w h rnd b b1 b2 :
  1 < w -> 1 < h -> fair rnd -> connected_board w h = Some b -> shuffle rnd b = Some b1 ->
  merge_edges b1 = Some b2 ->
  (forall x y ex, edges b2 !! x = Some ex -> y ∈ e_merges ex ->
                  exists ey, edges b2 !! y = Some ey /\ x ∈ e_merges ey) /\
  (forall x e, edges b2 !! x = Some e -> (e_merges e <> [] <-> e_connection e <> None)).
Proof.
  intros Hw Hh Hf Hb Hs Hm.
  destruct (merge_edges_pipeline w h rnd b b1 Hw Hh Hf Hb Hs)
    as (b2' & E & (W & H & Hp & Hc & _ & Hfc) & Hrel).
  assert (b2' = b2) as -> by congruence.
  destruct (shuffled_board_facts w h rnd b b1 Hw Hh Hf Hb Hs) as (HS & Hlen & Hlink & _).
  pose proof HS as (Ew & Eh & _ & _ & Hfacing & _).
  assert (forall x, connected_at (edges b1) x -> connected_at (edges b2) x) as Hconn.
  { intros x (e & Hx & Hn).
    destruct (same_connections_lookup (edges b1) (edges b2) x e) as (e2 & Hx2 & Ec);
      [done|done|].
    exists e2. split; [done|]. congruence. }
  split.
  - intros x y ex Hx Hy.
    assert (merge_rel (edges b2) y x) as (ey & Hey & Hxy).
    { apply Hrel. destruct (proj1 (Hrel x y)) as (pos & d & Hd & Hi & Hse); [by exists ex|].
      exists pos, d. split_and!; try done. tauto. }
    by exists ey.
  - intros x e Hx. split.
    + intros Hne. destruct (e_merges e) as [|y l] eqn:Em; [done|].
      destruct (proj1 (Hrel x y)) as (pos & d & Hd & Hi & Hse).
      { exists e. split; [done|]. rewrite Em. by left. }
      apply elem_of_rounds in Hd.
      destruct (seam_exists w h b1 pos d HS Hlen Hlink Hd Hi)
        as (f & t & Hseam & _ & _ & Cf & Ct).
      assert (connected_at (edges b2) x) as (e' & Hx' & Hn').
      { apply Hconn.
        destruct Hse as [Hse|Hse];
          destruct (seam_functional _ _ _ _ _ _ _ Hse Hseam) as [-> ->]; done. }
      congruence.
    + intros Hn. apply lookup_lt_Some in Hx as Lx.
      pose proof (same_connections_length _ _ Hc) as Hl. rewrite Hl in Lx.
      destruct (shuffled_slot_surj w h rnd b b1 x Hw Hh Hf Hb Hs Lx) as (pos & d & Hin & Eg).
      apply in_bounds_inside in Hin. rewrite Ew, Eh in Hin.
      destruct (same_connections_lookup (edges b2) (edges b1) x e) as (e1 & Hx1 & Ec1);
        [done|done|].
      assert (inside w h (step pos d)) as Hin'.
      { pose proof (Hfacing pos d) as U. rewrite Ew, Eh in U. specialize (U Hin).
        unfold unconnected in U. rewrite Eg in U. simpl in U. rewrite get_nat in U by done.
        rewrite Hx1 in U. simpl in U. injection U as U.
        destruct (in_bounds b1 (step pos d)) eqn:Hb'.
        - apply in_bounds_inside in Hb'. by rewrite Ew, Eh in Hb'.
        - simpl in U. apply bool_decide_eq_true in U. congruence. }
      destruct (seam_exists w h b1 pos d HS Hlen Hlink Hin Hin')
        as (f & t & Hseam & _).
      assert (f = x) as -> by (destruct Hseam as [Ef _]; rewrite Eg in Ef; injection Ef; lia).
      destruct (proj2 (Hrel x t)) as (ex & Hex & Ht).
      { exists pos, d. split_and!; [by apply elem_of_rounds|done|by left]. }
      assert (ex = e) as -> by congruence. intros Em. rewrite Em in Ht.
      by apply elem_of_nil in Ht.
Qed.

(** ** What group collapse assigns *)

(** A loop that ran to its end maintained what every round maintains. *)
Lemma for_each_run {A S} (I : list A -> S -> Prop) (body : A -> S -> option S) :
  forall rest done s s',
    for_each rest body s = Some s' -> I done s ->
    (forall done' x rest' s1 s2, done ++ rest = done' ++ x :: rest' -> I done' s1 ->
       body x s1 = Some s2 -> I (done' ++ [x]) s2) ->
    I (done ++ rest) s'.
Proof.
  induction rest as [|x rest IH]; intros done s s' H HI Hstep; simpl in H.
  - injection H as <-. by rewrite app_nil_r.
  - destruct (body x s) as [s1|] eqn:E; [|done]. simpl in H.
    replace (done ++ x :: rest) with ((done ++ [x]) ++ rest) by (by rewrite <- app_assoc).
    apply (IH (done ++ [x]) s1 s' H).
    + by apply (Hstep done x rest s s1).
    + intros done' y rest' s2 s3 Eq. apply (Hstep done' y rest').
      by rewrite <- Eq, <- app_assoc.
Qed.

Lemma for_in_run {A S} (I : list A -> S -> Prop) (body : A -> S -> option (bool * S)) :
  forall rest done s s',
    for_in rest body s = Some (true, s') -> I done s ->
    (forall done' x rest' s1 s2, done ++ rest = done' ++ x :: rest' -> I done' s1 ->
       body x s1 = Some (true, s2) -> I (done' ++ [x]) s2) ->
    I (done ++ rest) s'.
Proof.
  induction rest as [|x rest IH]; intros done s s' H HI Hstep; simpl in H.
  - injection H as <-. by rewrite app_nil_r.
  - destruct (body x s) as [[[] s1]|] eqn:E; [|done..].
    replace (done ++ x :: rest) with ((done ++ [x]) ++ rest) by (by rewrite <- app_assoc).
    apply (IH (done ++ [x]) s1 s' H).
    + by apply (Hstep done x rest s s1).
    + intros done' y rest' s2 s3 Eq. apply (Hstep done' y rest').
      by rewrite <- Eq, <- app_assoc.
Qed.

Section CollapseShapes.

Variable so : list nat -> list nat.
Hypothesis so_perm : forall l, Permutation (so l) l.

Lemma elem_of_so x l : x ∈ so l <-> x ∈ l.
Proof. by rewrite (so_perm l). Qed.

Lemma merge_closure_grows es :
  forall fuel queue group g,
    merge_closure so es fuel queue group = Some g -> forall y, y ∈ group -> y ∈ g.
Proof.
  induction fuel as [|fuel IH]; intros queue group g H y Hy; simpl in H; [done|].
  destruct queue as [|next rest]; [by injection H as <-|].
  destruct (decide (next ∈ group)); [by apply (IH _ _ _ H)|].
  destruct (es !! next) as [e|]; [|done]. simpl in H.
  apply (IH _ _ _ H). apply elem_of_set_add. by right.
Qed.

Lemma merge_closure_start es x g :
  merge_closure so es (closure_fuel es) [x] [] = Some g -> x ∈ g.
Proof.
  unfold closure_fuel. set (fuel := S (foldr _ _ _)).
  change (merge_closure so es (S fuel) [x] [])
    with (if decide (x ∈ []) then merge_closure so es fuel [] []
          else e ← es !! x;
               merge_closure so es fuel (reverse (so (e_merges e)) ++ []) (Py.set_add x [])).
  intros H.
  destruct (decide (x ∈ [])) as [Hin|_]; [by apply elem_of_nil in Hin|].
  destruct (es !! x) as [e|]; [|done]. cbn [mbind option_bind] in H.
  apply (merge_closure_grows _ _ _ _ _ H). apply elem_of_set_add. by left.
Qed.

Lemma merge_closure_within (P : nat -> Prop) es :
  (forall x e y, es !! x = Some e -> P x -> y ∈ e_merges e -> P y) ->
  forall fuel queue group g,
    merge_closure so es fuel queue group = Some g ->
    (forall y, y ∈ queue -> P y) -> (forall y, y ∈ group -> P y) ->
    forall y, y ∈ g -> P y.
Proof.
  intros HP. induction fuel as [|fuel IH]; intros queue group g H Hq Hg; simpl in H; [done|].
  destruct queue as [|next rest]; [by injection H as <-|].
  destruct (decide (next ∈ group)).
  { apply (IH _ _ _ H); [|exact Hg]. intros y Hy. apply Hq. by right. }
  destruct (es !! next) as [e|] eqn:He; [|done]. simpl in H.
  apply (IH _ _ _ H).
  - intros y Hy. apply elem_of_app in Hy as [Hy|Hy].
    + rewrite elem_of_reverse, elem_of_so in Hy. apply (HP next e y He); [|done].
      apply Hq. by left.
    + apply Hq. by right.
  - intros y Hy. apply elem_of_set_add in Hy as [->|Hy]; [apply Hq; by left|by apply Hg].
Qed.

Lemma group_step_ok es done x e st st' :
  group_step so es (x, e) st = Some st' -> groups_ok done st ->
  groups_ok (done ++ [(x, e)]) st'.
Proof.
  intros H (G1 & G2 & G3). destruct st as [egm groups]. simpl in G1, G2, G3.
  unfold group_step in H. destruct (e_connection e) as [c|] eqn:Ec.
  2:{ injection H as <-. split_and!; try done.
      intros y ey [Hy|[= -> ->]%list_elem_of_singleton]%elem_of_app; [by apply (G1 y ey)|done]. }
  destruct (egm !! x) as [g0|] eqn:Eg.
  { injection H as <-. split_and!; try done.
    intros y ey [Hy|[= -> ->]%list_elem_of_singleton]%elem_of_app Hc; [by apply (G1 y ey)|].
    simpl. by rewrite Eg. }
  destruct (merge_closure so es (closure_fuel es) [x] []) as [group|] eqn:Em; [|done].
  cbn [mbind option_bind] in H. injection H as <-.
  apply merge_closure_start in Em as Hx.
  assert (groups !! size groups = None) as Hfresh.
  { destruct (groups !! size groups) eqn:E; [|done].
    assert (size groups < size groups)%nat; [|lia]. apply G3. by rewrite E. }
  split_and!; cbn [fst snd].
  - intros y ey [Hy|[= -> ->]%list_elem_of_singleton]%elem_of_app Hc.
    + rewrite foldl_insert_lookup. case_decide; [done|]. by apply (G1 y ey).
    + rewrite foldl_insert_lookup. rewrite decide_True; [done|]. by apply elem_of_so.
  - intros y g'. rewrite foldl_insert_lookup. case_decide as Hy.
    + intros [= <-]. exists group. rewrite lookup_insert_eq. split; [done|].
      by rewrite elem_of_so in Hy.
    + intros H'. destruct (G2 y g' H') as (grp & Hg & Hin). exists grp. split; [|done].
      rewrite lookup_insert_ne; [done|]. intros <-. congruence.
  - intros g Hg. rewrite map_size_insert_None by done.
    destruct (decide (g = size groups)) as [->|N]; [lia|].
    rewrite lookup_insert_ne in Hg by done. apply G3 in Hg. lia.
Qed.

Lemma group_step_within (P : nat -> Prop) es x e st st' :
  (forall x e y, es !! x = Some e -> P x -> y ∈ e_merges e -> P y) ->
  (e_connection e <> None -> P x) ->
  (forall g, is_Some (st.2 !! g) -> (g < size st.2)%nat) ->
  group_step so es (x, e) st = Some st' -> groups_within P st -> groups_within P st'.
Proof.
  intros HP Hx G3 H HG. destruct st as [egm groups]. simpl in G3.
  unfold group_step in H. destruct (e_connection e) as [c|] eqn:Ec; [|by injection H as <-].
  destruct (egm !! x) as [g0|]; [by injection H as <-|].
  destruct (merge_closure so es (closure_fuel es) [x] []) as [group|] eqn:Em; [|done].
  cbn [mbind option_bind] in H. injection H as <-.
  intros g grp y. cbn [snd]. destruct (decide (g = size groups)) as [->|N].
  - rewrite lookup_insert_eq. intros [= <-] Hy.
    apply (merge_closure_within P es HP _ _ _ _ Em); [| |done].
    + intros z ->%list_elem_of_singleton. by apply Hx.
    + intros z Hz. by apply elem_of_nil in Hz.
  - rewrite lookup_insert_ne by done. apply HG.
Qed.

Lemma group_loop_ok es st :
  for_each (imap pair es) (group_step so es) (∅, ∅) = Some st ->
  groups_ok (imap pair es) st.
Proof.
  intros H.
  apply (for_each_run groups_ok (group_step so es) (imap pair es) [] (∅, ∅) st H).
  - split_and!; simpl.
    + intros x e Hx. by apply elem_of_nil in Hx.
    + intros x g Hx. by rewrite lookup_empty in Hx.
    + intros g [? Hg]. by rewrite lookup_empty in Hg.
  - intros done' [x e] rest' s1 s2 _ HI Hs. exact (group_step_ok es done' x e s1 s2 Hs HI).
Qed.

Lemma group_loop_within (P : nat -> Prop) es st :
  (forall x e y, es !! x = Some e -> P x -> y ∈ e_merges e -> P y) ->
  (forall x e, es !! x = Some e -> e_connection e <> None -> P x) ->
  for_each (imap pair es) (group_step so es) (∅, ∅) = Some st ->
  groups_within P st.
Proof.
  intros HP Hc H.
  apply (for_each_run (fun done s => groups_ok done s /\ groups_within P s)
           (group_step so es) (imap pair es) [] (∅, ∅) st H).
  - split.
    + split_and!; simpl.
      * intros x e Hx. by apply elem_of_nil in Hx.
      * intros x g Hx. by rewrite lookup_empty in Hx.
      * intros g [? Hg]. by rewrite lookup_empty in Hg.
    + intros g grp y Hg. simpl in Hg. by rewrite lookup_empty in Hg.
  - intros done' [x e] rest' s1 s2 Eq [HI HW] Hs.
    split; [exact (group_step_ok es done' x e s1 s2 Hs HI)|].
    apply (group_step_within P es x e s1 s2); try done.
    + apply Hc. apply elem_of_enumerate. simpl in Eq. rewrite Eq.
      apply elem_of_app. right. by left.
    + by destruct HI as (_ & _ & G3).
Qed.

Lemma connection_step_ok egm done x e gconn gconn' :
  connection_step egm (x, e) gconn = Some gconn' -> keys_ok egm done gconn ->
  keys_ok egm (done ++ [(x, e)]) gconn'.
Proof.
  intros H HK. unfold connection_step in H.
  destruct (e_connection e) as [c|] eqn:Ec.
  2:{ injection H as <-.
      intros y ey [Hy|[= -> ->]%list_elem_of_singleton]%elem_of_app; [by apply HK|done]. }
  destruct (egm !! x) as [g|] eqn:Eg; [|done]. simpl in H.
  destruct (egm !! c) as [gc|]; [|done]. simpl in H. injection H as <-.
  intros y ey [Hy|[= -> ->]%list_elem_of_singleton]%elem_of_app Hc.
  - destruct (HK y ey Hy Hc) as (g' & Hg' & Hs). exists g'. split; [done|].
    unfold Py.dict_add. rewrite dict_get_set. by case_decide.
  - exists g. split; [done|]. unfold Py.dict_add. rewrite dict_get_set.
    by rewrite decide_True.
Qed.

Lemma connection_loop_ok es egm gconn :
  for_each (imap pair es) (connection_step egm) [] = Some gconn ->
  keys_ok egm (imap pair es) gconn.
Proof.
  intros H.
  apply (for_each_run (keys_ok egm) (connection_step egm) (imap pair es) [] [] gconn H).
  - intros x e Hx. by apply elem_of_nil in Hx.
  - intros done' [x e] rest' s1 s2 _ HI Hs. exact (connection_step_ok egm done' x e s1 s2 Hs HI).
Qed.

Lemma dict_set_fresh {V} k (v : V) (d : list (nat * V)) :
  k ∉ map fst d -> Py.dict_set k v d = d ++ [(k, v)].
Proof.
  induction d as [|[k' v'] d IH]; simpl; intros H; [done|].
  rewrite not_elem_of_cons in H. destruct H as [N H].
  rewrite decide_False by done. by rewrite IH.
Qed.

Lemma add_group_group_ok done gs shape st :
  shape <> Flat -> colouring_ok done st ->
  colouring_ok done (add_group_group so (gs, shape) st) /\
  forall g, g ∈ gs -> is_Some ((add_group_group so (gs, shape) st).1.1 !! g).
Proof.
  intros Hs (C1 & C2 & C3 & C4). destruct st as [[ggm ggs] ggsh]. simpl in C1, C2, C3, C4.
  unfold add_group_group. cbn [fst snd].
  assert (length ggs ∉ map fst ggs) as Hfresh.
  { rewrite C4, elem_of_seq. lia. }
  rewrite (dict_set_fresh _ _ _ Hfresh).
  split; [split_and!|]; cbn [fst snd].
  - intros g Hg. rewrite foldl_insert_lookup. case_decide; [done|]. by apply C1.
  - intros g gg. rewrite foldl_insert_lookup. case_decide as Hg.
    + intros [= <-]. exists gs. split; [apply elem_of_app; right; by left|].
      by rewrite elem_of_so in Hg.
    + intros H. destruct (C2 g gg H) as (gs0 & Hin & Hg0). exists gs0.
      split; [apply elem_of_app; by left|done].
  - intros gg gs0 [Hin|[= -> ->]%list_elem_of_singleton]%elem_of_app.
    + destruct (C3 gg gs0 Hin) as (sh & Hsh & Hn). exists sh. split; [|done].
      rewrite lookup_insert_ne; [done|]. intros <-. apply Hfresh.
      by apply (key_of_entry _ gs0).
    + exists shape. by rewrite lookup_insert_eq.
  - rewrite map_app, length_app, C4. simpl. by rewrite Nat.add_1_r, seq_S.
  - intros g Hg. rewrite foldl_insert_lookup. rewrite decide_True; [done|].
    by apply elem_of_so.
Qed.

Lemma layer_traversal_keeps gconn ggm :
  forall fuel queue seen layers result,
    layer_traversal so gconn ggm fuel queue seen layers = Some result ->
    forall d g, (exists gs, Py.dict_get d layers = Some gs /\ g ∈ gs) ->
                exists gs', Py.dict_get d result = Some gs' /\ g ∈ gs'.
Proof.
  induction fuel as [|fuel IH]; intros queue seen layers result H d g Hg; simpl in H; [done|].
  destruct queue as [|[gid depth] rest]; [by injection H as <-|].
  destruct (decide (is_Some (ggm !! gid))); [by apply (IH _ _ _ _ H)|].
  destruct (decide (gid ∈ seen)); [by apply (IH _ _ _ _ H)|].
  destruct (Py.dict_get gid gconn) as [cs|]; [|done]. simpl in H.
  apply (IH _ _ _ _ H). destruct Hg as (gs & Hd & Hin).
  unfold Py.dict_add. rewrite dict_get_set. case_decide as E.
  - subst d. rewrite Hd. simpl. eexists. split; [done|]. apply elem_of_set_add. by right.
  - by exists gs.
Qed.

Lemma layer_traversal_start gconn ggm gid layers :
  layer_traversal so gconn ggm (layer_fuel gconn) [(gid, O)] [] [] = Some layers ->
  ggm !! gid = None ->
  exists gs, (O, gs) ∈ layers /\ gid ∈ gs.
Proof.
  unfold layer_fuel. set (fuel := S (foldr _ _ _)).
  change (layer_traversal so gconn ggm (S fuel) [(gid, O)] [] [])
    with (if decide (is_Some (ggm !! gid)) then layer_traversal so gconn ggm fuel [] [] []
          else if decide (gid ∈ []) then layer_traversal so gconn ggm fuel [] [] []
          else cs ← Py.dict_get gid gconn;
               layer_traversal so gconn ggm fuel
                 (reverse (map (fun c => (c, 1%nat)) (so cs)) ++ [])
                 (Py.set_add gid []) (Py.dict_add O gid [])).
  intros H Hg.
  destruct (decide (is_Some (ggm !! gid))) as [[? E]|_]; [congruence|].
  destruct (decide (gid ∈ [])) as [Hin|_]; [by apply elem_of_nil in Hin|].
  destruct (Py.dict_get gid gconn) as [cs|]; [|done]. cbn [mbind option_bind] in H.
  destruct (layer_traversal_keeps _ _ _ _ _ _ _ H O gid) as (gs & Hd & Hin).
  - unfold Py.dict_add. rewrite dict_get_set, decide_True by done.
    eexists. split; [done|]. apply elem_of_set_add. by left.
  - exists gs. split; [by apply dict_get_Some_elem|done].
Qed.

Lemma split_fold_keeps (layers : list (nat * list nat)) :
  forall ev od,
    (forall y, y ∈ ev -> y ∈ (foldl (fun eo l =>
         if Nat.even l.1 then (Py.set_union eo.1 l.2, eo.2)
         else (eo.1, Py.set_union eo.2 l.2)) (ev, od) layers).1) /\
    (forall y, y ∈ od -> y ∈ (foldl (fun eo l =>
         if Nat.even l.1 then (Py.set_union eo.1 l.2, eo.2)
         else (eo.1, Py.set_union eo.2 l.2)) (ev, od) layers).2).
Proof.
  induction layers as [|[d0 gs0] layers IH]; intros ev od; simpl; [done|].
  destruct (Nat.even d0); simpl.
  - destruct (IH (Py.set_union ev gs0) od) as [H1 H2]. split; [|done].
    intros y Hy. apply H1, elem_of_set_union. by left.
  - destruct (IH ev (Py.set_union od gs0)) as [H1 H2]. split; [done|].
    intros y Hy. apply H2, elem_of_set_union. by left.
Qed.

Lemma split_fold_incl (layers : list (nat * list nat)) d gs g :
  (d, gs) ∈ layers -> g ∈ gs ->
  forall ev od,
    if Nat.even d
    then g ∈ (foldl (fun eo l =>
                if Nat.even l.1 then (Py.set_union eo.1 l.2, eo.2)
                else (eo.1, Py.set_union eo.2 l.2)) (ev, od) layers).1
    else g ∈ (foldl (fun eo l =>
                if Nat.even l.1 then (Py.set_union eo.1 l.2, eo.2)
                else (eo.1, Py.set_union eo.2 l.2)) (ev, od) layers).2.
Proof.
  intros Hin Hg. induction layers as [|[d0 gs0] layers IH]; intros ev od;
    [by apply elem_of_nil in Hin|].
  apply elem_of_cons in Hin as [[= <- <-]|Hin].
  - simpl. destruct (Nat.even d) eqn:Ed; simpl.
    + apply (proj1 (split_fold_keeps layers _ _)), elem_of_set_union. by right.
    + apply (proj2 (split_fold_keeps layers _ _)), elem_of_set_union. by right.
  - simpl. destruct (Nat.even d0); simpl; by apply IH.
Qed.

Lemma split_layers_incl layers d gs g :
  (d, gs) ∈ layers -> g ∈ gs ->
  if Nat.even d then g ∈ (split_layers layers).1 else g ∈ (split_layers layers).2.
Proof. intros Hin Hg. apply (split_fold_incl layers d gs g Hin Hg). Qed.

Lemma colour_step_ok gconn done gid st st' :
  colour_step so gconn gid st = Some (true, st') -> colouring_ok done st ->
  colouring_ok (done ++ [gid]) st'.
Proof.
  intros H HC. pose proof HC as (C1 & C2 & C3 & C4).
  destruct st as [[ggm ggs] ggsh]. unfold colour_step in H. cbv beta iota in H.
  destruct (decide (is_Some (ggm !! gid))) as [Hs|Hn].
  { injection H as <-. split_and!; try done.
    intros g [Hg| ->%list_elem_of_singleton]%elem_of_app; [by apply C1|done]. }
  destruct (layer_traversal so gconn ggm (layer_fuel gconn) [(gid, O)] [] []) as [layers|] eqn:El;
    [|done].
  cbn [mbind option_bind] in H.
  destruct (split_layers layers) as [even odd] eqn:Es.
  destruct (Py.set_inter even odd); [|done]. injection H as <-.
  apply layer_traversal_start in El as (gs & Hin & Hg).
  2:{ destruct (ggm !! gid) eqn:E; [|done]. by destruct Hn. }
  pose proof (split_layers_incl layers O gs gid Hin Hg) as Hev. rewrite Es in Hev.
  simpl in Hev.
  destruct (add_group_group_ok done even Knob (ggm, ggs, ggsh)) as [HC1 He]; [done|done|].
  destruct (add_group_group_ok done odd Socket (add_group_group so (even, Knob) (ggm, ggs, ggsh)))
    as [HC2 _]; [done|done|].
  destruct HC2 as (D1 & D2 & D3 & D4). split_and!; try done.
  intros g [Hd| ->%list_elem_of_singleton]%elem_of_app; [by apply D1|].
  specialize (He gid Hev). unfold add_group_group in He |- *. cbn [fst snd] in He |- *.
  rewrite foldl_insert_lookup. by case_decide.
Qed.

Lemma colour_loop_ok gconn st :
  for_in (map fst gconn) (colour_step so gconn) (∅, [], ∅) = Some (true, st) ->
  colouring_ok (map fst gconn) st.
Proof.
  intros H.
  apply (for_in_run colouring_ok (colour_step so gconn) (map fst gconn) [] (∅, [], ∅) st H).
  - split_and!; simpl; try done.
    + intros g Hg. by apply elem_of_nil in Hg.
    + intros gg gs Hg. by apply elem_of_nil in Hg.
  - intros done' x rest' s1 s2 _ HI Hs. exact (colour_step_ok gconn done' x s1 s2 Hs HI).
Qed.

Lemma assigned_refl es : assigned (fun _ => False) es es.
Proof. split_and!; try done. intros x e Hx. exists e. by split_and!. Qed.

Lemma assigned_trans (T1 T2 : nat -> Prop) es es1 es2 :
  assigned T1 es es1 -> assigned T2 es1 es2 -> assigned (fun x => T1 x \/ T2 x) es es2.
Proof.
  intros (C1 & M1 & H1) (C2 & M2 & H2). split_and!; try congruence.
  intros x e Hx. destruct (H1 x e Hx) as (e1 & Hx1 & A1 & B1 & D1).
  destruct (H2 x e1 Hx1) as (e2 & Hx2 & A2 & B2 & D2).
  exists e2. split_and!; try done.
  - intros [Ht|Ht]; auto.
  - auto.
  - intros Hn. rewrite D2, D1; tauto.
Qed.

Lemma assigned_equiv (T T' : nat -> Prop) es es' :
  (forall x, T x <-> T' x) -> assigned T es es' -> assigned T' es es'.
Proof.
  intros E (C & M & H). split_and!; try done.
  intros x e Hx. destruct (H x e Hx) as (e' & Hx' & A & B & D).
  exists e'. split_and!; try done.
  - intros Ht. apply A, E, Ht.
  - intros Hn. apply D. by rewrite E.
Qed.

Lemma assigned_alter (n : nat) shape x0 es :
  shape <> Flat ->
  assigned (fun x => x = x0) es (alter (set_group_shape (Z.of_nat n) shape) x0 es).
Proof.
  intros Hs. split_and!.
  - by rewrite map_alter_frame.
  - by rewrite map_alter_frame.
  - intros x e Hx. rewrite list_lookup_alter. case_decide as E.
    + subst x0. rewrite Hx. simpl. eexists. split; [done|].
      split_and!; try done; intros _; split; simpl; eauto.
    + exists e. by split_and!.
Qed.

Lemma assigned_foldl (n : nat) shape l :
  shape <> Flat ->
  forall es,
    assigned (fun x => x ∈ l) es
      (foldl (fun es2 edge => alter (set_group_shape (Z.of_nat n) shape) edge es2) es l).
Proof.
  intros Hs. induction l as [|x0 l IH]; intros es; simpl.
  - apply (assigned_equiv (fun _ => False)); [|apply assigned_refl].
    intros x. split; [done|]. intros H. by apply elem_of_nil in H.
  - apply (assigned_equiv (fun x => x = x0 \/ x ∈ l)).
    + intros x. by rewrite elem_of_cons.
    + eapply assigned_trans; [by apply assigned_alter|apply IH].
Qed.

Lemma assign_group_group_assigned (groups : gmap nat (list nat)) (ggsh : gmap nat Shape)
    gg gs es es' :
  (exists shape, ggsh !! gg = Some shape /\ shape <> Flat) ->
  assign_group_group so groups ggsh (gg, gs) es = Some es' ->
  assigned (fun x => exists g grp, g ∈ gs /\ groups !! g = Some grp /\ x ∈ grp) es es'.
Proof.
  intros (shape & Hsh & Hn) H. unfold assign_group_group in H. rewrite Hsh in H.
  cbn [mbind option_bind] in H.
  apply (assigned_equiv
           (fun x => exists g grp, g ∈ [] ++ so gs /\ groups !! g = Some grp /\ x ∈ grp)).
  { intros x. simpl. split; intros (g & grp & Hg & Hgr & Hx); exists g, grp;
      rewrite elem_of_so in *; done. }
  apply (for_each_run
           (fun done es1 =>
              assigned (fun x => exists g grp, g ∈ done /\ groups !! g = Some grp /\ x ∈ grp)
                       es es1) _ (so gs) [] es es' H).
  - apply (assigned_equiv (fun _ => False)); [|apply assigned_refl].
    intros x. split; [done|]. intros (g & _ & Hg & _). by apply elem_of_nil in Hg.
  - intros done' g rest' s1 s2 _ HI Hs.
    destruct (groups !! g) as [grp|] eqn:Eg; [|done]. simpl in Hs. injection Hs as <-.
    apply (assigned_equiv
             (fun x => (exists g0 grp0, g0 ∈ done' /\ groups !! g0 = Some grp0 /\ x ∈ grp0) \/
                       x ∈ so grp)).
    + intros x. split.
      * intros [(g0 & grp0 & Hd & Hg0 & Hx)|Hx].
        -- exists g0, grp0. split_and!; try done. apply elem_of_app. by left.
        -- exists g, grp. split_and!; try done; [apply elem_of_app; right; by left|].
           by rewrite elem_of_so in Hx.
      * intros (g0 & grp0 & [Hd| ->%list_elem_of_singleton]%elem_of_app & Hg0 & Hx).
        -- left. by exists g0, grp0.
        -- right. rewrite elem_of_so. congruence.
    + eapply assigned_trans; [exact HI|by apply assigned_foldl].
Qed.

Lemma assign_loop_assigned (groups : gmap nat (list nat)) (ggsh : gmap nat Shape) ggs es es' :
  (forall gg gs, (gg, gs) ∈ ggs -> exists shape, ggsh !! gg = Some shape /\ shape <> Flat) ->
  for_each ggs (assign_group_group so groups ggsh) es = Some es' ->
  assigned (fun x => exists gg gs g grp,
                       (gg, gs) ∈ ggs /\ g ∈ gs /\ groups !! g = Some grp /\ x ∈ grp) es es'.
Proof.
  intros Hsh H.
  apply (assigned_equiv
           (fun x => exists gg gs g grp,
                       (gg, gs) ∈ [] ++ ggs /\ g ∈ gs /\ groups !! g = Some grp /\ x ∈ grp));
    [done|].
  apply (for_each_run
           (fun done es1 =>
              assigned (fun x => exists gg gs g grp,
                          (gg, gs) ∈ done /\ g ∈ gs /\ groups !! g = Some grp /\ x ∈ grp)
                       es es1) _ ggs [] es es' H).
  - apply (assigned_equiv (fun _ => False)); [|apply assigned_refl].
    intros x. split; [done|]. intros (gg & gs & _ & _ & Hg & _). by apply elem_of_nil in Hg.
  - intros done' [gg gs] rest' s1 s2 Eq HI Hs.
    apply assign_group_group_assigned in Hs.
    2:{ apply (Hsh gg gs). simpl in Eq. rewrite Eq. apply elem_of_app. right. by left. }
    apply (assigned_equiv
             (fun x => (exists gg0 gs0 g grp, (gg0, gs0) ∈ done' /\ g ∈ gs0 /\
                                             groups !! g = Some grp /\ x ∈ grp) \/
                       (exists g grp, g ∈ gs /\ groups !! g = Some grp /\ x ∈ grp))).
    + intros x. split.
      * intros [(gg0 & gs0 & g & grp & Hd & Hrest)|(g & grp & Hrest)].
        -- exists gg0, gs0, g, grp. split; [apply elem_of_app; by left|done].
        -- exists gg, gs, g, grp. split; [apply elem_of_app; right; by left|done].
      * intros (gg0 & gs0 & g & grp & [Hd|[= -> ->]%list_elem_of_singleton]%elem_of_app & Hr).
        -- left. by exists gg0, gs0, g, grp.
        -- right. by exists g, grp.
    + by eapply assigned_trans.
Qed.

(** What a run of [collapse_edges] that returns has done to the edges. *)
Lemma collapse_edges_assigned b r b' :
  collapse_edges so b = Some (r, b') ->
  r = true /\ width b' = width b /\ height b' = height b /\ pieces b' = pieces b /\
  exists T : nat -> Prop,
    assigned T (edges b) (edges b') /\
    (forall x e, edges b !! x = Some e -> e_connection e <> None -> T x) /\
    (forall P : nat -> Prop,
       (forall x e y, edges b !! x = Some e -> P x -> y ∈ e_merges e -> P y) ->
       (forall x e, edges b !! x = Some e -> e_connection e <> None -> P x) ->
       forall x, T x -> P x).
Proof.
  intros H. pose proof (collapse_edges_true so b r b' H) as ->. split; [done|].
  unfold collapse_edges in H.
  destruct (for_each _ (group_step so (edges b)) _) as [[egm groups]|] eqn:E1; [|done].
  cbn [mbind option_bind] in H.
  destruct (for_each _ (connection_step egm) _) as [gconn|] eqn:E2; [|done].
  cbn [mbind option_bind] in H.
  destruct (for_in _ (colour_step so gconn) _) as [[[] [[ggm ggs] ggsh]]|] eqn:E3;
    [|done..].
  cbn [mbind option_bind] in H.
  destruct (for_each ggs _ _) as [es'|] eqn:E4; [|done].
  cbn [mbind option_bind] in H. injection H as <-. simpl.
  split_and!; try done.
  pose proof (group_loop_ok _ _ E1) as (G1 & G2 & G3).
  pose proof (connection_loop_ok _ _ _ E2) as HK.
  pose proof (colour_loop_ok _ _ E3) as (C1 & C2 & C3 & C4).
  simpl in G1, G2, G3, C1, C2, C3, C4.
  eexists. split; [exact (assign_loop_assigned groups ggsh ggs _ _ C3 E4)|]. split.
  - intros x e Hx Hc.
    destruct (HK x e) as (g & Hg & Hkey); [by apply elem_of_enumerate|done|].
    destruct (G2 x g Hg) as (grp & Hgrp & Hin).
    destruct Hkey as [cs Hcs]. apply dict_get_Some_elem, key_of_entry in Hcs.
    destruct (C1 g Hcs) as [gg Hgg]. destruct (C2 g gg Hgg) as (gs & Hgs & Hg').
    by exists gg, gs, g, grp.
  - intros P HP Hc x (gg & gs & g & grp & _ & _ & Hgrp & Hx).
    by apply (group_loop_within P (edges b) (egm, groups) HP Hc E1 g grp x).
Qed.

End CollapseShapes.

Lemma shaped_shape e : shaped e -> e_shape e = Knob \/ e_shape e = Socket.
Proof. intros [H _]. destruct (e_shape e); [done|by left|by right]. Qed.

(** X16: a call of [collapse_edges] that returns answers [True] and changes
    nothing but groups and shapes: sizes, pieces, connections and merge
    sets are what they were.  Every edge that has a connection ends with
    the shape [Knob] or [Socket] and with a group id that is a natural
    number. *)
Theorem collapse_edges_assigns so b r b' :
  (forall l, Permutation (so l) l) -> collapse_edges so b = Some (r, b') ->
  r = true /\
  width b' = width b /\ height b' = height b /\ pieces b' = pieces b /\
  map e_connection (edges b') = map e_connection (edges b) /\
  map e_merges (edges b') = map e_merges (edges b) /\
  forall x e, edges b !! x = Some e -> e_connection e <> None ->
    exists e', edges b' !! x = Some e' /\
               (e_shape e' = Knob \/ e_shape e' = Socket) /\
               exists n : nat, e_group e' = Some (Z.of_nat n).
Proof.
  intros Hso H.
  destruct (collapse_edges_assigned so Hso b r b' H)
    as (-> & W & Hh & Hp & T & (Hc & Hm & HA) & HT & _).
  split_and!; try done.
  intros x e Hx Hn. destruct (HA x e Hx) as (e' & Hx' & Hs & _).
  exists e'. split; [done|]. specialize (Hs (HT x e Hx Hn)).
  split; [by apply shaped_shape|]. by destruct Hs.
Qed.

(** X17: on a board whose merge sets hold connected edges only,
    [collapse_edges] leaves every edge that has no connection exactly as
    it was. *)
Theorem collapse_edges_leaves_unconnected so b r b' :
  (forall l, Permutation (so l) l) ->
  (forall y ey m, edges b !! y = Some ey -> m ∈ e_merges ey -> connected_at (edges b) m) ->
  collapse_edges so b = Some (r, b') ->
  forall x e, edges b !! x = Some e -> e_connection e = None -> edges b' !! x = Some e.
Proof.
  intros Hso Hmem H x e Hx Hn.
  destruct (collapse_edges_assigned so Hso b r b' H)
    as (_ & _ & _ & _ & T & (_ & _ & HA) & _ & HP).
  destruct (HA x e Hx) as (e' & Hx' & _ & _ & Hkeep).
  rewrite Hx'. f_equal. apply Hkeep. intros Ht.
  destruct (HP (connected_at (edges b))) with (x := x) as (e0 & Hx0 & Hc0); [| |done|].
  - intros y ey m Hy _ Hm. by apply (Hmem y ey).
  - intros y ey Hy Hc. by exists ey.
  - congruence.
Qed.

(** ** The board a round of the generation loop ends with *)

Lemma merged_members_connected w h rnd b b1 b2 :
  1 < w -> 1 < h -> fair rnd -> connected_board w h = Some b -> shuffle rnd b = Some b1 ->
  merge_edges b1 = Some b2 ->
  forall y ey m, edges b2 !! y = Some ey -> m ∈ e_merges ey -> connected_at (edges b2) m.
Proof.
  intros Hw Hh Hf Hb Hs Hm y ey m Hy Hin.
  destruct (merge_edges_pipeline w h rnd b b1 Hw Hh Hf Hb Hs)
    as (b2' & E & (_ & _ & _ & Hc & _) & Hrel).
  assert (b2' = b2) as -> by congruence.
  destruct (shuffled_board_facts w h rnd b b1 Hw Hh Hf Hb Hs) as (HS & Hlen & Hlink & _).
  destruct (proj1 (Hrel y m)) as (pos & d & Hd & Hi & Hse); [by exists ey|].
  apply elem_of_rounds in Hd.
  destruct (seam_exists w h b1 pos d HS Hlen Hlink Hd Hi) as (f & t & Hseam & _ & _ & Cf & Ct).
  assert (connected_at (edges b1) m) as (e1 & H1 & Hn1).
  { destruct Hse as [Hse|Hse];
      destruct (seam_functional _ _ _ _ _ _ _ Hse Hseam) as [-> ->]; done. }
  destruct (same_connections_lookup (edges b1) (edges b2) m e1) as (e2 & H2 & Ec);
    [done|done|].
  exists e2. split; [done|]. congruence.
Qed.

(** X18: the board a round of the generation loop ends with, for any size
    above 1 by 1 and any outcome of the random draws: at every cell, the
    slot shown towards a neighbour has the shape [Knob] or [Socket] and a
    group id, and the slot shown out of the grid is [Flat] with no group. *)
Theorem attempt_flats_and_seams so w h rnd a :
  1 < w -> 1 < h -> fair rnd -> (forall l, Permutation (so l) l) ->
  attempt so w h rnd = Some a ->
  forall pos d, in_bounds (attempt_board a) pos = true ->
    exists k e,
      get_edge_index (attempt_board a) pos d = Some k /\
      Py.get (edges (attempt_board a)) k = Some e /\
      if in_bounds (attempt_board a) (step pos d)
      then (e_shape e = Knob \/ e_shape e = Socket) /\ exists n : nat, e_group e = Some (Z.of_nat n)
      else e_shape e = Flat /\ e_group e = None.
Proof.
  intros Hw Hh Hf Hso Ha pos d Hin.
  rewrite attempt_merged_board in Ha. unfold merged_board in Ha.
  destruct (connected_board w h) as [b|] eqn:Hb; [|done]. cbn [mbind option_bind] in Ha.
  destruct (shuffle rnd b) as [b1|] eqn:Hs; [|done]. cbn [mbind option_bind] in Ha.
  destruct (merge_edges b1) as [b2|] eqn:Hm; [|done]. cbn [mbind option_bind] in Ha.
  destruct (collapse_edges so b2) as [[r b3]|] eqn:Hc; [|done]. cbn [mbind option_bind] in Ha.
  injection Ha as <-. cbn [attempt_board snd] in *.
  destruct (shuffled_board_facts w h rnd b b1 Hw Hh Hf Hb Hs) as (HS & Hlen & Hlink & Hplain).
  pose proof HS as (Ew & Eh & _ & _ & Hfacing & _).
  destruct (merge_edges_pipeline w h rnd b b1 Hw Hh Hf Hb Hs)
    as (b2' & E & (W2 & H2 & P2 & C2 & _ & F2) & _).
  assert (b2' = b2) as -> by congruence.
  destruct (collapse_edges_assigned so Hso b2 r b3 Hc)
    as (_ & W3 & H3 & P3 & T & (C3 & _ & HA) & HT & HP).
  assert (forall p, in_bounds b3 p = in_bounds b1 p) as Hib.
  { intros p. unfold in_bounds. by rewrite W3, H3, W2, H2. }
  rewrite Hib in Hin. rewrite Hib. apply in_bounds_inside in Hin. rewrite Ew, Eh in Hin.
  destruct (shuffled_slot_nat w h _ b1 pos d HS Hlen Hin) as (x & Ex & Lx).
  assert (get_edge_index b3 pos d = Some (Z.of_nat x)) as Ex3.
  { rewrite (get_edge_index_same b2 b3), (get_edge_index_same b1 b2); done. }
  destruct (lookup_lt_is_Some_2 (edges b1) x Lx) as [e1 H1].
  destruct (same_connections_lookup (edges b1) (edges b2) x e1) as (e2 & Hx2 & Ec2);
    [done|done|].
  destruct (HA x e2 Hx2) as (e3 & Hx3 & Hshape & _ & Hkeep).
  exists (Z.of_nat x), e3. split; [done|]. split.
  { apply lookup_lt_Some in Hx3 as L3. by rewrite get_nat. }
  pose proof (Hfacing pos d) as U. rewrite Ew, Eh in U. specialize (U Hin).
  unfold unconnected in U. rewrite Ex in U. simpl in U. rewrite get_nat in U by done.
  rewrite H1 in U. simpl in U. injection U as U.
  destruct (in_bounds b1 (step pos d)); simpl in U.
  - apply bool_decide_eq_false in U.
    assert (shaped e3) as Hs3 by (apply Hshape, (HT x e2 Hx2); congruence).
    split; [by apply shaped_shape|]. by destruct Hs3.
  - apply bool_decide_eq_true in U.
    assert (e3 = e2) as ->.
    { apply Hkeep. intros Ht.
      destruct (HP (connected_at (edges b2))) with (x := x) as (e0 & Hx0 & Hc0); [| |done|].
      - intros y ey m Hy _ Hm'.
        by apply (merged_members_connected w h rnd b b1 b2 Hw Hh Hf Hb Hs Hm y ey).
      - intros y ey Hy Hc'. by exists ey.
      - congruence. }
    assert (e_group e2 = e_group e1 /\ e_shape e2 = e_shape e1) as [Eg Es].
    { assert (map face (edges b2) !! x = map face (edges b1) !! x) as Hl by (by rewrite F2).
      change (map ?f ?l) with (f <$> l) in Hl. rewrite !list_lookup_fmap, Hx2, H1 in Hl.
      unfold face in Hl. simpl in Hl. by injection Hl. }
    destruct (Hplain x e1 H1) as (Hg & Hsh & _). split; congruence.
Qed.

(** ** When group collapse raises *)




(** ** Two pairings never link a class to itself *)

Section Pairings.

Context {A : Type}.
Variables S P : A -> A -> Prop.
Hypothesis S_sym : forall x y, S x y -> S y x.
Hypothesis S_fun : forall x y z, S x y -> S x z -> y = z.
Hypothesis S_irr : forall x, ~ S x x.
Hypothesis P_sym : forall x y, P x y -> P y x.
Hypothesis P_fun : forall x y z, P x y -> P x z -> y = z.
Hypothesis P_irr : forall x, ~ P x x.

Lemma turn_fun x y z : turn S P x y -> turn S P x z -> y = z.
Proof.
  intros (a & Pa & Sa) (a' & Pa' & Sa').
  assert (a' = a) as -> by (by apply (P_fun x)). by apply (S_fun a).
Qed.

Lemma turn_inj x y z : turn S P x z -> turn S P y z -> x = y.
Proof.
  intros (a & Pa & Sa) (a' & Pa' & Sa').
  assert (a' = a) as -> by (apply (S_fun z); by apply S_sym).
  apply (P_fun a); by apply P_sym.
Qed.

Lemma turns_S k x y : turns S P (Datatypes.S k) x y <-> exists z, turn S P x z /\ turns S P k z y.
Proof. done. Qed.

Lemma turns_last k : forall x y,
  turns S P (Datatypes.S k) x y <-> exists t, turns S P k x t /\ turn S P t y.
Proof.
  induction k as [|k IH]; intros x y.
  - rewrite turns_S. unfold turns. simpl. split.
    + intros (z & Hz & <-). by exists x.
    + intros (t & <- & Ht). by exists y.
  - rewrite turns_S. split.
    + intros (z & Hz & Hk). apply IH in Hk as (t & Hk & Ht).
      exists t. split; [|done]. apply turns_S. by exists z.
    + intros (t & Hk & Ht). apply turns_S in Hk as (z & Hz & Hk).
      exists z. split; [done|]. apply IH. by exists t.
Qed.

(** No number of turns leads from one side of an [S] pair to the other. *)
Lemma turns_apart : forall k x s, S x s -> ~ turns S P k x s.
Proof.
  intros k. induction k as [k IH] using lt_wf_ind. intros x s Hs Hk.
  destruct k as [|[|k]].
  - unfold turns in Hk. simpl in Hk. subst s. by apply (S_irr x).
  - apply turns_S in Hk as (z & (a & Pa & Sa) & Hz). unfold turns in Hz. simpl in Hz. subst z.
    assert (a = x) as -> by (apply (S_fun s); by apply S_sym). by apply (P_irr x).
  - apply turns_last in Hk as (t & Hk & (a & Pa & Sa)).
    assert (a = x) as -> by (apply (S_fun s); by apply S_sym).
    apply turns_S in Hk as (z & (a' & Pa' & Sa') & Hk).
    assert (a' = t) as -> by (apply (P_fun x); [done|by apply P_sym]).
    apply (IH k ltac:(lia) z t); [by apply S_sym|done].
Qed.

Lemma rtc_turned_turns x y :
  rtc (turned S P) x y -> exists k, turns S P k x y \/ turns S P k y x.
Proof.
  induction 1 as [x|x z y HM _ (k & IH)].
  - exists O. by left.
  - destruct HM as [Hxz|Hzx], IH as [Hk|Hk].
    + exists (Datatypes.S k). left. apply turns_S. by exists z.
    + destruct k as [|k].
      * unfold turns in Hk. simpl in Hk. subst z. exists 1%nat. left.
        apply turns_S. exists y. by split.
      * apply turns_last in Hk as (t & Hk & Ht).
        assert (t = x) as -> by (by apply (turn_inj t x z)). exists k. by right.
    + destruct k as [|k].
      * unfold turns in Hk. simpl in Hk. subst z. exists 1%nat. right.
        apply turns_S. exists x. by split.
      * apply turns_S in Hk as (t & Ht & Hk).
        assert (t = x) as -> by (by apply (turn_fun z)). exists k. by left.
    + exists (Datatypes.S k). right. apply turns_last. by exists z.
Qed.

(** The two sides of an [S] pair lie in different classes of the turns. *)
Lemma pair_apart x s : S x s -> ~ rtc (turned S P) x s.
Proof.
  intros Hs Hr. apply rtc_turned_turns in Hr as (k & [Hk|Hk]).
  - by apply (turns_apart k x s).
  - apply (turns_apart k s x); [by apply S_sym|done].
Qed.

(** [S] carries a class of the turns to a class. *)
Lemma turned_across x y sx sy : S x sx -> S y sy -> turned S P x y -> turned S P sx sy.
Proof.
  intros Hx Hy [(a & Pa & Sa)|(a & Pa & Sa)].
  - assert (a = sy) as -> by (apply (S_fun y); [by apply S_sym|done]).
    right. exists x. split; [by apply P_sym|done].
  - assert (a = sx) as -> by (apply (S_fun x); [by apply S_sym|done]).
    left. exists y. split; [by apply P_sym|done].
Qed.

Lemma turned_sym x y : turned S P x y -> turned S P y x.
Proof. intros [H|H]; [by right|by left]. Qed.

End Pairings.

(** ** The groups of group collapse are the classes of the merge sets *)

Section Classes.

Variable so : list nat -> list nat.
Hypothesis so_perm : forall l, Permutation (so l) l.
Variable es : list Edge.
Hypothesis merge_sym : forall x y, merge_rel es x y -> merge_rel es y x.

Lemma merge_rtc_sym x y : rtc (merge_rel es) x y -> rtc (merge_rel es) y x.
Proof.
  induction 1 as [x|x z y HM _ IH]; [done|].
  eapply rtc_r; [exact IH|]. by apply merge_sym.
Qed.

Lemma merge_closure_closed :
  forall fuel queue group g,
    merge_closure so es fuel queue group = Some g ->
    (forall y m, y ∈ group -> merge_rel es y m -> m ∈ group \/ m ∈ queue) ->
    forall y m, y ∈ g -> merge_rel es y m -> m ∈ g.
Proof.
  induction fuel as [|fuel IH]; intros queue group g H Hinv; simpl in H; [done|].
  destruct queue as [|next rest].
  { injection H as <-. intros y m Hy Hm. destruct (Hinv y m Hy Hm) as [?|Hq]; [done|].
    by apply elem_of_nil in Hq. }
  destruct (decide (next ∈ group)) as [Hin|Hnin].
  { apply (IH _ _ _ H). intros y m Hy Hm.
    destruct (Hinv y m Hy Hm) as [?|[->|?]%elem_of_cons]; auto. }
  destruct (es !! next) as [e|] eqn:He; [|done]. simpl in H.
  apply (IH _ _ _ H). intros y m Hy Hm.
  apply elem_of_set_add in Hy as [->|Hy].
  - right. apply elem_of_app. left.
    rewrite elem_of_reverse, (elem_of_so so so_perm).
    destruct Hm as (e' & He' & Hm). congruence.
  - destruct (Hinv y m Hy Hm) as [?|[->|?]%elem_of_cons].
    + left. apply elem_of_set_add. by right.
    + left. apply elem_of_set_add. by left.
    + right. apply elem_of_app. by right.
Qed.

Lemma closure_of_start x g :
  merge_closure so es (closure_fuel es) [x] [] = Some g ->
  (forall y, y ∈ g -> rtc (merge_rel es) x y) /\
  (forall y m, y ∈ g -> merge_rel es y m -> m ∈ g).
Proof.
  intros H. split.
  - apply (merge_closure_within so so_perm (fun y => rtc (merge_rel es) x y) es) with
      (fuel := closure_fuel es) (queue := [x]) (group := []); [|done| |].
    + intros y e m Hy Hr Hm. eapply rtc_r; [exact Hr|]. by exists e.
    + intros y ->%list_elem_of_singleton. done.
    + intros y Hy. by apply elem_of_nil in Hy.
  - apply (merge_closure_closed _ _ _ _ H). intros y m Hy. by apply elem_of_nil in Hy.
Qed.

Lemma group_closed_rtc (egm : gmap nat nat) x y g :
  (forall x y g, egm !! x = Some g -> merge_rel es x y -> egm !! y = Some g) ->
  rtc (merge_rel es) x y -> egm !! x = Some g -> egm !! y = Some g.
Proof.
  intros G5. induction 1 as [x|x z y HM _ IH]; [done|].
  intros Hx. apply IH. by apply (G5 x).
Qed.

Lemma group_step_classes done x e st st' :
  group_step so es (x, e) st = Some st' -> groups_ok done st -> classes_ok es st ->
  classes_ok es st'.
Proof.
  intros H (G1 & G2 & G3) HC. pose proof HC as (G4 & G5 & G6).
  destruct st as [egm groups]. simpl in G1, G2, G3, G4, G5, G6.
  unfold group_step in H. destruct (e_connection e) as [c|] eqn:Ec; [|by injection H as <-].
  destruct (egm !! x) as [g0|] eqn:Eg; [by injection H as <-|].
  destruct (merge_closure so es (closure_fuel es) [x] []) as [group|] eqn:Em; [|done].
  cbn [mbind option_bind] in H. injection H as <-.
  destruct (closure_of_start x group Em) as [Hreach Hclosed].
  assert (forall y, y ∈ group -> egm !! y = None) as Hfresh.
  { intros y Hy. destruct (egm !! y) as [gy|] eqn:Ey; [|done].
    pose proof (group_closed_rtc egm y x gy G5 (merge_rtc_sym _ _ (Hreach y Hy)) Ey).
    congruence. }
  assert (groups !! size groups = None) as Hnew.
  { destruct (groups !! size groups) eqn:E; [|done].
    assert (size groups < size groups)%nat; [|lia]. apply G3. by rewrite E. }
  split_and!; cbn [fst snd].
  - intros g grp y. rewrite foldl_insert_lookup.
    destruct (decide (g = size groups)) as [->|N].
    + rewrite lookup_insert_eq. intros [= <-] Hy.
      rewrite decide_True; [done|]. by apply (elem_of_so so so_perm).
    + rewrite lookup_insert_ne by done. intros Hg Hy.
      pose proof (G4 g grp y Hg Hy) as Hy'.
      rewrite decide_False; [done|]. rewrite (elem_of_so so so_perm). intros Hin.
      rewrite (Hfresh y Hin) in Hy'. done.
  - intros y m g. rewrite !foldl_insert_lookup. case_decide as Hy.
    + rewrite (elem_of_so so so_perm) in Hy. intros [= <-] Hm.
      rewrite decide_True; [done|]. apply (elem_of_so so so_perm). by apply (Hclosed y).
    + intros Hg Hm. pose proof (G5 y m g Hg Hm) as Hm'.
      rewrite decide_False; [done|]. rewrite (elem_of_so so so_perm). intros Hin.
      rewrite (Hfresh m Hin) in Hm'. done.
  - intros g grp y z. destruct (decide (g = size groups)) as [->|N].
    + rewrite lookup_insert_eq. intros [= <-] Hy Hz.
      etrans; [apply merge_rtc_sym, Hreach, Hy|by apply Hreach].
    + rewrite lookup_insert_ne by done. apply G6.
Qed.

(** What the first loop over the edges leaves. *)
Lemma group_loop_classes egm groups :
  for_each (imap pair es) (group_step so es) (∅, ∅) = Some (egm, groups) ->
  (forall x e, es !! x = Some e -> e_connection e <> None -> is_Some (egm !! x)) /\
  (forall x y g, egm !! x = Some g -> egm !! y = Some g -> rtc (merge_rel es) x y) /\
  (forall x y g, egm !! x = Some g -> rtc (merge_rel es) x y -> egm !! y = Some g) /\
  (forall g grp y, groups !! g = Some grp -> (y ∈ grp <-> egm !! y = Some g)) /\
  (forall x g, egm !! x = Some g -> exists grp, groups !! g = Some grp /\ x ∈ grp).
Proof.
  intros H.
  assert (groups_ok (imap pair es) (egm, groups) /\ classes_ok es (egm, groups))
    as [(G1 & G2 & G3) (G4 & G5 & G6)].
  { apply (for_each_run (fun done s => groups_ok done s /\ classes_ok es s)
             (group_step so es) (imap pair es) [] (∅, ∅) (egm, groups) H).
    - split; split_and!; simpl; try done.
      + intros x e Hx. by apply elem_of_nil in Hx.
      + intros g [? Hg]. by rewrite lookup_empty in Hg.
    - intros done' [x e] rest' s1 s2 _ [HI HC] Hs.
      split; [exact (group_step_ok so so_perm es done' x e s1 s2 Hs HI)|].
      exact (group_step_classes done' x e s1 s2 Hs HI HC). }
  simpl in *. split_and!.
  - intros x e Hx Hc. apply (G1 x e); [by apply elem_of_enumerate|done].
  - intros x y g Hx Hy. destruct (G2 x g Hx) as (grp & Hg & Hin).
    destruct (G2 y g Hy) as (grp' & Hg' & Hin'). assert (grp' = grp) as -> by congruence.
    by apply (G6 g grp).
  - intros x y g Hx Hr. by apply (group_closed_rtc egm x y g G5).
  - intros g grp y Hg. split; [by apply G4|]. intros Hy.
    destruct (G2 y g Hy) as (grp' & Hg' & Hin). congruence.
  - exact G2.
Qed.

End Classes.

(** ** The links between the groups *)

Lemma NoDup_set_add x s : NoDup s -> NoDup (Py.set_add x s).
Proof.
  intros H. unfold Py.set_add. case_decide; [done|].
  apply NoDup_app. split_and!; [done| |apply NoDup_singleton].
  intros y Hy ->%list_elem_of_singleton. done.
Qed.

Lemma set_add_nonempty x s : Py.set_add x s <> [].
Proof.
  unfold Py.set_add. case_decide as H.
  - intros ->. by apply elem_of_nil in H.
  - by destruct s.
Qed.

Lemma all_same_singleton (l : list nat) c0 :
  NoDup l -> l <> [] -> (forall c, c ∈ l -> c = c0) -> l = [c0].
Proof.
  intros Hnd Hne Hall. destruct l as [|a [|b l]]; [done| |].
  - f_equal. apply Hall. by left.
  - apply NoDup_cons in Hnd as [Ha _]. destruct Ha.
    rewrite (Hall a), (Hall b); [by left|right; by left|by left].
Qed.

Lemma connection_step_links egm done x e gconn gconn' :
  connection_step egm (x, e) gconn = Some gconn' -> links_ok egm done gconn ->
  links_ok egm (done ++ [(x, e)]) gconn'.
Proof.
  intros H (L1 & L2 & L3). unfold connection_step in H.
  destruct (e_connection e) as [c|] eqn:Ec.
  2:{ injection H as <-. split_and!; [done| |].
      - intros g cs Hg. destruct (L2 g cs Hg) as (Hnd & Hne & Hw). split_and!; try done.
        intros c Hc. destruct (Hw c Hc) as (x0 & e0 & y0 & Hd & Hrest).
        exists x0, e0, y0. split; [apply elem_of_app; by left|done].
      - intros x0 e0 y0 [Hd|[= -> ->]%list_elem_of_singleton]%elem_of_app Hc0;
          [by apply (L3 x0 e0)|congruence]. }
  destruct (egm !! x) as [g|] eqn:Eg; [|done]. simpl in H.
  destruct (egm !! c) as [gc|] eqn:Egc; [|done]. simpl in H. injection H as <-.
  unfold Py.dict_add.
  set (old := default [] (Py.dict_get g gconn)).
  assert (NoDup old /\ forall c0, c0 ∈ old ->
            exists x0 e0 y0, (x0, e0) ∈ done /\ e_connection e0 = Some y0 /\
                             egm !! x0 = Some g /\ egm !! y0 = Some c0) as [Hold Hw].
  { unfold old. destruct (Py.dict_get g gconn) as [cs|] eqn:Ed; simpl.
    - apply dict_get_Some_elem in Ed. by destruct (L2 g cs Ed) as (? & _ & ?).
    - split; [apply NoDup_nil_2|]. intros c0 Hc0. by apply elem_of_nil in Hc0. }
  split_and!.
  - by apply dict_set_keys_NoDup.
  - intros g0 cs Hin. apply elem_of_dict_set in Hin as [Hin|[= -> ->]].
    + destruct (L2 g0 cs Hin) as (Hnd & Hne & Hw0). split_and!; try done.
      intros c0 Hc0. destruct (Hw0 c0 Hc0) as (x0 & e0 & y0 & Hd & Hrest).
      exists x0, e0, y0. split; [apply elem_of_app; by left|done].
    + split_and!; [by apply NoDup_set_add|apply set_add_nonempty|].
      intros c0 [->|Hc0]%elem_of_set_add.
      * exists x, e, c. split_and!; try done. apply elem_of_app. right. by left.
      * destruct (Hw c0 Hc0) as (x0 & e0 & y0 & Hd & Hrest).
        exists x0, e0, y0. split; [apply elem_of_app; by left|done].
  - intros x0 e0 y0 [Hd|[= -> ->]%list_elem_of_singleton]%elem_of_app Hc0.
    + destruct (L3 x0 e0 y0 Hd Hc0) as (g0 & c0 & cs & Hg0 & Hc0' & Hget & Hin).
      exists g0, c0. rewrite dict_get_set. case_decide as E.
      * subst g0. eexists. split_and!; try done. apply elem_of_set_add. right.
        unfold old. by rewrite Hget.
      * exists cs. by split_and!.
    + assert (y0 = c) as -> by congruence.
      exists g, gc. rewrite dict_get_set, decide_True by done.
      eexists. split_and!; try done. apply elem_of_set_add. by left.
Qed.

Lemma connection_loop_links es egm gconn :
  for_each (imap pair es) (connection_step egm) [] = Some gconn ->
  links_ok egm (imap pair es) gconn.
Proof.
  intros H.
  apply (for_each_run (links_ok egm) (connection_step egm) (imap pair es) [] [] gconn H).
  - split_and!; simpl.
    + apply NoDup_nil_2.
    + intros g cs Hg. by apply elem_of_nil in Hg.
    + intros x e y Hx. by apply elem_of_nil in Hx.
  - intros done' [x e] rest' s1 s2 _ HI Hs. exact (connection_step_links egm done' x e s1 s2 Hs HI).
Qed.

Section Links.

Variable es : list Edge.
Variable P : nat -> nat -> Prop.
Hypothesis conn_sym : forall x y, conn es x y -> conn es y x.
Hypothesis conn_irr : forall x, ~ conn es x x.
Hypothesis P_sym : forall x y, P x y -> P y x.
Hypothesis P_fun : forall x y z, P x y -> P x z -> y = z.
Hypothesis P_irr : forall x, ~ P x x.
Hypothesis P_conn : forall x a, P x a -> exists s, conn es x s.
Hypothesis merge_turned : forall x y, merge_rel es x y <-> turned (conn es) P x y.

Variable egm : gmap nat nat.
Hypothesis egm_all : forall x y, conn es x y -> is_Some (egm !! x).
Hypothesis egm_sound :
  forall x y g, egm !! x = Some g -> egm !! y = Some g -> rtc (merge_rel es) x y.
Hypothesis egm_closed :
  forall x y g, egm !! x = Some g -> rtc (merge_rel es) x y -> egm !! y = Some g.

Lemma conn_fun x y z : conn es x y -> conn es x z -> y = z.
Proof. intros (e & He & Hy) (e' & He' & Hz). congruence. Qed.

Lemma merge_rtc_turned x y : rtc (merge_rel es) x y <-> rtc (turned (conn es) P) x y.
Proof.
  split; induction 1 as [x|x z y HM _ IH]; try done;
    (eapply rtc_l; [|exact IH]); by apply merge_turned.
Qed.

Lemma turned_conn x y : turned (conn es) P x y -> exists s, conn es y s.
Proof.
  intros [(a & Pa & Sa)|(a & Pa & Sa)].
  - exists a. by apply conn_sym.
  - by apply (P_conn y a).
Qed.

Lemma rtc_across x y sx sy :
  rtc (turned (conn es) P) x y -> conn es x sx -> conn es y sy ->
  rtc (turned (conn es) P) sx sy.
Proof.
  intros Hr. revert sx. induction Hr as [x|x z y HM _ IH]; intros sx Hx Hy.
  - by rewrite (conn_fun x sx sy Hx Hy).
  - destruct (turned_conn x z HM) as [sz Hz].
    eapply rtc_l; [|by apply IH].
    by apply (turned_across (conn es) P conn_sym conn_fun P_sym x z sx sz).
Qed.

Lemma partner_group x y sx sy g :
  egm !! x = Some g -> egm !! y = Some g -> conn es x sx -> conn es y sy ->
  egm !! sx = egm !! sy.
Proof.
  intros Hx Hy Sx Sy.
  destruct (egm_all sx x (conn_sym _ _ Sx)) as [c Hc]. rewrite Hc. symmetry.
  apply (egm_closed sx sy c Hc). apply merge_rtc_turned.
  apply (rtc_across x y); [|done..]. apply merge_rtc_turned. by apply (egm_sound x y g).
Qed.

Lemma partner_apart x sx g : egm !! x = Some g -> conn es x sx -> egm !! sx <> Some g.
Proof.
  intros Hx Sx Hs.
  apply (pair_apart (conn es) P conn_sym conn_fun conn_irr P_sym P_fun P_irr x sx Sx).
  apply merge_rtc_turned. by apply (egm_sound x sx g).
Qed.

(** What the second loop over the edges leaves. *)
Lemma connection_loop_paired gconn :
  for_each (imap pair es) (connection_step egm) [] = Some gconn ->
  NoDup (map fst gconn) /\ paired gconn /\
  forall x y, conn es x y ->
    exists g g', egm !! x = Some g /\ egm !! y = Some g' /\
                 Py.dict_get g gconn = Some [g'].
Proof.
  intros H. destruct (connection_loop_links es egm gconn H) as (L1 & L2 & L3).
  assert (forall g cs, Py.dict_get g gconn = Some cs ->
            exists x y, conn es x y /\ egm !! x = Some g /\
                        exists c, egm !! y = Some c /\ cs = [c]) as Hsingle.
  { intros g cs Hget. apply dict_get_Some_elem in Hget.
    destruct (L2 g cs Hget) as (Hnd & Hne & Hw).
    destruct cs as [|c0 cs'] eqn:Ecs; [done|]. rewrite <- Ecs in *.
    destruct (Hw c0) as (x0 & e0 & y0 & Hd0 & Hc0 & Hg0 & Hy0); [rewrite Ecs; by left|].
    apply elem_of_enumerate in Hd0.
    exists x0, y0. split; [by exists e0|]. split; [done|]. exists c0. split; [done|].
    apply all_same_singleton; try done.
    intros c Hc. destruct (Hw c Hc) as (x1 & e1 & y1 & Hd1 & Hc1 & Hg1 & Hy1).
    apply elem_of_enumerate in Hd1.
    assert (egm !! y1 = egm !! y0) as E.
    { apply (partner_group x1 x0 y1 y0 g); try done; [by exists e1|by exists e0]. }
    congruence. }
  assert (forall x y, conn es x y ->
            exists g g', egm !! x = Some g /\ egm !! y = Some g' /\
                         Py.dict_get g gconn = Some [g']) as Hkey.
  { intros x y (e & He & Hc).
    destruct (L3 x e y) as (g & c & cs & Hg & Hy & Hget & Hin);
      [by apply elem_of_enumerate|done|].
    destruct (Hsingle g cs Hget) as (x' & y' & Sxy' & Hg' & c' & Hy' & ->).
    apply list_elem_of_singleton in Hin as ->. by exists g, c'. }
  split_and!; [done| |done].
  intros g cs Hget. destruct (Hsingle g cs Hget) as (x & y & Sxy & Hg & c & Hy & ->).
  exists c. split; [done|]. split.
  - intros ->. by apply (partner_apart x y g).
  - destruct (Hkey y x (conn_sym _ _ Sxy)) as (g1 & g2 & H1 & H2 & Hget').
    assert (g1 = c) as -> by congruence. assert (g2 = g) as -> by congruence. done.
Qed.

End Links.

(** ** The colours of paired groups *)

Section Colours.

Variable so : list nat -> list nat.
Hypothesis so_perm : forall l, Permutation (so l) l.

Lemma even_div_succ (L : nat) : Nat.even L = true -> (S L / 2 = L / 2)%nat.
Proof.
  intros [k ->]%Nat.even_spec. rewrite (Nat.mul_comm 2 k), Nat.div_mul by lia.
  symmetry. apply (Nat.div_unique (S (k * 2)) 2 k 1); lia.
Qed.

Lemma so_singleton x : so [x] = [x].
Proof. apply Permutation_singleton_r, so_perm. Qed.

Lemma layer_traversal_pair gconn (ggm : gmap nat nat) fuel gid g' layers :
  layer_traversal so gconn ggm fuel [(gid, O)] [] [] = Some layers ->
  ggm !! gid = None -> ggm !! g' = None -> g' <> gid ->
  Py.dict_get gid gconn = Some [g'] -> Py.dict_get g' gconn = Some [gid] ->
  layers = [(O, [gid]); (1%nat, [g'])].
Proof.
  intros H Hg Hg' N Dg Dg'.
  assert (~ is_Some (ggm !! gid)) as Ng by (rewrite Hg; by intros [? ?]).
  assert (~ is_Some (ggm !! g')) as Ng' by (rewrite Hg'; by intros [? ?]).
  destruct fuel as [|fuel]; [done|]. cbn [layer_traversal] in H.
  rewrite (decide_False (P := is_Some (ggm !! gid))) in H by done.
  rewrite (decide_False (P := gid ∈ [])) in H by (intros Hin; by apply elem_of_nil in Hin).
  rewrite Dg in H. cbn [mbind option_bind] in H. rewrite so_singleton in H.
  cbn [map reverse app] in H.
  change (reverse [(g', 1%nat)] ++ []) with [(g', 1%nat)] in H.
  change (Py.set_add gid []) with [gid] in H.
  change (Py.dict_add O gid []) with [(O, [gid])] in H.
  destruct fuel as [|fuel]; [done|]. cbn [layer_traversal] in H.
  rewrite (decide_False (P := is_Some (ggm !! g'))) in H by done.
  rewrite (decide_False (P := g' ∈ [gid])) in H
    by (intros Hin; by apply list_elem_of_singleton in Hin).
  rewrite Dg' in H. cbn [mbind option_bind] in H. rewrite so_singleton in H.
  change (reverse (map (fun c => (c, 2%nat)) [gid]) ++ []) with [(gid, 2%nat)] in H.
  assert (Py.set_add g' [gid] = [gid; g']) as Es.
  { unfold Py.set_add. rewrite decide_False; [done|].
    intros Hin. by apply list_elem_of_singleton in Hin. }
  rewrite Es in H.
  change (Py.dict_add 1 g' [(O, [gid])]) with [(O, [gid]); (1%nat, [g'])] in H.
  destruct fuel as [|fuel]; [done|]. cbn [layer_traversal] in H.
  rewrite (decide_False (P := is_Some (ggm !! gid))) in H by done.
  rewrite (decide_True (P := gid ∈ [gid; g'])) in H by (by left).
  destruct fuel as [|fuel]; [done|]. cbn [layer_traversal] in H. by injection H as <-.
Qed.

Lemma colour_step_pairs gconn done gid st st' :
  paired gconn -> gid ∈ map fst gconn ->
  colour_step so gconn gid st = Some (true, st') -> pairs_ok gconn done st ->
  pairs_ok gconn (done ++ [gid]) st'.
Proof.
  intros Hpaired Hkey H HQ. pose proof HQ as (Q1 & [Q2 Q2'] & Q3 & Q4).
  destruct st as [[ggm ggs] ggsh]. simpl in Q1, Q2, Q2', Q3, Q4.
  unfold colour_step in H. cbv beta iota in H.
  destruct (decide (is_Some (ggm !! gid))) as [Hs|Hn].
  { injection H as <-. split_and!; try done.
    intros g [Hg| ->%list_elem_of_singleton]%elem_of_app; [by apply Q1|done]. }
  assert (ggm !! gid = None) as Hg.
  { destruct (ggm !! gid) eqn:E; [|done]. by destruct Hn. }
  destruct (dict_get_key gid gconn Hkey) as [cs Dg].
  destruct (Hpaired gid cs Dg) as (g' & -> & N & Dg').
  assert (ggm !! g' = None) as Hg'.
  { destruct (ggm !! g') as [gg'|] eqn:E; [|done].
    destruct (Q3 g' gg' E) as (_ & _ & g2 & gg2 & D2 & H2 & _).
    assert (g2 = gid) as -> by congruence. congruence. }
  destruct (layer_traversal so gconn ggm (layer_fuel gconn) [(gid, O)] [] []) as [layers|] eqn:El;
    [|done].
  cbn [mbind option_bind] in H.
  apply (layer_traversal_pair gconn ggm _ gid g') in El; try done. subst layers.
  change (split_layers [(O, [gid]); (1%nat, [g'])]) with ([gid], [g']) in H.
  cbv beta iota in H.
  assert (Py.set_inter [gid] [g'] = []) as Ei.
  { unfold Py.set_inter. rewrite filter_cons, decide_False; [done|].
    intros Hin. apply list_elem_of_singleton in Hin. congruence. }
  rewrite Ei in H. injection H as <-.
  unfold add_group_group. cbn [fst snd]. rewrite !so_singleton. cbn [foldl].
  set (L := length ggs).
  assert (L ∉ map fst ggs) as Hfresh by (rewrite Q2', elem_of_seq; lia).
  rewrite (dict_set_fresh L [gid] ggs Hfresh).
  assert (length (ggs ++ [(L, [gid])]) = S L) as EL by (rewrite length_app; simpl; lia).
  rewrite EL.
  assert (S L ∉ map fst (ggs ++ [(L, [gid])])) as Hfresh'.
  { rewrite map_app, Q2'. simpl. rewrite elem_of_app, elem_of_seq, list_elem_of_singleton. lia. }
  rewrite (dict_set_fresh (S L) [g'] _ Hfresh').
  assert (Nat.even (S L) = false) as EvS.
  { rewrite Nat.even_succ, <- Nat.negb_even. fold L in Q2. by rewrite Q2. }
  assert (forall gg gs, (gg, gs) ∈ ggs -> (gg < L)%nat) as Hlt.
  { intros gg gs Hin. apply key_of_entry in Hin. rewrite Q2', elem_of_seq in Hin. lia. }
  split_and!; cbn [fst snd].
  - intros g [Hd| ->%list_elem_of_singleton]%elem_of_app.
    + destruct (Q1 g Hd) as [gg Hgg].
      rewrite lookup_insert_ne by congruence. rewrite lookup_insert_ne by congruence. eauto.
    + rewrite lookup_insert_ne by done. rewrite lookup_insert_eq. eauto.
  - rewrite !length_app. simpl. replace (length ggs + 1 + 1)%nat with (S (S L)) by (unfold L; lia).
    rewrite Nat.even_succ_succ. done.
  - rewrite !map_app, !length_app, Q2'. simpl.
    replace (length ggs + 1 + 1)%nat with (S (S L)) by (unfold L; lia).
    by rewrite !seq_S.
  - intros g gg Hgg.
    destruct (decide (g = g')) as [->|Ng'].
    { rewrite lookup_insert_eq in Hgg. injection Hgg as <-. split_and!.
      - apply elem_of_app. right. by left.
      - rewrite lookup_insert_eq. by rewrite EvS.
      - exists gid, L. split_and!; try done.
        + rewrite lookup_insert_ne by done. by rewrite lookup_insert_eq.
        + by apply even_div_succ.
        + fold L in Q2. by rewrite Q2, EvS. }
    rewrite lookup_insert_ne in Hgg by done.
    destruct (decide (g = gid)) as [->|Ngid].
    { rewrite lookup_insert_eq in Hgg. injection Hgg as <-. split_and!.
      - apply elem_of_app. left. apply elem_of_app. right. by left.
      - rewrite lookup_insert_ne by lia. rewrite lookup_insert_eq. fold L in Q2. by rewrite Q2.
      - exists g', (S L). split_and!; try done.
        + by rewrite lookup_insert_eq.
        + symmetry. by apply even_div_succ.
        + fold L in Q2. by rewrite Q2, EvS. }
    rewrite lookup_insert_ne in Hgg by done.
    destruct (Q3 g gg Hgg) as (Hin & Hsh & g2 & gg2 & D2 & H2 & Hdiv & Hev).
    pose proof (Hlt _ _ Hin). split_and!.
    + apply elem_of_app. left. apply elem_of_app. by left.
    + rewrite lookup_insert_ne by lia. by rewrite lookup_insert_ne by lia.
    + exists g2, gg2. split_and!; try done.
      rewrite lookup_insert_ne by congruence. by rewrite lookup_insert_ne by congruence.
  - intros gg gs [[Hin|Hin]%elem_of_app|Hin]%elem_of_app.
    + destruct (Q4 gg gs Hin) as (g & -> & Hgg). exists g. split; [done|].
      rewrite lookup_insert_ne by congruence. by rewrite lookup_insert_ne by congruence.
    + apply list_elem_of_singleton in Hin as [= -> ->]. exists gid. split; [done|].
      rewrite lookup_insert_ne by done. by rewrite lookup_insert_eq.
    + apply list_elem_of_singleton in Hin as [= -> ->]. exists g'. split; [done|].
      by rewrite lookup_insert_eq.
Qed.

Lemma colour_loop_pairs gconn st :
  paired gconn ->
  for_in (map fst gconn) (colour_step so gconn) (∅, [], ∅) = Some (true, st) ->
  pairs_ok gconn (map fst gconn) st.
Proof.
  intros Hp H.
  apply (for_in_run (pairs_ok gconn) (colour_step so gconn) (map fst gconn) []
           (∅, [], ∅) st H).
  - split_and!; simpl; try done.
    + intros g Hg. by apply elem_of_nil in Hg.
    + intros gg gs Hg. by apply elem_of_nil in Hg.
  - intros done' x rest' s1 s2 Eq HI Hs.
    apply (colour_step_pairs gconn done' x s1 s2 Hp); try done.
    simpl in Eq. rewrite Eq. apply elem_of_app. right. by left.
Qed.

End Colours.

(** ** The groups and shapes of paired groups *)

Lemma painted_refl v es : painted (fun _ => False) v es es.
Proof. intros x e Hx. exists e. split_and!; try done. by left. Qed.

Lemma painted_trans (T1 T2 : nat -> Prop) v es es1 es2 :
  painted T1 v es es1 -> painted T2 v es1 es2 -> painted (fun x => T1 x \/ T2 x) v es es2.
Proof.
  intros H1 H2 x e Hx. destruct (H1 x e Hx) as (e1 & Hx1 & A1 & B1 & D1).
  destruct (H2 x e1 Hx1) as (e2 & Hx2 & A2 & B2 & D2).
  exists e2. split; [done|].
  assert (forall e0, e0 = e \/ e0 = set_group_shape (v x).1 (v x).2 e ->
            set_group_shape (v x).1 (v x).2 e0 = set_group_shape (v x).1 (v x).2 e) as Hidem
    by (intros e0 [->| ->]; done).
  split_and!.
  - intros [Ht|Ht].
    + rewrite (A1 Ht) in B2. by destruct B2 as [->| ->].
    + rewrite (A2 Ht). by apply Hidem.
  - destruct B2 as [->| ->]; [done|]. right. by apply Hidem.
  - intros Hn. rewrite D2, D1; tauto.
Qed.

Lemma painted_equiv (T T' : nat -> Prop) v es es' :
  (forall x, T x <-> T' x) -> painted T v es es' -> painted T' v es es'.
Proof.
  intros E H x e Hx. destruct (H x e Hx) as (e' & Hx' & A & B & D).
  exists e'. split_and!; try done.
  - intros Ht. apply A, E, Ht.
  - intros Hn. apply D. by rewrite E.
Qed.

Lemma painted_alter v g shape x0 es :
  v x0 = (g, shape) ->
  painted (fun x => x = x0) v es (alter (set_group_shape g shape) x0 es).
Proof.
  intros Hv x e Hx. rewrite list_lookup_alter. case_decide as E.
  - subst x0. rewrite Hx, Hv. simpl. eexists. split; [done|]. split_and!; try done. by right.
  - exists e. split_and!; try done. by left.
Qed.

Lemma painted_foldl v g shape l :
  (forall x, x ∈ l -> v x = (g, shape)) ->
  forall es,
    painted (fun x => x ∈ l) v es
      (foldl (fun es2 edge => alter (set_group_shape g shape) edge es2) es l).
Proof.
  induction l as [|x0 l IH]; intros Hv es; simpl.
  - apply (painted_equiv (fun _ => False)); [|apply painted_refl].
    intros x. split; [done|]. intros H. by apply elem_of_nil in H.
  - apply (painted_equiv (fun x => x = x0 \/ x ∈ l)).
    + intros x. by rewrite elem_of_cons.
    + eapply painted_trans.
      * apply painted_alter, Hv. by left.
      * apply IH. intros x Hx. apply Hv. by right.
Qed.

Section Paint.

Variable so : list nat -> list nat.
Hypothesis so_perm : forall l, Permutation (so l) l.

Lemma assign_group_group_painted v (groups : gmap nat (list nat)) (ggsh : gmap nat Shape)
    gg gs es es' :
  (exists shape, ggsh !! gg = Some shape /\
     forall g grp x, g ∈ gs -> groups !! g = Some grp -> x ∈ grp ->
                     v x = (Z.of_nat (gg / 2), shape)) ->
  assign_group_group so groups ggsh (gg, gs) es = Some es' ->
  painted (fun x => exists g grp, g ∈ gs /\ groups !! g = Some grp /\ x ∈ grp) v es es'.
Proof.
  intros (shape & Hsh & Hv) H. unfold assign_group_group in H. rewrite Hsh in H.
  cbn [mbind option_bind] in H.
  apply (painted_equiv
           (fun x => exists g grp, g ∈ [] ++ so gs /\ groups !! g = Some grp /\ x ∈ grp)).
  { intros x. simpl. split; intros (g & grp & Hg & Hgr & Hx); exists g, grp;
      rewrite (elem_of_so so so_perm) in *; done. }
  apply (for_each_run
           (fun done es1 =>
              (forall g, g ∈ done -> g ∈ gs) /\
              painted (fun x => exists g grp, g ∈ done /\ groups !! g = Some grp /\ x ∈ grp)
                      v es es1) _ (so gs) [] es es' H).
  - split; [intros g Hg; by apply elem_of_nil in Hg|].
    apply (painted_equiv (fun _ => False)); [|apply painted_refl].
    intros x. split; [done|]. intros (g & _ & Hg & _). by apply elem_of_nil in Hg.
  - intros done' g rest' s1 s2 Eq [Hd HI] Hs.
    assert (g ∈ gs) as Hg.
    { apply (elem_of_so so so_perm). simpl in Eq. rewrite Eq. apply elem_of_app. right. by left. }
    split.
    { intros g0 [?| ->%list_elem_of_singleton]%elem_of_app; auto. }
    destruct (groups !! g) as [grp|] eqn:Eg; [|done]. simpl in Hs. injection Hs as <-.
    apply (painted_equiv
             (fun x => (exists g0 grp0, g0 ∈ done' /\ groups !! g0 = Some grp0 /\ x ∈ grp0) \/
                       x ∈ so grp)).
    + intros x. split.
      * intros [(g0 & grp0 & Hd0 & Hg0 & Hx)|Hx].
        -- exists g0, grp0. split_and!; try done. apply elem_of_app. by left.
        -- exists g, grp. split_and!; try done; [apply elem_of_app; right; by left|].
           by rewrite (elem_of_so so so_perm) in Hx.
      * intros (g0 & grp0 & [Hd0| ->%list_elem_of_singleton]%elem_of_app & Hg0 & Hx).
        -- left. by exists g0, grp0.
        -- right. rewrite (elem_of_so so so_perm). congruence.
    + eapply painted_trans; [exact HI|]. apply painted_foldl.
      intros x Hx. rewrite (elem_of_so so so_perm) in Hx. by apply (Hv g grp).
Qed.

Lemma assign_loop_painted v (groups : gmap nat (list nat)) (ggsh : gmap nat Shape) ggs es es' :
  (forall gg gs, (gg, gs) ∈ ggs ->
     exists shape, ggsh !! gg = Some shape /\
       forall g grp x, g ∈ gs -> groups !! g = Some grp -> x ∈ grp ->
                       v x = (Z.of_nat (gg / 2), shape)) ->
  for_each ggs (assign_group_group so groups ggsh) es = Some es' ->
  painted (fun x => exists gg gs g grp,
                      (gg, gs) ∈ ggs /\ g ∈ gs /\ groups !! g = Some grp /\ x ∈ grp)
          v es es'.
Proof.
  intros Hsh H.
  apply (painted_equiv
           (fun x => exists gg gs g grp,
                       (gg, gs) ∈ [] ++ ggs /\ g ∈ gs /\ groups !! g = Some grp /\ x ∈ grp));
    [done|].
  apply (for_each_run
           (fun done es1 =>
              painted (fun x => exists gg gs g grp,
                         (gg, gs) ∈ done /\ g ∈ gs /\ groups !! g = Some grp /\ x ∈ grp)
                      v es es1) _ ggs [] es es' H).
  - apply (painted_equiv (fun _ => False)); [|apply painted_refl].
    intros x. split; [done|]. intros (gg & gs & _ & _ & Hg & _). by apply elem_of_nil in Hg.
  - intros done' [gg gs] rest' s1 s2 Eq HI Hs.
    apply (assign_group_group_painted v) in Hs.
    2:{ apply (Hsh gg gs). simpl in Eq. rewrite Eq. apply elem_of_app. right. by left. }
    apply (painted_equiv
             (fun x => (exists gg0 gs0 g grp, (gg0, gs0) ∈ done' /\ g ∈ gs0 /\
                                             groups !! g = Some grp /\ x ∈ grp) \/
                       (exists g grp, g ∈ gs /\ groups !! g = Some grp /\ x ∈ grp))).
    + intros x. split.
      * intros [(gg0 & gs0 & g & grp & Hd & Hrest)|(g & grp & Hrest)].
        -- exists gg0, gs0, g, grp. split; [apply elem_of_app; by left|done].
        -- exists gg, gs, g, grp. split; [apply elem_of_app; right; by left|done].
      * intros (gg0 & gs0 & g & grp & [Hd|[= -> ->]%list_elem_of_singleton]%elem_of_app & Hr).
        -- left. by exists gg0, gs0, g, grp.
        -- right. by exists g, grp.
    + by eapply painted_trans.
Qed.

End Paint.

Section TwoColours.

Variable so : list nat -> list nat.
Hypothesis so_perm : forall l, Permutation (so l) l.
Variable b : Board.
Variable P : nat -> nat -> Prop.
Hypothesis conn_sym : forall x y, conn (edges b) x y -> conn (edges b) y x.
Hypothesis conn_irr : forall x, ~ conn (edges b) x x.
Hypothesis P_sym : forall x y, P x y -> P y x.
Hypothesis P_fun : forall x y z, P x y -> P x z -> y = z.
Hypothesis P_irr : forall x, ~ P x x.
Hypothesis P_conn : forall x a, P x a -> exists s, conn (edges b) x s.
Hypothesis merge_turned :
  forall x y, merge_rel (edges b) x y <-> turned (conn (edges b)) P x y.

(** Group collapse on a board whose merge sets come from two pairings of
    its connected edges: the two edges of a connection get one group id
    and the two shapes [Knob] and [Socket], edges that merge get the same
    group and shape, and an edge with no connection is left alone. *)
Lemma collapse_edges_two_colours r b' :
  collapse_edges so b = Some (r, b') ->
  exists v : nat -> Z * Shape,
    (forall x e, edges b !! x = Some e -> e_connection e <> None ->
       edges b' !! x = Some (set_group_shape (v x).1 (v x).2 e)) /\
    (forall x e, edges b !! x = Some e -> e_connection e = None -> edges b' !! x = Some e) /\
    (forall x y, conn (edges b) x y ->
       exists n : nat, (v x).1 = Z.of_nat n /\ (v y).1 = Z.of_nat n /\
         (((v x).2 = Knob /\ (v y).2 = Socket) \/ ((v x).2 = Socket /\ (v y).2 = Knob))) /\
    (forall x y, merge_rel (edges b) x y -> v x = v y).
Proof.
  intros H. pose proof (collapse_edges_true so b r b' H) as ->.
  unfold collapse_edges in H.
  destruct (for_each _ (group_step so (edges b)) _) as [[egm groups]|] eqn:E1; [|done].
  cbn [mbind option_bind] in H.
  destruct (for_each _ (connection_step egm) _) as [gconn|] eqn:E2; [|done].
  cbn [mbind option_bind] in H.
  destruct (for_in _ (colour_step so gconn) _) as [[[] [[ggm ggs] ggsh]]|] eqn:E3;
    [|done..].
  cbn [mbind option_bind] in H.
  destruct (for_each ggs _ _) as [es'|] eqn:E4; [|done].
  cbn [mbind option_bind] in H. injection H as <-. simpl.
  assert (forall x y, merge_rel (edges b) x y -> merge_rel (edges b) y x) as merge_sym.
  { intros x y Hm. by apply merge_turned, turned_sym, merge_turned. }
  destruct (group_loop_classes so so_perm (edges b) merge_sym egm groups E1)
    as (Ga & Gb & Gc & Gd & Ge).
  assert (forall x y, conn (edges b) x y -> is_Some (egm !! x)) as egm_all.
  { intros x y (e & He & Hc). apply (Ga x e He). congruence. }
  destruct (connection_loop_paired (edges b) P conn_sym conn_irr P_sym P_fun P_irr P_conn
              merge_turned egm egm_all Gb Gc gconn E2) as (Hnd & Hpaired & Hkey).
  destruct (colour_loop_pairs so so_perm gconn _ Hpaired E3) as (Q1 & _ & Q3 & Q4).
  simpl in Q1, Q3, Q4.
  set (v := colour_of egm ggm).
  assert (forall x g gg, egm !! x = Some g -> ggm !! g = Some gg ->
            v x = (Z.of_nat (gg / 2), if Nat.even gg then Knob else Socket)) as Hv.
  { intros x g gg Hx Hg. unfold v, colour_of. rewrite Hx. simpl. by rewrite Hg. }
  pose proof (assign_loop_painted so so_perm v groups ggsh ggs (edges b) es') as Hpaint.
  specialize (Hpaint ltac:(
    intros gg gs Hin; destruct (Q4 gg gs Hin) as (g0 & -> & Hg0);
    destruct (Q3 g0 gg Hg0) as (_ & Hsh & _);
    eexists; split; [exact Hsh|];
    intros g grp x ->%list_elem_of_singleton Hgrp Hx;
    apply (Hv x g0 gg); [by apply (Gd g0 grp)|done]) E4).
  assert (forall x y, conn (edges b) x y ->
            exists g g' gg, egm !! x = Some g /\ egm !! y = Some g' /\
                            Py.dict_get g gconn = Some [g'] /\ ggm !! g = Some gg) as Hcol.
  { intros x y Hxy. destruct (Hkey x y Hxy) as (g & g' & Hg & Hg' & Hget).
    destruct (Q1 g) as [gg Hgg].
    { apply (key_of_entry g [g']). by apply dict_get_Some_elem. }
    by exists g, g', gg. }
  exists v. split_and!.
  - intros x e Hx Hc. destruct (e_connection e) as [y|] eqn:Ey; [|done].
    destruct (Hcol x y) as (g & g' & gg & Hg & _ & _ & Hgg); [by exists e|].
    destruct (Ge x g Hg) as (grp & Hgrp & Hin).
    destruct (Q3 g gg Hgg) as (Hggs & _).
    destruct (Hpaint x e Hx) as (e' & -> & Ht & _). f_equal. apply Ht.
    exists gg, [g], g, grp. split_and!; try done. by left.
  - intros x e Hx Hc. destruct (Hpaint x e Hx) as (e' & -> & _ & _ & Hn). f_equal.
    apply Hn. intros (gg & gs & g & grp & _ & _ & Hgrp & Hin).
    assert (groups_within (fun x => exists s, conn (edges b) x s) (egm, groups)) as HW.
    { apply (group_loop_within so so_perm _ (edges b)); [| |done].
      - intros x0 e0 y0 Hx0 _ Hy0.
        apply (turned_conn (edges b) P conn_sym P_conn x0 y0), merge_turned. by exists e0.
      - intros x0 e0 Hx0 Hc0. destruct (e_connection e0) as [s|] eqn:Es; [|done].
        exists s. by exists e0. }
    destruct (HW g grp x Hgrp Hin) as (s & e0 & He0 & Hs). congruence.
  - intros x y Hxy. destruct (Hcol x y Hxy) as (g & g' & gg & Hg & Hg' & Hget & Hgg).
    destruct (Q3 g gg Hgg) as (_ & _ & g2 & gg2 & Hget2 & Hgg2 & Hdiv & Hev).
    assert (g2 = g') as -> by congruence.
    rewrite (Hv x g gg Hg Hgg), (Hv y g' gg2 Hg' Hgg2). cbn [fst snd].
    exists (gg / 2)%nat. split_and!; [done|f_equal; first [exact Hdiv|exact (eq_sym Hdiv)]|].
    rewrite Hev. destruct (Nat.even gg); cbn [negb]; [by left|by right].
  - intros x y Hm.
    assert (exists s, conn (edges b) x s) as [s Hs].
    { apply (turned_conn (edges b) P conn_sym P_conn y x), merge_turned. by apply merge_sym. }
    destruct (egm_all x s Hs) as [g Hg].
    pose proof (Gc x y g Hg (rtc_once _ _ Hm)) as Hg'.
    unfold v, colour_of. by rewrite Hg, Hg'.
Qed.

End TwoColours.

(** ** Two colours on the board of the generation loop *)

Lemma conn_same (es1 es2 : list Edge) x y :
  map e_connection es1 = map e_connection es2 -> conn es1 x y -> conn es2 x y.
Proof.
  intros E (e & He & Hc).
  destruct (same_connections_lookup es1 es2 x e E He) as (e2 & H2 & Ec).
  exists e2. split; [done|congruence].
Qed.

Lemma across_sym b x a : across b x a -> across b a x.
Proof.
  intros (pos & d & Hi & Hi' & Ex & Ea).
  exists (step pos d), (inverse d). by rewrite step_back, inverse_inverse.
Qed.

Section Pipeline.

Variables (w h : Z) (rnd : Random) (b b1 b2 : Board).
Hypothesis Hw : 1 < w.
Hypothesis Hh : 1 < h.
Hypothesis Hf : fair rnd.
Hypothesis Hb : connected_board w h = Some b.
Hypothesis Hs : shuffle rnd b = Some b1.
Hypothesis Hm : merge_edges b1 = Some b2.

Lemma pipeline_connections :
  map e_connection (edges b2) = map e_connection (edges b) /\
  map e_connection (edges b2) = map e_connection (edges b1).
Proof.
  destruct (shuffled_board_shuffling w h rnd b b1 Hw Hh Hf Hb Hs) as [_ (_ & _ & Ee & _)].
  destruct (merge_edges_pipeline w h rnd b b1 Hw Hh Hf Hb Hs)
    as (b2' & E & (_ & _ & _ & Hc & _) & _).
  assert (b2' = b2) as -> by congruence. split; [|done]. by rewrite Hc, Ee.
Qed.

Lemma pipeline_conn_sym x y : conn (edges b2) x y -> conn (edges b2) y x.
Proof.
  destruct pipeline_connections as [E _].
  destruct (shuffled_board_shuffling w h rnd b b1 Hw Hh Hf Hb Hs) as [HC _].
  intros (e & He & Hc)%(conn_same _ (edges b)); [|done].
  destruct (connected_symmetric w h b x e y ltac:(lia) HC He Hc) as (e' & He' & Hc').
  apply (conn_same (edges b)); [done|]. by exists e'.
Qed.

Lemma pipeline_conn_irr x : ~ conn (edges b2) x x.
Proof.
  destruct pipeline_connections as [E _].
  destruct (shuffled_board_shuffling w h rnd b b1 Hw Hh Hf Hb Hs)
    as [(_ & _ & _ & _ & He & _) _].
  intros (e & Hx & Hc)%(conn_same _ (edges b)); [|done].
  destruct (He x e Hx) as [_ [Hn|(pos & d & Hi & Hi' & -> & Ec)]]; [congruence|].
  rewrite Ec in Hc. injection Hc as Hc.
  destruct (slotn_inj w h _ _ _ _ Hi' Hi Hc) as [Hp _]. by apply step_neq in Hp.
Qed.

Lemma across_fun x y z : across b1 x y -> across b1 x z -> y = z.
Proof.
  intros (pos & d & Hi & Hi' & Ex & Ea) (pos' & d' & Hj & Hj' & Ex' & Ea').
  destruct (shuffled_slot_inj w h rnd b b1 pos d pos' d' Hw Hh Hf Hb Hs Hi Hj) as [<- <-];
    [by rewrite Ex, Ex'|].
  rewrite Ea in Ea'. injection Ea'. lia.
Qed.

Lemma across_irr x : ~ across b1 x x.
Proof.
  intros (pos & d & Hi & Hi' & Ex & Ea).
  destruct (shuffled_slot_inj w h rnd b b1 pos d (step pos d) (inverse d)
              Hw Hh Hf Hb Hs Hi Hi') as [Hp _]; [by rewrite Ex, Ea|].
  symmetry in Hp. by apply step_neq in Hp.
Qed.

Lemma across_conn x a : across b1 x a -> exists s, conn (edges b2) x s.
Proof.
  intros (pos & d & Hi & Hi' & Ex & Ea).
  destruct pipeline_connections as [_ E].
  destruct (shuffled_board_facts w h rnd b b1 Hw Hh Hf Hb Hs) as (HS & Hlen & _).
  pose proof HS as (Ew & Eh & _).
  apply in_bounds_inside in Hi, Hi'. rewrite Ew, Eh in Hi, Hi'.
  destruct (shuffled_slot_nat w h _ b1 pos d HS Hlen Hi) as (x' & Ex' & Lx).
  assert (x' = x) as -> by (rewrite Ex in Ex'; injection Ex'; lia).
  destruct (facing_connected w h _ b1 pos d x HS Hi Hi' Ex Lx) as (e & He & Hn).
  destruct (e_connection e) as [s|] eqn:Es; [|done].
  exists s. apply (conn_same (edges b1)); [done|]. by exists e.
Qed.

Lemma turn_seam x y :
  turn (conn (edges b2)) (across b1) x y <->
  exists pos d, (pos, d) ∈ rounds w h /\ inside w h (step pos d) /\ seam b1 pos d x y.
Proof.
  destruct pipeline_connections as [_ E].
  destruct (shuffled_board_facts w h rnd b b1 Hw Hh Hf Hb Hs) as ((Ew & Eh & _) & _).
  split.
  - intros (a & (pos & d & Hi & Hi' & Ex & Ea) & Hc).
    apply (conn_same _ (edges b1)) in Hc as (ea & Hea & Hc); [|done].
    apply in_bounds_inside in Hi, Hi'. rewrite Ew, Eh in Hi, Hi'.
    exists pos, d. split_and!; [by apply elem_of_rounds|done|].
    split; [done|]. by exists a, ea.
  - intros (pos & d & Hi & Hi' & Ex & a & ea & Ea & Hea & Hc).
    apply elem_of_rounds in Hi.
    exists a. split.
    + exists pos, d. rewrite !in_bounds_inside, Ew, Eh. done.
    + apply (conn_same (edges b1)); [done|]. by exists ea.
Qed.

Lemma pipeline_merge_turned x y :
  merge_rel (edges b2) x y <-> turned (conn (edges b2)) (across b1) x y.
Proof.
  destruct (merge_edges_pipeline w h rnd b b1 Hw Hh Hf Hb Hs) as (b2' & E & _ & Hrel).
  assert (b2' = b2) as -> by congruence.
  rewrite Hrel. unfold turned. rewrite !turn_seam. split.
  - intros (pos & d & Hd & Hi & [H|H]); [left|right]; by exists pos, d.
  - intros [(pos & d & Hd & Hi & H)|(pos & d & Hd & Hi & H)]; exists pos, d; tauto.
Qed.

End Pipeline.

(** What group collapse leaves on the board of the pipeline. *)
Lemma pipeline_colours so w h rnd b b1 b2 r b3 :
  1 < w -> 1 < h -> fair rnd -> (forall l, Permutation (so l) l) ->
  connected_board w h = Some b -> shuffle rnd b = Some b1 -> merge_edges b1 = Some b2 ->
  collapse_edges so b2 = Some (r, b3) ->
  width b3 = w /\ height b3 = h /\ pieces b3 = pieces b1 /\
  map e_connection (edges b3) = map e_connection (edges b) /\
  (forall x y, conn (edges b) x y -> fits (edges b3) x y) /\
  (forall x a, across b1 x a -> fits (edges b3) x a) /\
  (forall x e, edges b !! x = Some e -> e_connection e = None ->
     exists e3, edges b3 !! x = Some e3 /\ e_shape e3 = Flat /\ e_group e3 = None).
Proof.
  intros Hw Hh Hf Hso Hb Hs Hm Hc.
  destruct (shuffled_board_facts w h rnd b b1 Hw Hh Hf Hb Hs) as (HS & Hlen & _ & Hplain).
  pose proof HS as (Ew & Eh & _).
  destruct (shuffled_board_shuffling w h rnd b b1 Hw Hh Hf Hb Hs) as [_ (_ & _ & Ee & _)].
  destruct (merge_edges_pipeline w h rnd b b1 Hw Hh Hf Hb Hs)
    as (b2' & E & (W2 & H2 & P2 & C2 & _ & F2) & _).
  assert (b2' = b2) as -> by congruence.
  destruct (collapse_edges_assigned so Hso b2 r b3 Hc) as (_ & W3 & H3 & P3 & _ & (C3 & _) & _).
  destruct (pipeline_connections w h rnd b b1 b2 Hw Hh Hf Hb Hs Hm) as [Cb _].
  pose proof (pipeline_conn_sym w h rnd b b1 b2 Hw Hh Hf Hb Hs Hm) as Ssym.
  pose proof (across_conn w h rnd b b1 b2 Hw Hh Hf Hb Hs Hm) as Pconn.
  pose proof (pipeline_merge_turned w h rnd b b1 b2 Hw Hh Hf Hb Hs Hm) as Hturn.
  destruct (collapse_edges_two_colours so Hso b2 (across b1) Ssym
              (pipeline_conn_irr w h rnd b b1 b2 Hw Hh Hf Hb Hs Hm)
              (across_sym b1)
              (across_fun w h rnd b b1 Hw Hh Hf Hb Hs)
              (across_irr w h rnd b b1 Hw Hh Hf Hb Hs)
              Pconn Hturn r b3 Hc) as (v & HA & HB & HC & HD).
  assert (forall x y, conn (edges b2) x y ->
            exists ex ey (n : nat),
              edges b3 !! x = Some ex /\ edges b3 !! y = Some ey /\
              e_group ex = Some (v x).1 /\ e_shape ex = (v x).2 /\
              e_group ey = Some (v y).1 /\ e_shape ey = (v y).2 /\
              (v x).1 = Z.of_nat n /\ (v y).1 = Z.of_nat n /\
              (((v x).2 = Knob /\ (v y).2 = Socket) \/
               ((v x).2 = Socket /\ (v y).2 = Knob))) as Hpair.
  { intros x y Hxy. pose proof (Ssym x y Hxy) as Hyx.
    destruct Hxy as (ex & Hx & Cx). destruct Hyx as (ey & Hy & Cy).
    destruct (HC x y) as (n & Hn & Hn' & Hsh); [by exists ex|].
    exists (set_group_shape (v x).1 (v x).2 ex), (set_group_shape (v y).1 (v y).2 ey), n.
    split_and!; try done.
    - apply (HA x ex Hx). congruence.
    - apply (HA y ey Hy). congruence. }
  split_and!.
  - by rewrite W3, W2.
  - by rewrite H3, H2.
  - by rewrite P3, P2.
  - by rewrite C3.
  - intros x y Hxy. apply (conn_same _ (edges b2)) in Hxy; [|done].
    destruct (Hpair x y Hxy) as (ex & ey & n & Ex & Ey & Gx & Sx & Gy & Sy & Nx & Ny & Hsh).
    exists ex, ey, n. rewrite Gx, Gy, Sx, Sy, Nx, Ny. done.
  - intros x a Hxa.
    destruct (Pconn a x (across_sym _ _ _ Hxa)) as [s Has].
    assert (v x = v s) as Hv by (apply HD, Hturn; left; by exists a).
    destruct (Pconn x a Hxa) as [t Hxt].
    destruct (Hpair x t Hxt) as (ex & _ & _ & Ex3 & _ & Gx & Sx & _).
    destruct (Hpair a s Has) as (ea & _ & n & Ea3 & _ & Ga & Sa & _ & _ & Na & Ns & Hsh).
    exists ex, ea, n. rewrite Gx, Sx, Ga, Sa, Hv, Na, Ns. split_and!; try done. tauto.
  - intros x e Hx Hn. rewrite <- Ee in Hx.
    destruct (same_connections_lookup (edges b1) (edges b2) x e) as (e2 & Hx2 & Ec2);
      [done|done|].
    exists e2. split; [apply (HB x e2 Hx2); congruence|].
    assert (map face (edges b2) !! x = map face (edges b1) !! x) as Hl by (by rewrite F2).
    change (map ?f ?l) with (f <$> l) in Hl. rewrite !list_lookup_fmap, Hx2, Hx in Hl.
    unfold face in Hl. simpl in Hl. injection Hl as Eg Es.
    destruct (Hplain x e Hx) as (Hg & Hsh & _). split; congruence.
Qed.

Lemma attempt_stages so w h rnd a :
  attempt so w h rnd = Some a ->
  exists b b1 b2 r,
    connected_board w h = Some b /\ shuffle rnd b = Some b1 /\ merge_edges b1 = Some b2 /\
    collapse_edges so b2 = Some (r, attempt_board a).
Proof.
  intros Ha. rewrite attempt_merged_board in Ha. unfold merged_board in Ha.
  destruct (connected_board w h) as [b|] eqn:Hb; [|done]. cbn [mbind option_bind] in Ha.
  destruct (shuffle rnd b) as [b1|] eqn:Hs; [|done]. cbn [mbind option_bind] in Ha.
  destruct (merge_edges b1) as [b2|] eqn:Hm; [|done]. cbn [mbind option_bind] in Ha.
  destruct (collapse_edges so b2) as [[r b3]|] eqn:Hc; [|done]. cbn [mbind option_bind] in Ha.
  injection Ha as <-. by exists b, b1, b2, r.
Qed.

Lemma final_seams_fit so w h rnd a :
  1 < w -> 1 < h -> fair rnd -> (forall l, Permutation (so l) l) ->
  attempt so w h rnd = Some a -> seams_fit (attempt_board a).
Proof.
  intros Hw Hh Hf Hso Ha.
  destruct (attempt_stages so w h rnd a Ha) as (b & b1 & b2 & r & Hb & Hs & Hm & Hc).
  set (b3 := attempt_board a) in *.
  destruct (pipeline_colours so w h rnd b b1 b2 r b3 Hw Hh Hf Hso Hb Hs Hm Hc)
    as (W3 & H3 & P3 & C3 & _ & Hacross & Hflat).
  destruct (shuffled_board_facts w h rnd b b1 Hw Hh Hf Hb Hs) as (HS & Hlen & _).
  pose proof HS as (Ew & Eh & _ & _ & Hfacing & _).
  destruct (shuffled_board_shuffling w h rnd b b1 Hw Hh Hf Hb Hs) as [_ (_ & _ & Ee & _)].
  intros pos d Hin.
  assert (forall p, in_bounds b3 p = in_bounds b1 p) as Hib.
  { intros p. unfold in_bounds. by rewrite W3, H3, Ew, Eh. }
  assert (forall p q, get_edge_index b3 p q = get_edge_index b1 p q) as Hge.
  { intros p q. apply get_edge_index_same; [by rewrite W3, Ew|done]. }
  rewrite Hib in Hin. rewrite Hib, !Hge.
  pose proof Hin as Hi. apply in_bounds_inside in Hi. rewrite Ew, Eh in Hi.
  destruct (shuffled_slot_nat w h _ b1 pos d HS Hlen Hi) as (x & Ex & Lx).
  exists x. split; [done|].
  destruct (in_bounds b1 (step pos d)) eqn:Hin'.
  - pose proof Hin' as Hi'. apply in_bounds_inside in Hi'. rewrite Ew, Eh in Hi'.
    destruct (shuffled_slot_nat w h _ b1 (step pos d) (inverse d) HS Hlen Hi')
      as (a' & Ea & La).
    exists a'. split; [done|]. apply Hacross. by exists pos, d.
  - destruct (lookup_lt_is_Some_2 (edges b1) x Lx) as [e1 H1].
    pose proof (Hfacing pos d) as U. rewrite Ew, Eh in U. specialize (U Hi).
    unfold unconnected in U. rewrite Ex in U. simpl in U. rewrite get_nat in U by done.
    rewrite H1, Hin' in U. simpl in U. injection U as U.
    apply bool_decide_eq_true in U. rewrite Ee in H1.
    by apply (Hflat x e1).
Qed.

Lemma initial_seams_fit so w h rnd a v :
  1 < w -> 1 < h -> fair rnd -> (forall l, Permutation (so l) l) ->
  attempt so w h rnd = Some a -> initial_view (attempt_board a) = Some v ->
  edges v = edges (attempt_board a) /\ seams_fit v.
Proof.
  intros Hw Hh Hf Hso Ha Hv.
  destruct (attempt_stages so w h rnd a Ha) as (b & b1 & b2 & r & Hb & Hs & Hm & Hc).
  set (b3 := attempt_board a) in *.
  destruct (pipeline_colours so w h rnd b b1 b2 r b3 Hw Hh Hf Hso Hb Hs Hm Hc)
    as (W3 & H3 & P3 & C3 & Hconn & _ & Hflat).
  destruct (shuffled_board_shuffling w h rnd b b1 Hw Hh Hf Hb Hs) as [HC _].
  unfold initial_view in Hv. rewrite W3, H3, new_board_spec in Hv by done.
  injection Hv as <-. split; [done|].
  change (mkBoard w h ?ps _) with (mkBoard w h (grid_pieces w h) (replicate (Z.to_nat (4 * (w * h))) new_edge)).
  set (v := with_pieces b3 _). intros pos d Hin.
  assert (width v = w /\ height v = h) as [Wv Hv] by done.
  assert (forall p, in_bounds v p = true <-> inside w h p) as Hib.
  { intros p. by rewrite in_bounds_inside, Wv, Hv. }
  assert (forall p q, inside w h p ->
            get_edge_index v p q = Some (Z.of_nat (slotn w h p q))) as Hge.
  { intros p q Hp. pose proof (get_edge_index_solved v p q) as G.
    rewrite Wv, Hv in G. rewrite G by done.
    pose proof (slot_range w h p q Hp). unfold slotn. f_equal. lia. }
  apply Hib in Hin.
  destruct (connected_slot w h b pos d HC Hin) as (e0 & _ & _ & E0 & Hnone & Hsome).
  change (edges v) with (edges b3).
  exists (slotn w h pos d). split; [by apply Hge|].
  destruct (in_bounds v (step pos d)) eqn:Hin'.
  - apply Hib in Hin'.
    exists (slotn w h (step pos d) (inverse d)). split; [by apply Hge|].
    apply Hconn. exists e0. split; [done|by apply Hsome].
  - assert (~ inside w h (step pos d)) as Hout.
    { intros Hi. apply Hib in Hi. congruence. }
    apply (Hflat _ e0 E0). by apply Hnone.
Qed.

Lemma initial_view_runs b w h :
  1 < w -> 1 < h -> width b = w -> height b = h -> exists v, initial_view b = Some v.
Proof.
  intros Hw Hh <- <-. unfold initial_view. rewrite new_board_spec by done. by eexists.
Qed.

Lemma fits_get es x a :
  fits es x a ->
  exists e e' (n : nat),
    Py.get es (Z.of_nat x) = Some e /\ Py.get es (Z.of_nat a) = Some e' /\
    e_group e = Some (Z.of_nat n) /\ e_group e' = Some (Z.of_nat n) /\
    ((e_shape e = Knob /\ e_shape e' = Socket) \/
     (e_shape e = Socket /\ e_shape e' = Knob)).
Proof.
  intros (ex & ea & n & Ex & Ea & Hfit).
  apply lookup_lt_Some in Ex as Lx. apply lookup_lt_Some in Ea as La.
  exists ex, ea, n. by rewrite !get_nat.
Qed.

(** X19: a round of the generation loop returns, and on the board it ends
    with the knobs and sockets fit.  The two edges of a connection carry
    one group id, one of them is a [Knob] and the other a [Socket]; and so
    do the two slots that face each other across any seam of the shuffled
    arrangement. *)
Theorem attempt_two_colours so w h rnd :
  1 < w -> 1 < h -> fair rnd -> (forall l, Permutation (so l) l) ->
  exists a,
    attempt so w h rnd = Some a /\
    (forall x y e, edges (attempt_board a) !! x = Some e -> e_connection e = Some y ->
       exists e' (n : nat),
         edges (attempt_board a) !! y = Some e' /\
         e_group e = Some (Z.of_nat n) /\ e_group e' = Some (Z.of_nat n) /\
         ((e_shape e = Knob /\ e_shape e' = Socket) \/
          (e_shape e = Socket /\ e_shape e' = Knob))) /\
    (forall pos d,
       in_bounds (attempt_board a) pos = true ->
       in_bounds (attempt_board a) (step pos d) = true ->
       exists k k' e e' (n : nat),
         get_edge_index (attempt_board a) pos d = Some k /\
         get_edge_index (attempt_board a) (step pos d) (inverse d) = Some k' /\
         Py.get (edges (attempt_board a)) k = Some e /\
         Py.get (edges (attempt_board a)) k' = Some e' /\
         e_group e = Some (Z.of_nat n) /\ e_group e' = Some (Z.of_nat n) /\
         ((e_shape e = Knob /\ e_shape e' = Socket) \/
          (e_shape e = Socket /\ e_shape e' = Knob))).
Proof.
  intros Hw Hh Hf Hso.
  destruct (attempt_runs so w h rnd Hw Hh Hf Hso) as [a Ha]. exists a. split; [done|].
  pose proof (final_seams_fit so w h rnd a Hw Hh Hf Hso Ha) as Hseams.
  destruct (attempt_stages so w h rnd a Ha) as (b & b1 & b2 & r & Hb & Hs & Hm & Hc).
  set (b3 := attempt_board a) in *.
  destruct (pipeline_colours so w h rnd b b1 b2 r b3 Hw Hh Hf Hso Hb Hs Hm Hc)
    as (_ & _ & _ & C3 & Hconn & _).
  split.
  - intros x y e Hx Hy.
    destruct (Hconn x y) as (ex & ey & n & Ex & Ey & Hfit).
    { apply (conn_same (edges b3)); [done|]. by exists e. }
    assert (ex = e) as -> by congruence. by exists ey, n.
  - intros pos d Hin Hin'.
    destruct (Hseams pos d Hin) as (x & Ex & Hx). rewrite Hin' in Hx.
    destruct Hx as (a' & Ea & Hfit).
    destruct (fits_get _ _ _ Hfit) as (e & e' & n & Hfit').
    by exists (Z.of_nat x), (Z.of_nat a'), e, e', n.
Qed.

(** X20: the view [main] prints first, the accepted edges under the pieces
    of a fresh board, is a jigsaw that fits: a round of the generation
    loop returns, the view of its board is built, and at every cell of
    the view the slot shown towards a neighbour and the slot the
    neighbour shows back carry one group id, one a [Knob] and the other a
    [Socket], while the slot shown out of the grid is [Flat] with no
    group. *)
Theorem initial_view_fits so w h rnd :
  1 < w -> 1 < h -> fair rnd -> (forall l, Permutation (so l) l) ->
  exists a v,
    attempt so w h rnd = Some a /\ initial_view (attempt_board a) = Some v /\
    edges v = edges (attempt_board a) /\
    forall pos d, in_bounds v pos = true ->
      exists k e,
        get_edge_index v pos d = Some k /\ Py.get (edges v) k = Some e /\
        if in_bounds v (step pos d)
        then exists k' e' (n : nat),
               get_edge_index v (step pos d) (inverse d) = Some k' /\
               Py.get (edges v) k' = Some e' /\
               e_group e = Some (Z.of_nat n) /\ e_group e' = Some (Z.of_nat n) /\
               ((e_shape e = Knob /\ e_shape e' = Socket) \/
                (e_shape e = Socket /\ e_shape e' = Knob))
        else e_shape e = Flat /\ e_group e = None.
Proof.
  intros Hw Hh Hf Hso.
  destruct (attempt_runs so w h rnd Hw Hh Hf Hso) as [a Ha].
  destruct (attempt_stages so w h rnd a Ha) as (b & b1 & b2 & r & Hb & Hs & Hm & Hc).
  destruct (pipeline_colours so w h rnd b b1 b2 r _ Hw Hh Hf Hso Hb Hs Hm Hc)
    as (W3 & H3 & _).
  destruct (initial_view_runs (attempt_board a) w h Hw Hh W3 H3) as [v Hv].
  destruct (initial_seams_fit so w h rnd a v Hw Hh Hf Hso Ha Hv) as [He Hseams].
  exists a, v. split_and!; try done.
  intros pos d Hin. destruct (Hseams pos d Hin) as (x & Ex & Hx).
  destruct (in_bounds v (step pos d)).
  - destruct Hx as (a' & Ea & Hfit).
    destruct (fits_get _ _ _ Hfit) as (e & e' & n & Ge & Ge' & Hfit').
    exists (Z.of_nat x), e. split_and!; try done. by exists (Z.of_nat a'), e', n.
  - destruct Hx as (e & He' & Hflat). apply lookup_lt_Some in He' as Lx.
    exists (Z.of_nat x), e. by rewrite get_nat.
Qed.

(** ** [connect_pieces] and the rotations of the constructor *)

(** X21: [connect_pieces] raises when the two positions are not adjacent,
    whatever the board; when the second is the step from the first in a
    direction, it connects the slot the first shows in that direction to
    the slot the second shows in the inverse direction, so the branch
    marked unreachable is never taken. *)
Theorem connect_pieces_direction b a c :
  (is_adjacent a c = false -> connect_pieces b a c = None) /\
  (forall d, c = step a d ->
     connect_pieces b a c =
     from_edge_index ← get_edge_index b a d;
     to_edge_index ← get_edge_index b c (inverse d);
     connect_edges b from_edge_index to_edge_index).
Proof.
  split.
  - intros H. unfold connect_pieces. by rewrite H.
  - intros d ->. destruct a as [i j]. unfold connect_pieces, is_adjacent, step.
    destruct d; cbn [delta inverse fst snd].
    + replace (Z.abs (i - (i + -1)) + Z.abs (j - (j + 0)) =? 1) with true
        by (symmetry; apply Z.eqb_eq; lia).
      replace (i <? i + -1) with false by (symmetry; apply Z.ltb_ge; lia).
      replace (i + -1 <? i) with true by (symmetry; apply Z.ltb_lt; lia). done.
    + replace (Z.abs (i - (i + 0)) + Z.abs (j - (j + 1)) =? 1) with true
        by (symmetry; apply Z.eqb_eq; lia).
      replace (i <? i + 0) with false by (symmetry; apply Z.ltb_ge; lia).
      replace (i + 0 <? i) with false by (symmetry; apply Z.ltb_ge; lia).
      replace (j <? j + 1) with true by (symmetry; apply Z.ltb_lt; lia). done.
    + replace (Z.abs (i - (i + 1)) + Z.abs (j - (j + 0)) =? 1) with true
        by (symmetry; apply Z.eqb_eq; lia).
      replace (i <? i + 1) with true by (symmetry; apply Z.ltb_lt; lia). done.
    + replace (Z.abs (i - (i + 0)) + Z.abs (j - (j + -1)) =? 1) with true
        by (symmetry; apply Z.eqb_eq; lia).
      replace (i <? i + 0) with false by (symmetry; apply Z.ltb_ge; lia).
      replace (i + 0 <? i) with false by (symmetry; apply Z.ltb_ge; lia).
      replace (j <? j + -1) with false by (symmetry; apply Z.ltb_ge; lia).
      replace (j + -1 <? j) with true by (symmetry; apply Z.ltb_lt; lia). done.
Qed.

Lemma border_rotation w h i j d :
  1 < w -> 1 < h -> inside w h (i, j) -> ~ inside w h (step (i, j) d) ->
  ~ ((i = 0 \/ i = h - 1) /\ (j = 0 \/ j = w - 1)) ->
  slot_offset (initial_rotation w h i j) d = 3.
Proof.
  intros Hw Hh [Hi Hj] Hout Hnc. unfold inside, step in Hout. simpl in Hi, Hj.
  unfold initial_rotation.
  destruct (Z.eqb_spec i 0), (Z.eqb_spec j (w - 1)), (Z.eqb_spec i (h - 1));
    destruct d; simpl in Hout; try (exfalso; lia); reflexivity.
Qed.

Lemma corner_rotation w h i j :
  1 < w -> 1 < h -> inside w h (i, j) -> (exists d, ~ inside w h (step (i, j) d)) ->
  exists d, ~ inside w h (step (i, j) d) /\ slot_offset (initial_rotation w h i j) d = 3.
Proof.
  intros Hw Hh [Hi Hj] [d0 Hout]. unfold inside, step in *. simpl in Hi, Hj.
  unfold initial_rotation.
  destruct (Z.eqb_spec i 0); [exists Up; simpl; split; [lia|done]|].
  destruct (Z.eqb_spec j (w - 1)); [exists Right; simpl; split; [lia|done]|].
  destruct (Z.eqb_spec i (h - 1)); [exists Down; simpl; split; [lia|done]|].
  exists Left. split; [|done]. destruct d0; simpl in *; lia.
Qed.

(** X22: the rotations the constructor gives turn the last edge of a piece
    outward.  On [Board(w, h)] a border cell that is not a corner shows
    the edge [piece.edges + 3] in the direction that leads out of the
    grid, and every border cell, corners too, shows that edge in some
    direction that leads out of the grid. *)
Theorem fresh_border_slot w h b0 :
  1 < w -> 1 < h -> new_board w h = Some b0 ->
  forall pos, in_bounds b0 pos = true ->
    exists p,
      Py.get (pieces b0) (get_piece_index b0 pos) = Some p /\
      (forall d, in_bounds b0 (step pos d) = false ->
         ~ ((pos.1 = 0 \/ pos.1 = h - 1) /\ (pos.2 = 0 \/ pos.2 = w - 1)) ->
         get_edge_index b0 pos d = Some (p_edges p + 3)) /\
      ((exists d, in_bounds b0 (step pos d) = false) ->
       exists d, in_bounds b0 (step pos d) = false /\
                 get_edge_index b0 pos d = Some (p_edges p + 3)).
Proof.
  intros Hw Hh Hb [i j] Hin. rewrite new_board_spec in Hb by done. injection Hb as <-.
  set (b0 := mkBoard w h _ _) in *.
  assert (pieces b0 = grid_pieces (width b0) (height b0)) as Hp by done.
  apply in_bounds_inside in Hin. change (inside w h (i, j)) in Hin.
  assert (forall d, get_edge_index b0 (i, j) d =
                    Some (4 * (i * w + j) + slot_offset (initial_rotation w h i j) d)) as Hge.
  { intros d. by rewrite (get_edge_index_solved b0 (i, j) d Hp Hin). }
  exists (mkPiece (i * w + j) (4 * (i * w + j)) (initial_rotation w h i j)). split_and!.
  - unfold get_piece_index. rewrite Hp.
    change (width b0) with w. change (height b0) with h.
    by rewrite (grid_pieces_get w h (i, j) Hin), (piece_at_inside w h (i, j) Hin).
  - intros d Hout Hnc. apply in_bounds_outside in Hout.
    rewrite Hge, (border_rotation w h i j d); done.
  - intros [d0 Hout]. apply in_bounds_outside in Hout.
    destruct (corner_rotation w h i j Hw Hh Hin) as (d & Hd & Ho); [by exists d0|].
    exists d. split; [by apply in_bounds_outside|]. by rewrite Hge, Ho.
Qed.

(** ** What is printed *)

Lemma edge_str_nat b x e :
  edges b !! x = Some e ->
  edge_str b (Z.of_nat x) =
  Some (match e_shape e with
        | Knob => "+" +:+ PyStr.of_group (e_group e)
        | Socket => "-" +:+ PyStr.of_group (e_group e)
        | Flat => ""
        end).
Proof.
  intros Hx. apply lookup_lt_Some in Hx as Lx. unfold edge_str.
  by rewrite get_nat, Hx.
Qed.

Lemma seams_fit_labels v : seams_fit v -> labels_match v.
Proof.
  intros Hfit pos d Hin. destruct (Hfit pos d Hin) as (x & Ex & Hx).
  exists (Z.of_nat x). destruct (in_bounds v (step pos d)).
  - destruct Hx as (a & Ea & ex & ea & n & Hex & Hea & Gx & Ga & Hsh).
    eexists. split; [done|]. split; [by apply edge_str_nat|].
    exists (Z.of_nat a). eexists. exists n. split; [done|].
    split; [by apply edge_str_nat|].
    rewrite Gx, Ga. simpl. destruct Hsh as [[-> ->]|[-> ->]]; [by left|by right].
  - destruct Hx as (e & He & Hs & Hg). exists "". split; [done|]. split; [|done].
    by rewrite (edge_str_nat v x e He), Hs.
Qed.

(** X23: what [main] prints fits.  A round of the generation loop
    returns and the Initial view of its board is built; in the board and
    in the view, at every cell, the label [edge_str] gives the slot
    shown towards a neighbour and the label of the slot the neighbour
    shows back are one number with opposite signs, [+n] and [-n], and
    the slot shown out of the grid has the empty label. *)
Theorem printed_labels_match so w h rnd :
  1 < w -> 1 < h -> fair rnd -> (forall l, Permutation (so l) l) ->
  exists a v,
    attempt so w h rnd = Some a /\ initial_view (attempt_board a) = Some v /\
    labels_match (attempt_board a) /\ labels_match v.
Proof.
  intros Hw Hh Hf Hso.
  destruct (attempt_runs so w h rnd Hw Hh Hf Hso) as [a Ha].
  destruct (attempt_stages so w h rnd a Ha) as (b & b1 & b2 & r & Hb & Hs & Hm & Hc).
  destruct (pipeline_colours so w h rnd b b1 b2 r _ Hw Hh Hf Hso Hb Hs Hm Hc)
    as (W3 & H3 & _).
  destruct (initial_view_runs (attempt_board a) w h Hw Hh W3 H3) as [v Hv].
  exists a, v. split_and!; try done.
  - apply seams_fit_labels. by apply (final_seams_fit so w h rnd).
  - apply seams_fit_labels. by apply (initial_seams_fit so w h rnd a v).
Qed.

(** ** The three lines of a piece *)

Lemma length_append (s t : string) :
  String.length (s +:+ t) = (String.length s + String.length t)%nat.
Proof. induction s as [|c s IH]; simpl; [done|]. by rewrite IH. Qed.

Lemma length_times c n : String.length (PyStr.times c n) = n.
Proof. induction n as [|n IH]; simpl; [done|]. by rewrite IH. Qed.

Lemma length_rjust width s :
  Z.of_nat (String.length (PyStr.rjust width s)) = Z.max width (Z.of_nat (String.length s)).
Proof. unfold PyStr.rjust, PyStr.spaces. rewrite length_append, length_times. lia. Qed.

Lemma length_ljust width s :
  Z.of_nat (String.length (PyStr.ljust width s)) = Z.max width (Z.of_nat (String.length s)).
Proof. unfold PyStr.ljust, PyStr.spaces. rewrite length_append, length_times. lia. Qed.

Lemma nl_free_append s t : nl_free (s +:+ t) = nl_free s && nl_free t.
Proof. induction s as [|c s IH]; simpl; [done|]. by rewrite IH, andb_assoc. Qed.

Lemma nl_free_spaces n : nl_free (PyStr.spaces n) = true.
Proof. unfold PyStr.spaces. induction (Z.to_nat n) as [|k IH]; simpl; done. Qed.

Lemma nl_free_rjust width s : nl_free (PyStr.rjust width s) = nl_free s.
Proof. unfold PyStr.rjust. by rewrite nl_free_append, nl_free_spaces. Qed.

Lemma nl_free_ljust width s : nl_free (PyStr.ljust width s) = nl_free s.
Proof. unfold PyStr.ljust. by rewrite nl_free_append, nl_free_spaces, andb_true_r. Qed.

Lemma nl_free_digits d : nl_free (NilEmpty.string_of_uint d) = true.
Proof. induction d; simpl; done. Qed.

Lemma nl_free_of_int n : nl_free (PyStr.of_int n) = true.
Proof.
  unfold PyStr.of_int, NilZero.string_of_int, NilZero.string_of_uint.
  destruct (Z.to_int n) as [d|d]; destruct d; simpl; try done; apply nl_free_digits.
Qed.

Lemma nl_free_of_group g : nl_free (PyStr.of_group g) = true.
Proof. destruct g; [apply nl_free_of_int|done]. Qed.

Lemma nl_free_edge_str b k s : edge_str b k = Some s -> nl_free s = true.
Proof.
  unfold edge_str. destruct (Py.get (edges b) k) as [e|]; [|done]. simpl.
  intros [= <-]. destruct (e_shape e); simpl; [done|apply nl_free_of_group..].
Qed.

Lemma split_lines_free s : nl_free s = true -> PyStr.split_lines s = [s].
Proof.
  induction s as [|c s IH]; simpl; [done|]. intros [Hc Hs]%andb_true_iff.
  apply negb_true_iff in Hc. rewrite Hc, IH; done.
Qed.

Lemma split_lines_line s r :
  nl_free s = true ->
  PyStr.split_lines (s +:+ PyStr.nl +:+ r) = s :: PyStr.split_lines r.
Proof.
  induction s as [|c s IH]; simpl; [done|]. intros [Hc Hs]%andb_true_iff.
  apply negb_true_iff in Hc. rewrite Hc, IH; done.
Qed.

Lemma mapM_four {A B} (f : A -> option B) a1 a2 a3 a4 :
  mapM f [a1; a2; a3; a4] =
  b1 ← f a1; b2 ← f a2; b3 ← f a3; b4 ← f a4; Some [b1; b2; b3; b4].
Proof.
  simpl. destruct (f a1); [|done]. simpl. destruct (f a2); [|done]. simpl.
  destruct (f a3); [|done]. simpl. by destruct (f a4).
Qed.

(** What [piece_str] returns, when it returns: the piece, its four labels
    and its three lines. *)
Lemma piece_str_lines b pos s :
  piece_str b pos = Some s ->
  exists p up right_ down left_,
    Py.get (pieces b) (get_piece_index b pos) = Some p /\
    (get_edge_index b pos Up ≫= edge_str b) = Some up /\
    (get_edge_index b pos Right ≫= edge_str b) = Some right_ /\
    (get_edge_index b pos Down ≫= edge_str b) = Some down /\
    (get_edge_index b pos Left ≫= edge_str b) = Some left_ /\
    nl_free up = true /\ nl_free right_ = true /\ nl_free down = true /\
    nl_free left_ = true /\
    s = PyStr.join PyStr.nl
          [PyStr.spaces 4 +:+ PyStr.rjust 4 up +:+ PyStr.spaces 4;
           PyStr.ljust 4 left_ +:+ PyStr.rjust 4 (PyStr.of_int (p_id p)) +:+
             PyStr.rjust 4 right_;
           PyStr.spaces 4 +:+ PyStr.rjust 4 down +:+ PyStr.spaces 4].
Proof.
  unfold piece_str. intros H.
  destruct (Py.get (pieces b) (get_piece_index b pos)) as [p|] eqn:Hp; [|done].
  cbn [mbind option_bind] in H. unfold all_directions in H. rewrite mapM_four in H.
  destruct (get_edge_index b pos Up) as [ku|] eqn:Eu; [|done].
  destruct (get_edge_index b pos Right) as [kr|] eqn:Er; [|done].
  destruct (get_edge_index b pos Down) as [kd|] eqn:Ed; [|done].
  destruct (get_edge_index b pos Left) as [kl|] eqn:El; [|done].
  cbn [mbind option_bind] in H. rewrite mapM_four in H.
  destruct (edge_str b ku) as [up|] eqn:Su; [|done].
  destruct (edge_str b kr) as [right_|] eqn:Sr; [|done].
  destruct (edge_str b kd) as [down|] eqn:Sd; [|done].
  destruct (edge_str b kl) as [left_|] eqn:Sl; [|done].
  cbn [mbind option_bind] in H. injection H as <-.
  exists p, up, right_, down, left_. cbn [mbind option_bind].
  split_and!; try done; by eapply nl_free_edge_str.
Qed.

Lemma nl_free_padded t :
  nl_free t = true ->
  nl_free (PyStr.spaces 4 +:+ PyStr.rjust 4 t +:+ PyStr.spaces 4) = true.
Proof. intros Ht. by rewrite !nl_free_append, nl_free_rjust, nl_free_spaces, Ht. Qed.

Lemma split_three a b c :
  nl_free a = true -> nl_free b = true -> nl_free c = true ->
  PyStr.split_lines (PyStr.join PyStr.nl [a; b; c]) = [a; b; c].
Proof.
  intros Ha Hb Hc. unfold PyStr.join. cbn [String.concat].
  by rewrite !split_lines_line, split_lines_free.
Qed.

Lemma piece_str_split b pos s :
  piece_str b pos = Some s -> exists l1 l2 l3, PyStr.split_lines s = [l1; l2; l3].
Proof.
  intros H.
  destruct (piece_str_lines b pos s H)
    as (p & up & right_ & down & left_ & _ & _ & _ & _ & _ & Nu & Nr & Nd & Nl & ->).
  eexists _, _, _. apply split_three; [by apply nl_free_padded| |by apply nl_free_padded].
  by rewrite !nl_free_append, !nl_free_rjust, nl_free_ljust, nl_free_of_int, Nl, Nr.
Qed.

(** X24: a call of [piece_str] that returns gives three lines: the text
    has two line feeds and splitting it at them gives back the line of
    the label above, the line of left label, piece id and right label,
    and the line of the label below.  Every line has at least 12
    characters, and exactly 12 when the piece id and the four labels have
    at most 4 characters each; a longer id or label makes its line
    longer. *)
Theorem piece_str_layout b pos s :
  piece_str b pos = Some s ->
  exists p up right_ down left_,
    Py.get (pieces b) (get_piece_index b pos) = Some p /\
    (get_edge_index b pos Up ≫= edge_str b) = Some up /\
    (get_edge_index b pos Right ≫= edge_str b) = Some right_ /\
    (get_edge_index b pos Down ≫= edge_str b) = Some down /\
    (get_edge_index b pos Left ≫= edge_str b) = Some left_ /\
    exists l1 l2 l3,
      PyStr.split_lines s = [l1; l2; l3] /\
      l1 = PyStr.spaces 4 +:+ PyStr.rjust 4 up +:+ PyStr.spaces 4 /\
      l2 = PyStr.ljust 4 left_ +:+ PyStr.rjust 4 (PyStr.of_int (p_id p)) +:+
           PyStr.rjust 4 right_ /\
      l3 = PyStr.spaces 4 +:+ PyStr.rjust 4 down +:+ PyStr.spaces 4 /\
      Z.of_nat (String.length l1) = 8 + Z.max 4 (Z.of_nat (String.length up)) /\
      Z.of_nat (String.length l2) =
        Z.max 4 (Z.of_nat (String.length left_)) +
        Z.max 4 (Z.of_nat (String.length (PyStr.of_int (p_id p)))) +
        Z.max 4 (Z.of_nat (String.length right_)) /\
      Z.of_nat (String.length l3) = 8 + Z.max 4 (Z.of_nat (String.length down)).
Proof.
  intros H.
  destruct (piece_str_lines b pos s H)
    as (p & up & right_ & down & left_ & Hp & Hu & Hr & Hd & Hl & Nu & Nr & Nd & Nl & ->).
  exists p, up, right_, down, left_. split_and!; try done.
  eexists _, _, _. split_and!; [|reflexivity..| | |].
  - apply split_three; [by apply nl_free_padded| |by apply nl_free_padded].
    by rewrite !nl_free_append, !nl_free_rjust, nl_free_ljust, nl_free_of_int, Nl, Nr.
  - rewrite !length_append, !Nat2Z.inj_add, length_rjust.
    unfold PyStr.spaces. rewrite length_times. lia.
  - rewrite !length_append, !Nat2Z.inj_add, !length_rjust, length_ljust. lia.
  - rewrite !length_append, !Nat2Z.inj_add, length_rjust.
    unfold PyStr.spaces. rewrite length_times. lia.
Qed.

(** ** The text of a board *)

Lemma append_segment_at off k line (pre : list (list string)) seg post :
  Z.of_nat (length pre) = off + Z.of_nat k ->
  append_segment off (k, line) (pre ++ seg :: post) = Some (pre ++ (seg ++ [line]) :: post).
Proof.
  intros Hl. unfold append_segment. cbn [fst snd].
  rewrite <- Hl, index_of_nat by (rewrite length_app; simpl; lia).
  cbn [mbind option_bind]. f_equal.
  replace (length pre) with (length pre + 0)%nat by lia.
  by rewrite alter_app_r.
Qed.

Lemma append_piece_lines off a b c (pre : list (list string)) s0 s1 s2 s3 post :
  Z.of_nat (length pre) = off ->
  for_each (imap pair [a; b; c]) (append_segment off) (pre ++ [s0; s1; s2; s3] ++ post) =
  Some (pre ++ [s0 ++ [a]; s1 ++ [b]; s2 ++ [c]; s3] ++ post).
Proof.
  intros Hl. cbn [imap for_each app].
  rewrite (append_segment_at off 0 a pre s0) by lia. cbn [mbind option_bind].
  change (pre ++ (s0 ++ [a]) :: s1 :: ?r) with (pre ++ [s0 ++ [a]] ++ s1 :: r).
  rewrite app_assoc.
  rewrite (append_segment_at off 1 b (pre ++ [s0 ++ [a]]) s1)
    by (rewrite length_app; simpl; lia).
  cbn [mbind option_bind].
  change ((pre ++ [s0 ++ [a]]) ++ (s1 ++ [b]) :: s2 :: ?r)
    with ((pre ++ [s0 ++ [a]]) ++ [s1 ++ [b]] ++ s2 :: r).
  rewrite app_assoc.
  rewrite (append_segment_at off 2 c ((pre ++ [s0 ++ [a]]) ++ [s1 ++ [b]]) s2)
    by (rewrite !length_app; simpl; lia).
  cbn [mbind option_bind]. by rewrite <- !app_assoc.
Qed.

(** The loop over the columns of a row. *)
Lemma row_loop b i off js (pre : list (list string)) s0 s1 s2 s3 post :
  Z.of_nat (length pre) = off ->
  for_each js (fun j ls =>
      s ← piece_str b (i, j);
      for_each (imap pair (PyStr.split_lines s)) (append_segment off) ls)
    (pre ++ [s0; s1; s2; s3] ++ post) =
  row ← mapM (fun j => piece_str b (i, j)) js;
  Some (pre ++ [s0 ++ map (line_of 0) row; s1 ++ map (line_of 1) row;
                s2 ++ map (line_of 2) row; s3] ++ post).
Proof.
  intros Hl. revert s0 s1 s2. induction js as [|j js IH]; intros s0 s1 s2.
  - simpl. by rewrite !app_nil_r.
  - cbn [for_each mapM]. destruct (piece_str b (i, j)) as [s|] eqn:Hs; [|done].
    cbn [mbind option_bind].
    destruct (piece_str_split b (i, j) s Hs) as (a & b' & c & Hsplit).
    rewrite Hsplit, (append_piece_lines off a b' c) by done. cbn [mbind option_bind].
    rewrite IH. destruct (mapM _ js) as [row|]; [|done].
    cbn [mbind option_bind mret option_ret map].
    assert (line_of 0 s = a /\ line_of 1 s = b' /\ line_of 2 s = c) as (-> & -> & ->)
      by (unfold line_of; by rewrite Hsplit).
    by rewrite <- !app_assoc.
Qed.

(** The loop over the rows. *)
Lemma rows_loop b (n : nat) : forall (i0 : Z) (pre : list (list string)),
  Z.of_nat (length pre) = i0 * 4 ->
  for_each (map (fun k : nat => i0 + Z.of_nat k) (seq 0 n)) (fun i ls =>
      for_each (Py.range (width b)) (fun j ls' =>
        s ← piece_str b (i, j);
        for_each (imap pair (PyStr.split_lines s)) (append_segment (i * 4)) ls') ls)
    (pre ++ replicate (4 * n) []) =
  rows ← mapM (fun i => mapM (fun j => piece_str b (i, j)) (Py.range (width b)))
              (map (fun k : nat => i0 + Z.of_nat k) (seq 0 n));
  Some (pre ++ flat_map row_segments rows).
Proof.
  induction n as [|n IH]; intros i0 pre Hl.
  - simpl. by rewrite !app_nil_r.
  - replace (4 * S n)%nat with (4 + 4 * n)%nat by lia.
    rewrite replicate_add. cbn [seq map for_each mapM replicate].
    rewrite <- seq_shift, map_map.
    replace (i0 + Z.of_nat 0) with i0 by lia.
    erewrite (map_ext (fun k : nat => i0 + Z.of_nat (S k))
                      (fun k : nat => (i0 + 1) + Z.of_nat k)) by (intros k; lia).
    change ([[]; []; []; []] ++ ?r) with ([[]; []; []; []] ++ r).
    rewrite (row_loop b i0 (i0 * 4) (Py.range (width b)) pre [] [] [] []) by done.
    destruct (mapM (fun j => piece_str b (i0, j)) (Py.range (width b))) as [row|]; [|done].
    cbn [mbind option_bind app].
    change (pre ++ ?a :: ?b :: ?c :: ?d :: replicate (4 * n) [])
      with (pre ++ [a; b; c; d] ++ replicate (4 * n) []).
    rewrite app_assoc, (IH (i0 + 1)) by (rewrite length_app; simpl; lia).
    destruct (mapM _ (map _ (seq 0 n))) as [rows|]; [|done].
    cbn [mbind option_bind mret option_ret flat_map]. by rewrite <- app_assoc.
Qed.

Lemma board_str_segments b :
  board_str b =
  rows ← mapM (fun i => mapM (fun j => piece_str b (i, j)) (Py.range (width b)))
              (Py.range (height b));
  Some (PyStr.rstrip
          (PyStr.join PyStr.nl (map (PyStr.join " ") (flat_map row_segments rows))) +:+
        PyStr.nl).
Proof.
  unfold board_str.
  assert (Py.range (height b) =
          map (fun k : nat => 0 + Z.of_nat k) (seq 0 (Z.to_nat (height b)))) as ->.
  { unfold Py.range, Py.range2. by rewrite Z.sub_0_r. }
  replace (Z.to_nat (4 * height b)) with (4 * Z.to_nat (height b))%nat by lia.
  pose proof (rows_loop b (Z.to_nat (height b)) 0 [] eq_refl) as H.
  cbn [app] in H. rewrite H. by destruct (mapM _ _).
Qed.

(** X25: [board_str] in closed form.  It raises exactly when [piece_str]
    raises at a cell [(i, j)] with [i] in [range(height)] and [j] in
    [range(width)]; otherwise its text is, row by row, the first lines
    of the pieces of the row joined by single spaces, their second
    lines, their third lines, and an empty line (a piece text has three
    lines and four are reserved), all joined by line feeds, stripped of
    white space at the end and closed by one line feed. *)
Theorem board_str_rows b :
  board_str b =
  rows ← mapM (fun i => mapM (fun j => piece_str b (i, j)) (Py.range (width b)))
              (Py.range (height b));
  Some (PyStr.rstrip (PyStr.join PyStr.nl (flat_map row_lines rows)) +:+ PyStr.nl).
Proof.
  rewrite board_str_segments.
  destruct (mapM _ _) as [rows|]; [|done]. cbn [mbind option_bind].
  assert (map (PyStr.join " ") (flat_map row_segments rows) = flat_map row_lines rows) as E.
  { induction rows as [|row rows IH]; [done|].
    cbn [flat_map]. rewrite map_app, IH. reflexivity. }
  by rewrite E.
Qed.

Lemma piece_str_returns b pos :
  (forall d, exists k s, get_edge_index b pos d = Some k /\ edge_str b k = Some s) ->
  exists s, piece_str b pos = Some s.
Proof.
  intros H. unfold piece_str.
  destruct (H Up) as (ku & su & Eu & Su). destruct (H Right) as (kr & sr & Er & Sr).
  destruct (H Down) as (kd & sd & Ed & Sd). destruct (H Left) as (kl & sl & El & Sl).
  destruct (Py.get (pieces b) (get_piece_index b pos)) as [p|] eqn:Hp.
  - cbn [mbind option_bind]. unfold all_directions.
    rewrite mapM_four, Eu, Er, Ed, El. cbn [mbind option_bind].
    rewrite mapM_four, Su, Sr, Sd, Sl. cbn [mbind option_bind]. by eexists.
  - unfold get_edge_index in Eu. by rewrite Hp in Eu.
Qed.

Lemma labels_match_prints v : labels_match v -> exists t, board_str v = Some t.
Proof.
  intros Hl. rewrite board_str_segments.
  assert (is_Some (mapM (fun i => mapM (fun j => piece_str v (i, j)) (Py.range (width v)))
                        (Py.range (height v)))) as [rows ->]; [|by eexists].
  apply mapM_is_Some_2, Forall_forall. intros i Hi.
  apply mapM_is_Some_2, Forall_forall. intros j Hj.
  apply elem_of_range in Hi, Hj.
  destruct (piece_str_returns v (i, j)) as [s Hs]; [|by exists s].
  intros d.
  destruct (Hl (i, j) d) as (k & s & Ek & Es & _); [|by exists k, s].
  apply in_bounds_inside. split; simpl; lia.
Qed.

(** X26: the two prints at the end of [main] raise nothing.  A round of
    the generation loop returns, its Initial view is built, and
    [board_str] returns a text for the view and for the board. *)
Theorem main_prints so w h rnd :
  1 < w -> 1 < h -> fair rnd -> (forall l, Permutation (so l) l) ->
  exists a v initial final,
    attempt so w h rnd = Some a /\ initial_view (attempt_board a) = Some v /\
    board_str v = Some initial /\ board_str (attempt_board a) = Some final.
Proof.
  intros Hw Hh Hf Hso.
  destruct (attempt_runs so w h rnd Hw Hh Hf Hso) as [a Ha].
  destruct (attempt_stages so w h rnd a Ha) as (b & b1 & b2 & r & Hb & Hs & Hm & Hc).
  destruct (pipeline_colours so w h rnd b b1 b2 r _ Hw Hh Hf Hso Hb Hs Hm Hc)
    as (W3 & H3 & _).
  destruct (initial_view_runs (attempt_board a) w h Hw Hh W3 H3) as [v Hv].
  destruct (labels_match_prints v) as [t1 H1].
  { apply seams_fit_labels. by apply (initial_seams_fit so w h rnd a v). }
  destruct (labels_match_prints (attempt_board a)) as [t2 H2].
  { apply seams_fit_labels. by apply (final_seams_fit so w h rnd). }
  by exists a, v, t1, t2.
Qed.

(** ** The further properties at concrete boards *)

(** The corner list of the 3 by 3 board. *)
Lemma corner_indices_square_witness :
  0 < width sample_connected /\ 0 < height sample_connected /\
  (forallb (in_bounds sample_connected) (corner_indices sample_connected) = true <->
   width sample_connected = height sample_connected).
Proof.
  assert (0 < width sample_connected) as Hw by reflexivity.
  assert (0 < height sample_connected) as Hh by reflexivity.
  split; [exact Hw|]. split; [exact Hh|].
  exact (proj1 (corner_indices_square sample_connected Hw Hh)).
Defined.

(** Edges 0 and 1 of the 3 by 3 board, connected. *)
Lemma connect_edges_result_witness :
  exists b', connect_edges sample_connected 0 1 = Some (true, b') /\
             pieces b' = pieces sample_connected.
Proof.
  destruct (connect_edges sample_connected 0 1) as [[r b']|] eqn:E;
    [|vm_compute in E; discriminate E].
  destruct (connect_edges_result sample_connected 0 1 r b' E)
    as [(_ & H & _)|(-> & _ & x & y & _ & _ & _ & _ & Hp & _)]; [discriminate H|].
  exists b'. split; [reflexivity|exact Hp].
Defined.

(** The last edge of the 3 by 3 board, named by [-1] and by [35]. *)
Lemma connect_edges_same_edge_witness :
  0 <= 35 < Z.of_nat (length (edges sample_connected)) /\
  exists b' e,
    connect_edges sample_connected (35 - Z.of_nat (length (edges sample_connected))) 35 =
      Some (true, b') /\
    edges b' !! Z.to_nat 35 = Some e /\ e_connection e = Some (Z.to_nat 35).
Proof.
  assert (0 <= 35 < Z.of_nat (length (edges sample_connected))) as H by (simpl; lia).
  split; [exact H|]. exact (proj2 (connect_edges_same_edge sample_connected 35 H)).
Defined.

(** A corner and the centre of the 3 by 3 board, exchanged and exchanged
    back. *)
Lemma swap_pieces_twice_witness :
  exists b', swap_pieces sample_connected (0, 0) (1, 1) = Some b' /\
             swap_pieces b' (0, 0) (1, 1) = Some sample_connected.
Proof.
  destruct (swap_pieces sample_connected (0, 0) (1, 1)) as [b'|] eqn:E;
    [|vm_compute in E; discriminate E].
  exists b'. split; [reflexivity|].
  exact (proj1 (swap_pieces_twice sample_connected (0, 0) (1, 1) b' E)).
Defined.

(** The pieces of [sample_shuffled]. *)
Lemma shuffle_permutes_pieces_witness :
  shuffle identity_random sample_connected = Some sample_shuffled /\
  length (pieces sample_shuffled) = length (pieces sample_connected) /\
  check_all_unique sample_shuffled = check_all_unique sample_connected.
Proof.
  assert (shuffle identity_random sample_connected = Some sample_shuffled) as H
    by (vm_compute; reflexivity).
  split; [exact H|].
  exact (proj2 (shuffle_permutes_pieces identity_random sample_connected sample_shuffled H)).
Defined.

(** [sample_connected] and [sample_shuffled] before the uniqueness checker. *)
Lemma check_all_unique_arrangement_witness :
  edges sample_shuffled = edges sample_connected /\
  map p_edges (pieces sample_shuffled) ≡ₚ map p_edges (pieces sample_connected) /\
  check_all_unique sample_shuffled = check_all_unique sample_connected.
Proof.
  assert (shuffle identity_random sample_connected = Some sample_shuffled) as H
    by (vm_compute; reflexivity).
  assert (edges sample_shuffled = edges sample_connected) as He by reflexivity.
  assert (map p_edges (pieces sample_shuffled) ≡ₚ map p_edges (pieces sample_connected))
    as Hp.
  { rewrite !keys_edges. apply Permutation_map. exact (shuffle_keys _ _ _ H). }
  split; [exact He|]. split; [exact Hp|].
  exact (check_all_unique_arrangement sample_connected sample_shuffled He Hp).
Defined.

(** The candidate lists of the 3 by 3 board. *)
Lemma candidate_lists_exact_witness :
  1 < width sample_connected /\ 1 < height sample_connected /\
  NoDup (border_candidates sample_connected) /\ NoDup (center_candidates sample_connected).
Proof.
  assert (1 < width sample_connected) as Hw by reflexivity.
  assert (1 < height sample_connected) as Hh by reflexivity.
  split; [exact Hw|]. split; [exact Hh|].
  destruct (candidate_lists_exact sample_connected Hw Hh) as (_ & H1 & _ & H2).
  split; [exact H1|exact H2].
Defined.

(** The corner (0, 0) of the 3 by 3 board through the shuffle by
    [identity_random]. *)
Lemma shuffle_fixes_other_cells_witness :
  1 < width sample_connected /\ 1 < height sample_connected /\ fair identity_random /\
  shuffle identity_random sample_connected = Some sample_shuffled /\
  Py.get (pieces sample_shuffled) (get_piece_index sample_shuffled (0, 0)) =
  Py.get (pieces sample_connected) (get_piece_index sample_connected (0, 0)).
Proof.
  assert (1 < width sample_connected) as Hw by reflexivity.
  assert (1 < height sample_connected) as Hh by reflexivity.
  assert (shuffle identity_random sample_connected = Some sample_shuffled) as H
    by (vm_compute; reflexivity).
  split; [exact Hw|]. split; [exact Hh|]. split; [exact fair_identity_random|].
  split; [exact H|].
  apply (proj2 (shuffle_fixes_other_cells identity_random sample_connected sample_shuffled
                  Hw Hh fair_identity_random H)).
  apply elem_of_cons. left. reflexivity.
Defined.

(** The flat sides of [sample_shuffled]. *)
Lemma shuffled_flats_outward_witness :
  1 < 3 /\ 1 < 3 /\ fair identity_random /\
  connected_board 3 3 = Some sample_connected /\
  shuffle identity_random sample_connected = Some sample_shuffled /\
  forall pos d, in_bounds sample_shuffled pos = true ->
                unconnected sample_shuffled pos d =
                Some (negb (in_bounds sample_shuffled (step pos d))).
Proof.
  assert (1 < 3) as Hw by lia.
  assert (connected_board 3 3 = Some sample_connected) as Hc by (vm_compute; reflexivity).
  assert (shuffle identity_random sample_connected = Some sample_shuffled) as H
    by (vm_compute; reflexivity).
  split_and!; try assumption; [exact fair_identity_random|].
  exact (shuffled_flats_outward 3 3 identity_random sample_connected sample_shuffled
           Hw Hw fair_identity_random Hc H).
Defined.

(** The addressing of the edges of [sample_shuffled]. *)
Lemma shuffled_slots_addressed_witness :
  1 < 3 /\ 1 < 3 /\ fair identity_random /\
  connected_board 3 3 = Some sample_connected /\
  shuffle identity_random sample_connected = Some sample_shuffled /\
  forall x, (x < length (edges sample_shuffled))%nat ->
    exists pos d, in_bounds sample_shuffled pos = true /\
                  get_edge_index sample_shuffled pos d = Some (Z.of_nat x).
Proof.
  assert (1 < 3) as Hw by lia.
  assert (connected_board 3 3 = Some sample_connected) as Hc by (vm_compute; reflexivity).
  assert (shuffle identity_random sample_connected = Some sample_shuffled) as H
    by (vm_compute; reflexivity).
  split_and!; try assumption; [exact fair_identity_random|].
  exact (proj2 (shuffled_slots_addressed 3 3 identity_random sample_connected sample_shuffled
                  Hw Hw fair_identity_random Hc H)).
Defined.

(** Two border cells of the 3 by 3 board, exchanged. *)
Lemma swap_exchanges_witness :
  exists b', swap sample_connected (0, 1) (1, 0) = Some (true, b') /\
             edges b' = edges sample_connected.
Proof.
  assert (in_bounds sample_connected (0, 1) = true) as Hx by reflexivity.
  assert (in_bounds sample_connected (1, 0) = true) as Hy by reflexivity.
  assert ((0, 1) <> (1, 0) :> Z * Z) as N by discriminate.
  assert (none_count sample_connected (0, 1) = Some 1) as Hc by (vm_compute; reflexivity).
  destruct (Py.get (pieces sample_connected) (get_piece_index sample_connected (0, 1)))
    as [fp|] eqn:Hfp; [|vm_compute in Hfp; discriminate Hfp].
  destruct (Py.get (pieces sample_connected) (get_piece_index sample_connected (1, 0)))
    as [tp|] eqn:Htp; [|vm_compute in Htp; discriminate Htp].
  destruct (swap sample_connected (0, 1) (1, 0)) as [[[] b']|] eqn:E;
    [|vm_compute in E; discriminate E..].
  exists b'. split; [reflexivity|].
  exact (proj2 (proj2 (proj2 (swap_exchanges sample_connected (0, 1) (1, 0) b' 1 fp tp
                                Hx Hy N Hfp Htp Hc E)))).
Defined.

(** The merge sets of [sample_merged]. *)
Lemma merge_edges_relation_witness :
  1 < 3 /\ fair identity_random /\
  connected_board 3 3 = Some sample_connected /\
  shuffle identity_random sample_connected = Some sample_shuffled /\
  exists b2, merge_edges sample_shuffled = Some b2 /\ pieces b2 = pieces sample_shuffled.
Proof.
  assert (1 < 3) as Hw by lia.
  assert (connected_board 3 3 = Some sample_connected) as Hc by (vm_compute; reflexivity).
  assert (shuffle identity_random sample_connected = Some sample_shuffled) as H
    by (vm_compute; reflexivity).
  split_and!; try assumption; [exact fair_identity_random|].
  destruct (merge_edges_relation 3 3 identity_random sample_connected sample_shuffled
              Hw Hw fair_identity_random Hc H) as (b2 & E & _ & _ & Hp & _).
  exists b2. split; assumption.
Defined.

(** The symmetry of the merge sets of [sample_merged]. *)
Lemma merge_edges_symmetric_witness :
  1 < 3 /\ fair identity_random /\
  connected_board 3 3 = Some sample_connected /\
  shuffle identity_random sample_connected = Some sample_shuffled /\
  merge_edges sample_shuffled = Some sample_merged /\
  forall x e, edges sample_merged !! x = Some e ->
              (e_merges e <> [] <-> e_connection e <> None).
Proof.
  assert (1 < 3) as Hw by lia.
  assert (connected_board 3 3 = Some sample_connected) as Hc by (vm_compute; reflexivity).
  assert (shuffle identity_random sample_connected = Some sample_shuffled) as H
    by (vm_compute; reflexivity).
  assert (merge_edges sample_shuffled = Some sample_merged) as Hm by (vm_compute; reflexivity).
  split_and!; try assumption; [exact fair_identity_random|].
  exact (proj2 (merge_edges_symmetric 3 3 identity_random sample_connected sample_shuffled
                  sample_merged Hw Hw fair_identity_random Hc H Hm)).
Defined.

(** Group collapse on [sample_merged], sets iterated in insertion order:
    what it keeps. *)
Lemma collapse_edges_assigns_witness :
  (forall l : list nat, Permutation l l) /\
  exists b', collapse_edges (fun l => l) sample_merged = Some (true, b') /\
             pieces b' = pieces sample_merged.
Proof.
  assert (forall l : list nat, Permutation l l) as Hp by (intros l; reflexivity).
  split; [exact Hp|].
  destruct (collapse_edges (fun l => l) sample_merged) as [[r b']|] eqn:E;
    [|vm_compute in E; discriminate E].
  destruct (collapse_edges_assigns (fun l => l) sample_merged r b' Hp E)
    as (-> & _ & _ & Hpc & _).
  exists b'. split; [reflexivity|exact Hpc].
Defined.

(** Group collapse on [sample_merged]: the first edge of the first corner
    has no connection and is left alone. *)
Lemma collapse_edges_leaves_unconnected_witness :
  (forall l : list nat, Permutation l l) /\
  exists b' e, collapse_edges (fun l => l) sample_merged = Some (true, b') /\
               edges sample_merged !! 2%nat = Some e /\ e_connection e = None /\
               edges b' !! 2%nat = Some e.
Proof.
  assert (forall l : list nat, Permutation l l) as Hp by (intros l; reflexivity).
  split; [exact Hp|].
  assert (1 < 3) as Hw by lia.
  assert (connected_board 3 3 = Some sample_connected) as Hc by (vm_compute; reflexivity).
  assert (shuffle identity_random sample_connected = Some sample_shuffled) as H
    by (vm_compute; reflexivity).
  assert (merge_edges sample_shuffled = Some sample_merged) as Hm by (vm_compute; reflexivity).
  pose proof (merged_members_connected 3 3 identity_random sample_connected sample_shuffled
                sample_merged Hw Hw fair_identity_random Hc H Hm) as Hmem.
  destruct (collapse_edges (fun l => l) sample_merged) as [[[] b']|] eqn:E;
    [|vm_compute in E; discriminate E..].
  destruct (edges sample_merged !! 2%nat) as [e|] eqn:He; [|vm_compute in He; discriminate He].
  assert (e_connection e = None) as Hn.
  { vm_compute in He. injection He as <-. reflexivity. }
  exists b', e. split; [reflexivity|]. split; [reflexivity|]. split; [exact Hn|].
  exact (collapse_edges_leaves_unconnected (fun l => l) sample_merged true b' Hp Hmem E
           2%nat e He Hn).
Defined.

(** A round of the generation loop on the 3 by 3 board. *)
Lemma attempt_flats_and_seams_witness :
  1 < 3 /\ fair identity_random /\ (forall l : list nat, Permutation l l) /\
  exists a, attempt (fun l => l) 3 3 identity_random = Some a /\
    forall pos d, in_bounds (attempt_board a) pos = true ->
      exists k e,
        get_edge_index (attempt_board a) pos d = Some k /\
        Py.get (edges (attempt_board a)) k = Some e /\
        if in_bounds (attempt_board a) (step pos d)
        then (e_shape e = Knob \/ e_shape e = Socket) /\
             exists n : nat, e_group e = Some (Z.of_nat n)
        else e_shape e = Flat /\ e_group e = None.
Proof.
  assert (1 < 3) as Hw by lia.
  assert (forall l : list nat, Permutation l l) as Hp by (intros l; reflexivity).
  split_and!; try assumption; [exact fair_identity_random|].
  destruct (attempt (fun l => l) 3 3 identity_random) as [a|] eqn:E;
    [|vm_compute in E; discriminate E].
  exists a. split; [reflexivity|].
  exact (attempt_flats_and_seams (fun l => l) 3 3 identity_random a Hw Hw
           fair_identity_random Hp E).
Defined.

(** The 3 by 3 board of a round with the identity draws: connections and
    seams fit. *)
Lemma attempt_two_colours_witness :
  1 < 3 /\ fair identity_random /\ (forall l : list nat, Permutation l l) /\
  exists a,
    attempt (fun l => l) 3 3 identity_random = Some a /\
    (forall x y e, edges (attempt_board a) !! x = Some e -> e_connection e = Some y ->
       exists e' (n : nat),
         edges (attempt_board a) !! y = Some e' /\
         e_group e = Some (Z.of_nat n) /\ e_group e' = Some (Z.of_nat n) /\
         ((e_shape e = Knob /\ e_shape e' = Socket) \/
          (e_shape e = Socket /\ e_shape e' = Knob))) /\
    (forall pos d,
       in_bounds (attempt_board a) pos = true ->
       in_bounds (attempt_board a) (step pos d) = true ->
       exists k k' e e' (n : nat),
         get_edge_index (attempt_board a) pos d = Some k /\
         get_edge_index (attempt_board a) (step pos d) (inverse d) = Some k' /\
         Py.get (edges (attempt_board a)) k = Some e /\
         Py.get (edges (attempt_board a)) k' = Some e' /\
         e_group e = Some (Z.of_nat n) /\ e_group e' = Some (Z.of_nat n) /\
         ((e_shape e = Knob /\ e_shape e' = Socket) \/
          (e_shape e = Socket /\ e_shape e' = Knob))).
Proof.
  assert (1 < 3) as Hw by lia.
  assert (forall l : list nat, Permutation l l) as Hp by (intros l; reflexivity).
  split_and!; try assumption; [exact fair_identity_random|].
  exact (attempt_two_colours (fun l => l) 3 3 identity_random Hw Hw fair_identity_random Hp).
Defined.

(** The Initial view of the 3 by 3 board of a round with the identity
    draws. *)
Lemma initial_view_fits_witness :
  1 < 3 /\ fair identity_random /\ (forall l : list nat, Permutation l l) /\
  exists a v,
    attempt (fun l => l) 3 3 identity_random = Some a /\
    initial_view (attempt_board a) = Some v /\
    edges v = edges (attempt_board a) /\
    forall pos d, in_bounds v pos = true ->
      exists k e,
        get_edge_index v pos d = Some k /\ Py.get (edges v) k = Some e /\
        if in_bounds v (step pos d)
        then exists k' e' (n : nat),
               get_edge_index v (step pos d) (inverse d) = Some k' /\
               Py.get (edges v) k' = Some e' /\
               e_group e = Some (Z.of_nat n) /\ e_group e' = Some (Z.of_nat n) /\
               ((e_shape e = Knob /\ e_shape e' = Socket) \/
                (e_shape e = Socket /\ e_shape e' = Knob))
        else e_shape e = Flat /\ e_group e = None.
Proof.
  assert (1 < 3) as Hw by lia.
  assert (forall l : list nat, Permutation l l) as Hp by (intros l; reflexivity).
  split_and!; try assumption; [exact fair_identity_random|].
  exact (initial_view_fits (fun l => l) 3 3 identity_random Hw Hw fair_identity_random Hp).
Defined.

(** The border cell (0, 1) of the fresh 3 by 3 board shows edge 7 upwards. *)
Lemma fresh_border_slot_witness :
  exists b0, new_board 3 3 = Some b0 /\ in_bounds b0 (0, 1) = true /\
             get_edge_index b0 (0, 1) Up = Some 7.
Proof.
  assert (1 < 3) as Hw by lia.
  destruct (new_board 3 3) as [b0|] eqn:E; [|vm_compute in E; discriminate E].
  assert (in_bounds b0 (0, 1) = true) as Hin.
  { vm_compute in E. injection E as <-. reflexivity. }
  exists b0. split; [reflexivity|]. split; [exact Hin|].
  destruct (fresh_border_slot 3 3 b0 Hw Hw E (0, 1) Hin) as (p & Hp & Hd & _).
  assert (p_edges p = 4) as Hpe.
  { vm_compute in E. injection E as <-. vm_compute in Hp. injection Hp as <-. reflexivity. }
  rewrite (Hd Up); [rewrite Hpe; reflexivity| |].
  - vm_compute in E. injection E as <-. reflexivity.
  - simpl. lia.
Defined.

(** The labels of the 3 by 3 board of a round with the identity draws. *)
Lemma printed_labels_match_witness :
  1 < 3 /\ fair identity_random /\ (forall l : list nat, Permutation l l) /\
  exists a v,
    attempt (fun l => l) 3 3 identity_random = Some a /\
    initial_view (attempt_board a) = Some v /\
    labels_match (attempt_board a) /\ labels_match v.
Proof.
  assert (1 < 3) as Hw by lia.
  assert (forall l : list nat, Permutation l l) as Hp by (intros l; reflexivity).
  split_and!; try assumption; [exact fair_identity_random|].
  exact (printed_labels_match (fun l => l) 3 3 identity_random Hw Hw fair_identity_random Hp).
Defined.

(** The text of the middle piece of the connected 3 by 3 board. *)
Lemma piece_str_layout_witness :
  exists s l1 l2 l3,
    piece_str sample_connected (1, 1) = Some s /\ PyStr.split_lines s = [l1; l2; l3].
Proof.
  destruct (piece_str sample_connected (1, 1)) as [s|] eqn:E;
    [|vm_compute in E; discriminate E].
  destruct (piece_str_layout sample_connected (1, 1) s E)
    as (_ & _ & _ & _ & _ & _ & _ & _ & _ & _ & l1 & l2 & l3 & Hsplit & _).
  exists s, l1, l2, l3. split; [reflexivity|exact Hsplit].
Defined.

(** The two prints for the 3 by 3 board of a round with the identity
    draws. *)
Lemma main_prints_witness :
  1 < 3 /\ fair identity_random /\ (forall l : list nat, Permutation l l) /\
  exists a v initial final,
    attempt (fun l => l) 3 3 identity_random = Some a /\
    initial_view (attempt_board a) = Some v /\
    board_str v = Some initial /\ board_str (attempt_board a) = Some final.
Proof.
  assert (1 < 3) as Hw by lia.
  assert (forall l : list nat, Permutation l l) as Hp by (intros l; reflexivity).
  split_and!; try assumption; [exact fair_identity_random|].
  exact (main_prints (fun l => l) 3 3 identity_random Hw Hw fair_identity_random Hp).
Defined.

